(** * Rasterizer surface cache and accelerated rasterizer: a shallow embedding

    The development follows [video_core/rasterizer_accelerated.cpp] and
    [video_core/rasterizer_cache/rasterizer_cache.h].  Unsigned machine
    integers are integers of [Z] with the wrap-around written out, binary32
    values are [spec_float]s at precision 24, failed assertions and
    out-of-range accesses are [None]. *)

From Stdlib Require Import ZArith Lia Bool List.
From Stdlib Require Import Floats.SpecFloat.
From stdpp Require Import base option list vector gmap.

Local Open Scope Z_scope.

(** ** Machine integers *)

Definition wrap (bits : Z) (z : Z) : Z := z mod 2 ^ bits.
Definition u16 (z : Z) : Z := wrap 16 z.
Definition u32 (z : Z) : Z := wrap 32 z.

Definition u16_max : Z := 65535.

(** Assertions abort the emulator: in the option monad they are a guard. *)
Definition ASSERT (b : bool) : option unit := if b then Some tt else None.

(** ** Page tracker *)

Module PageTracker.

(** Modelled from the spec: the page size constants of the memory subsystem
    ([core/memory.h] is not among the sources): pages of 4096 bytes. *)
Definition CITRA_PAGE_BITS : Z := 12.
Definition CITRA_PAGE_SIZE : Z := 4096.

(** One call of [Memory::RasterizerMarkRegionCached]. *)
Record MarkCall := RasterizerMarkRegionCached
  { mark_addr : Z; mark_size : Z; mark_cached : bool }.

(** The part of [RasterizerAccelerated] the tracker works on: the counter
    table and, in call order, the notifications sent to the memory
    subsystem. *)
Record Rasterizer := mkRasterizer
  { cached_pages : list Z; mark_calls : list MarkCall }.

Definition emit (c : MarkCall) (r : Rasterizer) : Rasterizer :=
  mkRasterizer (cached_pages r) (mark_calls r ++ [c]).

(** Locals of the loop of [UpdatePagesCachedCount]. *)
Record Runs := mkRuns
  { uncache_start_addr : Z; cache_start_addr : Z;
    uncache_bytes : Z; cache_bytes : Z }.

(** Body of the [for] loop, for one [page]. *)
Definition update_page (delta : Z) (page : Z) (st : Runs * Rasterizer)
  : option (Runs * Rasterizer) :=
  let '(l, r) := st in
  match cached_pages r !! Z.to_nat page with
  | None => None (* cached_pages.at(page) throws *)
  | Some count =>
    match (if 0 <? delta then ASSERT (count <? u16_max)
           else if delta <? 0 then ASSERT (0 <? count)
           else ASSERT false) with
    | None => None
    | Some _ =>
      let count := u16 (count + delta) in
      let r := mkRasterizer (<[Z.to_nat page := count]> (cached_pages r)) (mark_calls r) in
      let '(l, r) :=
        if count =? 0 then
          let l := if uncache_bytes l =? 0
                   then mkRuns (u32 (Z.shiftl page CITRA_PAGE_BITS)) (cache_start_addr l)
                               (uncache_bytes l) (cache_bytes l)
                   else l in
          (mkRuns (uncache_start_addr l) (cache_start_addr l)
                  (u32 (uncache_bytes l + CITRA_PAGE_SIZE)) (cache_bytes l), r)
        else if 0 <? uncache_bytes l then
          (mkRuns (uncache_start_addr l) (cache_start_addr l) 0 (cache_bytes l),
           emit (RasterizerMarkRegionCached (uncache_start_addr l) (uncache_bytes l) false) r)
        else (l, r) in
      Some
        (if (count =? 1) && (0 <? delta) then
           let l := if cache_bytes l =? 0
                    then mkRuns (uncache_start_addr l) (u32 (Z.shiftl page CITRA_PAGE_BITS))
                                (uncache_bytes l) (cache_bytes l)
                    else l in
           (mkRuns (uncache_start_addr l) (cache_start_addr l)
                   (uncache_bytes l) (u32 (cache_bytes l + CITRA_PAGE_SIZE)), r)
         else if 0 <? cache_bytes l then
           (mkRuns (uncache_start_addr l) (cache_start_addr l) (uncache_bytes l) 0,
            emit (RasterizerMarkRegionCached (cache_start_addr l) (cache_bytes l) true) r)
         else (l, r))
    end
  end.

(** [for (u32 page = page_start; page != page_end; page++)]: the number of
    iterations is the distance from [page_start] to [page_end] modulo 2^32. *)
Fixpoint update_pages (n : nat) (delta : Z) (page : Z) (st : Runs * Rasterizer)
  : option (Runs * Rasterizer) :=
  match n with
  | O => Some st
  | S n' =>
    match update_page delta page st with
    | None => None
    | Some st' => update_pages n' delta (u32 (page + 1)) st'
    end
  end.

Definition UpdatePagesCachedCount (addr size : Z) (delta : Z) (r : Rasterizer)
  : option Rasterizer :=
  let page_start := Z.shiftr addr CITRA_PAGE_BITS in
  let page_end := u32 (Z.shiftr (u32 (addr + size - 1)) CITRA_PAGE_BITS + 1) in
  match update_pages (Z.to_nat (u32 (page_end - page_start))) delta page_start
                     (mkRuns 0 0 0 0, r) with
  | None => None
  | Some (l, r) =>
    let r := if 0 <? uncache_bytes l
             then emit (RasterizerMarkRegionCached (uncache_start_addr l) (uncache_bytes l) false) r
             else r in
    Some (if 0 <? cache_bytes l
          then emit (RasterizerMarkRegionCached (cache_start_addr l) (cache_bytes l) true) r
          else r)
  end.

(** Loop of [ClearAll] over the whole table; the table is only read, so the
    iteration walks its entries in order, [page] counting along. *)
Fixpoint clear_pages (counts : list Z) (page : Z) (start bytes : Z) (r : Rasterizer)
  : Z * Z * Rasterizer :=
  match counts with
  | [] => (start, bytes, r)
  | count :: rest =>
    if negb (count =? 0) then
      let start := if bytes =? 0 then u32 (Z.shiftl page CITRA_PAGE_BITS) else start in
      clear_pages rest (u32 (page + 1)) start (u32 (bytes + CITRA_PAGE_SIZE)) r
    else if 0 <? bytes then
      clear_pages rest (u32 (page + 1)) start 0
                  (emit (RasterizerMarkRegionCached start bytes false) r)
    else clear_pages rest (u32 (page + 1)) start bytes r
  end.

(** [ClearAll(flush)]; [FlushRegion] is the virtual flush of the backend. *)
Definition ClearAll (FlushRegion : Z -> Z -> Rasterizer -> Rasterizer)
    (flush : bool) (r : Rasterizer) : Rasterizer :=
  let r := if flush then FlushRegion 0 4294967295 r else r in
  let '(start, bytes, r') := clear_pages (cached_pages r) 0 0 0 r in
  let r' := if 0 <? bytes
            then emit (RasterizerMarkRegionCached start bytes false) r'
            else r' in
  mkRasterizer (repeat 0 (length (cached_pages r))) (mark_calls r').

(** *** Vocabulary for the tracker's notifications *)

(** A notification covers a page when the page's first byte lies in the
    notified byte range. *)
Definition covers (c : MarkCall) (page : Z) : bool :=
  (mark_addr c <=? page * CITRA_PAGE_SIZE)
  && (page * CITRA_PAGE_SIZE <? mark_addr c + mark_size c).

Definition times_covered (cs : list MarkCall) (page : Z) : nat :=
  length (List.filter (fun c => covers c page) cs).

(** Notifications in increasing address order with a gap between any two:
    no two of them could have been merged. *)
Fixpoint separated (cs : list MarkCall) : Prop :=
  match cs with
  | c1 :: (c2 :: _) as rest => mark_addr c1 + mark_size c1 < mark_addr c2 /\ separated rest
  | _ => True
  end.

(** A notification reports a maximal run of pages with [P]: it starts at
    a page boundary and spans a whole number [n > 0] of pages, each of these
    pages has [P], and the pages next to it on either side do not. *)
Definition reports_run (P : Z -> Prop) (c : MarkCall) : Prop :=
  exists first n, 0 < n /\
    mark_addr c = CITRA_PAGE_SIZE * first /\ mark_size c = CITRA_PAGE_SIZE * n /\
    (forall q, first <= q < first + n -> P q) /\ ~ P (first - 1) /\ ~ P (first + n).

(** The pages that the loop of [ClearAll] has yet to report when it stands
    at [page] with [k] pages of a run pending: the pending pages and the
    pages from [page] on with a nonzero entry in [counts]. *)
Definition to_report (counts : list Z) (page k : Z) (q : Z) : Prop :=
  page - k <= q < page
  \/ (page <= q /\ exists c, counts !! Z.to_nat (q - page) = Some c /\ c <> 0).

(** The notifications of the [ClearAll] loop and of the conditional after it,
    as a list. *)
Fixpoint clear_runs (counts : list Z) (page start bytes : Z) : list MarkCall :=
  match counts with
  | [] => if 0 <? bytes then [RasterizerMarkRegionCached start bytes false] else []
  | count :: rest =>
    if negb (count =? 0) then
      clear_runs rest (u32 (page + 1))
                 (if bytes =? 0 then u32 (Z.shiftl page CITRA_PAGE_BITS) else start)
                 (u32 (bytes + CITRA_PAGE_SIZE))
    else if 0 <? bytes then
      RasterizerMarkRegionCached start bytes false :: clear_runs rest (u32 (page + 1)) start 0
    else clear_runs rest (u32 (page + 1)) start bytes
  end.

End PageTracker.

Import PageTracker.

(** ** Vertex array analysis *)

Module VertexArray.

(** Modelled from the spec: [Common::AlignUp] ([common/alignment.h] is not
    among the sources), the "align_up" of the vertex-array section: [value]
    rounded up to the next multiple of [size], in 32-bit arithmetic. *)
Definition AlignUp (value size : Z) : Z :=
  let m := u32 (value mod size) in
  let value := u32 (value - m) in
  if m =? 0 then value else u32 (value + size).

(** The fields of an attribute loader and of the pipeline registers that
    [AnalyzeVertexArray] reads. *)
Record AttributeLoader := mkLoader { component_count : Z; byte_count : Z }.

Record PipelineRegs := mkPipelineRegs
  { base_address : Z; (* vertex_attributes.GetPhysicalBaseAddress() *)
    attribute_loaders : list AttributeLoader;
    index_offset : Z;   (* index_array.offset *)
    index_format : Z;   (* index_array.format *)
    num_vertices : Z;
    vertex_offset : Z }.

Record VertexArrayInfo := mkVertexArrayInfo
  { vertex_min : Z; vertex_max : Z; vs_input_size : Z }.

(** The index loop of the indexed branch; [mem] is guest memory as the loop
    reads it through the physical pointer, after the flush of the index
    range; a 16-bit index is little endian. *)
Definition read_index (mem : Z -> Z) (address : Z) (index_u16 : bool) (index : Z) : Z :=
  if index_u16
  then mem (address + 2 * index) + 256 * mem (address + 2 * index + 1)
  else mem (address + index).

Definition index_bounds (mem : Z -> Z) (address : Z) (index_u16 : bool) (n : Z) : Z * Z :=
  fold_left (fun '(vmin, vmax) index =>
               let vertex := read_index mem address index_u16 (Z.of_nat index) in
               (Z.min vmin vertex, Z.max vmax vertex))
            (seq 0 (Z.to_nat n)) (65535, 0).

(** The loop over the attribute loaders. *)
Definition input_size (loaders : list AttributeLoader) (stride_alignment vertex_num : Z) : Z :=
  fold_left (fun vs_input_size loader =>
               if negb (component_count loader =? 0) then
                 let aligned_stride := AlignUp (u32 (byte_count loader)) stride_alignment in
                 u32 (vs_input_size + AlignUp (u32 (aligned_stride * vertex_num)) 4)
               else vs_input_size)
            loaders 0.

Definition AnalyzeVertexArray (mem : Z -> Z) (regs : PipelineRegs)
    (is_indexed : bool) (stride_alignment : Z) : VertexArrayInfo :=
  let '(vertex_min, vertex_max) :=
    if is_indexed then
      let address := u32 (base_address regs + index_offset regs) in
      let index_u16 := negb (index_format regs =? 0) in
      index_bounds mem address index_u16 (num_vertices regs)
    else (vertex_offset regs, u32 (vertex_offset regs + num_vertices regs - 1)) in
  let vertex_num := u32 (vertex_max - vertex_min + 1) in
  mkVertexArrayInfo vertex_min vertex_max
    (input_size (attribute_loaders regs) stride_alignment vertex_num).

(** The specification's reading: rounding up to a multiple, over the
    integers, and the sum over the loaders that are in use. *)
Definition align_up (value size : Z) : Z := (value + size - 1) / size * size.

Definition loader_enabled (l : AttributeLoader) : bool := negb (component_count l =? 0).

Definition sumZ (l : list Z) : Z := fold_right Z.add 0 l.

(** What one loader in use adds to the input size. *)
Definition loader_term (stride_alignment vertex_num : Z) (l : AttributeLoader) : Z :=
  AlignUp (u32 (AlignUp (u32 (byte_count l)) stride_alignment * vertex_num)) 4.

End VertexArray.

Import VertexArray.

(** ** Binary32 arithmetic and vectors *)

Module Float32.

(** A C++ [float]: IEEE 754 binary32, round to nearest even. *)
Definition f32 : Type := spec_float.

Definition f32_zero : f32 := S754_zero false.
Definition f32_add : f32 -> f32 -> f32 := SFadd 24 128.
Definition f32_mul : f32 -> f32 -> f32 := SFmul 24 128.
Definition f32_div : f32 -> f32 -> f32 := SFdiv 24 128.
Definition f32_neg : f32 -> f32 := SFopp.
Definition f32_lt : f32 -> f32 -> bool := SFltb.
Definition f32_eq : f32 -> f32 -> bool := SFeqb.
Definition f32_ne (a b : f32) : bool := negb (SFeqb a b).

(** Conversion of an integer to [float]. *)
Definition f32_of_int (n : Z) : f32 := binary_normalize 24 128 n 0 false.

(** [Pica::Float<M, E>] keeps its value as a [float]; [ToFloat32] returns
    it.  [float24], [float20] and [float16] are its instances. *)
Record float24 := mkFloat24 { ToFloat32 : f32 }.
Definition float20 : Type := float24.
Definition float16 : Type := float24.

End Float32.

Import Float32.

Module Vec.

Record Vec2 (T : Type) := mkVec2 { x2 : T; y2 : T }.
Record Vec3 (T : Type) := mkVec3 { x3 : T; y3 : T; z3 : T }.
Record Vec4 (T : Type) := mkVec4 { x : T; y : T; z : T; w : T }.

Arguments mkVec2 {T}.
Arguments x2 {T}.
Arguments y2 {T}.
Arguments mkVec3 {T}.
Arguments x3 {T}.
Arguments y3 {T}.
Arguments z3 {T}.
Arguments mkVec4 {T}.
Arguments x {T}.
Arguments y {T}.
Arguments z {T}.
Arguments w {T}.

Definition Vec2f : Type := Vec2 f32.
Definition Vec3f : Type := Vec3 f32.
Definition Vec4f : Type := Vec4 f32.

(** Unary minus of a [Vec4f]. *)
Definition neg4 (v : Vec4f) : Vec4f :=
  mkVec4 (f32_neg (x v)) (f32_neg (y v)) (f32_neg (z v)) (f32_neg (w v)).

(** Modelled from the spec: [Common::Dot] on four components
    ([common/vector_math.h] is not among the sources), the dot product of the
    quaternion rule, summed from left to right in binary32. *)
Definition Dot (a b : Vec4f) : f32 :=
  f32_add (f32_add (f32_add (f32_mul (x a) (x b)) (f32_mul (y a) (y b)))
                   (f32_mul (z a) (z b)))
          (f32_mul (w a) (w b)).

(** Component-wise [operator!=] and [operator==] of the vector classes. *)
Definition ne2 (a b : Vec2f) : bool := f32_ne (x2 a) (x2 b) || f32_ne (y2 a) (y2 b).
Definition ne3 (a b : Vec3f) : bool :=
  f32_ne (x3 a) (x3 b) || f32_ne (y3 a) (y3 b) || f32_ne (z3 a) (z3 b).
Definition ne4 (a b : Vec4f) : bool :=
  f32_ne (x a) (x b) || f32_ne (y a) (y b) || f32_ne (z a) (z b) || f32_ne (w a) (w b).
Definition eq4 (a b : Vec4f) : bool :=
  f32_eq (x a) (x b) && f32_eq (y a) (y b) && f32_eq (z a) (z b) && f32_eq (w a) (w b).

End Vec.

Import Vec(Vec2, Vec3, Vec4, Vec2f, Vec3f, Vec4f, mkVec2, mkVec3, mkVec4).

(** ** Vertex batching *)

Module VertexBatch.

(** The attributes of [Pica::Shader::OutputVertex] that a hardware vertex
    is built from. *)
Record OutputVertex := mkOutputVertex
  { pos : Vec4 float24; quat : Vec4 float24; color : Vec4 float24;
    tc0 : Vec2 float24; tc1 : Vec2 float24; tc0_w : float24;
    view : Vec3 float24; tc2 : Vec2 float24 }.

Record HardwareVertex := mkHardwareVertex
  { hw_position : Vec4f; hw_color : Vec4f;
    hw_tex_coord0 : Vec2f; hw_tex_coord1 : Vec2f; hw_tex_coord2 : Vec2f;
    hw_tex_coord0_w : f32; hw_normquat : Vec4f; hw_view : Vec3f }.

Definition to_f32_2 (v : Vec2 float24) : Vec2f :=
  mkVec2 (ToFloat32 (Vec.x2 v)) (ToFloat32 (Vec.y2 v)).
Definition to_f32_3 (v : Vec3 float24) : Vec3f :=
  mkVec3 (ToFloat32 (Vec.x3 v)) (ToFloat32 (Vec.y3 v)) (ToFloat32 (Vec.z3 v)).
Definition to_f32_4 (v : Vec4 float24) : Vec4f :=
  mkVec4 (ToFloat32 (Vec.x v)) (ToFloat32 (Vec.y v)) (ToFloat32 (Vec.z v))
         (ToFloat32 (Vec.w v)).

(** The constructor [HardwareVertex(v, flip_quaternion)]. *)
Definition make_HardwareVertex (v : OutputVertex) (flip_quaternion : bool) : HardwareVertex :=
  let normquat := to_f32_4 (quat v) in
  mkHardwareVertex (to_f32_4 (pos v)) (to_f32_4 (color v))
    (to_f32_2 (tc0 v)) (to_f32_2 (tc1 v)) (to_f32_2 (tc2 v))
    (ToFloat32 (tc0_w v))
    (if flip_quaternion then Vec.neg4 normquat else normquat)
    (to_f32_3 (view v)).

Definition AreQuaternionsOpposite (qa qb : Vec4 float24) : bool :=
  let a := to_f32_4 qa in
  let b := to_f32_4 qb in
  f32_lt (Vec.Dot a b) f32_zero.

(** [AddTriangle] appends three records to [vertex_batch]. *)
Definition AddTriangle (v0 v1 v2 : OutputVertex) (vertex_batch : list HardwareVertex)
  : list HardwareVertex :=
  vertex_batch
    ++ [make_HardwareVertex v0 false;
        make_HardwareVertex v1 (AreQuaternionsOpposite (quat v0) (quat v1));
        make_HardwareVertex v2 (AreQuaternionsOpposite (quat v0) (quat v2))].

(** The correction of a later vertex [v] of a triangle whose first vertex
    has the quaternion [q0], as [h] records it: [v]'s quaternion, negated
    exactly when its dot product with [q0] is negative, and a dot product of
    the recorded quaternion with [q0] that is not negative. *)
Definition corrected_against (q0 : Vec4f) (v : OutputVertex) (h : HardwareVertex) : Prop :=
  let q := to_f32_4 (quat v) in
  hw_normquat h = (if f32_lt (Vec.Dot q0 q) f32_zero then Vec.neg4 q else q) /\
  f32_lt (Vec.Dot q0 (hw_normquat h)) f32_zero = false /\
  (f32_lt (Vec.Dot q0 q) f32_zero = true ->
   f32_lt f32_zero (Vec.Dot q0 (hw_normquat h)) = true).

(** Up to the sign of a zero. *)
Definition unsigned_zero (a : f32) : f32 :=
  match a with S754_zero _ => S754_zero false | _ => a end.

End VertexBatch.

Import VertexBatch.

(** ** Register mirror *)

Module RegisterMirror.

(** A colour register with the fields [r], [g], [b]. *)
Record ColorReg := mkColorReg { r : Z; g : Z; b : Z }.

(** The registers of one light source that the handlers read. *)
Record LightRegs := mkLightRegs
  { specular_0 : ColorReg; specular_1 : ColorReg; diffuse : ColorReg; ambient : ColorReg;
    light_x : Z; light_y : Z; light_z : Z;
    spot_x : Z; spot_y : Z; spot_z : Z;
    dist_atten_bias : Z; dist_atten_scale : Z }.

Record ProcTexNoise := mkProcTexNoise { amplitude : Z; phase : Z }.

(** The part of [Pica::g_state.regs] that the handlers read. *)
Record Regs := mkRegs
  { viewport_depth_range : Z;
    viewport_depth_near_plane : Z;
    fog_color_reg : ColorReg;
    proctex_noise_frequency_u : Z;
    proctex_noise_frequency_v : Z;
    proctex_noise_u : ProcTexNoise;
    proctex_noise_v : ProcTexNoise;
    proctex_bias_low : Z;
    proctex_lut_bias_high : Z;
    alpha_test_ref : Z;
    tev_combiner_buffer_color_raw : Z;
    tev_stage_const_color : vec Z 6;
    global_ambient : ColorReg;
    light : vec LightRegs 8;
    shadow_constant : Z;
    shadow_linear : Z;
    texturing_shadow_bias : Z }.

(** One entry of [uniform_block_data.data.light_src]. *)
Record LightSrc := mkLightSrc
  { ls_specular_0 : Vec3f;
    ls_specular_1 : Vec3f;
    ls_diffuse : Vec3f;
    ls_ambient : Vec3f;
    ls_position : Vec3f;
    ls_spot_direction : Vec3f;
    ls_dist_atten_bias : f32;
    ls_dist_atten_scale : f32 }.

(** [uniform_block_data.data], the shadow of the registers. *)
Record UniformData := mkUniformData
  { depth_scale : f32;
    depth_offset : f32;
    fog_color : Vec3f;
    proctex_noise_f : Vec2f;
    proctex_noise_a : Vec2f;
    proctex_noise_p : Vec2f;
    proctex_bias : f32;
    alphatest_ref : Z;
    tev_combiner_buffer_color : Vec4f;
    const_color : vec Vec4f 6;
    lighting_global_ambient : Vec3f;
    light_src : vec LightSrc 8;
    shadow_bias_constant : f32;
    shadow_bias_linear : f32;
    shadow_texture_bias : Z }.

Record UniformBlockData := mkUniformBlockData { data : UniformData; dirty : bool }.

(** Assignments to one field. *)
Definition set_ls_specular_0 (v : Vec3f) (l : LightSrc) : LightSrc :=
  mkLightSrc v (ls_specular_1 l) (ls_diffuse l) (ls_ambient l) (ls_position l) (ls_spot_direction l) (ls_dist_atten_bias l) (ls_dist_atten_scale l).
Definition set_ls_specular_1 (v : Vec3f) (l : LightSrc) : LightSrc :=
  mkLightSrc (ls_specular_0 l) v (ls_diffuse l) (ls_ambient l) (ls_position l) (ls_spot_direction l) (ls_dist_atten_bias l) (ls_dist_atten_scale l).
Definition set_ls_diffuse (v : Vec3f) (l : LightSrc) : LightSrc :=
  mkLightSrc (ls_specular_0 l) (ls_specular_1 l) v (ls_ambient l) (ls_position l) (ls_spot_direction l) (ls_dist_atten_bias l) (ls_dist_atten_scale l).
Definition set_ls_ambient (v : Vec3f) (l : LightSrc) : LightSrc :=
  mkLightSrc (ls_specular_0 l) (ls_specular_1 l) (ls_diffuse l) v (ls_position l) (ls_spot_direction l) (ls_dist_atten_bias l) (ls_dist_atten_scale l).
Definition set_ls_position (v : Vec3f) (l : LightSrc) : LightSrc :=
  mkLightSrc (ls_specular_0 l) (ls_specular_1 l) (ls_diffuse l) (ls_ambient l) v (ls_spot_direction l) (ls_dist_atten_bias l) (ls_dist_atten_scale l).
Definition set_ls_spot_direction (v : Vec3f) (l : LightSrc) : LightSrc :=
  mkLightSrc (ls_specular_0 l) (ls_specular_1 l) (ls_diffuse l) (ls_ambient l) (ls_position l) v (ls_dist_atten_bias l) (ls_dist_atten_scale l).
Definition set_ls_dist_atten_bias (v : f32) (l : LightSrc) : LightSrc :=
  mkLightSrc (ls_specular_0 l) (ls_specular_1 l) (ls_diffuse l) (ls_ambient l) (ls_position l) (ls_spot_direction l) v (ls_dist_atten_scale l).
Definition set_ls_dist_atten_scale (v : f32) (l : LightSrc) : LightSrc :=
  mkLightSrc (ls_specular_0 l) (ls_specular_1 l) (ls_diffuse l) (ls_ambient l) (ls_position l) (ls_spot_direction l) (ls_dist_atten_bias l) v.
Definition set_depth_scale (v : f32) (d : UniformData) : UniformData :=
  mkUniformData v (depth_offset d) (fog_color d) (proctex_noise_f d) (proctex_noise_a d) (proctex_noise_p d) (proctex_bias d) (alphatest_ref d) (tev_combiner_buffer_color d) (const_color d) (lighting_global_ambient d) (light_src d) (shadow_bias_constant d) (shadow_bias_linear d) (shadow_texture_bias d).
Definition set_depth_offset (v : f32) (d : UniformData) : UniformData :=
  mkUniformData (depth_scale d) v (fog_color d) (proctex_noise_f d) (proctex_noise_a d) (proctex_noise_p d) (proctex_bias d) (alphatest_ref d) (tev_combiner_buffer_color d) (const_color d) (lighting_global_ambient d) (light_src d) (shadow_bias_constant d) (shadow_bias_linear d) (shadow_texture_bias d).
Definition set_fog_color (v : Vec3f) (d : UniformData) : UniformData :=
  mkUniformData (depth_scale d) (depth_offset d) v (proctex_noise_f d) (proctex_noise_a d) (proctex_noise_p d) (proctex_bias d) (alphatest_ref d) (tev_combiner_buffer_color d) (const_color d) (lighting_global_ambient d) (light_src d) (shadow_bias_constant d) (shadow_bias_linear d) (shadow_texture_bias d).
Definition set_proctex_noise_f (v : Vec2f) (d : UniformData) : UniformData :=
  mkUniformData (depth_scale d) (depth_offset d) (fog_color d) v (proctex_noise_a d) (proctex_noise_p d) (proctex_bias d) (alphatest_ref d) (tev_combiner_buffer_color d) (const_color d) (lighting_global_ambient d) (light_src d) (shadow_bias_constant d) (shadow_bias_linear d) (shadow_texture_bias d).
Definition set_proctex_noise_a (v : Vec2f) (d : UniformData) : UniformData :=
  mkUniformData (depth_scale d) (depth_offset d) (fog_color d) (proctex_noise_f d) v (proctex_noise_p d) (proctex_bias d) (alphatest_ref d) (tev_combiner_buffer_color d) (const_color d) (lighting_global_ambient d) (light_src d) (shadow_bias_constant d) (shadow_bias_linear d) (shadow_texture_bias d).
Definition set_proctex_noise_p (v : Vec2f) (d : UniformData) : UniformData :=
  mkUniformData (depth_scale d) (depth_offset d) (fog_color d) (proctex_noise_f d) (proctex_noise_a d) v (proctex_bias d) (alphatest_ref d) (tev_combiner_buffer_color d) (const_color d) (lighting_global_ambient d) (light_src d) (shadow_bias_constant d) (shadow_bias_linear d) (shadow_texture_bias d).
Definition set_proctex_bias (v : f32) (d : UniformData) : UniformData :=
  mkUniformData (depth_scale d) (depth_offset d) (fog_color d) (proctex_noise_f d) (proctex_noise_a d) (proctex_noise_p d) v (alphatest_ref d) (tev_combiner_buffer_color d) (const_color d) (lighting_global_ambient d) (light_src d) (shadow_bias_constant d) (shadow_bias_linear d) (shadow_texture_bias d).
Definition set_alphatest_ref (v : Z) (d : UniformData) : UniformData :=
  mkUniformData (depth_scale d) (depth_offset d) (fog_color d) (proctex_noise_f d) (proctex_noise_a d) (proctex_noise_p d) (proctex_bias d) v (tev_combiner_buffer_color d) (const_color d) (lighting_global_ambient d) (light_src d) (shadow_bias_constant d) (shadow_bias_linear d) (shadow_texture_bias d).
Definition set_tev_combiner_buffer_color (v : Vec4f) (d : UniformData) : UniformData :=
  mkUniformData (depth_scale d) (depth_offset d) (fog_color d) (proctex_noise_f d) (proctex_noise_a d) (proctex_noise_p d) (proctex_bias d) (alphatest_ref d) v (const_color d) (lighting_global_ambient d) (light_src d) (shadow_bias_constant d) (shadow_bias_linear d) (shadow_texture_bias d).
Definition set_const_color (v : vec Vec4f 6) (d : UniformData) : UniformData :=
  mkUniformData (depth_scale d) (depth_offset d) (fog_color d) (proctex_noise_f d) (proctex_noise_a d) (proctex_noise_p d) (proctex_bias d) (alphatest_ref d) (tev_combiner_buffer_color d) v (lighting_global_ambient d) (light_src d) (shadow_bias_constant d) (shadow_bias_linear d) (shadow_texture_bias d).
Definition set_lighting_global_ambient (v : Vec3f) (d : UniformData) : UniformData :=
  mkUniformData (depth_scale d) (depth_offset d) (fog_color d) (proctex_noise_f d) (proctex_noise_a d) (proctex_noise_p d) (proctex_bias d) (alphatest_ref d) (tev_combiner_buffer_color d) (const_color d) v (light_src d) (shadow_bias_constant d) (shadow_bias_linear d) (shadow_texture_bias d).
Definition set_light_src (v : vec LightSrc 8) (d : UniformData) : UniformData :=
  mkUniformData (depth_scale d) (depth_offset d) (fog_color d) (proctex_noise_f d) (proctex_noise_a d) (proctex_noise_p d) (proctex_bias d) (alphatest_ref d) (tev_combiner_buffer_color d) (const_color d) (lighting_global_ambient d) v (shadow_bias_constant d) (shadow_bias_linear d) (shadow_texture_bias d).
Definition set_shadow_bias_constant (v : f32) (d : UniformData) : UniformData :=
  mkUniformData (depth_scale d) (depth_offset d) (fog_color d) (proctex_noise_f d) (proctex_noise_a d) (proctex_noise_p d) (proctex_bias d) (alphatest_ref d) (tev_combiner_buffer_color d) (const_color d) (lighting_global_ambient d) (light_src d) v (shadow_bias_linear d) (shadow_texture_bias d).
Definition set_shadow_bias_linear (v : f32) (d : UniformData) : UniformData :=
  mkUniformData (depth_scale d) (depth_offset d) (fog_color d) (proctex_noise_f d) (proctex_noise_a d) (proctex_noise_p d) (proctex_bias d) (alphatest_ref d) (tev_combiner_buffer_color d) (const_color d) (lighting_global_ambient d) (light_src d) (shadow_bias_constant d) v (shadow_texture_bias d).
Definition set_shadow_texture_bias (v : Z) (d : UniformData) : UniformData :=
  mkUniformData (depth_scale d) (depth_offset d) (fog_color d) (proctex_noise_f d) (proctex_noise_a d) (proctex_noise_p d) (proctex_bias d) (alphatest_ref d) (tev_combiner_buffer_color d) (const_color d) (lighting_global_ambient d) (light_src d) (shadow_bias_constant d) (shadow_bias_linear d) v.

Definition set_data (f : UniformData -> UniformData) (u : UniformBlockData)
  : UniformBlockData :=
  mkUniformBlockData (f (data u)) (dirty u).
Definition set_dirty (u : UniformBlockData) : UniformBlockData :=
  mkUniformBlockData (data u) true.
Definition set_light (i : fin 8) (f : LightSrc -> LightSrc) (d : UniformData) : UniformData :=
  set_light_src (vinsert i (f (light_src d !!! i)) (light_src d)) d.

Definition f32_255 : f32 := f32_of_int 255.

Definition ColorRGBA8 (color : Z) : Vec4f :=
  mkVec4 (f32_div (f32_of_int (Z.land (Z.shiftr color 0) 255)) f32_255)
         (f32_div (f32_of_int (Z.land (Z.shiftr color 8) 255)) f32_255)
         (f32_div (f32_of_int (Z.land (Z.shiftr color 16) 255)) f32_255)
         (f32_div (f32_of_int (Z.land (Z.shiftr color 24) 255)) f32_255).

Definition LightColor (color : ColorReg) : Vec3f :=
  mkVec3 (f32_div (f32_of_int (r color)) f32_255)
         (f32_div (f32_of_int (g color)) f32_255)
         (f32_div (f32_of_int (b color)) f32_255).

Section Handlers.

(** The raw-bits decoders of the PICA float formats ([pica_types.h] is not
    among the sources). *)
Variable float16_FromRaw : Z -> float16.
Variable float20_FromRaw : Z -> float20.
Variable float24_FromRaw : Z -> float24.

Variable regs : Regs.

Definition SyncDepthScale (u : UniformBlockData) : UniformBlockData :=
  let depth_scale := ToFloat32 (float24_FromRaw (viewport_depth_range regs)) in
  if f32_ne depth_scale (RegisterMirror.depth_scale (data u))
  then set_dirty (set_data (set_depth_scale depth_scale) u)
  else u.

Definition SyncDepthOffset (u : UniformBlockData) : UniformBlockData :=
  let depth_offset := ToFloat32 (float24_FromRaw (viewport_depth_near_plane regs)) in
  if f32_ne depth_offset (RegisterMirror.depth_offset (data u))
  then set_dirty (set_data (set_depth_offset depth_offset) u)
  else u.

Definition SyncFogColor (u : UniformBlockData) : UniformBlockData :=
  set_dirty
    (set_data (set_fog_color
                 (mkVec3 (f32_div (f32_of_int (r (fog_color_reg regs))) f32_255)
                         (f32_div (f32_of_int (g (fog_color_reg regs))) f32_255)
                         (f32_div (f32_of_int (b (fog_color_reg regs))) f32_255))) u).

Definition SyncProcTexNoise (u : UniformBlockData) : UniformBlockData :=
  let u := set_data (set_proctex_noise_f
                       (mkVec2 (ToFloat32 (float16_FromRaw (proctex_noise_frequency_u regs)))
                               (ToFloat32 (float16_FromRaw (proctex_noise_frequency_v regs))))) u in
  let u := set_data (set_proctex_noise_a
                       (mkVec2 (f32_div (f32_of_int (amplitude (proctex_noise_u regs)))
                                        (f32_of_int 4095))
                               (f32_div (f32_of_int (amplitude (proctex_noise_v regs)))
                                        (f32_of_int 4095)))) u in
  let u := set_data (set_proctex_noise_p
                       (mkVec2 (ToFloat32 (float16_FromRaw (phase (proctex_noise_u regs))))
                               (ToFloat32 (float16_FromRaw (phase (proctex_noise_v regs)))))) u in
  set_dirty u.

Definition SyncProcTexBias (u : UniformBlockData) : UniformBlockData :=
  set_dirty
    (set_data (set_proctex_bias
                 (ToFloat32 (float16_FromRaw
                               (Z.lor (proctex_bias_low regs)
                                      (u32 (Z.shiftl (proctex_lut_bias_high regs) 8)))))) u).

Definition SyncAlphaTest (u : UniformBlockData) : UniformBlockData :=
  if negb (alpha_test_ref regs =? alphatest_ref (data u))
  then set_dirty (set_data (set_alphatest_ref (alpha_test_ref regs)) u)
  else u.

Definition SyncCombinerColor (u : UniformBlockData) : UniformBlockData :=
  let combiner_color := ColorRGBA8 (tev_combiner_buffer_color_raw regs) in
  if Vec.ne4 combiner_color (tev_combiner_buffer_color (data u))
  then set_dirty (set_data (set_tev_combiner_buffer_color combiner_color) u)
  else u.

(** [tev_stage] is the constant colour of the stage's configuration. *)
Definition SyncTevConstColor (stage_index : fin 6) (tev_stage : Z) (u : UniformBlockData)
  : UniformBlockData :=
  let const_color := ColorRGBA8 tev_stage in
  if Vec.eq4 const_color (RegisterMirror.const_color (data u) !!! stage_index) then u
  else set_dirty
         (set_data (fun d => set_const_color
                               (vinsert stage_index const_color (RegisterMirror.const_color d)) d) u).

Definition SyncGlobalAmbient (u : UniformBlockData) : UniformBlockData :=
  let color := LightColor (global_ambient regs) in
  if Vec.ne3 color (lighting_global_ambient (data u))
  then set_dirty (set_data (set_lighting_global_ambient color) u)
  else u.

Definition SyncLightSpecular0 (light_index : fin 8) (u : UniformBlockData) : UniformBlockData :=
  let color := LightColor (specular_0 (light regs !!! light_index)) in
  if Vec.ne3 color (ls_specular_0 (light_src (data u) !!! light_index))
  then set_dirty (set_data (set_light light_index (set_ls_specular_0 color)) u)
  else u.

Definition SyncLightSpecular1 (light_index : fin 8) (u : UniformBlockData) : UniformBlockData :=
  let color := LightColor (specular_1 (light regs !!! light_index)) in
  if Vec.ne3 color (ls_specular_1 (light_src (data u) !!! light_index))
  then set_dirty (set_data (set_light light_index (set_ls_specular_1 color)) u)
  else u.

Definition SyncLightDiffuse (light_index : fin 8) (u : UniformBlockData) : UniformBlockData :=
  let color := LightColor (diffuse (light regs !!! light_index)) in
  if Vec.ne3 color (ls_diffuse (light_src (data u) !!! light_index))
  then set_dirty (set_data (set_light light_index (set_ls_diffuse color)) u)
  else u.

Definition SyncLightAmbient (light_index : fin 8) (u : UniformBlockData) : UniformBlockData :=
  let color := LightColor (ambient (light regs !!! light_index)) in
  if Vec.ne3 color (ls_ambient (light_src (data u) !!! light_index))
  then set_dirty (set_data (set_light light_index (set_ls_ambient color)) u)
  else u.

Definition SyncLightPosition (light_index : fin 8) (u : UniformBlockData) : UniformBlockData :=
  let position :=
    mkVec3 (ToFloat32 (float16_FromRaw (light_x (light regs !!! light_index))))
           (ToFloat32 (float16_FromRaw (light_y (light regs !!! light_index))))
           (ToFloat32 (float16_FromRaw (light_z (light regs !!! light_index)))) in
  if Vec.ne3 position (ls_position (light_src (data u) !!! light_index))
  then set_dirty (set_data (set_light light_index (set_ls_position position)) u)
  else u.

Definition SyncLightSpotDirection (light_index : fin 8) (u : UniformBlockData)
  : UniformBlockData :=
  let l := light regs !!! light_index in
  let spot_direction :=
    mkVec3 (f32_div (f32_of_int (spot_x l)) (f32_of_int 2047))
           (f32_div (f32_of_int (spot_y l)) (f32_of_int 2047))
           (f32_div (f32_of_int (spot_z l)) (f32_of_int 2047)) in
  if Vec.ne3 spot_direction (ls_spot_direction (light_src (data u) !!! light_index))
  then set_dirty (set_data (set_light light_index (set_ls_spot_direction spot_direction)) u)
  else u.

Definition SyncLightDistanceAttenuationBias (light_index : fin 8) (u : UniformBlockData)
  : UniformBlockData :=
  let bias := ToFloat32 (float20_FromRaw (dist_atten_bias (light regs !!! light_index))) in
  if f32_ne bias (ls_dist_atten_bias (light_src (data u) !!! light_index))
  then set_dirty (set_data (set_light light_index (set_ls_dist_atten_bias bias)) u)
  else u.

Definition SyncLightDistanceAttenuationScale (light_index : fin 8) (u : UniformBlockData)
  : UniformBlockData :=
  let scale := ToFloat32 (float20_FromRaw (dist_atten_scale (light regs !!! light_index))) in
  if f32_ne scale (ls_dist_atten_scale (light_src (data u) !!! light_index))
  then set_dirty (set_data (set_light light_index (set_ls_dist_atten_scale scale)) u)
  else u.

Definition SyncShadowBias (u : UniformBlockData) : UniformBlockData :=
  let constant := ToFloat32 (float16_FromRaw (shadow_constant regs)) in
  let linear := ToFloat32 (float16_FromRaw (shadow_linear regs)) in
  if f32_ne constant (shadow_bias_constant (data u))
     || f32_ne linear (shadow_bias_linear (data u))
  then set_dirty (set_data (fun d => set_shadow_bias_linear linear
                                       (set_shadow_bias_constant constant d)) u)
  else u.

Definition SyncShadowTextureBias (u : UniformBlockData) : UniformBlockData :=
  let bias := u32 (Z.shiftl (texturing_shadow_bias regs) 1) in
  if negb (bias =? shadow_texture_bias (data u))
  then set_dirty (set_data (set_shadow_texture_bias bias) u)
  else u.

End Handlers.

(** The uniform-value-update handlers that [NotifyPicaRegisterChanged]
    routes register writes to, with the arguments it passes. *)
Inductive UniformHandler :=
| HDepthScale | HDepthOffset | HFogColor | HProcTexNoise | HProcTexBias
| HAlphaTest | HCombinerColor | HTevConstColor (stage_index : fin 6)
| HGlobalAmbient
| HLightSpecular0 (light_index : fin 8) | HLightSpecular1 (light_index : fin 8)
| HLightDiffuse (light_index : fin 8) | HLightAmbient (light_index : fin 8)
| HLightPosition (light_index : fin 8) | HLightSpotDirection (light_index : fin 8)
| HLightDistanceAttenuationBias (light_index : fin 8)
| HLightDistanceAttenuationScale (light_index : fin 8)
| HShadowBias | HShadowTextureBias.

Section Dispatch.

Variable float16_FromRaw : Z -> float16.
Variable float20_FromRaw : Z -> float20.
Variable float24_FromRaw : Z -> float24.
Variable regs : Regs.

Definition run_handler (h : UniformHandler) : UniformBlockData -> UniformBlockData :=
  match h with
  | HDepthScale => SyncDepthScale float24_FromRaw regs
  | HDepthOffset => SyncDepthOffset float24_FromRaw regs
  | HFogColor => SyncFogColor regs
  | HProcTexNoise => SyncProcTexNoise float16_FromRaw regs
  | HProcTexBias => SyncProcTexBias float16_FromRaw regs
  | HAlphaTest => SyncAlphaTest regs
  | HCombinerColor => SyncCombinerColor regs
  | HTevConstColor i => SyncTevConstColor i (tev_stage_const_color regs !!! i)
  | HGlobalAmbient => SyncGlobalAmbient regs
  | HLightSpecular0 i => SyncLightSpecular0 regs i
  | HLightSpecular1 i => SyncLightSpecular1 regs i
  | HLightDiffuse i => SyncLightDiffuse regs i
  | HLightAmbient i => SyncLightAmbient regs i
  | HLightPosition i => SyncLightPosition float16_FromRaw regs i
  | HLightSpotDirection i => SyncLightSpotDirection regs i
  | HLightDistanceAttenuationBias i => SyncLightDistanceAttenuationBias float20_FromRaw regs i
  | HLightDistanceAttenuationScale i => SyncLightDistanceAttenuationScale float20_FromRaw regs i
  | HShadowBias => SyncShadowBias float16_FromRaw regs
  | HShadowTextureBias => SyncShadowTextureBias regs
  end.

(** *** Vocabulary: the value a handler derives from the registers, the
    shadowed value it is compared with, and the comparison *)

Inductive Scalar := SFloat (a : f32) | SInt (n : Z).

Definition scalar_ne (a b : Scalar) : bool :=
  match a, b with
  | SFloat a, SFloat b => f32_ne a b
  | SInt a, SInt b => negb (a =? b)
  | _, _ => true
  end.

(** [operator!=] on values: some component differs. *)
Fixpoint differs (a b : list Scalar) : bool :=
  match a, b with
  | x :: a, y :: b => scalar_ne x y || differs a b
  | [], [] => false
  | _, _ => true
  end.

Definition of_vec2 (v : Vec2f) : list Scalar := [SFloat (Vec.x2 v); SFloat (Vec.y2 v)].
Definition of_vec3 (v : Vec3f) : list Scalar :=
  [SFloat (Vec.x3 v); SFloat (Vec.y3 v); SFloat (Vec.z3 v)].
Definition of_vec4 (v : Vec4f) : list Scalar :=
  [SFloat (Vec.x v); SFloat (Vec.y v); SFloat (Vec.z v); SFloat (Vec.w v)].

(** The value the handler computes from the registers. *)
Definition incoming (h : UniformHandler) : list Scalar :=
  match h with
  | HDepthScale => [SFloat (ToFloat32 (float24_FromRaw (viewport_depth_range regs)))]
  | HDepthOffset => [SFloat (ToFloat32 (float24_FromRaw (viewport_depth_near_plane regs)))]
  | HFogColor => of_vec3 (LightColor (fog_color_reg regs))
  | HProcTexNoise =>
    of_vec2 (mkVec2 (ToFloat32 (float16_FromRaw (proctex_noise_frequency_u regs)))
                    (ToFloat32 (float16_FromRaw (proctex_noise_frequency_v regs))))
    ++ of_vec2 (mkVec2 (f32_div (f32_of_int (amplitude (proctex_noise_u regs))) (f32_of_int 4095))
                       (f32_div (f32_of_int (amplitude (proctex_noise_v regs))) (f32_of_int 4095)))
    ++ of_vec2 (mkVec2 (ToFloat32 (float16_FromRaw (phase (proctex_noise_u regs))))
                       (ToFloat32 (float16_FromRaw (phase (proctex_noise_v regs)))))
  | HProcTexBias =>
    [SFloat (ToFloat32 (float16_FromRaw
                          (Z.lor (proctex_bias_low regs)
                                 (u32 (Z.shiftl (proctex_lut_bias_high regs) 8)))))]
  | HAlphaTest => [SInt (alpha_test_ref regs)]
  | HCombinerColor => of_vec4 (ColorRGBA8 (tev_combiner_buffer_color_raw regs))
  | HTevConstColor i => of_vec4 (ColorRGBA8 (tev_stage_const_color regs !!! i))
  | HGlobalAmbient => of_vec3 (LightColor (global_ambient regs))
  | HLightSpecular0 i => of_vec3 (LightColor (specular_0 (light regs !!! i)))
  | HLightSpecular1 i => of_vec3 (LightColor (specular_1 (light regs !!! i)))
  | HLightDiffuse i => of_vec3 (LightColor (diffuse (light regs !!! i)))
  | HLightAmbient i => of_vec3 (LightColor (ambient (light regs !!! i)))
  | HLightPosition i =>
    of_vec3 (mkVec3 (ToFloat32 (float16_FromRaw (light_x (light regs !!! i))))
                    (ToFloat32 (float16_FromRaw (light_y (light regs !!! i))))
                    (ToFloat32 (float16_FromRaw (light_z (light regs !!! i)))))
  | HLightSpotDirection i =>
    of_vec3 (mkVec3 (f32_div (f32_of_int (spot_x (light regs !!! i))) (f32_of_int 2047))
                    (f32_div (f32_of_int (spot_y (light regs !!! i))) (f32_of_int 2047))
                    (f32_div (f32_of_int (spot_z (light regs !!! i))) (f32_of_int 2047)))
  | HLightDistanceAttenuationBias i =>
    [SFloat (ToFloat32 (float20_FromRaw (dist_atten_bias (light regs !!! i))))]
  | HLightDistanceAttenuationScale i =>
    [SFloat (ToFloat32 (float20_FromRaw (dist_atten_scale (light regs !!! i))))]
  | HShadowBias =>
    [SFloat (ToFloat32 (float16_FromRaw (shadow_constant regs)));
     SFloat (ToFloat32 (float16_FromRaw (shadow_linear regs)))]
  | HShadowTextureBias => [SInt (u32 (Z.shiftl (texturing_shadow_bias regs) 1))]
  end.

End Dispatch.

(** The shadowed value that the handler maintains. *)
Definition shadowed (h : UniformHandler) (d : UniformData) : list Scalar :=
  match h with
  | HDepthScale => [SFloat (depth_scale d)]
  | HDepthOffset => [SFloat (depth_offset d)]
  | HFogColor => of_vec3 (fog_color d)
  | HProcTexNoise =>
    of_vec2 (proctex_noise_f d) ++ of_vec2 (proctex_noise_a d) ++ of_vec2 (proctex_noise_p d)
  | HProcTexBias => [SFloat (proctex_bias d)]
  | HAlphaTest => [SInt (alphatest_ref d)]
  | HCombinerColor => of_vec4 (tev_combiner_buffer_color d)
  | HTevConstColor i => of_vec4 (const_color d !!! i)
  | HGlobalAmbient => of_vec3 (lighting_global_ambient d)
  | HLightSpecular0 i => of_vec3 (ls_specular_0 (light_src d !!! i))
  | HLightSpecular1 i => of_vec3 (ls_specular_1 (light_src d !!! i))
  | HLightDiffuse i => of_vec3 (ls_diffuse (light_src d !!! i))
  | HLightAmbient i => of_vec3 (ls_ambient (light_src d !!! i))
  | HLightPosition i => of_vec3 (ls_position (light_src d !!! i))
  | HLightSpotDirection i => of_vec3 (ls_spot_direction (light_src d !!! i))
  | HLightDistanceAttenuationBias i => [SFloat (ls_dist_atten_bias (light_src d !!! i))]
  | HLightDistanceAttenuationScale i => [SFloat (ls_dist_atten_scale (light_src d !!! i))]
  | HShadowBias => [SFloat (shadow_bias_constant d); SFloat (shadow_bias_linear d)]
  | HShadowTextureBias => [SInt (shadow_texture_bias d)]
  end.

(** The handlers that compare before they store; the other three store and
    raise [dirty] unconditionally. *)
Definition compares (h : UniformHandler) : bool :=
  match h with
  | HFogColor | HProcTexNoise | HProcTexBias => false
  | _ => true
  end.

End RegisterMirror.

Import RegisterMirror.

(** ** Interval containers *)

Module ICL.

(** [boost::icl::right_open_interval<PAddr>]: the bytes [lower, upper). *)
Definition SurfaceInterval : Type := Z * Z.

Definition lower (i : SurfaceInterval) : Z := fst i.
Definition upper (i : SurfaceInterval) : Z := snd i.
Definition is_empty (i : SurfaceInterval) : bool := upper i <=? lower i.
Definition icl_length (i : SurfaceInterval) : Z :=
  if is_empty i then 0 else upper i - lower i.
Definition identity_element : SurfaceInterval := (0, 0).

(** [operator&] on intervals. *)
Definition intersect (a b : SurfaceInterval) : SurfaceInterval :=
  if is_empty a || is_empty b then identity_element
  else (Z.max (lower a) (lower b), Z.min (upper a) (upper b)).

(** The order of the containers: [a] lies wholly below [b].  Two intervals
    are equivalent keys, and overlap, when neither lies below the other. *)
Definition exclusive_less (a b : SurfaceInterval) : bool := upper a <=? lower b.
Definition overlaps (a b : SurfaceInterval) : bool :=
  negb (exclusive_less a b) && negb (exclusive_less b a).

Definition within (a : Z) (i : SurfaceInterval) : bool :=
  (lower i <=? a) && (a <? upper i).

Section Segments.

Context {V : Type} `{EqDecision V}.

(** An interval container keeps disjoint segments in address order. *)
Definition segment : Type := SurfaceInterval * V.

(** [equal_range]: the segments overlapping [i], in order. *)
Definition equal_range (i : SurfaceInterval) (m : list segment) : list segment :=
  List.filter (fun s => overlaps (fst s) i) m.

(** What is left of a segment outside [i]. *)
Definition cut (i : SurfaceInterval) (s : segment) : list segment :=
  if overlaps (fst s) i then
    (if lower (fst s) <? lower i then [((lower (fst s), lower i), snd s)] else [])
      ++ (if upper i <? upper (fst s) then [((upper i, upper (fst s)), snd s)] else [])
  else [s].

(** [erase(interval)]. *)
Definition erase (i : SurfaceInterval) (m : list segment) : list segment :=
  if is_empty i then m else flat_map (cut i) m.

(** Insertion of a segment into free space, in address order. *)
Fixpoint place (s : segment) (m : list segment) : list segment :=
  match m with
  | [] => [s]
  | t :: m' => if upper (fst s) <=? lower (fst t) then s :: t :: m' else t :: place s m'
  end.

(** Joining: neighbours that touch and carry equal values are one segment. *)
Definition join_step (s : segment) (acc : list segment) : list segment :=
  match acc with
  | t :: acc' =>
    if (upper (fst s) =? lower (fst t)) && bool_decide (snd s = snd t)
    then ((lower (fst s), upper (fst t)), snd s) :: acc'
    else s :: acc
  | [] => [s]
  end.

Definition join (m : list segment) : list segment := fold_right join_step [] m.

(** [set(segment)]: overwrite the interval with the value. *)
Definition set (s : segment) (m : list segment) : list segment :=
  if is_empty (fst s) then m else join (place s (erase (fst s) m)).

(** [m -= regions] for an interval set [regions]. *)
Definition erase_all {W : Type} (regions : list (SurfaceInterval * W)) (m : list segment)
  : list segment :=
  fold_left (fun acc r => erase (fst r) acc) regions m.

(** The segments that hold the byte [a] with the value [v]. *)
Definition covered (m : list segment) (a : Z) (v : V) : Prop :=
  exists s, In s m /\ within a (fst s) = true /\ snd s = v.

Definition nonempty_segments (m : list segment) : Prop :=
  Forall (fun s => lower (fst s) < upper (fst s)) m.

(** Segments in address order without overlap. *)
Fixpoint ordered (m : list segment) : Prop :=
  match m with
  | s :: (t :: _) as rest => upper (fst s) <= lower (fst t) /\ ordered rest
  | _ => True
  end.

End Segments.

(** [boost::icl::interval_set]: an interval container without values. *)
Definition SurfaceRegions : Type := list (SurfaceInterval * unit).

(** [regions += interval], [regions.insert(interval)]. *)
Definition add_interval (i : SurfaceInterval) (s : SurfaceRegions) : SurfaceRegions :=
  set (i, tt) s.
(** [regions += other]. *)
Definition add_regions (other s : SurfaceRegions) : SurfaceRegions :=
  fold_left (fun acc r => add_interval (fst r) acc) other s.
(** [regions.find(interval)]: the first interval overlapping it. *)
Definition find_interval (i : SurfaceInterval) (s : SurfaceRegions) : option SurfaceInterval :=
  fst <$> head (equal_range i s).
Definition in_regions (s : SurfaceRegions) (a : Z) : Prop := covered s a tt.

(** [std::set] of surface pointers, in pointer order. *)
Fixpoint set_insert (x : Z) (l : list Z) : list Z :=
  match l with
  | [] => [x]
  | y :: l' => if x <? y then x :: l else if x =? y then l else y :: set_insert x l'
  end.
Definition set_remove (x : Z) (l : list Z) : list Z :=
  List.filter (fun y => negb (y =? x)) l.

(** [interval_map<PAddr, SurfaceSet>] with [partial_absorber]: [add] joins
    [x] into the sets over [i], [subtract] removes it and drops the
    segments whose set becomes empty. *)
Definition split_add (i : SurfaceInterval) (x : Z) (s : segment (V := list Z))
  : list (segment (V := list Z)) :=
  if overlaps (fst s) i then
    (if lower (fst s) <? lower i then [((lower (fst s), lower i), snd s)] else [])
      ++ [(intersect (fst s) i, set_insert x (snd s))]
      ++ (if upper i <? upper (fst s) then [((upper i, upper (fst s)), snd s)] else [])
  else [s].

Definition add (i : SurfaceInterval) (x : Z) (m : list (segment (V := list Z)))
  : list (segment (V := list Z)) :=
  if is_empty i then m
  else
    let free := fold_left (fun acc s => erase (fst s) acc) m [(i, [x])] in
    join (fold_right place (flat_map (split_add i x) m) free).

Definition split_subtract (i : SurfaceInterval) (x : Z) (s : segment (V := list Z))
  : list (segment (V := list Z)) :=
  if overlaps (fst s) i then
    (if lower (fst s) <? lower i then [((lower (fst s), lower i), snd s)] else [])
      ++ (match set_remove x (snd s) with
          | [] => []
          | v => [(intersect (fst s) i, v)]
          end)
      ++ (if upper i <? upper (fst s) then [((upper i, upper (fst s)), snd s)] else [])
  else [s].

Definition subtract (i : SurfaceInterval) (x : Z) (m : list (segment (V := list Z)))
  : list (segment (V := list Z)) :=
  if is_empty i then m else join (flat_map (split_subtract i x) m).

End ICL.

Import ICL(SurfaceInterval, SurfaceRegions).

(** ** Surfaces *)

Module ScaleMatch.
Inductive t := Exact | Upscale | Ignore.
End ScaleMatch.

Module MatchFlags.
Inductive t := Invalid | Exact | SubRect | Copy | Expand | TexCopy.
End MatchFlags.

Module SurfaceType.
Inductive t := Color | Texture | Depth | DepthStencil | Fill | Invalid.
End SurfaceType.

Module PixelFormat.
Inductive t :=
| RGBA8 | RGB8 | RGB5A1 | RGB565 | RGBA4 | IA8 | RG8 | I8 | A8 | IA4 | I4 | A4
| ETC1 | ETC1A4 | D16 | D24 | D24S8 | Invalid.
End PixelFormat.

#[global] Instance MatchFlags_eq_dec : EqDecision MatchFlags.t.
Proof. solve_decision. Defined.
#[global] Instance SurfaceType_eq_dec : EqDecision SurfaceType.t.
Proof. solve_decision. Defined.
#[global] Instance ScaleMatch_eq_dec : EqDecision ScaleMatch.t.
Proof. solve_decision. Defined.
#[global] Instance PixelFormat_eq_dec : EqDecision PixelFormat.t.
Proof. solve_decision. Defined.

Module Surface.

Record SurfaceParams := mkSurfaceParams
  { addr : Z; end_ : Z; size : Z;
    width : Z; height : Z; stride : Z;
    res_scale : Z; is_tiled : bool;
    pixel_format : PixelFormat.t; type : SurfaceType.t }.

(** A surface object, as the shared pointers of the cache see it: the
    parameters, the cache membership flag, the stale byte ranges, the fill
    pattern and the validity flags of the watchers attached to it. *)
Record SurfaceObject := mkSurfaceObject
  { params : SurfaceParams;
    registered : bool;
    invalid_regions : SurfaceRegions;
    fill_size : Z;
    fill_data : list Z;
    watchers : list bool }.

Definition set_registered (b : bool) (s : SurfaceObject) : SurfaceObject :=
  mkSurfaceObject (params s) b (invalid_regions s) (fill_size s) (fill_data s) (watchers s).
Definition set_invalid_regions (r : SurfaceRegions) (s : SurfaceObject) : SurfaceObject :=
  mkSurfaceObject (params s) (registered s) r (fill_size s) (fill_data s) (watchers s).

(** Modelled from the spec: [GetInterval] ([surface_params.h] is not among
    the sources): the interval [[addr, end)] that keys a surface. *)
Definition GetInterval (p : SurfaceParams) : SurfaceInterval := (addr p, end_ p).

(** Modelled from the spec: [IsRegionValid] ([surface_base.h] is not among
    the sources): no interval of [invalid_regions] overlaps the region. *)
Definition IsRegionValid (s : SurfaceObject) (interval : SurfaceInterval) : bool :=
  match ICL.find_interval interval (invalid_regions s) with
  | None => true
  | Some _ => false
  end.

(** Modelled from the spec: [IsSurfaceFullyInvalid] ([surface_base.h] is not
    among the sources): the surface is fully invalid when the invalid
    interval found over the surface is all of [[addr, end)]. *)
Definition IsSurfaceFullyInvalid (s : SurfaceObject) : bool :=
  match ICL.find_interval (GetInterval (params s)) (invalid_regions s) with
  | Some i => (ICL.lower i =? addr (params s)) && (ICL.upper i =? end_ (params s))
  | None => false
  end.

(** Modelled from the spec: [InvalidateAllWatcher] ([surface_base.h] is not
    among the sources): every watcher of the surface reports "not
    validated" afterwards. *)
Definition InvalidateAllWatcher (s : SurfaceObject) : SurfaceObject :=
  mkSurfaceObject (params s) (registered s) (invalid_regions s) (fill_size s) (fill_data s)
                  (map (fun _ => false) (watchers s)).

(** [Common::Rectangle<u32>]; the extents are the distances between the
    edges ([common/math_util.h] is not among the sources). *)
Record Rect := mkRect { left : Z; top : Z; right : Z; bottom : Z }.
Definition GetWidth (r : Rect) : Z := Z.abs (right r - left r).
Definition GetHeight (r : Rect) : Z := Z.abs (bottom r - top r).

(** The methods of [SurfaceParams] and [SurfaceBase] that the cache calls
    and whose code is not among the sources. *)
Class SurfaceOps := mkSurfaceOps
  { ExactMatch : SurfaceParams -> SurfaceParams -> bool;
    CanSubRect : SurfaceParams -> SurfaceParams -> bool;
    CanExpand : SurfaceParams -> SurfaceParams -> bool;
    CanTexCopy : SurfaceParams -> SurfaceParams -> bool;
    CanCopy : SurfaceObject -> SurfaceParams -> SurfaceInterval -> bool;
    GetCopyableInterval : SurfaceObject -> SurfaceParams -> SurfaceInterval;
    FromInterval : SurfaceParams -> SurfaceInterval -> SurfaceParams;
    GetScaledRect : SurfaceParams -> Rect;
    GetScaledSubRect : SurfaceParams -> SurfaceParams -> Rect }.

(** The memory subsystem and the backend, as far as the flush and the
    duplication use them: the physical reference at an address, with the
    number of bytes behind it ([None] is the null reference); the bytes in
    guest layout that the swizzle of a downloaded range produces; the blit
    compatibility of two formats. *)
Class Backend := mkBackend
  { GetPhysicalRef : Z -> option Z;
    download_bytes : SurfaceObject -> SurfaceParams -> Z -> Z -> list Z;
    CheckFormatsBlittable : PixelFormat.t -> PixelFormat.t -> bool }.

End Surface.

Import Surface.

(** ** The rasterizer cache *)

Module Cache.

Import ICL.

(** Calls into the backend, in call order. *)
Inductive BackendCall :=
| SurfaceDownload (surface : Z) (interval : SurfaceInterval)
| RuntimeFinish
| CopyTextures (src dst : Z) (src_rect dst_rect : Rect)
| BlitTextures (src dst : Z) (src_rect dst_rect : Rect).

(** A closure of [download_queue], by what it captures. *)
Record Download := mkDownload
  { dl_surface : Z; dl_flush_start : Z; dl_flush_end : Z; dl_flush_info : SurfaceParams }.

(** The cache with what it works on: the surface objects behind the shared
    pointers, keyed by pointer; the rasterizer with its page counters; guest
    memory, byte by byte. *)
Record RasterizerCache := mkCache
  { heap : gmap Z SurfaceObject;
    surface_cache : list (SurfaceInterval * list Z);
    dirty_regions : list (SurfaceInterval * Z);
    remove_surfaces : list Z;
    download_queue : list Download;
    rasterizer : Rasterizer;
    guest_memory : gmap Z Z;
    backend_calls : list BackendCall }.

Definition set_heap (h : gmap Z SurfaceObject) (c : RasterizerCache) : RasterizerCache :=
  mkCache h (surface_cache c) (dirty_regions c) (remove_surfaces c) (download_queue c)
          (rasterizer c) (guest_memory c) (backend_calls c).
Definition set_surface_cache (m : list (SurfaceInterval * list Z)) (c : RasterizerCache)
  : RasterizerCache :=
  mkCache (heap c) m (dirty_regions c) (remove_surfaces c) (download_queue c)
          (rasterizer c) (guest_memory c) (backend_calls c).
Definition set_dirty_regions (m : list (SurfaceInterval * Z)) (c : RasterizerCache)
  : RasterizerCache :=
  mkCache (heap c) (surface_cache c) m (remove_surfaces c) (download_queue c)
          (rasterizer c) (guest_memory c) (backend_calls c).
Definition set_remove_surfaces (l : list Z) (c : RasterizerCache) : RasterizerCache :=
  mkCache (heap c) (surface_cache c) (dirty_regions c) l (download_queue c)
          (rasterizer c) (guest_memory c) (backend_calls c).
Definition set_download_queue (q : list Download) (c : RasterizerCache) : RasterizerCache :=
  mkCache (heap c) (surface_cache c) (dirty_regions c) (remove_surfaces c) q
          (rasterizer c) (guest_memory c) (backend_calls c).
Definition set_rasterizer (r : Rasterizer) (c : RasterizerCache) : RasterizerCache :=
  mkCache (heap c) (surface_cache c) (dirty_regions c) (remove_surfaces c) (download_queue c)
          r (guest_memory c) (backend_calls c).
Definition set_guest_memory (m : gmap Z Z) (c : RasterizerCache) : RasterizerCache :=
  mkCache (heap c) (surface_cache c) (dirty_regions c) (remove_surfaces c) (download_queue c)
          (rasterizer c) m (backend_calls c).
Definition call (e : BackendCall) (c : RasterizerCache) : RasterizerCache :=
  mkCache (heap c) (surface_cache c) (dirty_regions c) (remove_surfaces c) (download_queue c)
          (rasterizer c) (guest_memory c) (backend_calls c ++ [e]).

(** A write through a shared pointer. *)
Definition update_surface (id : Z) (f : SurfaceObject -> SurfaceObject) (c : RasterizerCache)
  : RasterizerCache :=
  match heap c !! id with
  | Some s => set_heap (<[id := f s]> (heap c)) c
  | None => c
  end.

Section WithOps.

Context `{SurfaceOps} `{Backend}.

(** *** FindMatch *)

(** The four locals that hold the best match so far. *)
Record Match := mkMatch
  { match_surface : option Z; match_valid : bool;
    match_scale : Z; match_interval : SurfaceInterval }.

Definition has_flag (f : MatchFlags.t) (find_flags : list MatchFlags.t) : bool :=
  bool_decide (f ∈ find_flags).

(** The lambdas passed to [IsMatch_Helper], by their check type; the one
    of [Copy] asserts that a validate interval was given. *)
Definition match_fn (check_type : MatchFlags.t) (surface : SurfaceObject)
    (params : SurfaceParams) (validate_interval : option SurfaceInterval)
  : option (bool * SurfaceInterval) :=
  match check_type with
  | MatchFlags.Exact =>
    Some (ExactMatch (Surface.params surface) params, GetInterval (Surface.params surface))
  | MatchFlags.SubRect =>
    Some (CanSubRect (Surface.params surface) params, GetInterval (Surface.params surface))
  | MatchFlags.Copy =>
    match validate_interval with
    | None => None
    | Some vi =>
      let copy_interval := GetCopyableInterval surface (FromInterval params vi) in
      let matched := negb (icl_length (intersect copy_interval vi) =? 0)
                     && CanCopy surface params copy_interval in
      Some (matched, copy_interval)
    end
  | MatchFlags.Expand =>
    Some (CanExpand (Surface.params surface) params, GetInterval (Surface.params surface))
  | MatchFlags.TexCopy =>
    Some (CanTexCopy (Surface.params surface) params, GetInterval (Surface.params surface))
  | MatchFlags.Invalid => Some (false, identity_element)
  end.

(** The comparison of a candidate with the best match so far: does the
    candidate replace it? *)
Definition better (scale : Z) (is_valid : bool) (interval : SurfaceInterval) (m : Match)
  : bool :=
  if match_scale m <? scale then true
  else if scale <? match_scale m then false
  else if is_valid && negb (match_valid m) then true
  else if negb (Bool.eqb is_valid (match_valid m)) then false
  else icl_length (match_interval m) <? icl_length interval.

Definition IsMatch_Helper (find_flags : list MatchFlags.t) (match_scale_type : ScaleMatch.t)
    (params : SurfaceParams) (validate_interval : option SurfaceInterval)
    (id : Z) (surface : SurfaceObject) (res_scale_matched is_valid : bool)
    (check_type : MatchFlags.t) (m : Match) : option Match :=
  if negb (has_flag check_type find_flags) then Some m
  else
    match match_fn check_type surface params validate_interval with
    | None => None
    | Some (matched, surface_interval) =>
      if negb matched then Some m
      else if negb res_scale_matched
              && negb (bool_decide (match_scale_type = ScaleMatch.Ignore))
              && negb (bool_decide (type (Surface.params surface) = SurfaceType.Fill))
      then Some m
      else if better (res_scale (Surface.params surface)) is_valid surface_interval m
      then Some (mkMatch (Some id) is_valid (res_scale (Surface.params surface))
                         surface_interval)
      else Some m
    end.

Definition check_types : list MatchFlags.t :=
  [MatchFlags.Exact; MatchFlags.SubRect; MatchFlags.Copy; MatchFlags.Expand;
   MatchFlags.TexCopy].

Definition res_scale_matched (match_scale_type : ScaleMatch.t) (params : SurfaceParams)
    (surface : SurfaceObject) : bool :=
  if bool_decide (match_scale_type = ScaleMatch.Exact)
  then res_scale params =? res_scale (Surface.params surface)
  else res_scale params <=? res_scale (Surface.params surface).

Definition is_valid (find_flags : list MatchFlags.t) (params : SurfaceParams)
    (validate_interval : option SurfaceInterval) (surface : SurfaceObject) : bool :=
  if has_flag MatchFlags.Copy find_flags then true
  else IsRegionValid surface (default (GetInterval params) validate_interval).

(** The body of the inner loop, for the surface behind the pointer [id]. *)
Definition match_surface_step (find_flags : list MatchFlags.t)
    (match_scale_type : ScaleMatch.t) (params : SurfaceParams)
    (validate_interval : option SurfaceInterval) (objects : gmap Z SurfaceObject)
    (m : option Match) (id : Z) : option Match :=
  match m, objects !! id with
  | None, _ => None
  | Some m, None => Some m (* a shared pointer always has its object *)
  | Some m, Some surface =>
    let scale_ok := res_scale_matched match_scale_type params surface in
    let valid := is_valid find_flags params validate_interval surface in
    if negb (has_flag MatchFlags.Invalid find_flags) && negb valid then Some m
    else
      fold_left (fun m check_type =>
                   match m with
                   | None => None
                   | Some m => IsMatch_Helper find_flags match_scale_type params
                                 validate_interval id surface scale_ok valid check_type m
                   end)
                check_types (Some m)
  end.

(** The surfaces that the two nested loops visit, in order. *)
Definition visited (surface_cache : list (SurfaceInterval * list Z))
    (interval : SurfaceInterval) : list Z :=
  flat_map snd (equal_range interval surface_cache).

Definition FindMatch_locals (find_flags : list MatchFlags.t)
    (objects : gmap Z SurfaceObject) (surface_cache : list (SurfaceInterval * list Z))
    (params : SurfaceParams) (match_scale_type : ScaleMatch.t)
    (validate_interval : option SurfaceInterval) : option Match :=
  fold_left (match_surface_step find_flags match_scale_type params validate_interval objects)
            (visited surface_cache (GetInterval params))
            (Some (mkMatch None false 0 identity_element)).

(** [FindMatch<find_flags>]; the outer [None] is a failed assertion, the
    inner one the null surface. *)
Definition FindMatch (find_flags : list MatchFlags.t)
    (objects : gmap Z SurfaceObject) (surface_cache : list (SurfaceInterval * list Z))
    (params : SurfaceParams) (match_scale_type : ScaleMatch.t)
    (validate_interval : option SurfaceInterval) : option (option Z) :=
  match_surface <$> FindMatch_locals find_flags objects surface_cache params
                      match_scale_type validate_interval.

(** *** Downloads *)

Definition write_bytes (start : Z) (bytes : list Z) (mem : gmap Z Z) : gmap Z Z :=
  fold_left (fun mem '(k, b) => <[start + Z.of_nat k := b]> mem)
            (combine (seq 0 (length bytes)) bytes) mem.

Definition read_bytes (start : Z) (n : Z) (mem : gmap Z Z) : list Z :=
  map (fun k => default 0 (mem !! (start + Z.of_nat k))) (seq 0 (Z.to_nat n)).

Definition DownloadSurface (id : Z) (surface : SurfaceObject) (interval : SurfaceInterval)
    (c : RasterizerCache) : option RasterizerCache :=
  let flush_info := FromInterval (params surface) interval in
  let flush_start := lower interval in
  let flush_end := upper interval in
  match ASSERT ((addr (params surface) <=? flush_start)
                && (flush_end <=? end_ (params surface))) with
  | None => None
  | Some _ =>
    let c := call (SurfaceDownload id interval) c in
    match GetPhysicalRef flush_start with
    | None => Some c
    | Some _ =>
      Some (set_download_queue
              (download_queue c ++ [mkDownload id flush_start flush_end flush_info]) c)
    end
  end.

(** The copy loop of [DownloadFillSurface]: pattern copies from [offset]
    on, each cut at [download_size]; [n] bounds the number of copies. *)
Fixpoint fill_copies (n : nat) (dest : Z) (fill : list Z) (fill_size download_size : Z)
    (offset : Z) (mem : gmap Z Z) : gmap Z Z :=
  match n with
  | O => mem
  | S n' =>
    if offset <? download_size then
      let count := Z.min fill_size (download_size - offset) in
      fill_copies n' dest fill fill_size download_size (u32 (offset + fill_size))
                  (write_bytes (dest + offset) (take (Z.to_nat count) fill) mem)
    else mem
  end.

Definition DownloadFillSurface (surface : SurfaceObject) (interval : SurfaceInterval)
    (c : RasterizerCache) : option RasterizerCache :=
  let flush_start := lower interval in
  let flush_end := upper interval in
  match ASSERT ((addr (params surface) <=? flush_start)
                && (flush_end <=? end_ (params surface))) with
  | None => None
  | Some _ =>
    match GetPhysicalRef flush_start with
    | None => Some c
    | Some ref_size =>
      if fill_size surface =? 0 then None (* division by zero *)
      else
        let start_offset := u32 (flush_start - addr (params surface)) in
        let download_size := Z.max 0 (Z.min (u32 (flush_end - flush_start)) (u32 ref_size)) in
        let coarse_start_offset := u32 (start_offset - start_offset mod fill_size surface) in
        let backup_bytes := start_offset mod fill_size surface in
        let mem := guest_memory c in
        let backup_data := read_bytes (flush_start + coarse_start_offset) backup_bytes mem in
        let mem := fill_copies (Z.to_nat download_size) flush_start (fill_data surface)
                               (fill_size surface) download_size coarse_start_offset mem in
        let mem := if negb (backup_bytes =? 0)
                   then write_bytes (flush_start + coarse_start_offset) backup_data mem
                   else mem in
        Some (set_guest_memory mem c)
    end
  end.

(** Running one closure of [download_queue]: the swizzled or converted
    bytes go to guest memory at the flushed range. *)
Definition run_download (c : RasterizerCache) (d : Download) : RasterizerCache :=
  match heap c !! dl_surface d with
  | None => c
  | Some surface =>
    let bytes := download_bytes surface (dl_flush_info d) (dl_flush_start d) (dl_flush_end d) in
    set_guest_memory
      (write_bytes (dl_flush_start d)
                   (take (Z.to_nat (dl_flush_end d - dl_flush_start d)) bytes)
                   (guest_memory c)) c
  end.

(** *** FlushRegion *)

(** The body of the loop over the dirty segments; the second component is
    [flushed_intervals]. *)
Definition flush_segment (size : Z) (flush_interval : SurfaceInterval)
    (flush_surface : option Z) (st : option (RasterizerCache * SurfaceRegions))
    (pair : SurfaceInterval * Z) : option (RasterizerCache * SurfaceRegions) :=
  match st with
  | None => None
  | Some (c, flushed_intervals) =>
    let interval := if size <=? 8 then fst pair else intersect (fst pair) flush_interval in
    let id := snd pair in
    if bool_decide (flush_surface <> None) && negb (bool_decide (flush_surface = Some id))
    then Some (c, flushed_intervals)
    else
      match heap c !! id with
      | None => None
      | Some surface =>
        match ASSERT (IsRegionValid surface interval) with
        | None => None
        | Some _ =>
          match (if bool_decide (type (params surface) = SurfaceType.Fill)
                 then DownloadFillSurface surface interval c
                 else DownloadSurface id surface interval c) with
          | None => None
          | Some c => Some (c, add_interval interval flushed_intervals)
          end
        end
      end
  end.

(** The batch execution of the queued downloads, after the barrier. *)
Definition run_downloads (c : RasterizerCache) : RasterizerCache :=
  match download_queue c with
  | [] => c
  | queue => set_download_queue [] (fold_left run_download queue (call RuntimeFinish c))
  end.

Definition FlushRegion (addr size : Z) (flush_surface : option Z) (c : RasterizerCache)
  : option RasterizerCache :=
  if size =? 0 then Some c
  else
    let flush_interval := (addr, u32 (addr + size)) in
    match fold_left (flush_segment size flush_interval flush_surface)
                    (equal_range flush_interval (dirty_regions c)) (Some (c, [])) with
    | None => None
    | Some (c, flushed_intervals) =>
      let c := run_downloads c in
      Some (set_dirty_regions (erase_all flushed_intervals (dirty_regions c)) c)
    end.

Definition FlushAll (c : RasterizerCache) : option RasterizerCache :=
  FlushRegion 0 4294967295 None c.

(** *** Registration *)

Definition with_rasterizer (f : Rasterizer -> option Rasterizer) (c : RasterizerCache)
  : option RasterizerCache :=
  match f (rasterizer c) with
  | None => None
  | Some r => Some (set_rasterizer r c)
  end.

Definition RegisterSurface (id : Z) (c : RasterizerCache) : option RasterizerCache :=
  match heap c !! id with
  | None => None
  | Some surface =>
    if registered surface then Some c
    else
      let c := update_surface id (set_registered true) c in
      let c := set_surface_cache
                 (ICL.add (GetInterval (params surface)) id (surface_cache c)) c in
      with_rasterizer
        (UpdatePagesCachedCount (addr (params surface)) (size (params surface)) 1) c
  end.

Definition UnregisterSurface (id : Z) (c : RasterizerCache) : option RasterizerCache :=
  match heap c !! id with
  | None => None
  | Some surface =>
    if negb (registered surface) then Some c
    else
      let c := update_surface id (set_registered false) c in
      match with_rasterizer
              (UpdatePagesCachedCount (addr (params surface)) (size (params surface)) (-1)) c
      with
      | None => None
      | Some c =>
        Some (set_surface_cache
                (ICL.subtract (GetInterval (params surface)) id (surface_cache c)) c)
      end
  end.

(** *** Duplication *)

(** [BlitSurfaces]; the result is the cache and the returned flag. *)
Definition BlitSurfaces (src : Z) (src_rect : Rect) (dst : Z) (dst_rect : Rect)
    (c : RasterizerCache) : option (RasterizerCache * bool) :=
  match heap c !! src, heap c !! dst with
  | Some src_surface, Some dst_surface =>
    if negb (CheckFormatsBlittable (pixel_format (params src_surface))
                                   (pixel_format (params dst_surface)))
    then Some (c, false)
    else
      let c := update_surface dst InvalidateAllWatcher c in
      if (GetWidth src_rect =? GetWidth dst_rect)
         && (GetHeight src_rect =? GetHeight dst_rect)
         && (bottom src_rect <? top src_rect)
      then Some (call (CopyTextures src dst src_rect dst_rect) c, true)
      else Some (call (BlitTextures src dst src_rect dst_rect) c, true)
  | _, _ => None
  end.

Definition DuplicateSurface (src dest : Z) (c : RasterizerCache) : option RasterizerCache :=
  match heap c !! src, heap c !! dest with
  | Some src_surface, Some dest_surface =>
    match ASSERT ((addr (params dest_surface) <=? addr (params src_surface))
                  && (end_ (params src_surface) <=? end_ (params dest_surface))) with
    | None => None
    | Some _ =>
      match BlitSurfaces src (GetScaledRect (params src_surface)) dest
                         (GetScaledSubRect (params dest_surface) (params src_surface)) c with
      | None => None
      | Some (c, _) =>
        let src_interval := GetInterval (params src_surface) in
        let c := update_surface dest
                   (fun d => set_invalid_regions (erase src_interval (invalid_regions d)) d) c in
        (* [src_surface->invalid_regions] is read after the write to [dest_surface] *)
        let src_invalid := match heap c !! src with
                           | Some s => invalid_regions s
                           | None => []
                           end in
        let c := update_surface dest
                   (fun d => set_invalid_regions
                               (add_regions src_invalid (invalid_regions d)) d) c in
        let regions :=
          fold_left (fun regions (pair : SurfaceInterval * Z) =>
                       if snd pair =? src then add_interval (fst pair) regions else regions)
                    (equal_range src_interval (dirty_regions c)) [] in
        Some (fold_left (fun c (r : SurfaceInterval * unit) =>
                           set_dirty_regions (set (fst r, dest) (dirty_regions c)) c)
                        regions c)
      end
    end
  | _, _ => None
  end.

(** *** InvalidateRegion *)

(** The body of the loop over the cached surfaces. *)
Definition invalidate_surface (size : Z) (invalid_interval : SurfaceInterval)
    (region_owner : option Z) (c : option RasterizerCache) (id : Z)
  : option RasterizerCache :=
  match c with
  | None => None
  | Some c =>
    if bool_decide (Some id = region_owner) then Some c
    else
      match heap c !! id with
      | None => None
      | Some cached_surface =>
        if bool_decide (region_owner = None) && (size <=? 8) then
          match FlushRegion (addr (params cached_surface))
                            (Surface.size (params cached_surface)) (Some id) c with
          | None => None
          | Some c => Some (set_remove_surfaces (set_insert id (remove_surfaces c)) c)
          end
        else
          let interval := intersect (GetInterval (params cached_surface)) invalid_interval in
          let c := update_surface id
                     (fun s => InvalidateAllWatcher
                                 (set_invalid_regions
                                    (add_interval interval (invalid_regions s)) s)) c in
          match heap c !! id with
          | Some s =>
            if IsSurfaceFullyInvalid s
            then Some (set_remove_surfaces (set_insert id (remove_surfaces c)) c)
            else Some c
          | None => None
          end
      end
  end.

(** The body of the loop over [remove_surfaces]. *)
Definition remove_staged (region_owner : option Z) (c : option RasterizerCache)
    (remove_surface : Z) : option RasterizerCache :=
  match c with
  | None => None
  | Some c =>
    if bool_decide (Some remove_surface = region_owner) then
      match heap c !! remove_surface with
      | None => None
      | Some owner =>
        match FindMatch [MatchFlags.SubRect; MatchFlags.Invalid] (heap c) (surface_cache c)
                        (params owner) ScaleMatch.Ignore None with
        | Some (Some expanded) =>
          match heap c !! expanded with
          | None => None
          | Some expanded_surface =>
            match erase_all (invalid_regions expanded_surface) (invalid_regions owner) with
            | [] =>
              match DuplicateSurface remove_surface expanded c with
              | None => None
              | Some c => UnregisterSurface remove_surface c
              end
            | _ => Some c
            end
          end
        | _ => None (* ASSERT(expanded_surface) *)
        end
      end
    else UnregisterSurface remove_surface c
  end.

Definition InvalidateRegion (addr size : Z) (region_owner : option Z) (c : RasterizerCache)
  : option RasterizerCache :=
  if size =? 0 then Some c
  else
    let invalid_interval := (addr, u32 (addr + size)) in
    let checked :=
      match region_owner with
      | None => Some c
      | Some o =>
        match heap c !! o with
        | None => None
        | Some owner =>
          match ASSERT (negb (bool_decide (type (params owner) = SurfaceType.Texture))
                        && ((Surface.addr (params owner) <=? addr)
                            && (u32 (addr + size) <=? end_ (params owner)))
                        && (width (params owner) =? stride (params owner))) with
          | None => None
          | Some _ =>
            Some (update_surface o
                    (fun s => set_invalid_regions
                                (erase invalid_interval (invalid_regions s)) s) c)
          end
        end
      end in
    match checked with
    | None => None
    | Some c =>
      match fold_left (invalidate_surface size invalid_interval region_owner)
                      (visited (surface_cache c) invalid_interval) (Some c) with
      | None => None
      | Some c =>
        let c := match region_owner with
                 | Some o => set_dirty_regions (set (invalid_interval, o) (dirty_regions c)) c
                 | None => set_dirty_regions (erase invalid_interval (dirty_regions c)) c
                 end in
        match fold_left (remove_staged region_owner) (remove_surfaces c) (Some c) with
        | None => None
        | Some c => Some (set_remove_surfaces [] c)
        end
      end
    end.

(** *** Vocabulary for [FindMatch] *)

(** The surface behind [id] passes the filters of the search and the
    predicate of [check_type], a check type of the flag set, matches it on
    [interval]. *)
Definition check_passes (find_flags : list MatchFlags.t) (match_scale_type : ScaleMatch.t)
    (params : SurfaceParams) (validate_interval : option SurfaceInterval)
    (objects : gmap Z SurfaceObject)
    (id : Z) (surface : SurfaceObject) (check_type : MatchFlags.t)
    (interval : SurfaceInterval) : Prop :=
  objects !! id = Some surface /\
  (has_flag MatchFlags.Invalid find_flags = true
   \/ is_valid find_flags params validate_interval surface = true) /\
  (res_scale_matched match_scale_type params surface = true
   \/ match_scale_type = ScaleMatch.Ignore
   \/ type (Surface.params surface) = SurfaceType.Fill) /\
  has_flag check_type find_flags = true /\
  match_fn check_type surface params validate_interval = Some (true, interval).

(** A candidate of a search: a surface that the loops visit and that
    passes the filters and a predicate of the flag set. *)
Definition candidate (find_flags : list MatchFlags.t) (match_scale_type : ScaleMatch.t)
    (params : SurfaceParams) (validate_interval : option SurfaceInterval)
    (objects : gmap Z SurfaceObject) (surface_cache : list (SurfaceInterval * list Z))
    (id : Z) (surface : SurfaceObject) (interval : SurfaceInterval) : Prop :=
  In id (visited surface_cache (GetInterval params)) /\
  exists check_type,
    check_passes find_flags match_scale_type params validate_interval objects
                 id surface check_type interval.

(** The rank of a match: resolution scale, validity, matched length. *)
Definition rank : Type := Z * bool * Z.

Definition rank_of (find_flags : list MatchFlags.t) (params : SurfaceParams)
    (validate_interval : option SurfaceInterval) (surface : SurfaceObject)
    (interval : SurfaceInterval) : rank :=
  (res_scale (Surface.params surface),
   is_valid find_flags params validate_interval surface,
   icl_length interval).

Definition rank_of_match (m : Match) : rank :=
  (match_scale m, match_valid m, icl_length (match_interval m)).

(** The strict lexicographic order of the tie-break: a larger scale first,
    then valid over invalid, then the longer interval. *)
Definition rank_lt (a b : rank) : Prop :=
  let '(scale_a, valid_a, length_a) := a in
  let '(scale_b, valid_b, length_b) := b in
  scale_a < scale_b
  \/ (scale_a = scale_b /\
      ((valid_a = false /\ valid_b = true)
       \/ (valid_a = valid_b /\ length_a < length_b))).

(** The surface is valid on the whole of the validated interval, which is
    the interval of the request when the search is given none. *)
Definition valid_on_request (params : SurfaceParams)
    (validate_interval : option SurfaceInterval) (surface : SurfaceObject) : bool :=
  IsRegionValid surface (default (GetInterval params) validate_interval).

(** The scale filter of a search: an exact search wants the scale of the
    request, an upscaling search at least that scale, a search that ignores
    the scale takes any; a fill surface passes in any case. *)
Definition scale_passes (match_scale_type : ScaleMatch.t) (params : SurfaceParams)
    (surface : SurfaceObject) : Prop :=
  match match_scale_type with
  | ScaleMatch.Exact => res_scale params = res_scale (Surface.params surface)
  | ScaleMatch.Upscale => res_scale params <= res_scale (Surface.params surface)
  | ScaleMatch.Ignore => True
  end
  \/ type (Surface.params surface) = SurfaceType.Fill.

(** The predicate of a check type matches the surface, on [interval]: the
    interval of the surface for an exact, a sub-rectangle, an expansion and a
    texture-copy match; for a copy match the copyable interval of the
    surface for the validated part of the request, which has to meet the
    validated interval. *)
Definition matches (check_type : MatchFlags.t) (surface : SurfaceObject)
    (params : SurfaceParams) (validate_interval : option SurfaceInterval)
    (interval : SurfaceInterval) : Prop :=
  match check_type with
  | MatchFlags.Exact =>
    ExactMatch (Surface.params surface) params = true
    /\ interval = GetInterval (Surface.params surface)
  | MatchFlags.SubRect =>
    CanSubRect (Surface.params surface) params = true
    /\ interval = GetInterval (Surface.params surface)
  | MatchFlags.Expand =>
    CanExpand (Surface.params surface) params = true
    /\ interval = GetInterval (Surface.params surface)
  | MatchFlags.TexCopy =>
    CanTexCopy (Surface.params surface) params = true
    /\ interval = GetInterval (Surface.params surface)
  | MatchFlags.Copy =>
    exists vi, validate_interval = Some vi /\
      interval = GetCopyableInterval surface (FromInterval params vi) /\
      icl_length (intersect interval vi) <> 0 /\
      CanCopy surface params interval = true
  | MatchFlags.Invalid => False
  end.

(** A candidate of a search, spelled out: the cache map holds the surface
    on a segment that meets the interval of the request; unless the search
    has the flag [Copy] or the flag [Invalid], the surface is valid on the
    validated interval; it passes the scale filter; and the predicate of one
    of the check types of the flag set matches it, on [interval]. *)
Definition search_candidate (find_flags : list MatchFlags.t)
    (match_scale_type : ScaleMatch.t) (params : SurfaceParams)
    (validate_interval : option SurfaceInterval)
    (objects : gmap Z SurfaceObject) (surface_cache : list (SurfaceInterval * list Z))
    (id : Z) (surface : SurfaceObject) (interval : SurfaceInterval) : Prop :=
  (exists seg, In seg surface_cache /\ overlaps (fst seg) (GetInterval params) = true
               /\ In id (snd seg)) /\
  objects !! id = Some surface /\
  (MatchFlags.Copy ∈ find_flags \/ MatchFlags.Invalid ∈ find_flags
   \/ valid_on_request params validate_interval surface = true) /\
  scale_passes match_scale_type params surface /\
  exists check_type,
    check_type ∈ find_flags /\
    matches check_type surface params validate_interval interval.

(** The loop invariant of [FindMatch], for the pairs of a surface and a
    check type that [done] holds of: no such pair that passes outranks the
    best match so far; the best match, if any, is one of them; without a
    match the locals are the initial ones. *)
Definition best_so_far (find_flags : list MatchFlags.t) (match_scale_type : ScaleMatch.t)
    (params : SurfaceParams) (validate_interval : option SurfaceInterval)
    (objects : gmap Z SurfaceObject) (done : Z -> MatchFlags.t -> Prop) (m : Match) : Prop :=
  (forall id surface check_type interval,
      done id check_type ->
      check_passes find_flags match_scale_type params validate_interval objects
                   id surface check_type interval ->
      ~ rank_lt (rank_of_match m)
                (rank_of find_flags params validate_interval surface interval)) /\
  (forall id, match_surface m = Some id ->
      exists surface check_type,
        done id check_type /\
        check_passes find_flags match_scale_type params validate_interval objects
                     id surface check_type (match_interval m) /\
        rank_of find_flags params validate_interval surface (match_interval m)
        = rank_of_match m) /\
  (match_surface m = None -> rank_of_match m = (0, false, 0)).

End WithOps.

(** *** Vocabulary for the properties of the cache *)

(** Two states with the same catalogue: the same surface objects, cache
    map, dirty map, staging set and rasterizer; only the download queue,
    guest memory and the backend log may differ. *)
Definition same_catalog (c c' : RasterizerCache) : Prop :=
  heap c' = heap c /\ surface_cache c' = surface_cache c /\
  dirty_regions c' = dirty_regions c /\ remove_surfaces c' = remove_surfaces c /\
  rasterizer c' = rasterizer c.

(** The dirty segment of [id] passes the filter of [FlushRegion]. *)
Definition flushes (flush_surface : option Z) (id : Z) : bool :=
  negb (bool_decide (flush_surface <> None) && negb (bool_decide (flush_surface = Some id))).

(** The interval that [FlushRegion] downloads for a dirty segment. *)
Definition flushed_interval (size : Z) (flush_interval : SurfaceInterval)
    (pair : SurfaceInterval * Z) : SurfaceInterval :=
  if size <=? 8 then fst pair else intersect (fst pair) flush_interval.

(** *** Invariants of the cache *)

(** The pages of a surface, as [UpdatePagesCachedCount] walks them. *)
Definition first_page (s : SurfaceObject) : Z :=
  Z.shiftr (addr (params s)) CITRA_PAGE_BITS.
Definition end_page (s : SurfaceObject) : Z :=
  Z.shiftr (addr (params s) + size (params s) - 1) CITRA_PAGE_BITS + 1.

(** The number of registered surfaces on a page. *)
Definition on_page (page : Z) (entry : Z * SurfaceObject) : Prop :=
  registered (snd entry) = true /\ first_page (snd entry) <= page < end_page (snd entry).

#[global] Instance on_page_dec page entry : Decision (on_page page entry).
Proof. unfold on_page. apply _. Defined.

Definition holders (objects : gmap Z SurfaceObject) (page : Z) : nat :=
  length (filter (on_page page) (map_to_list objects)).

(** A surface object is well formed: its byte range lies in the 32-bit
    address space and ends at [end]; a fill surface has a pattern. *)
Definition surface_ok (s : SurfaceObject) : Prop :=
  0 <= addr (params s) /\ 0 < size (params s) /\
  addr (params s) + size (params s) < 2 ^ 32 /\
  end_ (params s) = addr (params s) + size (params s) /\
  (type (params s) = SurfaceType.Fill -> fill_size s <> 0).

(** A dirty segment is well formed: its owner exists, contains it and is
    valid on it (the dirty-owner invariant). *)
Definition dirty_ok (objects : gmap Z SurfaceObject) (pair : SurfaceInterval * Z) : Prop :=
  exists s, objects !! snd pair = Some s /\
    addr (params s) <= lower (fst pair) /\ upper (fst pair) <= end_ (params s) /\
    IsRegionValid s (fst pair) = true.

(** The cache map holds the surface [id] on every byte of its interval, as
    [RegisterSurface] leaves it. *)
Definition cached_over (surface_cache : list (SurfaceInterval * list Z)) (id : Z)
    (s : SurfaceObject) : Prop :=
  forall x, within x (GetInterval (params s)) = true ->
    exists seg, In seg surface_cache /\ within x (fst seg) = true /\ In id (snd seg).

(** The invariants of the data model that a CPU invalidation relies on:
    well-formed surfaces; no dangling pointer in the cache map and in the
    staging set; well-formed, disjoint dirty segments; page counters that
    account for every registered surface (the page-count invariant, as a
    lower bound) and fit 16 bits; registered surfaces inside the page
    table and in the cache map. *)
Record cache_ok (c : RasterizerCache) : Prop := mk_cache_ok
  { ok_surfaces : forall id s, heap c !! id = Some s -> surface_ok s;
    ok_cached : forall seg id, In seg (surface_cache c) -> In id (snd seg) ->
                               is_Some (heap c !! id);
    ok_staged : forall id, In id (remove_surfaces c) -> is_Some (heap c !! id);
    ok_dirty : Forall (dirty_ok (heap c)) (dirty_regions c);
    ok_dirty_nonempty : nonempty_segments (dirty_regions c);
    ok_dirty_ordered : ordered (dirty_regions c);
    ok_pages : forall (page : nat) count,
        cached_pages (rasterizer c) !! page = Some count ->
        Z.of_nat (holders (heap c) (Z.of_nat page)) <= count <= 65535;
    ok_table : forall id s, heap c !! id = Some s -> registered s = true ->
                            end_page s <= Z.of_nat (length (cached_pages (rasterizer c)));
    ok_registered : forall id s, heap c !! id = Some s -> registered s = true ->
                                 cached_over (surface_cache c) id s }.

(** What unregistration relies on, of these invariants. *)
Definition pages_ready (c : RasterizerCache) : Prop :=
  (forall id s, heap c !! id = Some s -> surface_ok s) /\
  (forall (page : nat) count,
      cached_pages (rasterizer c) !! page = Some count ->
      Z.of_nat (holders (heap c) (Z.of_nat page)) <= count <= 65535) /\
  (forall id s, heap c !! id = Some s -> registered s = true ->
                end_page s <= Z.of_nat (length (cached_pages (rasterizer c)))).

(** No byte is dirty for two owners. *)
Definition single_owner (dirty : list (SurfaceInterval * Z)) : Prop :=
  forall x v v', covered dirty x v -> covered dirty x v' -> v = v'.

(** Every segment of [dirty'] is a non-empty piece of a segment of [dirty]
    with the same owner. *)
Definition pieces_of (dirty' dirty : list (SurfaceInterval * Z)) : Prop :=
  forall s', In s' dirty' ->
    exists s, In s dirty /\ snd s' = snd s /\
      lower (fst s) <= lower (fst s') /\ upper (fst s') <= upper (fst s) /\
      lower (fst s') < upper (fst s').

(** The surface behind [id] is not registered. *)
Definition unregistered (c : RasterizerCache) (id : Z) : Prop :=
  registered <$> heap c !! id = Some false.

End Cache.

Import Cache.

(** ** Sample inputs *)

Module Samples.

(** A draw of three vertices from vertex 10 on, two loaders in use. *)
Definition sample_pipeline : PipelineRegs :=
  mkPipelineRegs 0 [mkLoader 3 12; mkLoader 0 8; mkLoader 2 6] 0 0 3 10.

Definition f32_one : f32 := f32_of_int 1.

Definition f24 (a : f32) : float24 := mkFloat24 a.

Definition vertex_with_quat (q : Vec4 float24) : OutputVertex :=
  let o := f24 f32_zero in
  mkOutputVertex (mkVec4 o o o o) q (mkVec4 o o o o) (mkVec2 o o) (mkVec2 o o) o
                 (mkVec3 o o o) (mkVec2 o o).

(** Quaternions along the first and the second axis, and the opposite of
    the first. *)
Definition quat_i : Vec4 float24 :=
  mkVec4 (f24 f32_one) (f24 f32_zero) (f24 f32_zero) (f24 f32_zero).
Definition quat_j : Vec4 float24 :=
  mkVec4 (f24 f32_zero) (f24 f32_one) (f24 f32_zero) (f24 f32_zero).
Definition quat_neg_i : Vec4 float24 :=
  mkVec4 (f24 (f32_neg f32_one)) (f24 f32_zero) (f24 f32_zero) (f24 f32_zero).

(** Registers and shadow as they are after a reset: everything zero, the
    shadow clean. *)
Definition zero_color : ColorReg := mkColorReg 0 0 0.
Definition zero_light : LightRegs :=
  mkLightRegs zero_color zero_color zero_color zero_color 0 0 0 0 0 0 0 0.
Definition zero_regs : Regs :=
  mkRegs 0 0 zero_color 0 0 (mkProcTexNoise 0 0) (mkProcTexNoise 0 0) 0 0 0 0
         (vreplicate 6 0) zero_color (vreplicate 8 zero_light) 0 0 0.

Definition zero3 : Vec3f := mkVec3 f32_zero f32_zero f32_zero.
Definition zero2 : Vec2f := mkVec2 f32_zero f32_zero.
Definition zero4 : Vec4f := mkVec4 f32_zero f32_zero f32_zero f32_zero.
Definition zero_light_src : LightSrc :=
  mkLightSrc zero3 zero3 zero3 zero3 zero3 zero3 f32_zero f32_zero.
Definition zero_uniforms : UniformBlockData :=
  mkUniformBlockData
    (mkUniformData f32_zero f32_zero zero3 zero2 zero2 zero2 f32_zero 0 zero4
                   (vreplicate 6 zero4) zero3 (vreplicate 8 zero_light_src)
                   f32_zero f32_zero 0)
    false.

(** A decoder for the raw PICA formats, for the examples: every pattern
    decodes to zero. *)
Definition decode_zero (raw : Z) : float24 := mkFloat24 f32_zero.

(** Modelled from the spec: the match predicates of [SurfaceParams]
    ([surface_params.cpp] is not among the sources), after the section on
    [FindMatch]: an exact match has the same address, dimensions, stride,
    format and tiling; a sub-rectangle match has the request inside the
    candidate, with the same tiling and format; an expansion match shares
    format, tiling and stride and meets the request's interval; a copy source
    is valid on a part of the interval.  The rectangles are not used by the
    samples. *)
Definition same_layout (self other : SurfaceParams) : bool :=
  bool_decide (pixel_format self = pixel_format other)
  && Bool.eqb (is_tiled self) (is_tiled other).

Definition spec_copyable (s : SurfaceObject) (p : SurfaceParams) : SurfaceInterval :=
  match ICL.erase_all (invalid_regions s)
                      [(ICL.intersect (GetInterval (params s)) (GetInterval p), tt)] with
  | r :: _ => fst r
  | [] => ICL.identity_element
  end.

Definition spec_surface_ops : SurfaceOps :=
  mkSurfaceOps
    (fun self other =>
       (addr other =? addr self) && (width other =? width self)
       && (height other =? height self) && (stride other =? stride self)
       && same_layout self other)
    (fun self sub =>
       (addr self <=? addr sub) && (end_ sub <=? end_ self) && same_layout self sub)
    (fun self expanded =>
       same_layout self expanded && (stride self =? stride expanded)
       && negb (ICL.icl_length (ICL.intersect (GetInterval self) (GetInterval expanded)) =? 0))
    (fun self other => (addr self <=? addr other) && (end_ other <=? end_ self))
    (fun s p i => same_layout (params s) p)
    spec_copyable
    (fun p i => mkSurfaceParams (ICL.lower i) (ICL.upper i) (ICL.icl_length i)
                                (width p) (height p) (stride p) (res_scale p) (is_tiled p)
                                (pixel_format p) (type p))
    (fun p => mkRect 0 (height p * res_scale p) (width p * res_scale p) 0)
    (fun p sub => mkRect 0 (height sub * res_scale p) (width sub * res_scale p) 0).

(** A backend for the samples: all of guest memory is backed, a download
    yields bytes of value 238, all formats blit. *)
Definition sample_backend : Backend :=
  mkBackend (fun a => Some (4294967296 - a))
            (fun s info flush_start flush_end => repeat 238 (Z.to_nat (flush_end - flush_start)))
            (fun _ _ => true).

Definition rgba8_surface (addr size width height scale : Z) (invalid : SurfaceRegions)
  : SurfaceObject :=
  mkSurfaceObject
    (mkSurfaceParams addr (addr + size) size width height width scale true
                     PixelFormat.RGBA8 SurfaceType.Color)
    false invalid 0 [] [].

Definition fill_surface (addr size : Z) (data : list Z) (fill_size : Z) : SurfaceObject :=
  mkSurfaceObject
    (mkSurfaceParams addr (addr + size) size 0 0 0 65535 false
                     PixelFormat.Invalid SurfaceType.Fill)
    false [] fill_size data [].

Definition empty_cache (objects : gmap Z SurfaceObject) (pages : nat) : RasterizerCache :=
  mkCache objects [] [] [] [] (mkRasterizer (repeat 0 pages) []) ∅ [].

Definition register_all `{SurfaceOps} `{Backend} (ids : list Z) (c : RasterizerCache)
  : option RasterizerCache :=
  fold_left (fun c id => match c with Some c => RegisterSurface id c | None => None end)
            ids (Some c).

(** Scenario "CPU small write": surface 1 covers [0x200000, 0x210000), is
    fully valid and owns the dirty bytes [0x200000, 0x200020). *)
Definition small_write_cache : RasterizerCache :=
  let objects : gmap Z SurfaceObject :=
    {[ 1 := rgba8_surface 2097152 65536 128 128 1 [] ]} in
  match register_all (H := spec_surface_ops) (H0 := sample_backend) [1]
                     (empty_cache objects 1024) with
  | Some c => set_dirty_regions [((2097152, 2097184), 1)] c
  | None => empty_cache objects 1024
  end.

(** Scenario "fill download": a fill surface with the pattern AB CD over
    [0x300000, 0x300010), dirty on all of it. *)
Definition fill_cache : RasterizerCache :=
  let objects : gmap Z SurfaceObject :=
    {[ 7 := fill_surface 3145728 16 [171; 205; 0; 0] 2 ]} in
  match register_all (H := spec_surface_ops) (H0 := sample_backend) [7]
                     (empty_cache objects 1024) with
  | Some c => set_dirty_regions [((3145728, 3145744), 7)] c
  | None => empty_cache objects 1024
  end.

(** Scenario "staged owner": surface 1 over [0x1000, 0x2000) is staged
    for removal; surface 2 over [0, 0x4000) at scale 2 contains it and is
    stale on [0x3000, 0x4000); surface 3 over [0x1800, 0x2800) at scale 3
    only meets it. *)
Definition staged_owner_params : SurfaceParams :=
  params (rgba8_surface 4096 4096 64 16 1 []).

Definition staged_owner_cache : RasterizerCache :=
  let objects : gmap Z SurfaceObject :=
    {[ 1 := rgba8_surface 4096 4096 64 16 1 [];
       2 := rgba8_surface 0 16384 64 64 2 [((12288, 16384), tt)];
       3 := rgba8_surface 6144 4096 64 16 3 [] ]} in
  match register_all (H := spec_surface_ops) (H0 := sample_backend) [1; 2; 3]
                     (empty_cache objects 16) with
  | Some c => set_remove_surfaces [1] c
  | None => empty_cache objects 16
  end.

(** Scenario "copy search": surface 1 over [0, 0x2000) is invalid on
    [0x1800, 0x2000); surface 2 over [0, 0x1000) is valid; both have the
    scale 1. *)
Definition copy_search_cache : RasterizerCache :=
  let objects : gmap Z SurfaceObject :=
    {[ 1 := rgba8_surface 0 8192 64 32 1 [((6144, 8192), tt)];
       2 := rgba8_surface 0 4096 64 16 1 [] ]} in
  match register_all (H := spec_surface_ops) (H0 := sample_backend) [1; 2]
                     (empty_cache objects 16) with
  | Some c => c
  | None => empty_cache objects 16
  end.

End Samples.

Import Samples.



(** ** Vocabulary for the laws of the page tracker *)

Module TrackerLaws.

(** The pages that [UpdatePagesCachedCount] walks for a byte range that does
    not wrap around. *)
Definition page_start (addr : Z) : Z := Z.shiftr addr CITRA_PAGE_BITS.
Definition page_end (addr size : Z) : Z := Z.shiftr (addr + size - 1) CITRA_PAGE_BITS + 1.

Definition in_pages (addr size : Z) (q : Z) : Prop :=
  page_start addr <= q < page_end addr size.

(** The counter of a page, 0 outside the table. *)
Definition count_at (r : Rasterizer) (page : Z) : Z :=
  default 0 (cached_pages r !! Z.to_nat page).

(** For each of the [n] pages from [page] on: 1 when the counter has the
    value [from], 0 otherwise. *)
Definition at_value (from : Z) (r : Rasterizer) (page : Z) (n : nat) : list Z :=
  map (fun i => if count_at r (page + Z.of_nat i) =? from then 1 else 0) (seq 0 n).

Definition as_cached (cached : bool) (c : MarkCall) : MarkCall :=
  RasterizerMarkRegionCached (mark_addr c) (mark_size c) cached.

(** The notification that is pending when the loop ends. *)
Definition pending (start bytes : Z) (cached : bool) : list MarkCall :=
  if 0 <? bytes then [RasterizerMarkRegionCached start bytes cached] else [].

(** How often a page is to be reported: once when it lies in the walked
    range and its counter had the value [from], never otherwise. *)
Definition reported (from : Z) (r : Rasterizer) (addr size : Z) (q : Z) : nat :=
  if bool_decide (in_pages addr size q)
  then (if count_at r q =? from then 1%nat else 0%nat) else 0%nat.

(** The counters after [delta] was added on the walked range. *)
Definition shifted (delta : Z) (r : Rasterizer) (addr size : Z) (q : nat) : option Z :=
  if bool_decide (in_pages addr size (Z.of_nat q))
  then (fun count => count + delta) <$> cached_pages r !! q
  else cached_pages r !! q.

End TrackerLaws.

Import TrackerLaws.

(** ** More sample inputs *)

Module MoreSamples.

(** A counter table of eight pages; pages 1 and 4 are cached already. *)
Definition sample_tracker : Rasterizer := mkRasterizer [0; 2; 0; 0; 1; 0; 0; 0] [].

(** The table with the pages 1 to 4 cached once more. *)
Definition cached_tracker : Rasterizer := mkRasterizer [0; 3; 1; 1; 2; 0; 0; 0] [].

End MoreSamples.

Import MoreSamples.

(** ** The Vulkan render pass cache ([vk_renderpass_cache.cpp]) *)

Module RenderpassCache.

(** Vulkan handles and formats are numbers; the null handle and
    [vk::Format::eUndefined] are zero. *)
Definition Handle : Type := Z.
Definition Format : Type := Z.
Definition eUndefined : Format := 0.

Inductive AttachmentLoadOp := LoadOp_eLoad | LoadOp_eClear | LoadOp_eDontCare.
Inductive AttachmentStoreOp := StoreOp_eStore | StoreOp_eDontCare.
Inductive ImageLayout := Layout_eUndefined | Layout_eGeneral | Layout_ePresentSrcKHR.

Record AttachmentDescription := mkAttachmentDescription
  { format : Format;
    loadOp : AttachmentLoadOp;
    storeOp : AttachmentStoreOp;
    stencilLoadOp : AttachmentLoadOp;
    stencilStoreOp : AttachmentStoreOp;
    initialLayout : ImageLayout;
    finalLayout : ImageLayout }.

Record AttachmentReference := mkAttachmentReference
  { attachment : Z; layout : ImageLayout }.

(** [vk::AttachmentDescription{}] and [vk::AttachmentReference{}]: every
    member at its zero value. *)
Definition default_description : AttachmentDescription :=
  mkAttachmentDescription eUndefined LoadOp_eLoad StoreOp_eStore LoadOp_eLoad StoreOp_eStore
                          Layout_eUndefined Layout_eUndefined.
Definition default_reference : AttachmentReference :=
  mkAttachmentReference 0 Layout_eUndefined.

Record SubpassDescription := mkSubpassDescription
  { colorAttachmentCount : Z;
    pColorAttachments : AttachmentReference;
    pDepthStencilAttachment : option AttachmentReference }.

Record RenderPassCreateInfo := mkRenderPassCreateInfo
  { attachmentCount : Z;
    pAttachments : list AttachmentDescription; (* std::array<_, 2> *)
    pSubpasses : SubpassDescription }.

(** [CreateRenderPass], up to the call of [device.createRenderPass]: the
    create info that is handed to the device. *)
Definition CreateRenderPass (color depth : Format) (load_op : AttachmentLoadOp)
    (initial_layout final_layout : ImageLayout) : RenderPassCreateInfo :=
  let attachment_count := 0 in
  let attachments := [default_description; default_description] in
  let use_color := false in
  let color_attachment_ref := default_reference in
  let use_depth := false in
  let depth_attachment_ref := default_reference in
  let '(attachment_count, attachments, use_color, color_attachment_ref) :=
    if negb (color =? eUndefined) then
      (u32 (attachment_count + 1),
       <[Z.to_nat attachment_count :=
           mkAttachmentDescription color load_op StoreOp_eStore LoadOp_eDontCare
                                   StoreOp_eDontCare initial_layout final_layout]> attachments,
       true,
       mkAttachmentReference attachment_count Layout_eGeneral)
    else (attachment_count, attachments, use_color, color_attachment_ref) in
  let '(attachment_count, attachments, use_depth, depth_attachment_ref) :=
    if negb (depth =? eUndefined) then
      (u32 (attachment_count + 1),
       <[Z.to_nat attachment_count :=
           mkAttachmentDescription depth load_op StoreOp_eStore load_op StoreOp_eStore
                                   Layout_eGeneral Layout_eGeneral]> attachments,
       true,
       mkAttachmentReference attachment_count Layout_eGeneral)
    else (attachment_count, attachments, use_depth, depth_attachment_ref) in
  mkRenderPassCreateInfo
    attachment_count attachments
    (mkSubpassDescription (if use_color then 1 else 0) color_attachment_ref
                          (if use_depth then Some depth_attachment_ref else None)).

(** [RenderpassState], with the four members that the source reads
    ([vk_renderpass_cache.h] is not among the sources). *)
Record RenderpassState := mkRenderpassState
  { renderpass : Handle; framebuffer : Handle; render_area : Z * Z * Z * Z; clear : Z }.

(** [RenderpassState{}]. *)
Definition no_state : RenderpassState := mkRenderpassState 0 0 (0, 0, 0, 0) 0.

(** What the recorded lambdas do to the render command buffer. *)
Inductive Command :=
| endRenderPass
| beginRenderPass (state : RenderpassState).

(** The scheduler, as far as the cache uses it: the dirty flag of
    [StateFlags::Renderpass] and the commands recorded so far. *)
Record Scheduler := mkScheduler { renderpass_dirty : bool; recorded : list Command }.

Record Cache := mkCache
  { current_state : RenderpassState; scheduler : Scheduler; present_renderpass : Handle }.

Section WithEquality.

(** [operator==] of [RenderpassState], from the same header. *)
Variable state_eq : RenderpassState -> RenderpassState -> bool.

Definition EnterRenderpass (state : RenderpassState) (c : Cache) : Cache :=
  let is_dirty := renderpass_dirty (scheduler c) in
  if state_eq (current_state c) state && negb is_dirty then c
  else
    let should_end := negb (renderpass (current_state c) =? 0) in
    let commands := (if should_end then [endRenderPass] else []) ++ [beginRenderPass state] in
    let s := mkScheduler (renderpass_dirty (scheduler c)) (recorded (scheduler c) ++ commands) in
    let s := if is_dirty then mkScheduler false (recorded s) else s in
    mkCache state s (present_renderpass c).

End WithEquality.

Definition ExitRenderpass (c : Cache) : Cache :=
  if renderpass (current_state c) =? 0 then c
  else
    mkCache no_state
            (mkScheduler (renderpass_dirty (scheduler c))
                         (recorded (scheduler c) ++ [endRenderPass]))
            (present_renderpass c).

(** [CreatePresentRenderpass]; [create] is [device.createRenderPass]. *)
Definition CreatePresentRenderpass (create : RenderPassCreateInfo -> Handle) (format : Format)
    (c : Cache) : Cache :=
  if present_renderpass c =? 0 then
    mkCache (current_state c) (scheduler c)
            (create (CreateRenderPass format eUndefined LoadOp_eClear Layout_eUndefined
                                      Layout_ePresentSrcKHR))
  else c.

(** *** Vocabulary: the bracket structure of a command stream *)

(** The number of render passes that are open after the commands, [None]
    when a pass is begun inside a pass or ended outside one. *)
Definition step_open (open : option nat) (cmd : Command) : option nat :=
  match open, cmd with
  | Some O, beginRenderPass _ => Some 1%nat
  | Some (S O), endRenderPass => Some O
  | _, _ => None
  end.

Definition open_passes (cmds : list Command) : option nat :=
  fold_left step_open cmds (Some O).

(** The operations on the cache, as a client issues them; the scheduler may
    raise its dirty flag between any two of them. *)
Inductive Operation :=
| OpEnter (state : RenderpassState)
| OpExit
| OpSchedulerDirty.

Definition run_operation (state_eq : RenderpassState -> RenderpassState -> bool)
    (c : Cache) (op : Operation) : Cache :=
  match op with
  | OpEnter state => EnterRenderpass state_eq state c
  | OpExit => ExitRenderpass c
  | OpSchedulerDirty =>
    mkCache (current_state c) (mkScheduler true (recorded (scheduler c)))
            (present_renderpass c)
  end.

Definition enters_real_pass (op : Operation) : Prop :=
  match op with
  | OpEnter state => renderpass state <> 0
  | _ => True
  end.

(** The field-wise comparison. *)
Definition same_state (a b : RenderpassState) : bool :=
  (renderpass a =? renderpass b) && (framebuffer a =? framebuffer b)
  && bool_decide (render_area a = render_area b) && (clear a =? clear b).

(** The invariant: the stream is well bracketed and a pass is open exactly
    when the current state has a render pass. *)
Definition balanced (c : Cache) : Prop :=
  open_passes (recorded (scheduler c))
  = Some (if renderpass (current_state c) =? 0 then 0%nat else 1%nat).

End RenderpassCache.

(** ** The D24S8 to R32 compute blit ([vk_blit_helper.cpp]) *)

Module BlitHelper.

(** The body of the compute shader for the invocation
    [gl_GlobalInvocationID.xy = dst_coord]. [depth] gives, for a texel, the
    unsigned integer that [uint(texelFetch(depth, _, 0).x * (exp2(24.0) - 1.0))]
    yields, [stencil] the stencil texel; the result is the pair of the
    destination coordinate and the stored value, 32-bit shifts wrapping. *)
Definition shader_main (depth stencil : Z * Z -> Z) (src_offset : Z * Z) (dst_coord : Z * Z)
  : (Z * Z) * Z :=
  let tex_coord := (fst src_offset + fst dst_coord, snd src_offset + snd dst_coord) in
  let depth_val := depth tex_coord in
  let stencil_val := stencil tex_coord in
  let value := Z.lor stencil_val (u32 (Z.shiftl depth_val 8)) in
  (dst_coord, value).

(** The invocations of [cmdbuf.dispatch(group_count_x, group_count_y, 1)] for
    the local size 8 x 8 x 1 of the shader. *)
Definition invocations (group_count_x group_count_y : Z) : list (Z * Z) :=
  flat_map (fun y => map (fun x => (Z.of_nat x, Z.of_nat y))
                         (seq 0 (Z.to_nat (8 * group_count_x))))
           (seq 0 (Z.to_nat (8 * group_count_y))).

(** The effect of [BlitD24S8ToR32] on the texels of the destination image:
    the dispatch of [blit.src_rect.GetWidth() / 8] by
    [blit.src_rect.GetHeight() / 8] work groups with the push constant
    [src_offset = (blit.src_rect.left, blit.src_rect.bottom)]. *)
Definition BlitD24S8ToR32 (depth stencil : Z * Z -> Z) (src_rect : Rect)
    (color : gmap (Z * Z) Z) : gmap (Z * Z) Z :=
  let src_offset := (left src_rect, bottom src_rect) in
  fold_left (fun image dst_coord =>
               let '(coord, value) := shader_main depth stencil src_offset dst_coord in
               <[coord := value]> image)
            (invocations (GetWidth src_rect / 8) (GetHeight src_rect / 8)) color.

End BlitHelper.

(** ** The packed pipeline state ([vk_pipeline_cache.h]) *)

Module PipelineState.

(** [BitField<Position, Bits, T>] ([common/bit_field.h] is not among the
    sources): the field occupies [Bits] bits of the storage of its union from
    bit [Position] up; [Value] extracts them, [Assign] replaces them by the
    low bits of the value and leaves the other bits of the storage. *)
Record BitField := mkBitField { position : Z; bits : Z }.

#[global] Instance BitField_eq_dec : EqDecision BitField.
Proof. solve_decision. Defined.

Definition mask (f : BitField) : Z := Z.shiftl (Z.ones (bits f)) (position f).

Definition Value (f : BitField) (storage : Z) : Z :=
  Z.shiftr (Z.land storage (mask f)) (position f).

Definition Assign (f : BitField) (value : Z) (storage : Z) : Z :=
  Z.lor (Z.land storage (Z.lnot (mask f))) (Z.land (Z.shiftl value (position f)) (mask f)).

(** A union of bit fields over one storage word: the width of the word and
    the fields in declaration order. *)
Record PackedState := mkPackedState { width : Z; fields : list BitField }.

(** [union RasterizationState] over [u8]. *)
Definition topology := mkBitField 0 2.
Definition cull_mode := mkBitField 4 2.
Definition RasterizationState := mkPackedState 8 [topology; cull_mode].

(** [union DepthStencilState] over [u32]. *)
Definition depth_test_enable := mkBitField 0 1.
Definition depth_write_enable := mkBitField 1 1.
Definition stencil_test_enable := mkBitField 2 1.
Definition depth_compare_op := mkBitField 3 3.
Definition stencil_fail_op := mkBitField 6 3.
Definition stencil_pass_op := mkBitField 9 3.
Definition stencil_depth_fail_op := mkBitField 12 3.
Definition stencil_compare_op := mkBitField 15 3.
Definition DepthStencilState :=
  mkPackedState 32 [depth_test_enable; depth_write_enable; stencil_test_enable;
                    depth_compare_op; stencil_fail_op; stencil_pass_op;
                    stencil_depth_fail_op; stencil_compare_op].

(** [union BlendingState] over [u32]. *)
Definition blend_enable := mkBitField 0 1.
Definition src_color_blend_factor := mkBitField 1 4.
Definition dst_color_blend_factor := mkBitField 5 4.
Definition color_blend_eq := mkBitField 9 3.
Definition src_alpha_blend_factor := mkBitField 12 4.
Definition dst_alpha_blend_factor := mkBitField 16 4.
Definition alpha_blend_eq := mkBitField 20 3.
Definition color_write_mask := mkBitField 23 4.
Definition logic_op := mkBitField 27 4.
Definition BlendingState :=
  mkPackedState 32 [blend_enable; src_color_blend_factor; dst_color_blend_factor;
                    color_blend_eq; src_alpha_blend_factor; dst_alpha_blend_factor;
                    alpha_blend_eq; color_write_mask; logic_op].

(** [union VertexBinding] over [u16]. *)
Definition vb_binding := mkBitField 0 4.
Definition vb_fixed := mkBitField 4 1.
Definition vb_stride := mkBitField 5 11.
Definition VertexBinding := mkPackedState 16 [vb_binding; vb_fixed; vb_stride].

(** [union VertexAttribute] over [u32]. *)
Definition va_binding := mkBitField 0 4.
Definition va_location := mkBitField 4 4.
Definition va_type := mkBitField 8 3.
Definition va_size := mkBitField 11 3.
Definition va_offset := mkBitField 14 11.
Definition VertexAttribute :=
  mkPackedState 32 [va_binding; va_location; va_type; va_size; va_offset].

Definition packed_states : list PackedState :=
  [RasterizationState; DepthStencilState; BlendingState; VertexBinding; VertexAttribute].

(** The part of [PipelineInfo] that [IsDepthWriteEnabled] reads. *)
Record PipelineInfo := mkPipelineInfo
  { depth_attachment : PixelFormat.t;
    depth_stencil : Z;          (* DepthStencilState::value *)
    stencil_write_mask : Z }.   (* dynamic.stencil_write_mask *)

Definition IsDepthWriteEnabled (info : PipelineInfo) : bool :=
  let has_stencil := bool_decide (depth_attachment info = PixelFormat.D24S8) in
  let depth_write :=
    negb (Value depth_test_enable (depth_stencil info) =? 0)
    && negb (Value depth_write_enable (depth_stencil info) =? 0) in
  let stencil_write :=
    has_stencil && negb (Value stencil_test_enable (depth_stencil info) =? 0)
    && negb (stencil_write_mask info =? 0) in
  depth_write || stencil_write.

(** *** Vocabulary: fields that share no bit *)

Definition apart (f g : BitField) : bool :=
  (position f + bits f <=? position g) || (position g + bits g <=? position f).

Definition fits (w : Z) (f : BitField) : bool :=
  (0 <=? position f) && (0 <? bits f) && (position f + bits f <=? w).

End PipelineState.

(** ** Vocabulary for the laws of the surface cache *)

Module CacheLaws.

Import ICL.

(** The cache map holds the surface [id] on the byte [x]. *)
Definition holds (surface_cache : list (SurfaceInterval * list Z)) (x id : Z) : Prop :=
  exists seg, In seg surface_cache /\ within x (fst seg) = true /\ In id (snd seg).

(** The surface objects [h'] come from [h] by marking more bytes invalid:
    same surfaces, same parameters, registration and fill pattern, and every
    byte that was invalid still is. *)
Definition grown (h h' : gmap Z SurfaceObject) : Prop :=
  forall id,
    match h !! id, h' !! id with
    | Some s, Some s' =>
      params s' = params s /\ registered s' = registered s /\
      fill_size s' = fill_size s /\
      (forall x, covered (invalid_regions s) x tt -> covered (invalid_regions s') x tt)
    | None, None => True
    | _, _ => False
    end.

(** The surface objects [h'] differ from [h] in registration flags only. *)
Definition reflagged (h h' : gmap Z SurfaceObject) : Prop :=
  forall id,
    match h !! id, h' !! id with
    | Some s, Some s' =>
      params s' = params s /\ invalid_regions s' = invalid_regions s /\
      (registered s = false -> registered s' = false)
    | None, None => True
    | _, _ => False
    end.

(** The surface that a write which is not a small write of the CPU marks
    invalid on the written part of its interval. *)
Definition marked (interval : SurfaceInterval) (s : SurfaceObject) : SurfaceObject :=
  InvalidateAllWatcher
    (set_invalid_regions
       (add_interval (intersect (GetInterval (params s)) interval) (invalid_regions s)) s).

(** Every surface object keeps non-empty invalid intervals. *)
Definition invalid_nonempty (h : gmap Z SurfaceObject) : Prop :=
  forall id s, h !! id = Some s -> nonempty_segments (invalid_regions s).

(** The byte of guest memory at the address [a]. *)
Definition byte_at (mem : gmap Z Z) (a : Z) : Z := default 0 (mem !! a).

#[global] Instance surface_ok_dec s : Decision (surface_ok s).
Proof. unfold surface_ok. apply _. Defined.

#[global] Instance dirty_ok_dec objects pair : Decision (dirty_ok objects pair).
Proof.
  unfold dirty_ok.
  destruct (objects !! snd pair) as [s|] eqn:Hs.
  - destruct (decide (addr (params s) <= lower (fst pair) /\
                      upper (fst pair) <= end_ (params s) /\
                      IsRegionValid s (fst pair) = true)) as [Hyes|Hno].
    + left. exists s. split; [reflexivity | exact Hyes].
    + right. intros (s' & [= <-] & Hrest). exact (Hno Hrest).
  - right. intros (s' & [=] & _).
Defined.

End CacheLaws.

Import CacheLaws.

(** ** Sample caches for the laws of the surface cache *)

Module CacheSamples.

(** An unregistered RGBA8 surface over [0x1000, 0x3000) in an empty cache
    with a table of eight pages. *)
Definition fresh_surface : SurfaceObject := rgba8_surface 4096 8192 64 32 1 [].

Definition fresh_cache : RasterizerCache := empty_cache {[ 1 := fresh_surface ]} 8.

(** Scenario "duplication": the caches of the scenario "staged owner",
    with dirty bytes of surface 1 on [0x1000, 0x1068) and of surface 3 on
    [0x1f40, 0x2328). *)
Definition duplicate_cache : RasterizerCache :=
  set_dirty_regions [((4096, 4200), 1); ((8000, 9000), 3)] staged_owner_cache.

End CacheSamples.

Import CacheSamples.

(** ** Vocabulary for the write-back of a flush *)

Module FlushLaws.

Import ICL.

(** The last of the writes [w j], in the order of the list, that reaches
    the byte [x]. *)
Fixpoint overlay {J : Type} (w : J -> Z -> option Z) (js : list J) (x : Z) : option Z :=
  match js with
  | [] => None
  | j :: rest =>
    match overlay w rest x with
    | Some v => Some v
    | None => w j x
    end
  end.

(** The dirty segments of the surface [id], in address order. *)
Definition owned_segments (id : Z) (dirty : list (SurfaceInterval * Z))
  : list SurfaceInterval :=
  map fst (List.filter (fun p => snd p =? id) dirty).

(** What a fill surface needs for its pattern to be laid out as the code
    intends: a pattern of [fill_size] bytes and no wrap-around of the
    offsets. *)
Definition fill_ready (S : SurfaceObject) : Prop :=
  type (params S) = SurfaceType.Fill ->
  0 < fill_size S <= Z.of_nat (length (fill_data S)) /\
  end_ (params S) + fill_size S <= 2 ^ 32.

Section WithBackend.

Context `{SurfaceOps} `{Backend}.

(** Guest memory is backed at the start of the segment. *)
Definition backed (j : SurfaceInterval) : bool :=
  match GetPhysicalRef (lower j) with
  | Some _ => true
  | None => false
  end.

(** The bytes that the queued download of the segment [j] of the surface
    [S] writes from the start of the segment on: the swizzled bytes, cut at
    the length of the segment. *)
Definition downloaded (S : SurfaceObject) (j : SurfaceInterval) : list Z :=
  take (Z.to_nat (upper j - lower j))
       (download_bytes S (FromInterval (params S) j) (lower j) (upper j)).

(** What the flush of the dirty segment [j] of the surface [S] puts into
    the byte [x] of guest memory; [None] when it leaves the byte as it is.
    Nothing is written without memory behind the start of the segment.  A
    fill surface has its pattern written from twice the offset of the
    segment in the surface on, up to the end of the segment or of the memory
    reference; any other surface has the downloaded bytes written from the
    start of the segment on. *)
Definition written_back (S : SurfaceObject) (j : SurfaceInterval) (x : Z) : option Z :=
  match GetPhysicalRef (lower j) with
  | None => None
  | Some ref_size =>
    if bool_decide (type (params S) = SurfaceType.Fill) then
      if (lower j + (lower j - addr (params S)) <=? x)
         && (x <? lower j + Z.min (upper j - lower j) ref_size)
      then Some (nth (Z.to_nat ((x - lower j) mod fill_size S)) (fill_data S) 0)
      else None
    else
      if (lower j <=? x) && (x <? lower j + Z.of_nat (length (downloaded S j)))
      then Some (nth (Z.to_nat (x - lower j)) (downloaded S j) 0)
      else None
  end.

(** The state after the download that the loop of [FlushRegion] starts for
    the segment [j] of the surface [S]. *)
Definition download_segment (id : Z) (S : SurfaceObject) (c : RasterizerCache)
    (j : SurfaceInterval) : RasterizerCache :=
  default c (if bool_decide (type (params S) = SurfaceType.Fill)
             then DownloadFillSurface S j c
             else DownloadSurface id S j c).

(** The segments of a surface among well-formed dirty segments. *)
Definition owned_ok (id : Z) (S : SurfaceObject) (l : list (SurfaceInterval * Z)) : Prop :=
  forall p, In p l -> snd p = id ->
    lower (fst p) < upper (fst p) /\
    addr (params S) <= lower (fst p) /\ upper (fst p) <= end_ (params S) /\
    IsRegionValid S (fst p) = true /\
    (forall r, GetPhysicalRef (lower (fst p)) = Some r -> 0 <= r < 2 ^ 32).

(** A segment of the surface that the flush can download. *)
Definition flushable (S : SurfaceObject) (j : SurfaceInterval) : Prop :=
  addr (params S) <= lower j /\ lower j <= upper j <= end_ (params S) /\
  forall r, GetPhysicalRef (lower j) = Some r -> 0 <= r < 2 ^ 32.

End WithBackend.

End FlushLaws.

Import FlushLaws.

(** * Properties *)

(** ** Machine integers *)

Lemma u32_small z : 0 <= z < 2 ^ 32 -> u32 z = z.
Proof. intros H. unfold u32, wrap. now apply Z.mod_small. Qed.

Lemma u16_small z : 0 <= z < 2 ^ 16 -> u16 z = z.
Proof. intros H. unfold u16, wrap. now apply Z.mod_small. Qed.

Lemma u32_range z : 0 <= u32 z < 2 ^ 32.
Proof. unfold u32, wrap. apply Z.mod_pos_bound. lia. Qed.

Example page_tracker_cached :
  UpdatePagesCachedCount 4096 12288 1 (mkRasterizer (repeat 0 8) [])
  = Some (mkRasterizer [0;1;1;1;0;0;0;0] [RasterizerMarkRegionCached 4096 12288 true]).
Proof. reflexivity. Qed.

(** ** Page tracker *)

(** C1: on a table whose counters are all zero, caching the byte range
    [0x1000, 0x4000) notifies the memory subsystem exactly once, for the whole
    range with [cached = true]; uncaching it next notifies exactly once, for
    the same range with [cached = false], and leaves every counter at zero. *)
Theorem page_tracker_zero_one_zero (n : nat) (log : list MarkCall) :
  let r0 := mkRasterizer (repeat 0 (4 + n)%nat) log in
  exists r1 r2,
    UpdatePagesCachedCount 4096 12288 1 r0 = Some r1 /\
    mark_calls r1 = log ++ [RasterizerMarkRegionCached 4096 12288 true] /\
    UpdatePagesCachedCount 4096 12288 (-1) r1 = Some r2 /\
    mark_calls r2 = mark_calls r1 ++ [RasterizerMarkRegionCached 4096 12288 false] /\
    cached_pages r2 = repeat 0 (4 + n)%nat.
Proof.
  intros r0. subst r0.
  exists (mkRasterizer (0 :: 1 :: 1 :: 1 :: repeat 0 n)
                       (log ++ [RasterizerMarkRegionCached 4096 12288 true])).
  exists (mkRasterizer (repeat 0 (4 + n)%nat)
                       ((log ++ [RasterizerMarkRegionCached 4096 12288 true])
                          ++ [RasterizerMarkRegionCached 4096 12288 false])).
  repeat split; vm_compute; reflexivity.
Qed.

Lemma clear_pages_runs counts : forall page start bytes r,
  let '(s, b, r') := clear_pages counts page start bytes r in
  cached_pages r' = cached_pages r /\
  mark_calls (if 0 <? b then emit (RasterizerMarkRegionCached s b false) r' else r')
  = mark_calls r ++ clear_runs counts page start bytes.
Proof.
  induction counts as [|count rest IH]; intros page start bytes r; simpl.
  - split; [reflexivity|]. destruct (0 <? bytes); simpl; [reflexivity|].
    now rewrite app_nil_r.
  - destruct (negb (count =? 0)).
    + apply IH.
    + destruct (0 <? bytes).
      * specialize (IH (u32 (page + 1)) start 0
                       (emit (RasterizerMarkRegionCached start bytes false) r)).
        destruct (clear_pages rest _ _ _ _) as [[s b] r'].
        destruct IH as [Hp Hc]. split; [exact Hp|].
        rewrite Hc. simpl. now rewrite <- app_assoc.
      * apply IH.
Qed.

Lemma times_covered_cons c cs q :
  times_covered (c :: cs) q
  = ((if covers c q then 1 else 0) + times_covered cs q)%nat.
Proof. unfold times_covered. simpl. now destruct (covers c q). Qed.

Lemma covers_run page k q :
  covers (RasterizerMarkRegionCached (CITRA_PAGE_SIZE * (page - k)) (CITRA_PAGE_SIZE * k) false) q
  = bool_decide (page - k <= q < page).
Proof.
  unfold covers, CITRA_PAGE_SIZE. simpl.
  case_bool_decide as H.
  - apply andb_true_iff. split; [apply Z.leb_le | apply Z.ltb_lt]; lia.
  - apply andb_false_iff.
    destruct (Z_le_gt_dec (page - k) q); [right; apply Z.ltb_ge | left; apply Z.leb_gt]; lia.
Qed.

Lemma clear_runs_start_irrelevant rest : forall page s1 s2,
  clear_runs rest page s1 0 = clear_runs rest page s2 0.
Proof.
  induction rest as [|c rest IH]; intros page s1 s2; simpl; [reflexivity|].
  destruct (negb (c =? 0)); [reflexivity | apply IH].
Qed.

Lemma lookup_shift (count : Z) rest page q :
  page < q ->
  (count :: rest) !! Z.to_nat (q - page) = rest !! Z.to_nat (q - (page + 1)).
Proof.
  intros Hq. replace (Z.to_nat (q - page)) with (S (Z.to_nat (q - (page + 1)))) by lia.
  reflexivity.
Qed.

(** Pages before [page] are not described by the entries from [page] on. *)
Lemma lookup_before (counts : list Z) page q :
  q < page ->
  match counts !! Z.to_nat (q - page) with
  | Some c => if (page <=? q) && negb (c =? 0) then 1%nat else 0%nat
  | None => 0%nat
  end = 0%nat.
Proof.
  intros Hq. replace (page <=? q) with false by (symmetry; apply Z.leb_gt; lia).
  now destruct (counts !! _).
Qed.

(** What the loop of [ClearAll] emits from [page] on, with [k] pages of a
    nonzero run pending. *)
Lemma clear_runs_spec counts : forall page k,
  0 <= k <= page -> page + Z.of_nat (length counts) < 2 ^ 20 ->
  let cs := clear_runs counts page (CITRA_PAGE_SIZE * (page - k)) (CITRA_PAGE_SIZE * k) in
  Forall (fun c => mark_cached c = false) cs /\
  Forall (fun c => CITRA_PAGE_SIZE * (page - k) <= mark_addr c) cs /\
  separated cs /\
  forall q, times_covered cs q
            = if bool_decide (page - k <= q < page) then 1%nat
              else match counts !! Z.to_nat (q - page) with
                   | Some c => if (page <=? q) && negb (c =? 0) then 1%nat else 0%nat
                   | None => 0%nat
                   end.
Proof.
  induction counts as [|count rest IH]; intros page k Hk Hlen; simpl in Hlen.
  - simpl. destruct (0 <? CITRA_PAGE_SIZE * k) eqn:Hb.
    + repeat split; try (constructor; [simpl; lia || reflexivity | constructor]).
      intros q. rewrite times_covered_cons, covers_run.
      case_bool_decide; reflexivity.
    + apply Z.ltb_ge in Hb. unfold CITRA_PAGE_SIZE in Hb.
      repeat split; try constructor.
      intros q. case_bool_decide; [lia | reflexivity].
  - assert (Hp1 : u32 (page + 1) = page + 1) by (apply u32_small; lia).
    cbn [clear_runs]. rewrite Hp1.
    destruct (count =? 0) eqn:Hc; cbn [negb].
    + (* a zero counter ends the pending run, if any *)
      specialize (IH (page + 1) 0 ltac:(lia) ltac:(lia)). cbv zeta in IH.
      replace (CITRA_PAGE_SIZE * 0) with 0 in IH by reflexivity.
      destruct IH as (Hf & Ha & Hs & Hq).
      assert (Hrest : forall q,
                times_covered (clear_runs rest (page + 1)
                                 (CITRA_PAGE_SIZE * (page + 1 - 0)) 0) q
                = match (count :: rest) !! Z.to_nat (q - page) with
                  | Some c => if (page <=? q) && negb (c =? 0) then 1%nat else 0%nat
                  | None => 0%nat
                  end).
      { intros q. rewrite Hq. rewrite bool_decide_eq_false_2 by lia.
        destruct (Z_lt_le_dec q page) as [Hlt|Hge].
        - rewrite !lookup_before by lia. reflexivity.
        - destruct (Z.eq_dec q page) as [->|Hne].
          + rewrite lookup_before by lia.
            replace (Z.to_nat (page - page)) with 0%nat by lia. simpl.
            rewrite Hc. now rewrite andb_false_r.
          + rewrite lookup_shift by lia.
            replace (page <=? q) with true by (symmetry; apply Z.leb_le; lia).
            replace (page + 1 <=? q) with true by (symmetry; apply Z.leb_le; lia).
            reflexivity. }
      destruct (0 <? CITRA_PAGE_SIZE * k) eqn:Hb.
      * apply Z.ltb_lt in Hb. unfold CITRA_PAGE_SIZE in Hb.
        rewrite (clear_runs_start_irrelevant rest (page + 1) _
                   (CITRA_PAGE_SIZE * (page + 1 - 0))).
        repeat split.
        -- constructor; [reflexivity | exact Hf].
        -- constructor; [simpl; lia|].
           eapply Forall_impl; [exact Ha|]. unfold CITRA_PAGE_SIZE. simpl. intros; lia.
        -- destruct (clear_runs rest _ _ 0) as [|c2 cs'] eqn:Hcs; [exact I|].
           split; [|exact Hs].
           apply Forall_cons in Ha. destruct Ha as [Ha _].
           unfold CITRA_PAGE_SIZE in *. simpl in *. lia.
        -- intros q. rewrite times_covered_cons, covers_run, Hrest.
           case_bool_decide as H1; [|reflexivity].
           rewrite lookup_before by lia. reflexivity.
      * apply Z.ltb_ge in Hb. unfold CITRA_PAGE_SIZE in Hb.
        assert (k = 0) by lia. subst k.
        rewrite (clear_runs_start_irrelevant rest (page + 1) _
                   (CITRA_PAGE_SIZE * (page + 1 - 0))).
        repeat split; [exact Hf | | exact Hs |].
        -- eapply Forall_impl; [exact Ha|]. unfold CITRA_PAGE_SIZE. simpl. intros; lia.
        -- intros q. rewrite Hrest. rewrite bool_decide_eq_false_2 by lia. reflexivity.
    + (* a nonzero counter extends the pending run *)
      assert (Hstart : (if CITRA_PAGE_SIZE * k =? 0
                        then u32 (Z.shiftl page CITRA_PAGE_BITS)
                        else CITRA_PAGE_SIZE * (page - k))
                       = CITRA_PAGE_SIZE * (page + 1 - (k + 1))).
      { destruct (CITRA_PAGE_SIZE * k =? 0) eqn:Hz.
        - apply Z.eqb_eq in Hz. unfold CITRA_PAGE_SIZE in Hz. assert (k = 0) by lia. subst k.
          rewrite Z.shiftl_mul_pow2 by (unfold CITRA_PAGE_BITS; lia).
          unfold CITRA_PAGE_BITS, CITRA_PAGE_SIZE. rewrite u32_small by lia. lia.
        - f_equal. lia. }
      assert (Hbytes : u32 (CITRA_PAGE_SIZE * k + CITRA_PAGE_SIZE) = CITRA_PAGE_SIZE * (k + 1)).
      { unfold CITRA_PAGE_SIZE. rewrite u32_small by lia. lia. }
      rewrite Hstart, Hbytes.
      specialize (IH (page + 1) (k + 1) ltac:(lia) ltac:(lia)). cbv zeta in IH.
      destruct IH as (Hf & Ha & Hs & Hq).
      repeat split; [exact Hf | | exact Hs |].
      * eapply Forall_impl; [exact Ha|]. unfold CITRA_PAGE_SIZE. simpl. intros; lia.
      * intros q. rewrite Hq.
        case_bool_decide as H1; case_bool_decide as H2; try lia.
        -- assert (q = page) by lia. subst q.
           replace (Z.to_nat (page - page)) with 0%nat by lia. simpl.
           replace (page <=? page) with true by (symmetry; apply Z.leb_le; lia).
           now rewrite Hc.
        -- destruct (Z_lt_le_dec q page) as [Hlt|Hge].
           ++ rewrite !lookup_before by lia. reflexivity.
           ++ rewrite lookup_shift by lia.
              replace (page <=? q) with true by (symmetry; apply Z.leb_le; lia).
              replace (page + 1 <=? q) with true by (symmetry; apply Z.leb_le; lia).
              reflexivity.
Qed.

Lemma reports_run_iff P Q c :
  (forall q, P q <-> Q q) -> reports_run P c -> reports_run Q c.
Proof.
  intros Hiff (first & n & Hn & Ha & Hs & Hin & Hlo & Hhi).
  exists first, n. repeat split; try assumption.
  - intros q Hq. apply Hiff. now apply Hin.
  - now rewrite <- Hiff.
  - now rewrite <- Hiff.
Qed.

(** A run of pages above [lo] is a maximal run of [Q] when it is one of
    [P] and the two agree from [lo] on. *)
Lemma reports_run_above lo P Q c :
  (forall q, P q -> lo < q) -> (forall q, lo <= q -> (P q <-> Q q)) ->
  reports_run P c -> reports_run Q c.
Proof.
  intros Habove Hiff (first & n & Hn & Ha & Hs & Hin & Hlo & Hhi).
  assert (Hfirst : lo < first) by (apply Habove, Hin; lia).
  exists first, n. repeat split; try assumption.
  - intros q Hq. apply Hiff; [lia|]. now apply Hin.
  - rewrite <- Hiff by lia. exact Hlo.
  - rewrite <- Hiff by lia. exact Hhi.
Qed.

Lemma to_report_zero count rest page q :
  count = 0 -> page <= q ->
  (to_report rest (page + 1) 0 q <-> to_report (count :: rest) page 0 q).
Proof.
  intros -> Hq. unfold to_report. split.
  - intros [?|[Hge (c & Hc & Hnz)]]; [lia|]. right. split; [lia|].
    exists c. split; [|exact Hnz]. now rewrite lookup_shift by lia.
  - intros [?|[_ (c & Hc & Hnz)]]; [lia|].
    destruct (Z.eq_dec q page) as [->|Hne].
    + replace (Z.to_nat (page - page)) with 0%nat in Hc by lia. cbn in Hc. congruence.
    + right. split; [lia|]. exists c. split; [|exact Hnz].
      now rewrite lookup_shift in Hc by lia.
Qed.

Lemma to_report_nonzero count rest page k q :
  count <> 0 -> 0 <= k ->
  (to_report rest (page + 1) (k + 1) q <-> to_report (count :: rest) page k q).
Proof.
  intros Hcount Hk. unfold to_report. split.
  - intros [Hq|[Hge (c & Hc & Hnz)]].
    + destruct (Z.eq_dec q page) as [->|Hne]; [|left; lia].
      right. split; [lia|]. exists count. split; [|exact Hcount].
      now replace (Z.to_nat (page - page)) with 0%nat by lia.
    + right. split; [lia|]. exists c. split; [|exact Hnz]. now rewrite lookup_shift by lia.
  - intros [Hq|[Hge (c & Hc & Hnz)]]; [left; lia|].
    destruct (Z.eq_dec q page) as [->|Hne]; [left; lia|].
    right. split; [lia|]. exists c. split; [|exact Hnz].
    now rewrite lookup_shift in Hc by lia.
Qed.

(** Every notification of the loop of [ClearAll] is a maximal run of the
    pages it has yet to report. *)
Lemma clear_runs_reports counts : forall page k,
  0 <= k <= page -> page + Z.of_nat (length counts) < 2 ^ 20 ->
  Forall (reports_run (to_report counts page k))
         (clear_runs counts page (CITRA_PAGE_SIZE * (page - k)) (CITRA_PAGE_SIZE * k)).
Proof.
  induction counts as [|count rest IH]; intros page k Hk Hlen; simpl in Hlen.
  - cbn [clear_runs]. destruct (0 <? CITRA_PAGE_SIZE * k) eqn:Hb; [|constructor].
    apply Z.ltb_lt in Hb. unfold CITRA_PAGE_SIZE in Hb.
    constructor; [|constructor]. exists (page - k), k. cbn [mark_addr mark_size].
    unfold to_report.
    split; [lia|]. split; [reflexivity|]. split; [reflexivity|]. split; [|split].
    + intros q Hq. left. lia.
    + intros [?|[? _]]; lia.
    + intros [?|[_ (c & Hc & _)]]; [lia|]. now rewrite lookup_nil in Hc.
  - assert (Hp1 : u32 (page + 1) = page + 1) by (apply u32_small; lia).
    cbn [clear_runs]. rewrite Hp1.
    destruct (count =? 0) eqn:Hc; cbn [negb].
    + apply Z.eqb_eq in Hc.
      assert (Htail : Forall (reports_run (to_report (count :: rest) page k))
                             (clear_runs rest (page + 1) (CITRA_PAGE_SIZE * (page - k)) 0)).
      { rewrite (clear_runs_start_irrelevant rest (page + 1) _
                   (CITRA_PAGE_SIZE * (page + 1 - 0))).
        specialize (IH (page + 1) 0 ltac:(lia) ltac:(lia)).
        change (CITRA_PAGE_SIZE * 0) with 0 in IH.
        eapply Forall_impl; [exact IH|]. intros c.
        apply (reports_run_above page).
        - unfold to_report. intros q [?|[? _]]; lia.
        - intros q Hq. rewrite (to_report_zero count rest page q Hc Hq).
          unfold to_report. split; [intros [?|?]; [lia | now right]|].
          intros [?|[Hge (c0 & Hc0 & Hnz)]]; [lia|]. right. split; [lia|]. now exists c0. }
      destruct (0 <? CITRA_PAGE_SIZE * k) eqn:Hb.
      2:{ apply Z.ltb_ge in Hb. unfold CITRA_PAGE_SIZE in Hb.
          assert (k = 0) by lia. subst k. exact Htail. }
      apply Z.ltb_lt in Hb. unfold CITRA_PAGE_SIZE in Hb.
      constructor; [|exact Htail].
      exists (page - k), k. cbn [mark_addr mark_size]. unfold to_report.
      split; [lia|]. split; [reflexivity|]. split; [reflexivity|]. split; [|split].
      * intros q Hq. left. lia.
      * intros [?|[? _]]; lia.
      * intros [?|[_ (c & Hlook & Hnz)]]; [lia|].
        replace (Z.to_nat (page - k + k - page)) with 0%nat in Hlook by lia.
        cbn in Hlook. congruence.
    + apply Z.eqb_neq in Hc.
      assert (Hstart : (if CITRA_PAGE_SIZE * k =? 0
                        then u32 (Z.shiftl page CITRA_PAGE_BITS)
                        else CITRA_PAGE_SIZE * (page - k))
                       = CITRA_PAGE_SIZE * (page + 1 - (k + 1))).
      { destruct (CITRA_PAGE_SIZE * k =? 0) eqn:Hz.
        - apply Z.eqb_eq in Hz. unfold CITRA_PAGE_SIZE in Hz. assert (k = 0) by lia. subst k.
          rewrite Z.shiftl_mul_pow2 by (unfold CITRA_PAGE_BITS; lia).
          unfold CITRA_PAGE_BITS, CITRA_PAGE_SIZE. rewrite u32_small by lia. lia.
        - f_equal. lia. }
      assert (Hbytes : u32 (CITRA_PAGE_SIZE * k + CITRA_PAGE_SIZE) = CITRA_PAGE_SIZE * (k + 1)).
      { unfold CITRA_PAGE_SIZE. rewrite u32_small by lia. lia. }
      rewrite Hstart, Hbytes.
      specialize (IH (page + 1) (k + 1) ltac:(lia) ltac:(lia)).
      eapply Forall_impl; [exact IH|]. intros c.
      apply reports_run_iff. intros q. apply to_report_nonzero; [exact Hc | lia].
Qed.

(** C7: [ClearAll] reports every page with a nonzero counter as uncached
    exactly once and no other page, in batches that are as long as possible
    (a gap separates any two of them), the last run up to the end of the
    table included: every notification starts at a page boundary, spans
    a whole number of pages which all have nonzero counters, and the pages
    next to it on either side have a zero counter or lie outside the table;
    afterwards every counter is zero. *)
Theorem ClearAll_uncaches_nonzero_pages
    (FlushRegion : Z -> Z -> Rasterizer -> Rasterizer) (flush : bool) (r : Rasterizer) :
  let r0 := if flush then FlushRegion 0 4294967295 r else r in
  Z.of_nat (length (cached_pages r0)) < 2 ^ 20 ->
  exists calls,
    mark_calls (ClearAll FlushRegion flush r) = mark_calls r0 ++ calls /\
    Forall (fun c => mark_cached c = false) calls /\
    Forall (reports_run (fun q => 0 <= q /\
                                  exists count, cached_pages r0 !! Z.to_nat q = Some count /\
                                                count <> 0)) calls /\
    separated calls /\
    (forall page : nat,
        times_covered calls (Z.of_nat page)
        = match cached_pages r0 !! page with
          | Some count => if count =? 0 then 0%nat else 1%nat
          | None => 0%nat
          end) /\
    cached_pages (ClearAll FlushRegion flush r) = repeat 0 (length (cached_pages r0)).
Proof.
  intros r0 Hlen. unfold ClearAll. fold r0.
  pose proof (clear_pages_runs (cached_pages r0) 0 0 0 r0) as Hruns.
  destruct (clear_pages (cached_pages r0) 0 0 0 r0) as [[s b] r'].
  destruct Hruns as [_ Hcalls].
  exists (clear_runs (cached_pages r0) 0 0 0).
  pose proof (clear_runs_spec (cached_pages r0) 0 0 ltac:(lia) ltac:(lia)) as Hspec.
  pose proof (clear_runs_reports (cached_pages r0) 0 0 ltac:(lia) ltac:(lia)) as Hrep.
  cbv zeta in Hspec. change (CITRA_PAGE_SIZE * (0 - 0)) with 0 in Hspec, Hrep.
  change (CITRA_PAGE_SIZE * 0) with 0 in Hspec, Hrep.
  destruct Hspec as (Hf & _ & Hs & Hq).
  split; [exact Hcalls|]. split; [exact Hf|]. split.
  { eapply Forall_impl; [exact Hrep|]. intros c. apply reports_run_iff.
    intros q. unfold to_report. replace (q - 0) with q by lia. split.
    - intros [?|[Hge Hc]]; [lia | now split].
    - intros [Hge Hc]. now right. }
  split; [exact Hs|]. split; [|reflexivity].
  intros page. rewrite Hq. rewrite bool_decide_eq_false_2 by lia.
  replace (Z.to_nat (Z.of_nat page - 0)) with page by lia.
  destruct (cached_pages r0 !! page) as [count|]; [|reflexivity].
  replace (0 <=? Z.of_nat page) with true by (symmetry; apply Z.leb_le; lia).
  simpl. now destruct (count =? 0).
Qed.

Lemma ClearAll_uncaches_nonzero_pages_witness :
  Z.of_nat (length [0; 2; 1; 0; 0; 3]) < 2 ^ 20 /\
  exists calls,
    mark_calls (ClearAll (fun _ _ r => r) false (mkRasterizer [0; 2; 1; 0; 0; 3] []))
    = [] ++ calls /\
    Forall (fun c => mark_cached c = false) calls /\
    Forall (reports_run (fun q => 0 <= q /\
                                  exists count, [0; 2; 1; 0; 0; 3] !! Z.to_nat q = Some count /\
                                                count <> 0)) calls /\
    separated calls /\
    (forall page : nat,
        times_covered calls (Z.of_nat page)
        = match [0; 2; 1; 0; 0; 3] !! page with
          | Some count => if count =? 0 then 0%nat else 1%nat
          | None => 0%nat
          end) /\
    cached_pages (ClearAll (fun _ _ r => r) false (mkRasterizer [0; 2; 1; 0; 0; 3] []))
    = repeat 0 6.
Proof.
  split; [simpl; lia|].
  apply (ClearAll_uncaches_nonzero_pages (fun _ _ r => r) false
           (mkRasterizer [0; 2; 1; 0; 0; 3] [])).
  simpl. lia.
Defined.

Example ClearAll_trailing_run :
  mark_calls (ClearAll (fun _ _ r => r) false (mkRasterizer [0; 2; 1; 0; 0; 3] []))
  = [RasterizerMarkRegionCached 4096 8192 false; RasterizerMarkRegionCached 20480 4096 false].
Proof. vm_compute. reflexivity. Qed.

(** ** Vertex array analysis *)

Lemma u32_idem z : u32 (u32 z) = u32 z.
Proof. unfold u32, wrap. apply Z.mod_mod. lia. Qed.

Lemma u32_add_l a b : u32 (u32 a + b) = u32 (a + b).
Proof. unfold u32, wrap. apply Zplus_mod_idemp_l. Qed.

Lemma input_size_from loaders sa vn : forall acc,
  fold_left (fun vs_input_size loader =>
               if negb (component_count loader =? 0) then
                 let aligned_stride := AlignUp (u32 (byte_count loader)) sa in
                 u32 (vs_input_size + AlignUp (u32 (aligned_stride * vn)) 4)
               else vs_input_size)
            loaders (u32 acc)
  = u32 (acc + sumZ (map (loader_term sa vn) (List.filter loader_enabled loaders))).
Proof.
  induction loaders as [|l rest IH]; intros acc; simpl.
  - now rewrite Z.add_0_r.
  - unfold loader_enabled at 1. destruct (negb (component_count l =? 0)); simpl.
    + rewrite u32_add_l. rewrite IH. f_equal. unfold loader_term. lia.
    + apply IH.
Qed.

Lemma input_size_sum loaders sa vn :
  input_size loaders sa vn
  = u32 (sumZ (map (loader_term sa vn) (List.filter loader_enabled loaders))).
Proof.
  unfold input_size. exact (input_size_from loaders sa vn 0).
Qed.

(** Within 32 bits the modelled [AlignUp] rounds up to a multiple. *)
Lemma AlignUp_align_up value size :
  0 < size -> 0 <= value -> align_up value size < 2 ^ 32 ->
  AlignUp value size = align_up value size.
Proof.
  intros Hs Hv Hb. unfold AlignUp, align_up in *.
  pose proof (Z.mod_pos_bound value size Hs) as Hm.
  pose proof (Z.div_mod value size ltac:(lia)) as Hdm.
  assert (Hq : 0 <= value / size) by (apply Z.div_pos; lia).
  set (q := value / size) in *. set (m := value mod size) in *.
  destruct (Z.eq_dec m 0) as [Hz|Hnz].
  - assert (Hup : (value + size - 1) / size = q).
    { replace (value + size - 1) with (q * size + (size - 1)) by lia.
      rewrite Z.div_add_l by lia. rewrite Z.div_small by lia. lia. }
    rewrite Hup in *. rewrite Hz. change (u32 0) with 0. cbn [Z.eqb].
    rewrite Z.sub_0_r. rewrite u32_small by lia. lia.
  - assert (Hup : (value + size - 1) / size = q + 1).
    { replace (value + size - 1) with ((q + 1) * size + (m - 1)) by lia.
      rewrite Z.div_add_l by lia. rewrite Z.div_small by lia. lia. }
    rewrite Hup in *.
    assert (Hqs : 0 <= q * size) by nia.
    rewrite (u32_small m) by lia.
    destruct (m =? 0) eqn:E; [apply Z.eqb_eq in E; contradiction|].
    rewrite (u32_small (value - m)) by lia.
    rewrite u32_small by lia. lia.
Qed.

Lemma align_up_ge value size : 0 < size -> value <= align_up value size.
Proof.
  intros Hs. unfold align_up.
  pose proof (Z.div_mod (value + size - 1) size ltac:(lia)).
  pose proof (Z.mod_pos_bound (value + size - 1) size Hs). nia.
Qed.

Lemma sumZ_nonneg l : Forall (fun t => 0 <= t) l -> 0 <= sumZ l.
Proof. induction 1; simpl; lia. Qed.

Lemma sumZ_bounds_terms l b :
  Forall (fun t => 0 <= t) l -> sumZ l < b -> Forall (fun t => t < b) l.
Proof.
  induction 1 as [|t l Ht Hl IH]; intros Hb; constructor; simpl in Hb.
  - pose proof (sumZ_nonneg l Hl). lia.
  - apply IH. lia.
Qed.

(** C9: for a draw without index buffer the analysis returns the first and
    the last vertex of the draw, and as input size the sum, over the attribute
    loaders with a nonzero component count, of the aligned stride times the
    vertex count, aligned up to 4.  The first part is the statement in the
    32-bit arithmetic of the code, for every draw; the second part is the same
    over the integers, for draws whose sizes fit 32 bits. *)
Theorem AnalyzeVertexArray_non_indexed (mem : Z -> Z) (regs : PipelineRegs) (sa : Z) :
  let info := AnalyzeVertexArray mem regs false sa in
  let enabled := List.filter loader_enabled (attribute_loaders regs) in
  (vertex_min info = vertex_offset regs /\
   vertex_max info = u32 (vertex_offset regs + num_vertices regs - 1) /\
   vs_input_size info
   = u32 (sumZ (map (fun l =>
                       AlignUp (u32 (AlignUp (u32 (byte_count l)) sa
                                     * u32 (vertex_max info - vertex_min info + 1))) 4)
                    enabled))) /\
  (0 < sa -> 0 <= vertex_offset regs -> 1 <= num_vertices regs < 2 ^ 32 ->
   vertex_offset regs + num_vertices regs - 1 < 2 ^ 32 ->
   Forall (fun l => 0 <= byte_count l < 2 ^ 32) enabled ->
   sumZ (map (fun l => align_up (align_up (byte_count l) sa * num_vertices regs) 4) enabled)
     < 2 ^ 32 ->
   vertex_max info = vertex_offset regs + num_vertices regs - 1 /\
   vs_input_size info
   = sumZ (map (fun l =>
                  align_up (align_up (byte_count l) sa
                            * (vertex_max info - vertex_min info + 1)) 4)
               enabled)).
Proof.
  intros info enabled. subst info. unfold AnalyzeVertexArray. cbn [vertex_min vertex_max vs_input_size].
  split.
  - repeat split. apply input_size_sum.
  - intros Hsa Hvo Hn Hfit Hbc Hsum.
    rewrite (u32_small (vertex_offset regs + num_vertices regs - 1)) by lia.
    split; [reflexivity|].
    replace (vertex_offset regs + num_vertices regs - 1 - vertex_offset regs + 1)
      with (num_vertices regs) by lia.
    rewrite (u32_small (num_vertices regs)) by lia.
    rewrite input_size_sum. fold enabled.
    assert (Hterms : Forall (fun l =>
              loader_term sa (num_vertices regs) l
              = align_up (align_up (byte_count l) sa * num_vertices regs) 4) enabled).
    { assert (Hnn : Forall (fun t => 0 <= t)
                (map (fun l => align_up (align_up (byte_count l) sa * num_vertices regs) 4)
                     enabled)).
      { apply Forall_map. eapply Forall_impl; [exact Hbc|]. simpl. intros l Hl.
        pose proof (align_up_ge (byte_count l) sa Hsa).
        pose proof (align_up_ge (align_up (byte_count l) sa * num_vertices regs) 4 ltac:(lia)).
        nia. }
      pose proof (sumZ_bounds_terms _ _ Hnn Hsum) as Hlt.
      apply Forall_map in Hlt.
      assert (Hboth : Forall (fun l => 0 <= byte_count l < 2 ^ 32 /\
                  align_up (align_up (byte_count l) sa * num_vertices regs) 4 < 2 ^ 32)
                enabled) by (apply Forall_and; split; assumption).
      eapply Forall_impl; [exact Hboth|]. simpl. intros l [Hl Hb].
      pose proof (align_up_ge (byte_count l) sa Hsa) as H1.
      pose proof (align_up_ge (align_up (byte_count l) sa * num_vertices regs) 4 ltac:(lia)) as H2.
      unfold loader_term.
      rewrite (u32_small (byte_count l)) by lia.
      rewrite (AlignUp_align_up (byte_count l) sa) by nia.
      rewrite (u32_small (align_up (byte_count l) sa * num_vertices regs)) by nia.
      apply AlignUp_align_up; nia. }
    assert (Heq : map (loader_term sa (num_vertices regs)) enabled
                  = map (fun l => align_up (align_up (byte_count l) sa * num_vertices regs) 4)
                        enabled).
    { clear -Hterms. induction Hterms as [|l ls Hl _ IH]; simpl; [reflexivity|].
      now rewrite Hl, IH. }
    rewrite Heq. apply u32_small. split; [|exact Hsum].
    apply sumZ_nonneg. apply Forall_map. eapply Forall_impl; [exact Hbc|]. simpl. intros l Hl.
    pose proof (align_up_ge (byte_count l) sa Hsa).
    pose proof (align_up_ge (align_up (byte_count l) sa * num_vertices regs) 4 ltac:(lia)).
    nia.
Qed.

Lemma AnalyzeVertexArray_non_indexed_witness :
  let info := AnalyzeVertexArray (fun _ => 0) sample_pipeline false 4 in
  vertex_max info = 12 /\ vs_input_size info = 60.
Proof.
  pose proof (AnalyzeVertexArray_non_indexed (fun _ => 0) sample_pipeline 4) as [_ Hexact].
  cbv zeta in Hexact.
  assert (Hsa : 0 < 4) by lia.
  assert (Hvo : 0 <= vertex_offset sample_pipeline) by (simpl; lia).
  assert (Hn : 1 <= num_vertices sample_pipeline < 2 ^ 32) by (simpl; lia).
  assert (Hfit : vertex_offset sample_pipeline + num_vertices sample_pipeline - 1 < 2 ^ 32)
    by (simpl; lia).
  assert (Hbc : Forall (fun l => 0 <= byte_count l < 2 ^ 32)
                  (List.filter loader_enabled (attribute_loaders sample_pipeline))).
  { simpl. repeat constructor; simpl; lia. }
  assert (Hsum : sumZ (map (fun l => align_up (align_up (byte_count l) 4
                                                * num_vertices sample_pipeline) 4)
                        (List.filter loader_enabled (attribute_loaders sample_pipeline)))
                 < 2 ^ 32) by (vm_compute; reflexivity).
  destruct (Hexact Hsa Hvo Hn Hfit Hbc Hsum) as [Hmax Hsize].
  split; [exact Hmax | rewrite Hsize; vm_compute; reflexivity].
Defined.

(** ** Quaternion correction *)

Section Binary32.

Lemma binary_round_aux_opp s m e l :
  binary_round_aux 24 128 (negb s) m e l = SFopp (binary_round_aux 24 128 s m e l).
Proof.
  unfold binary_round_aux.
  destruct (shr_fexp 24 128 m e l) as [mrs' e'].
  destruct (shr_fexp 24 128 _ e' loc_Exact) as [mrs'' e''].
  destruct (shr_m mrs''); [reflexivity | | reflexivity].
  now destruct (Z.leb e'' (Z.sub 128 24)).
Qed.

Lemma binary_round_opp s m e :
  binary_round 24 128 (negb s) m e = SFopp (binary_round 24 128 s m e).
Proof.
  unfold binary_round. destruct (shl_align m e _) as [mz ez]. apply binary_round_aux_opp.
Qed.

Lemma f32_mul_neg_r a b : f32_mul a (f32_neg b) = f32_neg (f32_mul a b).
Proof.
  unfold f32_mul, f32_neg.
  destruct a as [sa|sa| |sa ma ea], b as [sb|sb| |sb mb eb]; simpl;
    rewrite <- ?negb_xorb_r; try reflexivity.
  apply binary_round_aux_opp.
Qed.

Lemma unsigned_zero_neg a b :
  unsigned_zero a = unsigned_zero b -> unsigned_zero (f32_neg a) = unsigned_zero (f32_neg b).
Proof.
  destruct a, b; simpl; intros H; try discriminate; try reflexivity; now inversion H.
Qed.

Lemma f32_add_neg a b :
  unsigned_zero (f32_add (f32_neg a) (f32_neg b)) = unsigned_zero (f32_neg (f32_add a b)).
Proof.
  unfold f32_add, f32_neg.
  destruct a as [sa|sa| |sa ma ea], b as [sb|sb| |sb mb eb]; simpl; try reflexivity;
    try (destruct sa, sb; reflexivity).
  set (x := Zpos (fst (shl_align ma ea (Z.min ea eb)))).
  set (y := Zpos (fst (shl_align mb eb (Z.min ea eb)))).
  clearbody x y.
  replace (Z.add (cond_Zopp (negb sa) x) (cond_Zopp (negb sb) y))
    with (Z.opp (Z.add (cond_Zopp sa x) (cond_Zopp sb y)))
    by (destruct sa, sb; simpl; lia).
  destruct (Z.add (cond_Zopp sa x) (cond_Zopp sb y)) as [|p|p]; simpl.
  - reflexivity.
  - now rewrite (binary_round_opp false).
  - rewrite (binary_round_opp false).
    destruct (binary_round 24 128 false p _) as [s|s| |s m e]; simpl;
      try destruct s; reflexivity.
Qed.

Lemma f32_add_unsigned_zero a a' b b' :
  unsigned_zero a = unsigned_zero a' -> unsigned_zero b = unsigned_zero b' ->
  unsigned_zero (f32_add a b) = unsigned_zero (f32_add a' b').
Proof.
  unfold f32_add.
  destruct a as [sa|sa| |sa ma ea], a' as [sa'|sa'| |sa' ma' ea']; simpl; intros Ha;
    try discriminate; inversion Ha; subst;
    destruct b as [sb|sb| |sb mb eb], b' as [sb'|sb'| |sb' mb' eb']; simpl; intros Hb;
    try discriminate; inversion Hb; subst; try reflexivity;
    try (destruct sa, sa', sb, sb'; reflexivity);
    try (destruct sa, sb; reflexivity).
Qed.

Lemma f32_lt_zero_unsigned a b :
  unsigned_zero a = unsigned_zero b -> f32_lt a f32_zero = f32_lt b f32_zero.
Proof.
  destruct a, b; simpl; intros H; try discriminate; try reflexivity; now inversion H.
Qed.

Lemma f32_gt_zero_unsigned a b :
  unsigned_zero a = unsigned_zero b -> f32_lt f32_zero a = f32_lt f32_zero b.
Proof.
  destruct a, b; simpl; intros H; try discriminate; try reflexivity; now inversion H.
Qed.

(** Negating one argument negates the dot product, up to the sign of zero. *)
Lemma Dot_neg_r a b :
  unsigned_zero (Vec.Dot a (Vec.neg4 b)) = unsigned_zero (f32_neg (Vec.Dot a b)).
Proof.
  unfold Vec.Dot, Vec.neg4. cbn [Vec.x Vec.y Vec.z Vec.w].
  rewrite !f32_mul_neg_r.
  set (p1 := f32_mul (Vec.x a) (Vec.x b)). set (p2 := f32_mul (Vec.y a) (Vec.y b)).
  set (p3 := f32_mul (Vec.z a) (Vec.z b)). set (p4 := f32_mul (Vec.w a) (Vec.w b)).
  rewrite <- f32_add_neg.
  apply f32_add_unsigned_zero; [|reflexivity].
  rewrite <- f32_add_neg.
  apply f32_add_unsigned_zero; [|reflexivity].
  apply f32_add_neg.
Qed.

Lemma f32_neg_negative a : f32_lt a f32_zero = true -> f32_lt f32_zero (f32_neg a) = true.
Proof. destruct a as [s|s| |s m e]; simpl; try discriminate; now destruct s. Qed.

Lemma f32_lt_asym a : f32_lt f32_zero a = true -> f32_lt a f32_zero = false.
Proof. destruct a as [s|s| |s m e]; simpl; try discriminate; now destruct s. Qed.

End Binary32.

Lemma Dot_neg_r_positive a b :
  f32_lt (Vec.Dot a b) f32_zero = true -> f32_lt f32_zero (Vec.Dot a (Vec.neg4 b)) = true.
Proof.
  intros H. rewrite (f32_gt_zero_unsigned _ _ (Dot_neg_r a b)).
  now apply f32_neg_negative.
Qed.

Lemma corrected_against_make q0 v :
  corrected_against q0 v
    (make_HardwareVertex v (f32_lt (Vec.Dot q0 (to_f32_4 (quat v))) f32_zero)).
Proof.
  unfold corrected_against, make_HardwareVertex. cbn [hw_normquat].
  destruct (f32_lt (Vec.Dot q0 (to_f32_4 (quat v))) f32_zero) eqn:Hneg.
  - split; [reflexivity|]. pose proof (Dot_neg_r_positive _ _ Hneg) as Hpos.
    split; [now apply f32_lt_asym | intros _; exact Hpos].
  - split; [reflexivity|]. split; [exact Hneg | discriminate].
Qed.

(** C8, as the code has it: [AddTriangle] appends three records; the first
    keeps [v0]'s quaternion, the second and the third store their vertex's
    quaternion negated exactly when its dot product with [v0]'s quaternion is
    negative, so that the dot product of the stored quaternion with [v0]'s is
    never negative (it is positive after a negation, and may be zero
    otherwise). *)
Theorem AddTriangle_quaternion_flip (v0 v1 v2 : OutputVertex) (batch : list HardwareVertex) :
  exists h0 h1 h2,
    AddTriangle v0 v1 v2 batch = batch ++ [h0; h1; h2] /\
    hw_normquat h0 = to_f32_4 (quat v0) /\
    corrected_against (to_f32_4 (quat v0)) v1 h1 /\
    corrected_against (to_f32_4 (quat v0)) v2 h2.
Proof.
  unfold AddTriangle, AreQuaternionsOpposite.
  do 3 eexists. split; [reflexivity|].
  split; [reflexivity|].
  split; apply corrected_against_make.
Qed.

(** C8, as the claim has it, fails: for orthogonal quaternions the dot
    product is zero, nothing is negated and the recorded quaternion has a
    dot product of zero with [v0]'s, which is not positive. *)
Lemma AddTriangle_dot_not_positive :
  match AddTriangle (vertex_with_quat quat_i) (vertex_with_quat quat_j)
                    (vertex_with_quat quat_j) [] with
  | [_; h1; _] =>
    hw_normquat h1 = to_f32_4 quat_j /\
    Vec.Dot (to_f32_4 quat_i) (hw_normquat h1) = f32_zero /\
    ~ f32_lt f32_zero (Vec.Dot (to_f32_4 quat_i) (hw_normquat h1)) = true
  | _ => False
  end.
Proof. vm_compute. repeat split. discriminate. Qed.

Example AddTriangle_opposite_quaternion :
  match AddTriangle (vertex_with_quat quat_i) (vertex_with_quat quat_neg_i)
                    (vertex_with_quat quat_i) [] with
  | [_; h1; _] => Vec.eq4 (hw_normquat h1) (to_f32_4 quat_i) = true
  | _ => False
  end.
Proof. vm_compute. reflexivity. Qed.

(** ** Register mirror *)

Lemma differs_vec3 a b : differs (of_vec3 a) (of_vec3 b) = Vec.ne3 a b.
Proof. unfold Vec.ne3. simpl. now rewrite orb_false_r, orb_assoc. Qed.

Lemma differs_vec4 a b : differs (of_vec4 a) (of_vec4 b) = Vec.ne4 a b.
Proof. unfold Vec.ne4. simpl. now rewrite orb_false_r, !orb_assoc. Qed.

Lemma eq4_ne4 a b : Vec.eq4 a b = negb (Vec.ne4 a b).
Proof.
  unfold Vec.eq4, Vec.ne4, f32_ne, f32_eq.
  now rewrite !negb_orb, !negb_involutive.
Qed.

Lemma differs_scalar a b : differs [a] [b] = scalar_ne a b.
Proof. simpl. apply orb_false_r. Qed.

Lemma light_lookup_set (i : fin 8) f d :
  light_src (set_light i f d) !!! i = f (light_src d !!! i).
Proof. unfold set_light. cbn [light_src set_light_src]. apply vlookup_insert. Qed.

Ltac sync_cases :=
  match goal with
  | |- context [if ?c then set_dirty _ else _] => destruct c eqn:?
  end;
  cbn [data dirty set_dirty set_data negb]; rewrite ?light_lookup_set;
  (split; [reflexivity | rewrite ?orb_true_r, ?orb_false_r; reflexivity]).

(** C5, as the code has it: every uniform-value-update handler leaves the
    value derived from the registers in the shadow (it stores it, or the
    shadow already compares equal to it).  The handlers that compare before
    storing raise [dirty] exactly when the new value differs from the
    shadowed one and leave it alone otherwise; [SyncFogColor],
    [SyncProcTexNoise] and [SyncProcTexBias] store and raise [dirty] without
    comparing. *)
Theorem uniform_value_update
    (float16_FromRaw : Z -> float16) (float20_FromRaw : Z -> float20)
    (float24_FromRaw : Z -> float24) (regs : Regs)
    (h : UniformHandler) (u : UniformBlockData) :
  let u' := run_handler float16_FromRaw float20_FromRaw float24_FromRaw regs h u in
  let new := incoming float16_FromRaw float20_FromRaw float24_FromRaw regs h in
  let old := shadowed h (data u) in
  shadowed h (data u') = (if compares h && negb (differs new old) then old else new) /\
  dirty u' = (if compares h then dirty u || differs new old else true).
Proof.
  destruct h; cbn [run_handler incoming shadowed compares andb];
    rewrite ?differs_vec3, ?differs_vec4, ?differs_scalar; cbn [scalar_ne];
    try (split; reflexivity).
  - unfold SyncDepthScale. sync_cases.
  - unfold SyncDepthOffset. sync_cases.
  - unfold SyncAlphaTest. sync_cases.
  - unfold SyncCombinerColor. sync_cases.
  - unfold SyncTevConstColor. rewrite eq4_ne4.
    destruct (Vec.ne4 _ _) eqn:Hne; cbn [data dirty set_dirty set_data negb const_color set_const_color].
    + split; [|now rewrite orb_true_r]. now rewrite vlookup_insert.
    + split; [reflexivity | now rewrite orb_false_r].
  - unfold SyncGlobalAmbient. sync_cases.
  - unfold SyncLightSpecular0. sync_cases.
  - unfold SyncLightSpecular1. sync_cases.
  - unfold SyncLightDiffuse. sync_cases.
  - unfold SyncLightAmbient. sync_cases.
  - unfold SyncLightPosition. sync_cases.
  - unfold SyncLightSpotDirection. sync_cases.
  - unfold SyncLightDistanceAttenuationBias. sync_cases.
  - unfold SyncLightDistanceAttenuationScale. sync_cases.
  - unfold SyncShadowBias. cbn [differs scalar_ne]. rewrite orb_false_r. sync_cases.
  - unfold SyncShadowTextureBias. sync_cases.
Qed.

(** C5, as the claim has it, fails: writing the fog colour that is already
    shadowed raises [dirty] although the value does not change. *)
Lemma SyncFogColor_dirty_without_change :
  let u' := run_handler decode_zero decode_zero decode_zero zero_regs HFogColor zero_uniforms in
  differs (incoming decode_zero decode_zero decode_zero zero_regs HFogColor)
          (shadowed HFogColor (data zero_uniforms)) = false /\
  data u' = data zero_uniforms /\
  dirty zero_uniforms = false /\
  dirty u' = true.
Proof. vm_compute. repeat split. Qed.

(** ** Interval containers *)

Section SegmentLemmas.

Import ICL.

Context {V : Type} `{EqDecision V}.

Implicit Types (s t : segment (V := V)) (m : list (segment (V := V))).

Lemma within_bounds a i : within a i = true <-> lower i <= a < upper i.
Proof. unfold within. rewrite andb_true_iff, Z.leb_le, Z.ltb_lt. tauto. Qed.

Lemma within_false a i : within a i = false <-> ~ (lower i <= a < upper i).
Proof. rewrite <- within_bounds. now destruct (within a i). Qed.

Lemma overlaps_bounds a b :
  overlaps a b = true <-> lower a < upper b /\ lower b < upper a.
Proof.
  unfold overlaps, exclusive_less.
  rewrite andb_true_iff, !negb_true_iff, !Z.leb_gt. tauto.
Qed.

Lemma is_empty_false i : is_empty i = false <-> lower i < upper i.
Proof. unfold is_empty. apply Z.leb_gt. Qed.

(** A piece that [cut] leaves belongs to the segment, carries its value, is
    not empty if the segment is not, and misses [i]. *)
Lemma cut_spec i s s' :
  In s' (cut i s) ->
  snd s' = snd s /\
  lower (fst s) <= lower (fst s') /\ upper (fst s') <= upper (fst s) /\
  (lower (fst s) < upper (fst s) -> lower (fst s') < upper (fst s')) /\
  (forall a, within a (fst s') = true -> within a i = false).
Proof.
  unfold cut. destruct (overlaps (fst s) i) eqn:Hov.
  - apply overlaps_bounds in Hov. destruct Hov as [Hov1 Hov2].
    rewrite in_app_iff. intros [Hin|Hin].
    + destruct (lower (fst s) <? lower i) eqn:Hl; [|contradiction].
      apply Z.ltb_lt in Hl. destruct Hin as [<-|[]]. cbn.
      repeat split; try lia.
      intros a Ha. apply within_bounds in Ha. cbn in Ha. apply within_false. lia.
    + destruct (upper i <? upper (fst s)) eqn:Hu; [|contradiction].
      apply Z.ltb_lt in Hu. destruct Hin as [<-|[]]. cbn.
      repeat split; try lia.
      intros a Ha. apply within_bounds in Ha. cbn in Ha. apply within_false. lia.
  - intros [<-|[]]. repeat split; try lia.
    intros a Ha. apply within_bounds in Ha. apply within_false.
    assert (Hno : ~ (lower (fst s) < upper i /\ lower i < upper (fst s))).
    { rewrite <- overlaps_bounds. now rewrite Hov. }
    lia.
Qed.

Lemma erase_spec i m s' :
  In s' (erase i m) ->
  exists s, In s m /\ snd s' = snd s /\
    lower (fst s) <= lower (fst s') /\ upper (fst s') <= upper (fst s) /\
    (lower (fst s) < upper (fst s) -> lower (fst s') < upper (fst s')) /\
    (forall a, within a (fst s') = true -> within a i = false).
Proof.
  unfold erase. destruct (is_empty i) eqn:He.
  - intros Hin. exists s'. repeat split; try lia; try assumption.
    intros a _. apply within_false. unfold is_empty in He. apply Z.leb_le in He. lia.
  - rewrite in_flat_map. intros (s & Hs & Hin). exists s. split; [exact Hs|].
    now apply cut_spec.
Qed.

Lemma erase_all_spec {W} (regions : list (SurfaceInterval * W)) : forall m s',
  In s' (erase_all regions m) ->
  exists s, In s m /\ snd s' = snd s /\
    lower (fst s) <= lower (fst s') /\ upper (fst s') <= upper (fst s) /\
    (lower (fst s) < upper (fst s) -> lower (fst s') < upper (fst s')) /\
    (forall a r, within a (fst s') = true -> In r regions -> within a (fst r) = false).
Proof.
  unfold erase_all.
  induction regions as [|r regions IH]; intros m s' Hin; simpl in Hin.
  - exists s'. repeat split; try lia; try assumption. intros a r _ [].
  - apply IH in Hin. destruct Hin as (s1 & Hs1 & Hv1 & Hl1 & Hu1 & Hn1 & Hout1).
    apply erase_spec in Hs1. destruct Hs1 as (s & Hs & Hv & Hl & Hu & Hn & Hout).
    exists s. repeat split; try lia; try assumption.
    + congruence.
    + intros a r' Ha [<-|Hr']; [|now apply (Hout1 a r')].
      apply Hout. apply within_bounds. apply within_bounds in Ha. lia.
Qed.

Lemma nonempty_erase i m : nonempty_segments m -> nonempty_segments (erase i m).
Proof.
  unfold nonempty_segments. rewrite !Forall_forall. intros Hm s' Hin.
  apply list_elem_of_In in Hin.
  apply erase_spec in Hin. destruct Hin as (s & Hs & _ & _ & _ & Hn & _).
  apply Hn. apply Hm. now apply list_elem_of_In.
Qed.

Lemma nonempty_erase_all {W} (regions : list (SurfaceInterval * W)) m :
  nonempty_segments m -> nonempty_segments (erase_all regions m).
Proof.
  unfold erase_all. revert m.
  induction regions as [|r regions IH]; intros m Hm; simpl; [exact Hm|].
  apply IH. now apply nonempty_erase.
Qed.

Lemma in_place s m x : In x (place s m) <-> x = s \/ In x m.
Proof.
  induction m as [|t m IH]; simpl.
  - intuition.
  - destruct (upper (fst s) <=? lower (fst t)); simpl; [intuition|].
    rewrite IH. intuition.
Qed.

Lemma nonempty_place s m :
  lower (fst s) < upper (fst s) -> nonempty_segments m -> nonempty_segments (place s m).
Proof.
  unfold nonempty_segments. rewrite !Forall_forall. intros Hs Hm x Hx.
  apply list_elem_of_In, in_place in Hx. destruct Hx as [->|Hx]; [exact Hs|].
  apply Hm. now apply list_elem_of_In.
Qed.

Lemma nonempty_join_step s acc :
  lower (fst s) < upper (fst s) -> nonempty_segments acc ->
  nonempty_segments (join_step s acc).
Proof.
  unfold nonempty_segments. intros Hs Hacc. destruct acc as [|t acc]; simpl.
  - now constructor.
  - apply Forall_cons in Hacc. destruct Hacc as [Ht Hacc].
    destruct (_ && _) eqn:Hj.
    + constructor; [|exact Hacc]. cbn. apply andb_true_iff in Hj. destruct Hj as [Hj _].
      apply Z.eqb_eq in Hj. lia.
    + constructor; [exact Hs|]. now constructor.
Qed.

Lemma nonempty_join m : nonempty_segments m -> nonempty_segments (join m).
Proof.
  induction 1 as [|s m Hs Hm IH]; simpl; [constructor|].
  now apply nonempty_join_step.
Qed.

Lemma covered_cons s m a v :
  covered (s :: m) a v <-> (within a (fst s) = true /\ snd s = v) \/ covered m a v.
Proof.
  unfold covered. split.
  - intros (x & [->|Hx] & Hw & Hv); [now left|]. right. now exists x.
  - intros [[Hw Hv]|(x & Hx & Hw & Hv)].
    + exists s. simpl. auto.
    + exists x. simpl. auto.
Qed.

Lemma covered_join_step s acc a v :
  lower (fst s) < upper (fst s) -> nonempty_segments acc ->
  covered (s :: acc) a v -> covered (join_step s acc) a v.
Proof.
  intros Hs Hacc Hc. destruct acc as [|t acc]; simpl; [exact Hc|].
  apply Forall_cons in Hacc. destruct Hacc as [Ht _].
  destruct (_ && _) eqn:Hj; [|exact Hc].
  apply andb_true_iff in Hj. destruct Hj as [Htouch Hval].
  apply Z.eqb_eq in Htouch. apply bool_decide_eq_true in Hval.
  apply covered_cons in Hc. apply covered_cons.
  destruct Hc as [[Hw Hv]|Hc].
  - left. split; [|exact Hv]. apply within_bounds in Hw. apply within_bounds. cbn. lia.
  - apply covered_cons in Hc. destruct Hc as [[Hw Hv]|Hc]; [|now right].
    left. split; [|cbn; congruence]. apply within_bounds in Hw. apply within_bounds. cbn. lia.
Qed.

Lemma covered_join m a v :
  nonempty_segments m -> covered m a v -> covered (join m) a v.
Proof.
  induction 1 as [|s m Hs Hm IH]; simpl; intros Hc; [exact Hc|].
  apply covered_join_step; [exact Hs | now apply nonempty_join |].
  apply covered_cons in Hc. apply covered_cons.
  destruct Hc as [Hc|Hc]; [now left | right; now apply IH].
Qed.

Lemma covered_erase i m a v :
  covered m a v -> within a i = false -> covered (erase i m) a v.
Proof.
  intros (s & Hs & Hw & Hv) Hout. unfold erase.
  destruct (is_empty i); [now exists s|].
  apply within_bounds in Hw. apply within_false in Hout.
  assert (Hpiece : exists s', In s' (cut i s) /\ within a (fst s') = true /\ snd s' = v).
  { unfold cut. destruct (overlaps (fst s) i) eqn:Hov.
    - apply overlaps_bounds in Hov.
      destruct (Z_lt_le_dec a (lower i)) as [Hlt|Hge].
      + exists ((lower (fst s), lower i), snd s).
        replace (lower (fst s) <? lower i) with true by (symmetry; apply Z.ltb_lt; lia).
        split; [simpl; now left|]. split; [apply within_bounds; cbn; lia | exact Hv].
      + exists ((upper i, upper (fst s)), snd s).
        replace (upper i <? upper (fst s)) with true by (symmetry; apply Z.ltb_lt; lia).
        split; [apply in_or_app; right; simpl; now left|].
        split; [apply within_bounds; cbn; lia | exact Hv].
    - exists s. split; [simpl; now left|]. split; [apply within_bounds; lia | exact Hv]. }
  destruct Hpiece as (s' & Hin & Hw' & Hv').
  exists s'. split; [|auto]. apply in_flat_map. now exists s.
Qed.

(** [set] makes the interval carry the value and keeps what was covered
    outside it. *)
Lemma covered_set s m a v :
  nonempty_segments m ->
  (within a (fst s) = true /\ snd s = v) \/ (within a (fst s) = false /\ covered m a v) ->
  covered (set s m) a v.
Proof.
  intros Hm Hc. unfold set. destruct (is_empty (fst s)) eqn:He.
  - destruct Hc as [[Hw _]|[_ Hc]]; [|exact Hc].
    apply within_bounds in Hw. unfold is_empty in He. apply Z.leb_le in He. lia.
  - apply is_empty_false in He.
    apply covered_join; [apply nonempty_place; [exact He | now apply nonempty_erase]|].
    destruct Hc as [[Hw Hv]|[Hw Hc]].
    + exists s. split; [apply in_place; now left | auto].
    + destruct (covered_erase (fst s) m a v Hc Hw) as (x & Hx & Hxw & Hxv).
      exists x. split; [apply in_place; now right | auto].
Qed.

Lemma nonempty_set s m : nonempty_segments m -> nonempty_segments (set s m).
Proof.
  intros Hm. unfold set. destruct (is_empty (fst s)) eqn:He; [exact Hm|].
  apply is_empty_false in He.
  apply nonempty_join, nonempty_place; [exact He | now apply nonempty_erase].
Qed.

End SegmentLemmas.

Lemma add_interval_covers i (F : SurfaceRegions) a :
  ICL.nonempty_segments F ->
  ICL.within a i = true \/ ICL.covered F a tt ->
  ICL.covered (ICL.add_interval i F) a tt.
Proof.
  intros HF Hc. unfold ICL.add_interval. apply covered_set; [exact HF|].
  destruct (ICL.within a i) eqn:Hw; [left; auto|].
  right. split; [exact Hw|]. destruct Hc as [Hc|Hc]; [discriminate | exact Hc].
Qed.

(** ** The rasterizer cache: flushing *)

Section CacheFlush.

Import ICL.

Context `{SurfaceOps} `{Backend}.

(** C10: with a size of zero [FlushRegion] and [InvalidateRegion] return at
    once: the state after the call is the state before it, so the cache map,
    the dirty map, every surface object, the page counters and guest memory
    are unchanged and the backend log has no new call. *)
Theorem size_zero_is_no_op (addr : Z) (flush_surface region_owner : option Z)
    (c : RasterizerCache) :
  FlushRegion addr 0 flush_surface c = Some c /\
  InvalidateRegion addr 0 region_owner c = Some c.
Proof. split; reflexivity. Qed.

Lemma same_catalog_refl c : same_catalog c c.
Proof. repeat split. Qed.

Lemma same_catalog_trans c1 c2 c3 :
  same_catalog c1 c2 -> same_catalog c2 c3 -> same_catalog c1 c3.
Proof. unfold same_catalog. intuition congruence. Qed.

Lemma DownloadSurface_catalog id surface interval c c' :
  DownloadSurface id surface interval c = Some c' -> same_catalog c c'.
Proof.
  unfold DownloadSurface. destruct (ASSERT _); [|discriminate].
  destruct (GetPhysicalRef _); intros [= <-]; repeat split.
Qed.

Lemma DownloadFillSurface_catalog surface interval c c' :
  DownloadFillSurface surface interval c = Some c' -> same_catalog c c'.
Proof.
  unfold DownloadFillSurface. destruct (ASSERT _); [|discriminate].
  destruct (GetPhysicalRef _); [|intros [= <-]; repeat split].
  destruct (fill_size surface =? 0); [discriminate|].
  intros [= <-]; repeat split.
Qed.

Lemma run_download_catalog c d : same_catalog c (run_download c d).
Proof. unfold run_download. destruct (heap c !! dl_surface d); repeat split. Qed.

Lemma run_downloads_catalog c : same_catalog c (run_downloads c).
Proof.
  unfold run_downloads. destruct (download_queue c) as [|d q]; [apply same_catalog_refl|].
  assert (Hrun : forall q st, same_catalog st (fold_left run_download q st)).
  { clear. induction q as [|d q IH]; intros st; simpl; [apply same_catalog_refl|].
    eapply same_catalog_trans; [apply run_download_catalog | apply IH]. }
  apply (same_catalog_trans _ (call RuntimeFinish c)); [repeat split|].
  apply (same_catalog_trans _ (fold_left run_download (d :: q) (call RuntimeFinish c)));
    [apply Hrun | repeat split].
Qed.

Lemma run_downloads_queue c : download_queue (run_downloads c) = [].
Proof. unfold run_downloads. now destruct (download_queue c) eqn:Hq. Qed.

Lemma flush_segment_skip size flush_interval flush_surface c F pair :
  flushes flush_surface (snd pair) = false ->
  flush_segment size flush_interval flush_surface (Some (c, F)) pair = Some (c, F).
Proof.
  unfold flushes, flush_segment. intros Hf. apply negb_false_iff in Hf. now rewrite Hf.
Qed.

Lemma flush_segment_pass size flush_interval flush_surface c F pair c' F' :
  flushes flush_surface (snd pair) = true ->
  flush_segment size flush_interval flush_surface (Some (c, F)) pair = Some (c', F') ->
  same_catalog c c' /\
  F' = add_interval (flushed_interval size flush_interval pair) F.
Proof.
  unfold flushes, flush_segment, flushed_interval. intros Hf. apply negb_true_iff in Hf.
  rewrite Hf. destruct (heap c !! snd pair) as [surface|]; [|discriminate].
  destruct (ASSERT (IsRegionValid surface _)); [|discriminate].
  destruct (bool_decide (type (params surface) = SurfaceType.Fill)).
  - destruct (DownloadFillSurface _ _ _) as [c1|] eqn:Hd; [|discriminate].
    intros Heq. injection Heq as <- <-.
    split; [|reflexivity]. eapply DownloadFillSurface_catalog; eauto.
  - destruct (DownloadSurface _ _ _ _) as [c1|] eqn:Hd; [|discriminate].
    intros Heq. injection Heq as <- <-.
    split; [|reflexivity]. eapply DownloadSurface_catalog; eauto.
Qed.

Lemma fold_flush_aborted size flush_interval flush_surface pairs :
  fold_left (flush_segment size flush_interval flush_surface) pairs None = None.
Proof. induction pairs as [|p pairs IH]; simpl; [reflexivity | exact IH]. Qed.

(** The loop of [FlushRegion] keeps the catalogue and collects, in
    [flushed_intervals], every byte of the intervals it downloads. *)
Lemma fold_flush_spec size flush_interval flush_surface pairs : forall c F c' F',
  fold_left (flush_segment size flush_interval flush_surface) pairs (Some (c, F))
  = Some (c', F') ->
  nonempty_segments F ->
  same_catalog c c' /\ nonempty_segments F' /\
  (forall a, covered F a tt -> covered F' a tt) /\
  (forall pair a, In pair pairs -> flushes flush_surface (snd pair) = true ->
                  within a (flushed_interval size flush_interval pair) = true ->
                  covered F' a tt).
Proof.
  induction pairs as [|p pairs IH]; intros c F c' F' Hfold HF; cbn [fold_left] in Hfold.
  - injection Hfold as <- <-.
    split; [apply same_catalog_refl|]. split; [exact HF|]. split; [auto|].
    intros pair a [].
  - destruct (flushes flush_surface (snd p)) eqn:Hf.
    + destruct (flush_segment size flush_interval flush_surface (Some (c, F)) p)
        as [[c1 F1]|] eqn:Hstep; [|now rewrite fold_flush_aborted in Hfold].
      destruct (flush_segment_pass _ _ _ _ _ _ _ _ Hf Hstep) as [Hcat ->].
      assert (HF1 : nonempty_segments (add_interval (flushed_interval size flush_interval p) F))
        by now apply nonempty_set.
      destruct (IH _ _ _ _ Hfold HF1) as (Hcat' & HF' & Hmono & Hcov).
      split; [eapply same_catalog_trans; eauto|]. split; [exact HF'|]. split.
      * intros a Ha. apply Hmono. apply add_interval_covers; auto.
      * intros pair a [<-|Hin] Hp Hw; [|eapply Hcov; eauto].
        apply Hmono. apply add_interval_covers; auto.
    + rewrite flush_segment_skip in Hfold by exact Hf.
      destruct (IH _ _ _ _ Hfold HF) as (Hcat' & HF' & Hmono & Hcov).
      split; [exact Hcat'|]. split; [exact HF'|]. split; [exact Hmono|].
      intros pair a [<-|Hin] Hp Hw; [congruence | eapply Hcov; eauto].
Qed.

Lemma fold_flush_skip_all size flush_interval flush_surface pairs c F :
  (forall pair, In pair pairs -> flushes flush_surface (snd pair) = false) ->
  fold_left (flush_segment size flush_interval flush_surface) pairs (Some (c, F))
  = Some (c, F).
Proof.
  induction pairs as [|p pairs IH]; intros Hall; cbn [fold_left]; [reflexivity|].
  rewrite flush_segment_skip by (apply Hall; now left).
  apply IH. intros pair Hin. apply Hall. now right.
Qed.

Lemma in_equal_range {V} i (m : list (SurfaceInterval * V)) s :
  In s (equal_range i m) <-> In s m /\ overlaps (fst s) i = true.
Proof. unfold equal_range. apply filter_In. Qed.

Lemma set_dirty_regions_same c : set_dirty_regions (dirty_regions c) c = c.
Proof. now destruct c. Qed.

(** After a flush no dirty segment that the flush would download is left
    over the flushed region. *)
Lemma flushed_segments_gone addr size flush_surface (dirty : list (SurfaceInterval * Z))
    (F : SurfaceRegions) :
  0 <= addr -> 0 < size -> addr + size < 2 ^ 32 ->
  nonempty_segments dirty ->
  (forall pair a, In pair (equal_range (addr, addr + size) dirty) ->
                  flushes flush_surface (snd pair) = true ->
                  within a (flushed_interval size (addr, addr + size) pair) = true ->
                  covered F a tt) ->
  forall pair, In pair (equal_range (addr, addr + size) (erase_all F dirty)) ->
               flushes flush_surface (snd pair) = false.
Proof.
  intros Haddr Hsize Hfit Hne Hcov pair Hin.
  apply in_equal_range in Hin. destruct Hin as [Hin Hov].
  apply overlaps_bounds in Hov. cbn in Hov.
  destruct (erase_all_spec F dirty pair Hin) as (s & Hs & Hv & Hl & Hu & Hn & Hout).
  assert (Hs_ne : lower (fst s) < upper (fst s)).
  { unfold nonempty_segments in Hne. rewrite Forall_forall in Hne.
    apply Hne. now apply list_elem_of_In. }
  specialize (Hn Hs_ne).
  destruct (flushes flush_surface (snd pair)) eqn:Hf; [|reflexivity]. exfalso.
  set (a := Z.max (lower (fst pair)) addr).
  assert (Ha : within a (fst pair) = true) by (apply within_bounds; lia).
  assert (Hrange : In s (equal_range (addr, addr + size) dirty)).
  { apply in_equal_range. split; [exact Hs|]. apply overlaps_bounds. cbn. lia. }
  assert (HaF : covered F a tt).
  { apply (Hcov s a Hrange); [congruence|].
    unfold flushed_interval. destruct (size <=? 8).
    - apply within_bounds. lia.
    - unfold intersect.
      replace (is_empty (fst s)) with false by (symmetry; apply is_empty_false; lia).
      replace (is_empty (addr, addr + size)) with false
        by (symmetry; apply is_empty_false; cbn; lia).
      apply within_bounds. cbn. lia. }
  destruct HaF as (r & Hr & Hwr & _).
  rewrite (Hout a r Ha Hr) in Hwr. discriminate.
Qed.

(** C6: flushing a region twice is flushing it once.  In the option monad
    (an aborted first flush aborts both sides) the second flush returns the
    state it is given: same dirty map, surfaces and guest memory, nothing
    appended to the download queue or to the backend log, so no download and
    no [Finish]. *)
Theorem FlushRegion_idempotent (addr size : Z) (flush_surface : option Z)
    (c : RasterizerCache) :
  0 <= addr -> 0 <= size -> addr + size < 2 ^ 32 ->
  nonempty_segments (dirty_regions c) ->
  FlushRegion addr size flush_surface c ≫= FlushRegion addr size flush_surface
  = FlushRegion addr size flush_surface c.
Proof.
  intros Haddr Hsize Hfit Hne.
  destruct (FlushRegion addr size flush_surface c) as [c1|] eqn:Hfirst; [|reflexivity].
  cbn. unfold FlushRegion in Hfirst |- *.
  destruct (size =? 0) eqn:Hz; [reflexivity|].
  apply Z.eqb_neq in Hz. rewrite (u32_small (addr + size)) in Hfirst |- * by lia.
  destruct (fold_left (flush_segment size (addr, addr + size) flush_surface)
                      (equal_range (addr, addr + size) (dirty_regions c)) (Some (c, [])))
    as [[c' F]|] eqn:Hfold; [|discriminate].
  destruct (fold_flush_spec _ _ _ _ _ _ _ _ Hfold ltac:(constructor))
    as (Hcat & HF & _ & Hcov).
  destruct (run_downloads_catalog c') as (_ & _ & Hdr_dirty & _ & _).
  destruct Hcat as (Hheap & Hsc & Hdirty & Hrs & Hrast).
  rewrite Hdirty in Hdr_dirty.
  pose proof (run_downloads_queue c') as Hdr_queue.
  cbv zeta in Hfirst.
  set (drained := run_downloads c') in *. clearbody drained.
  injection Hfirst as <-.
  cbn [dirty_regions set_dirty_regions download_queue].
  rewrite Hdr_dirty.
  rewrite fold_flush_skip_all.
  - cbv zeta. unfold run_downloads at 1 2.
    cbn [download_queue set_dirty_regions]. rewrite Hdr_queue.
    cbn [erase_all fold_left dirty_regions]. reflexivity.
  - apply flushed_segments_gone; try lia; try assumption.
Qed.

End CacheFlush.

Lemma FlushRegion_idempotent_witness :
  (0 <= 3145728 /\ 0 <= 16 /\ 3145728 + 16 < 2 ^ 32 /\
   ICL.nonempty_segments (dirty_regions fill_cache)) /\
  FlushRegion (H := spec_surface_ops) (H0 := sample_backend) 3145728 16 None fill_cache
    ≫= FlushRegion (H := spec_surface_ops) (H0 := sample_backend) 3145728 16 None
  = FlushRegion (H := spec_surface_ops) (H0 := sample_backend) 3145728 16 None fill_cache.
Proof.
  assert (Hne : ICL.nonempty_segments (dirty_regions fill_cache)).
  { vm_compute. constructor; [reflexivity | constructor]. }
  split; [repeat split; try lia; exact Hne|].
  apply (@FlushRegion_idempotent spec_surface_ops sample_backend); try lia; exact Hne.
Defined.

(** The flush of the "CPU small write" sample downloads the dirty bytes
    once, after one barrier, and leaves nothing dirty. *)
Example FlushRegion_small_write :
  match FlushRegion (H := spec_surface_ops) (H0 := sample_backend) 2097152 65536 None
                    small_write_cache with
  | Some c =>
    backend_calls c = [SurfaceDownload 1 (2097152, 2097184); RuntimeFinish] /\
    dirty_regions c = [] /\ download_queue c = [] /\
    guest_memory c !! 2097183 = Some 238
  | None => False
  end.
Proof. vm_compute. repeat split. Qed.

(** ** The rasterizer cache: finding the best match *)

Section FindMatchProperties.

Import ICL.

Context `{SurfaceOps} `{Backend}.

Variable find_flags : list MatchFlags.t.
Variable match_scale_type : ScaleMatch.t.
Variable params : SurfaceParams.
Variable validate_interval : option SurfaceInterval.
Variable objects : gmap Z SurfaceObject.

Hypothesis copy_has_interval :
  has_flag MatchFlags.Copy find_flags = true -> validate_interval <> None.

Lemma better_rank_lt scale valid interval m :
  better scale valid interval m = true
  <-> rank_lt (rank_of_match m) (scale, valid, icl_length interval).
Proof.
  unfold better, rank_lt, rank_of_match.
  destruct (match_scale m <? scale) eqn:H1.
  - apply Z.ltb_lt in H1. split; auto.
  - apply Z.ltb_ge in H1. destruct (scale <? match_scale m) eqn:H2.
    + apply Z.ltb_lt in H2. split; [discriminate|]. lia.
    + apply Z.ltb_ge in H2.
      destruct valid, (match_valid m); cbn;
        rewrite ?Z.ltb_lt; split; intros; try discriminate; try lia; auto;
        try (right; split; [lia|]; auto; fail);
        try (destruct H3 as [?|[_ [[? ?]|[? ?]]]]; solve [lia | discriminate | assumption]).
Qed.

Lemma rank_lt_trans a b c : rank_lt a b -> rank_lt b c -> rank_lt a c.
Proof.
  destruct a as [[sa va] la], b as [[sb vb] lb], c as [[sc vc] lc]. unfold rank_lt.
  intros [?|[? [[? ?]|[? ?]]]] [?|[? [[? ?]|[? ?]]]]; subst;
    try lia; try discriminate; try congruence;
    try (left; lia); right; (split; [lia|]); auto; right; split; [congruence | lia].
Qed.

Lemma rank_lt_irrefl a : ~ rank_lt a a.
Proof.
  destruct a as [[sa va] la]. unfold rank_lt.
  intros [?|[? [[? ?]|[? ?]]]]; try lia; congruence.
Qed.

Lemma match_fn_defined check_type surface :
  has_flag check_type find_flags = true ->
  exists matched interval,
    match_fn check_type surface params validate_interval = Some (matched, interval).
Proof.
  intros Hflag. destruct check_type; cbn; eauto.
  destruct validate_interval as [vi|] eqn:Hvi; eauto.
  now destruct (copy_has_interval Hflag).
Qed.

Abbreviation best := (best_so_far find_flags match_scale_type params validate_interval objects).
Abbreviation passes := (check_passes find_flags match_scale_type params validate_interval objects).

(** One call of [IsMatch_Helper] keeps the invariant and accounts for the
    pair it looks at. *)
Lemma IsMatch_Helper_best id surface check_type (done : Z -> MatchFlags.t -> Prop) m :
  objects !! id = Some surface ->
  (has_flag MatchFlags.Invalid find_flags = true
   \/ is_valid find_flags params validate_interval surface = true) ->
  best done m ->
  exists m',
    IsMatch_Helper find_flags match_scale_type params validate_interval id surface
      (res_scale_matched match_scale_type params surface)
      (is_valid find_flags params validate_interval surface) check_type m = Some m' /\
    best (fun i ct => done i ct \/ (i = id /\ ct = check_type)) m'.
Proof.
  intros Hobj Hvalid (Hmax & Hsome & Hnone). unfold IsMatch_Helper.
  assert (Hkeep : (forall interval, ~ passes id surface check_type interval) ->
                  best (fun i ct => done i ct \/ (i = id /\ ct = check_type)) m).
  { intros Hno. split; [|split; [|exact Hnone]].
    - intros i s ct iv [Hd|[-> ->]] Hp; [now apply (Hmax i s ct iv)|].
      assert (s = surface) by (destruct Hp as [Hp _]; congruence). subst s.
      now destruct (Hno iv).
    - intros i Hi. destruct (Hsome i Hi) as (s & ct & Hd & Hp & Hr).
      exists s, ct. auto. }
  destruct (has_flag check_type find_flags) eqn:Hflag; cbn [negb].
  2:{ exists m. split; [reflexivity|]. apply Hkeep.
      intros iv (_ & _ & _ & Hf & _). congruence. }
  destruct (match_fn_defined check_type surface Hflag) as (matched & interval & Hfn).
  rewrite Hfn. destruct matched; cbn [negb].
  2:{ exists m. split; [reflexivity|]. apply Hkeep.
      intros iv (_ & _ & _ & _ & Hm). congruence. }
  destruct (negb (res_scale_matched match_scale_type params surface)
            && negb (bool_decide (match_scale_type = ScaleMatch.Ignore))
            && negb (bool_decide (type (Surface.params surface) = SurfaceType.Fill)))
    eqn:Hscale.
  { exists m. split; [reflexivity|]. apply Hkeep.
    intros iv (_ & _ & Hs & _ & _).
    apply andb_true_iff in Hscale. destruct Hscale as [Hscale Hfill].
    apply andb_true_iff in Hscale. destruct Hscale as [Hres Hign].
    apply negb_true_iff in Hres, Hign, Hfill.
    apply bool_decide_eq_false in Hign, Hfill.
    destruct Hs as [Hs|[Hs|Hs]]; congruence. }
  destruct (better _ _ _ m) eqn:Hbetter.
  - eexists. split; [reflexivity|].
    apply better_rank_lt in Hbetter.
    split; [|split; [|discriminate]].
    + intros i s ct iv Hd Hp Hlt.
      destruct Hd as [Hd|[-> ->]].
      * apply (Hmax i s ct iv Hd Hp).
        eapply rank_lt_trans; [exact Hbetter|]. exact Hlt.
      * assert (s = surface) by (destruct Hp as [Hp _]; congruence). subst s.
        assert (iv = interval) by (destruct Hp as (_ & _ & _ & _ & Hp); congruence).
        subst iv. exact (rank_lt_irrefl _ Hlt).
    + intros i [= <-]. exists surface, check_type.
      split; [right; auto|]. split; [|reflexivity].
      cbn [match_interval]. unfold check_passes.
      split; [exact Hobj|]. split; [exact Hvalid|]. split; [|split; [exact Hflag | exact Hfn]].
      destruct (res_scale_matched match_scale_type params surface); [now left|].
      destruct (bool_decide (match_scale_type = ScaleMatch.Ignore)) eqn:Hign;
        [apply bool_decide_eq_true in Hign; auto|].
      destruct (bool_decide (type (Surface.params surface) = SurfaceType.Fill)) eqn:Hfill;
        [apply bool_decide_eq_true in Hfill; auto | discriminate].
  - exists m. split; [reflexivity|].
    split; [|split; [|exact Hnone]].
    + intros i s ct iv [Hd|[-> ->]] Hp; [now apply (Hmax i s ct iv)|].
      assert (s = surface) by (destruct Hp as [Hp _]; congruence). subst s.
      assert (iv = interval) by (destruct Hp as (_ & _ & _ & _ & Hp); congruence).
      subst iv. intros Hlt. apply better_rank_lt in Hlt. congruence.
    + intros i Hi. destruct (Hsome i Hi) as (s & ct & Hd & Hp & Hr).
      exists s, ct. auto.
Qed.

Lemma best_extend (done done' : Z -> MatchFlags.t -> Prop) m :
  best done m ->
  (forall i ct, done i ct -> done' i ct) ->
  (forall i ct s iv, done' i ct -> passes i s ct iv -> done i ct) ->
  best done' m.
Proof.
  intros (Hmax & Hsome & Hnone) Hsub Hpass. split; [|split; [|exact Hnone]].
  - intros i s ct iv Hd Hp. apply (Hmax i s ct iv); [|exact Hp]. eapply Hpass; eauto.
  - intros i Hi. destruct (Hsome i Hi) as (s & ct & Hd & Hp & Hr).
    exists s, ct. auto.
Qed.

(** The body of the inner loop keeps the invariant and accounts for the
    surface it looks at. *)
Lemma match_surface_step_best id (done : Z -> MatchFlags.t -> Prop) m :
  best done m ->
  exists m',
    match_surface_step find_flags match_scale_type params validate_interval objects
                       (Some m) id = Some m' /\
    best (fun i ct => done i ct \/ i = id) m'.
Proof.
  intros Hbest. unfold match_surface_step.
  destruct (objects !! id) as [surface|] eqn:Hobj.
  2:{ exists m. split; [reflexivity|]. apply (best_extend done); auto.
      intros i ct s iv [Hd| ->] Hp; [exact Hd|]. destruct Hp as [Hp _]. congruence. }
  destruct (negb (has_flag MatchFlags.Invalid find_flags)
            && negb (is_valid find_flags params validate_interval surface)) eqn:Hskip.
  { exists m. split; [reflexivity|]. apply (best_extend done); auto.
    intros i ct s iv [Hd| ->] Hp; [exact Hd|]. destruct Hp as (Hs & Hv & _).
    assert (s = surface) by congruence. subst s.
    apply andb_true_iff in Hskip. destruct Hskip as [Hi Hv'].
    apply negb_true_iff in Hi, Hv'. destruct Hv; congruence. }
  assert (Hvalid : has_flag MatchFlags.Invalid find_flags = true
                   \/ is_valid find_flags params validate_interval surface = true).
  { destruct (has_flag MatchFlags.Invalid find_flags); [now left|].
    destruct (is_valid find_flags params validate_interval surface); [now right|].
    discriminate. }
  unfold check_types. cbn [fold_left].
  destruct (IsMatch_Helper_best id surface MatchFlags.Exact _ m Hobj Hvalid Hbest)
    as (m1 & -> & H1).
  destruct (IsMatch_Helper_best id surface MatchFlags.SubRect _ m1 Hobj Hvalid H1)
    as (m2 & -> & H2).
  destruct (IsMatch_Helper_best id surface MatchFlags.Copy _ m2 Hobj Hvalid H2)
    as (m3 & -> & H3).
  destruct (IsMatch_Helper_best id surface MatchFlags.Expand _ m3 Hobj Hvalid H3)
    as (m4 & -> & H4).
  destruct (IsMatch_Helper_best id surface MatchFlags.TexCopy _ m4 Hobj Hvalid H4)
    as (m5 & -> & H5).
  exists m5. split; [reflexivity|].
  eapply best_extend; [exact H5 | |].
  - cbn beta. intros i ct [[[[[?|[? ?]]|[? ?]]|[? ?]]|[? ?]]|[? ?]]; auto.
  - cbn beta. intros i ct s iv [Hd| ->] Hp; [do 5 left; exact Hd|].
    destruct Hp as (Hs & _ & _ & _ & Hfn).
    assert (s = surface) by congruence. subst s.
    destruct ct; auto 10. discriminate.
Qed.

Lemma fold_match_best ids : forall (done : Z -> MatchFlags.t -> Prop) m,
  best done m ->
  exists m',
    fold_left (match_surface_step find_flags match_scale_type params validate_interval objects)
              ids (Some m) = Some m' /\
    best (fun i ct => done i ct \/ In i ids) m'.
Proof.
  induction ids as [|id ids IH]; intros done m Hbest; cbn [fold_left].
  - exists m. split; [reflexivity|]. apply (best_extend done); auto. intros i ct s iv [?|[]]; auto.
  - destruct (match_surface_step_best id done m Hbest) as (m1 & -> & H1).
    destruct (IH _ m1 H1) as (m' & Hfold & Hbest').
    exists m'. split; [exact Hfold|].
    apply (best_extend _ _ _ Hbest'); cbn; intros; intuition (subst; auto).
Qed.

Lemma has_flag_true f : has_flag f find_flags = true <-> f ∈ find_flags.
Proof. unfold has_flag. apply bool_decide_eq_true. Qed.

(** The lambdas that [FindMatch] hands to [IsMatch_Helper] compute the
    predicates of the check types. *)
Lemma matches_match_fn check_type surface interval :
  matches check_type surface params validate_interval interval
  <-> match_fn check_type surface params validate_interval = Some (true, interval).
Proof.
  unfold matches, match_fn. destruct check_type.
  - split; [contradiction | discriminate].
  - split; [intros [-> ->]; reflexivity | intros [= -> ->]; auto].
  - split; [intros [-> ->]; reflexivity | intros [= -> ->]; auto].
  - destruct validate_interval as [vi|].
    + split.
      * intros (vi' & [= <-] & -> & Hlen & Hcopy).
        apply Z.eqb_neq in Hlen. rewrite Hlen, Hcopy. reflexivity.
      * intros [= Hm <-]. apply andb_true_iff in Hm. destruct Hm as [Hlen Hcopy].
        apply negb_true_iff, Z.eqb_neq in Hlen. exists vi. auto.
    + split; [intros (vi & [=] & _) | discriminate].
  - split; [intros [-> ->]; reflexivity | intros [= -> ->]; auto].
  - split; [intros [-> ->]; reflexivity | intros [= -> ->]; auto].
Qed.

(** The candidates, as spelled out, are the surfaces for which a call of
    [IsMatch_Helper] gets to the comparison. *)
Lemma search_candidate_passes surface_cache id surface interval :
  search_candidate find_flags match_scale_type params validate_interval objects surface_cache
                   id surface interval
  <-> candidate find_flags match_scale_type params validate_interval objects surface_cache
                id surface interval.
Proof.
  unfold search_candidate, candidate, check_passes.
  assert (Hvalid : (MatchFlags.Copy ∈ find_flags \/ MatchFlags.Invalid ∈ find_flags
                    \/ valid_on_request params validate_interval surface = true)
                   <-> (has_flag MatchFlags.Invalid find_flags = true
                        \/ is_valid find_flags params validate_interval surface = true)).
  { unfold is_valid, valid_on_request. rewrite <- !has_flag_true.
    destruct (has_flag MatchFlags.Copy find_flags); intuition congruence. }
  assert (Hscale : scale_passes match_scale_type params surface
                   <-> (res_scale_matched match_scale_type params surface = true
                        \/ match_scale_type = ScaleMatch.Ignore
                        \/ type (Surface.params surface) = SurfaceType.Fill)).
  { unfold scale_passes, res_scale_matched.
    destruct match_scale_type; case_bool_decide; try congruence;
      rewrite ?Z.eqb_eq, ?Z.leb_le; intuition (discriminate || auto). }
  assert (Hvisit : (exists seg, In seg surface_cache
                                /\ overlaps (fst seg) (GetInterval params) = true
                                /\ In id (snd seg))
                   <-> In id (visited surface_cache (GetInterval params))).
  { unfold visited. rewrite in_flat_map. unfold equal_range. split.
    - intros (seg & Hseg & Hov & Hid). exists seg. rewrite filter_In. tauto.
    - intros (seg & Hseg & Hid). apply filter_In in Hseg. exists seg. tauto. }
  split.
  - intros (Hin & Hobj & Hv & Hs & ct & Hct & Hfn). split; [now apply Hvisit|]. exists ct.
    split; [exact Hobj|]. split; [now apply Hvalid|]. split; [now apply Hscale|].
    split; [now apply has_flag_true | now apply matches_match_fn].
  - intros (Hin & ct & Hobj & Hv & Hs & Hct & Hfn).
    split; [now apply Hvisit|]. split; [exact Hobj|]. split; [now apply Hvalid|].
    split; [now apply Hscale|].
    exists ct. split; [now apply has_flag_true | now apply matches_match_fn].
Qed.

(** C2: [FindMatch] returns a maximal candidate.  In a search without the
    flag [Copy] no candidate outranks the match that the search ends with in
    the lexicographic order of scale, then validity on the validated
    interval, then matched length.  In a search with the flag [Copy] validity
    is neither a filter nor a criterion (the code takes every surface as
    valid and leaves the check to [GetCopyableInterval]): no candidate has a
    larger scale than the final match, or the same scale and a longer matched
    interval.  The returned surface is itself a candidate, with the scale and
    the matched interval of the final match; and the search returns a surface
    whenever a candidate of positive scale exists. *)
Theorem FindMatch_maximal (surface_cache : list (SurfaceInterval * list Z)) :
  exists m,
    FindMatch_locals find_flags objects surface_cache params match_scale_type
                     validate_interval = Some m /\
    FindMatch find_flags objects surface_cache params match_scale_type validate_interval
    = Some (match_surface m) /\
    (MatchFlags.Copy ∉ find_flags ->
     forall id surface interval,
       search_candidate find_flags match_scale_type params validate_interval objects
                        surface_cache id surface interval ->
       ~ rank_lt (rank_of_match m)
                 (res_scale (Surface.params surface),
                  valid_on_request params validate_interval surface,
                  icl_length interval)) /\
    (MatchFlags.Copy ∈ find_flags ->
     forall id surface interval,
       search_candidate find_flags match_scale_type params validate_interval objects
                        surface_cache id surface interval ->
       ~ (match_scale m < res_scale (Surface.params surface)
          \/ (match_scale m = res_scale (Surface.params surface)
              /\ icl_length (match_interval m) < icl_length interval))) /\
    (forall id, match_surface m = Some id ->
        exists surface,
          search_candidate find_flags match_scale_type params validate_interval objects
                           surface_cache id surface (match_interval m) /\
          match_scale m = res_scale (Surface.params surface) /\
          match_valid m = (if bool_decide (MatchFlags.Copy ∈ find_flags) then true
                           else valid_on_request params validate_interval surface)) /\
    (forall id surface interval,
        search_candidate find_flags match_scale_type params validate_interval objects
                         surface_cache id surface interval ->
        0 < res_scale (Surface.params surface) -> match_surface m <> None).
Proof.
  assert (Hinit : best (fun _ _ => False) (mkMatch None false 0 identity_element)).
  { split; [|split]; [intros ? ? ? ? [] | discriminate | reflexivity]. }
  destruct (fold_match_best (visited surface_cache (GetInterval params)) _ _ Hinit)
    as (m & Hfold & Hmax & Hsome & Hnone).
  assert (Hmax' : forall id surface interval,
            search_candidate find_flags match_scale_type params validate_interval objects
                             surface_cache id surface interval ->
            ~ rank_lt (rank_of_match m)
                      (rank_of find_flags params validate_interval surface interval)).
  { intros id surface interval Hc. apply search_candidate_passes in Hc.
    destruct Hc as (Hin & ct & Hp). apply (Hmax id surface ct interval); auto. }
  exists m. unfold FindMatch, FindMatch_locals. rewrite Hfold.
  split; [reflexivity|]. split; [reflexivity|]. split; [|split; [|split]].
  - intros Hcopy id surface interval Hc Hlt. apply (Hmax' id surface interval Hc).
    unfold rank_of, is_valid, has_flag. rewrite bool_decide_eq_false_2 by exact Hcopy.
    exact Hlt.
  - intros Hcopy id surface interval Hc Hlt. apply (Hmax' id surface interval Hc).
    unfold rank_of, is_valid, has_flag. rewrite bool_decide_eq_true_2 by exact Hcopy.
    unfold rank_lt, rank_of_match. destruct Hlt as [Hlt|[Heq Hlt]]; [now left|].
    right. split; [exact Heq|]. destruct (match_valid m); [right | left]; auto.
  - intros id Hid. destruct (Hsome id Hid) as (surface & ct & [[]|Hin] & Hp & Hr).
    exists surface. split.
    + apply search_candidate_passes. split; [exact Hin|]. now exists ct.
    + unfold rank_of, rank_of_match, is_valid, has_flag in Hr.
      injection Hr as Hscale Hvalid. split; [now symmetry|]. now symmetry.
  - intros id surface interval Hc Hscale Hm.
    apply (Hmax' id surface interval Hc).
    rewrite (Hnone Hm). unfold rank_of, rank_lt. left. exact Hscale.
Qed.

End FindMatchProperties.

Lemma FindMatch_maximal_witness :
  (has_flag MatchFlags.Copy [MatchFlags.Copy] = true -> Some (4096, 8192) <> None) /\
  exists m,
    FindMatch_locals (H := spec_surface_ops) [MatchFlags.Copy] (heap staged_owner_cache)
      (surface_cache staged_owner_cache) staged_owner_params ScaleMatch.Ignore
      (Some (4096, 8192)) = Some m /\
    match_surface m = Some 3.
Proof.
  assert (Hvi : has_flag MatchFlags.Copy [MatchFlags.Copy] = true
                -> Some (4096, 8192) <> (None : option SurfaceInterval))
    by (intros _; discriminate).
  split; [exact Hvi|].
  destruct (@FindMatch_maximal spec_surface_ops [MatchFlags.Copy] ScaleMatch.Ignore
              staged_owner_params (Some (4096, 8192)) (heap staged_owner_cache) Hvi
              (surface_cache staged_owner_cache)) as (m & Hm & _).
  exists m. split; [exact Hm|].
  vm_compute in Hm. injection Hm as <-. reflexivity.
Defined.

(** C2, as the claim has it, fails for a search with the flag [Copy]: the
    request covers [0, 0x2000); surface 1 covers it and is invalid on
    [0x1800, 0x2000), surface 2 covers [0, 0x1000) and is valid on all of the
    request's interval; both have the scale 1 and both are candidates, so
    surface 2 outranks surface 1 in the order of the claim.  The search
    returns surface 1, whose copyable interval is the longer one. *)
Lemma FindMatch_copy_ignores_validity :
  let c := copy_search_cache in
  let request := params (rgba8_surface 0 8192 64 32 1 []) in
  let S1 := set_registered true (rgba8_surface 0 8192 64 32 1 [((6144, 8192), tt)]) in
  let S2 := set_registered true (rgba8_surface 0 4096 64 16 1 []) in
  FindMatch (H := spec_surface_ops) [MatchFlags.Copy] (heap c) (surface_cache c) request
            ScaleMatch.Exact (Some (0, 8192)) = Some (Some 1) /\
  search_candidate (H := spec_surface_ops) [MatchFlags.Copy] ScaleMatch.Exact request
                   (Some (0, 8192)) (heap c) (surface_cache c) 1 S1 (0, 6144) /\
  search_candidate (H := spec_surface_ops) [MatchFlags.Copy] ScaleMatch.Exact request
                   (Some (0, 8192)) (heap c) (surface_cache c) 2 S2 (0, 4096) /\
  res_scale (params S1) = res_scale (params S2) /\
  valid_on_request request (Some (0, 8192)) S1 = false /\
  valid_on_request request (Some (0, 8192)) S2 = true /\
  rank_lt (res_scale (params S1), valid_on_request request (Some (0, 8192)) S1,
           ICL.icl_length (0, 6144))
          (res_scale (params S2), valid_on_request request (Some (0, 8192)) S2,
           ICL.icl_length (0, 4096)).
Proof.
  cbv zeta. split; [vm_compute; reflexivity|].
  split; [|split; [|split; [reflexivity|split; [|split]]]];
    [| | vm_compute; reflexivity | vm_compute; reflexivity
     | right; split; [reflexivity | left; split; vm_compute; reflexivity]].
  - split.
    { exists ((0, 4096), [1; 2]). vm_compute. auto. }
    split; [vm_compute; reflexivity|].
    split; [left; apply list_elem_of_In; now left|]. split; [left; reflexivity|].
    exists MatchFlags.Copy. split; [apply list_elem_of_In; now left|].
    exists (0, 8192). vm_compute. repeat split; congruence.
  - split.
    { exists ((0, 4096), [1; 2]). vm_compute. auto. }
    split; [vm_compute; reflexivity|].
    split; [left; apply list_elem_of_In; now left|]. split; [left; reflexivity|].
    exists MatchFlags.Copy. split; [apply list_elem_of_In; now left|].
    exists (0, 8192). vm_compute. repeat split; congruence.
Qed.

(** ** The rasterizer cache: removing staged surfaces *)

Section RemoveStaged.

Import ICL.

Context `{SurfaceOps} `{Backend}.

Lemma in_regions_dec (b : SurfaceRegions) x : in_regions b x \/ ~ in_regions b x.
Proof.
  induction b as [|r b IH].
  - right. intros (? & [] & _).
  - destruct (within x (fst r)) eqn:Hw.
    + left. exists r. split; [now left|]. split; [exact Hw | now destruct (snd r)].
    + destruct IH as [(s & Hs & Hws & Hv)|Hno].
      * left. exists s. split; [now right | auto].
      * right. intros (s & [<-|Hs] & Hws & Hv); [congruence|].
        apply Hno. now exists s.
Qed.

(** [(a - b).empty()] on interval sets: every byte of [a] is a byte of
    [b]. *)
Lemma erase_all_nil (a b : SurfaceRegions) :
  nonempty_segments a ->
  erase_all b a = [] <-> (forall x, in_regions a x -> in_regions b x).
Proof.
  intros Ha. split.
  - intros Hnil x (s & Hs & Hw & _).
    destruct (in_regions_dec b x) as [Hb|Hb]; [exact Hb|]. exfalso.
    assert (Hc : covered (erase_all b a) x tt).
    { clear Hnil. unfold erase_all. revert a Ha s Hs Hw Hb.
      induction b as [|r b IH]; intros a Ha s Hs Hw Hb; simpl.
      - exists s. split; [exact Hs|]. split; [exact Hw | now destruct (snd s)].
      - assert (Hr : within x (fst r) = false).
        { destruct (within x (fst r)) eqn:Hwr; [|reflexivity]. exfalso. apply Hb.
          exists r. split; [now left|]. split; [exact Hwr | now destruct (snd r)]. }
        destruct (covered_erase (fst r) a x (snd s) (ex_intro _ s (conj Hs (conj Hw eq_refl))) Hr)
          as (s1 & Hs1 & Hw1 & _).
        apply (IH (erase (fst r) a) (nonempty_erase _ _ Ha) s1 Hs1 Hw1).
        intros (r' & Hr' & Hwr' & Hv'). apply Hb. exists r'. split; [now right | auto]. }
    rewrite Hnil in Hc. now destruct Hc as (? & [] & _).
  - intros Hsub. destruct (erase_all b a) as [|s' rest] eqn:He; [reflexivity|]. exfalso.
    destruct (erase_all_spec b a s') as (s & Hs & _ & Hl & Hu & Hn & Hout);
      [rewrite He; now left|].
    assert (Hs_ne : lower (fst s) < upper (fst s)).
    { unfold nonempty_segments in Ha. rewrite Forall_forall in Ha.
      apply Ha. now apply list_elem_of_In. }
    specialize (Hn Hs_ne).
    assert (Hin : in_regions a (lower (fst s'))).
    { exists s. split; [exact Hs|]. split; [apply within_bounds; lia | now destruct (snd s)]. }
    destruct (Hsub _ Hin) as (r & Hr & Hwr & _).
    rewrite (Hout (lower (fst s')) r) in Hwr; [discriminate | apply within_bounds; lia | exact Hr].
Qed.

(** C3, as the code has it: in the removal loop of [InvalidateRegion] a
    staged surface other than the region owner is unregistered.  For the
    owner the successor is the [SubRect | Invalid] match of the owner's
    parameters at any scale (a failed search aborts); when every invalid byte
    of the owner is an invalid byte of the successor, the owner is duplicated
    into the successor and unregistered, and otherwise the owner is left
    registered and untouched. *)
Theorem remove_staged_owner (region_owner : option Z) (c : RasterizerCache)
    (remove_surface : Z) :
  (Some remove_surface <> region_owner ->
   remove_staged region_owner (Some c) remove_surface = UnregisterSurface remove_surface c) /\
  (forall owner,
      Some remove_surface = region_owner ->
      heap c !! remove_surface = Some owner ->
      nonempty_segments (invalid_regions owner) ->
      match FindMatch [MatchFlags.SubRect; MatchFlags.Invalid] (heap c) (surface_cache c)
                      (params owner) ScaleMatch.Ignore None with
      | Some (Some expanded) =>
        forall expanded_surface,
          heap c !! expanded = Some expanded_surface ->
          ((forall x, in_regions (invalid_regions owner) x ->
                      in_regions (invalid_regions expanded_surface) x) ->
           remove_staged region_owner (Some c) remove_surface
           = DuplicateSurface remove_surface expanded c ≫= UnregisterSurface remove_surface) /\
          (~ (forall x, in_regions (invalid_regions owner) x ->
                        in_regions (invalid_regions expanded_surface) x) ->
           remove_staged region_owner (Some c) remove_surface = Some c)
      | _ => remove_staged region_owner (Some c) remove_surface = None
      end).
Proof.
  unfold remove_staged. split.
  - intros Hne. rewrite bool_decide_eq_false_2 by exact Hne. reflexivity.
  - intros owner Hown Hobj Hne. rewrite bool_decide_eq_true_2 by exact Hown. rewrite Hobj.
    destruct (FindMatch _ _ _ _ _ _) as [[expanded|]|]; try reflexivity.
    intros expanded_surface Hexp. rewrite Hexp.
    pose proof (erase_all_nil (invalid_regions owner) (invalid_regions expanded_surface) Hne)
      as Hnil.
    destruct (erase_all (invalid_regions expanded_surface) (invalid_regions owner))
      as [|s rest] eqn:He.
    + split; [intros _ | intros Hno; destruct Hno; now apply Hnil].
      now destruct (DuplicateSurface remove_surface expanded c).
    + split; [intros Hsub; apply Hnil in Hsub; discriminate | reflexivity].
Qed.

End RemoveStaged.

Lemma remove_staged_owner_witness :
  remove_staged (H := spec_surface_ops) (H0 := sample_backend) (Some 1)
                (Some staged_owner_cache) 1
  = DuplicateSurface (H := spec_surface_ops) (H0 := sample_backend) 1 2 staged_owner_cache
      ≫= UnregisterSurface 1.
Proof.
  destruct (@remove_staged_owner spec_surface_ops sample_backend (Some 1)
              staged_owner_cache 1) as [_ Howner].
  destruct (heap staged_owner_cache !! 1) as [owner|] eqn:Ho;
    [|vm_compute in Ho; discriminate].
  assert (Hinv : invalid_regions owner = []).
  { vm_compute in Ho. injection Ho as <-. reflexivity. }
  assert (Hparams : params owner = staged_owner_params).
  { vm_compute in Ho. injection Ho as <-. reflexivity. }
  assert (Hne : ICL.nonempty_segments (invalid_regions owner)) by (rewrite Hinv; constructor).
  specialize (Howner owner eq_refl eq_refl Hne).
  rewrite Hparams in Howner.
  assert (Hfm : FindMatch (H := spec_surface_ops) [MatchFlags.SubRect; MatchFlags.Invalid]
                  (heap staged_owner_cache) (surface_cache staged_owner_cache)
                  staged_owner_params ScaleMatch.Ignore None = Some (Some 2))
    by (vm_compute; reflexivity).
  rewrite Hfm in Howner.
  destruct (heap staged_owner_cache !! 2) as [expanded_surface|] eqn:He;
    [|vm_compute in He; discriminate].
  destruct (Howner expanded_surface eq_refl) as [Hdup _].
  apply Hdup. rewrite Hinv. intros x (s & [] & _).
Defined.

(** C3, as the claim has it, fails on the "staged owner" sample: the
    [Expand | Invalid] match of the owner is surface 3, but the owner is
    duplicated into surface 2, its [SubRect | Invalid] match; and it is
    duplicated although the successor has invalid bytes and the owner has
    none. *)
Lemma staged_owner_successor :
  FindMatch (H := spec_surface_ops) [MatchFlags.Expand; MatchFlags.Invalid]
            (heap staged_owner_cache) (surface_cache staged_owner_cache)
            staged_owner_params ScaleMatch.Ignore None = Some (Some 3) /\
  FindMatch (H := spec_surface_ops) [MatchFlags.SubRect; MatchFlags.Invalid]
            (heap staged_owner_cache) (surface_cache staged_owner_cache)
            staged_owner_params ScaleMatch.Ignore None = Some (Some 2) /\
  invalid_regions <$> heap staged_owner_cache !! 1 = Some [] /\
  invalid_regions <$> heap staged_owner_cache !! 2 = Some [((12288, 16384), tt)] /\
  match InvalidateRegion (H := spec_surface_ops) (H0 := sample_backend) 4096 256 (Some 1)
                         staged_owner_cache with
  | Some c =>
    backend_calls c = [BlitTextures 1 2 (mkRect 0 16 64 0) (mkRect 0 32 128 0)] /\
    registered <$> heap c !! 1 = Some false /\
    dirty_regions c = [((4096, 4352), 2)]
  | None => False
  end.
Proof. vm_compute. repeat split. Qed.

(** ** The page tracker under unregistration *)

Section PageTrackerDecrement.

Lemma update_page_counts delta page l r count :
  cached_pages r !! Z.to_nat page = Some count ->
  (if 0 <? delta then ASSERT (count <? u16_max)
   else if delta <? 0 then ASSERT (0 <? count) else ASSERT false) = Some tt ->
  exists l' r',
    update_page delta page (l, r) = Some (l', r') /\
    cached_pages r' = <[Z.to_nat page := u16 (count + delta)]> (cached_pages r).
Proof.
  intros Hlook Hassert. unfold update_page. rewrite Hlook, Hassert.
  cbv zeta.
  destruct (u16 (count + delta) =? 0);
    [destruct (uncache_bytes l =? 0) | destruct (0 <? uncache_bytes l)];
    destruct ((u16 (count + delta) =? 1) && (0 <? delta));
    cbn [cache_bytes uncache_bytes cache_start_addr uncache_start_addr];
    repeat match goal with
           | |- context [if ?b then _ else _] => destruct b
           end;
    do 2 eexists; split; reflexivity.
Qed.

(** Uncaching a run of pages whose counters are positive decrements
    exactly these counters. *)
Lemma update_pages_decrement n : forall page l r,
  0 <= page -> page + Z.of_nat n < 2 ^ 32 ->
  (forall p, page <= p < page + Z.of_nat n ->
             exists count, cached_pages r !! Z.to_nat p = Some count /\ 0 < count <= 65535) ->
  exists l' r',
    update_pages n (-1) page (l, r) = Some (l', r') /\
    forall q : nat,
      cached_pages r' !! q
      = if bool_decide (page <= Z.of_nat q < page + Z.of_nat n)
        then (fun count => count - 1) <$> cached_pages r !! q
        else cached_pages r !! q.
Proof.
  induction n as [|n IH]; intros page l r Hpage Hfit Hpos.
  - exists l, r. split; [reflexivity|]. intros q. rewrite bool_decide_eq_false_2 by lia.
    reflexivity.
  - cbn [update_pages].
    destruct (Hpos page ltac:(lia)) as (count & Hlook & Hcount).
    destruct (update_page_counts (-1) page l r count Hlook) as (l1 & r1 & Hstep & Hpages).
    { cbn. replace (0 <? count) with true by (symmetry; apply Z.ltb_lt; lia). reflexivity. }
    rewrite Hstep. rewrite (u32_small (page + 1)) by lia.
    rewrite (u16_small (count + -1)) in Hpages by lia.
    destruct (IH (page + 1) l1 r1 ltac:(lia) ltac:(lia)) as (l' & r' & Hrest & Hq).
    { intros p Hp. destruct (Hpos p ltac:(lia)) as (cp & Hcp & Hbound).
      exists cp. split; [|exact Hbound]. rewrite Hpages.
      rewrite list_lookup_insert_ne by lia. exact Hcp. }
    exists l', r'. split; [exact Hrest|].
    intros q. rewrite Hq. rewrite Hpages.
    destruct (decide (Z.to_nat page = q)) as [<-|Hne].
    + rewrite bool_decide_eq_false_2 by lia. rewrite bool_decide_eq_true_2 by lia.
      rewrite list_lookup_insert_eq by (apply lookup_lt_Some in Hlook; exact Hlook).
      rewrite Hlook. reflexivity.
    + rewrite list_lookup_insert_ne by exact Hne.
      case_bool_decide; case_bool_decide; try reflexivity; lia.
Qed.

Lemma shiftr_page a : 0 <= a -> Z.shiftr a CITRA_PAGE_BITS = a / 4096.
Proof. intros _. unfold CITRA_PAGE_BITS. now rewrite Z.shiftr_div_pow2 by lia. Qed.

Lemma UpdatePagesCachedCount_decrement addr size r :
  0 <= addr -> 0 < size -> addr + size < 2 ^ 32 ->
  (forall p, Z.shiftr addr CITRA_PAGE_BITS <= p
             < Z.shiftr (addr + size - 1) CITRA_PAGE_BITS + 1 ->
             exists count, cached_pages r !! Z.to_nat p = Some count /\ 0 < count <= 65535) ->
  exists r',
    UpdatePagesCachedCount addr size (-1) r = Some r' /\
    forall q : nat,
      cached_pages r' !! q
      = if bool_decide (Z.shiftr addr CITRA_PAGE_BITS <= Z.of_nat q
                        < Z.shiftr (addr + size - 1) CITRA_PAGE_BITS + 1)
        then (fun count => count - 1) <$> cached_pages r !! q
        else cached_pages r !! q.
Proof.
  intros Haddr Hsize Hfit Hpos. unfold UpdatePagesCachedCount.
  rewrite (u32_small (addr + size - 1)) by lia.
  rewrite !shiftr_page in * by lia.
  assert (Hle : addr / 4096 <= (addr + size - 1) / 4096)
    by (apply Z.div_le_mono; lia).
  assert (Hhi : (addr + size - 1) / 4096 < 2 ^ 20)
    by (apply Z.div_lt_upper_bound; lia).
  assert (Hlo : 0 <= addr / 4096) by (apply Z.div_pos; lia).
  rewrite (u32_small ((addr + size - 1) / 4096 + 1)) by lia.
  rewrite (u32_small ((addr + size - 1) / 4096 + 1 - addr / 4096)) by lia.
  set (n := Z.to_nat ((addr + size - 1) / 4096 + 1 - addr / 4096)).
  assert (Hn : addr / 4096 + Z.of_nat n = (addr + size - 1) / 4096 + 1) by lia.
  destruct (update_pages_decrement n (addr / 4096) (mkRuns 0 0 0 0) r Hlo ltac:(lia))
    as (l' & r' & Hrun & Hq).
  { intros p Hp. apply Hpos. lia. }
  rewrite Hrun. eexists. split; [reflexivity|].
  intros q. rewrite <- Hn.
  assert (Hpages : forall rr c, cached_pages (emit c rr) = cached_pages rr) by reflexivity.
  destruct (0 <? uncache_bytes l'), (0 <? cache_bytes l'); rewrite ?Hpages; apply Hq.
Qed.

End PageTrackerDecrement.

(** ** The rasterizer cache: unregistration *)

Section Unregistration.

Import ICL.

Context `{SurfaceOps} `{Backend}.

Lemma holders_unregister (objects : gmap Z SurfaceObject) id s page :
  objects !! id = Some s ->
  holders objects page
  = ((if decide (on_page page (id, s)) then 1 else 0)
     + holders (<[id := set_registered false s]> objects) page)%nat.
Proof.
  intros Hobj. unfold holders.
  rewrite <- (map_to_list_delete objects id s Hobj).
  rewrite <- (insert_delete_eq objects id (set_registered false s)).
  rewrite (map_to_list_insert (delete id objects) id (set_registered false s))
    by apply lookup_delete_eq.
  rewrite !filter_cons.
  destruct (decide (on_page page (id, set_registered false s))) as [[Hreg _]|_];
    [discriminate|].
  destruct (decide (on_page page (id, s))); reflexivity.
Qed.

Lemma set_registered_params b s : params (set_registered b s) = params s.
Proof. reflexivity. Qed.

(** Unregistering a surface succeeds on a state whose page counters
    account for the registered surfaces, and keeps such a state. *)
Lemma UnregisterSurface_ready id s c :
  heap c !! id = Some s -> pages_ready c ->
  exists c',
    UnregisterSurface id c = Some c' /\
    pages_ready c' /\
    heap c' = <[id := set_registered false s]> (heap c) /\
    dirty_regions c' = dirty_regions c /\
    remove_surfaces c' = remove_surfaces c /\
    backend_calls c' = backend_calls c.
Proof.
  intros Hobj (Hsurf & Hpages & Htable). unfold UnregisterSurface. rewrite Hobj.
  destruct (registered s) eqn:Hreg; cbn [negb].
  2:{ exists c. split; [reflexivity|]. split; [exact (conj Hsurf (conj Hpages Htable))|].
      split; [|repeat split].
      rewrite insert_id; [reflexivity|]. rewrite Hobj. f_equal.
      destruct s. cbn in Hreg. subst. reflexivity. }
  destruct (Hsurf id s Hobj) as (Haddr & Hsize & Hfit & Hend & _).
  pose proof (Htable id s Hobj Hreg) as Hend_page. unfold end_page in Hend_page.
  unfold with_rasterizer, update_surface. rewrite Hobj. cbn [rasterizer set_heap].
  destruct (UpdatePagesCachedCount_decrement (addr (params s)) (size (params s))
              (rasterizer c) Haddr Hsize ltac:(lia)) as (r' & Hupd & Hq).
  { intros p Hp.
    assert (Hp0 : 0 <= p).
    { destruct Hp as [Hp _]. rewrite shiftr_page in Hp by lia.
      pose proof (Z.div_pos (addr (params s)) 4096 Haddr ltac:(lia)). lia. }
    destruct (cached_pages (rasterizer c) !! Z.to_nat p) as [count|] eqn:Hlook.
    2:{ apply lookup_ge_None in Hlook. lia. }
    exists count. split; [reflexivity|].
    pose proof (Hpages (Z.to_nat p) count Hlook) as Hcount.
    rewrite Z2Nat.id in Hcount by exact Hp0.
    rewrite (holders_unregister (heap c) id s p Hobj) in Hcount.
    destruct (decide (on_page p (id, s))) as [_|Hno]; [lia|].
    destruct Hno. split; [exact Hreg|]. unfold first_page, end_page. cbn. exact Hp. }
  rewrite Hupd. eexists. split; [reflexivity|]. unfold pages_ready.
  cbn [heap rasterizer dirty_regions remove_surfaces backend_calls set_surface_cache
       set_rasterizer set_heap].
  split; [|repeat split].
  split; [|split].
  - intros i t. rewrite lookup_insert. case_decide as Hi.
    + intros [= <-]. exact (Hsurf id s Hobj).
    + apply Hsurf.
  - intros page count Hlook. rewrite Hq in Hlook.
    pose proof (holders_unregister (heap c) id s (Z.of_nat page) Hobj) as Hh.
    case_bool_decide as Hin.
    + destruct (cached_pages (rasterizer c) !! page) as [old|] eqn:Hold; [|discriminate].
      injection Hlook as <-. pose proof (Hpages page old Hold) as Hb.
      destruct (decide (on_page (Z.of_nat page) (id, s))) as [_|Hno]; [lia|].
      destruct Hno. split; [exact Hreg|]. exact Hin.
    + pose proof (Hpages page count Hlook) as Hb. lia.
  - intros i t. rewrite lookup_insert. case_decide as Hi.
    + intros [= <-]. discriminate.
    + intros Hi_obj Hi_reg. pose proof (Htable i t Hi_obj Hi_reg) as Hb.
      assert (Hlen : length (cached_pages r') = length (cached_pages (rasterizer c))).
      { apply Nat.le_antisymm.
        - destruct (le_lt_dec (length (cached_pages r')) (length (cached_pages (rasterizer c))))
            as [Hle|Hgt]; [exact Hle|]. exfalso.
          pose proof (Hq (length (cached_pages (rasterizer c)))) as Hn.
          rewrite (lookup_ge_None_2 (cached_pages (rasterizer c))) in Hn by lia.
          destruct (lookup_lt_is_Some_2 (cached_pages r')
                      (length (cached_pages (rasterizer c))) Hgt) as [x Hx].
          rewrite Hx in Hn. now destruct (bool_decide _).
        - destruct (le_lt_dec (length (cached_pages (rasterizer c))) (length (cached_pages r')))
            as [Hle|Hgt]; [exact Hle|]. exfalso.
          pose proof (Hq (length (cached_pages r'))) as Hn.
          rewrite (lookup_ge_None_2 (cached_pages r')) in Hn by lia.
          destruct (lookup_lt_is_Some_2 (cached_pages (rasterizer c))
                      (length (cached_pages r')) Hgt) as [x Hx].
          rewrite Hx in Hn. now destruct (bool_decide _). }
      rewrite Hlen. exact Hb.
Qed.

End Unregistration.

Section UnregisterAll.

Context `{SurfaceOps} `{Backend}.

Lemma unregister_all staged : forall c,
  pages_ready c ->
  (forall r, In r staged -> is_Some (heap c !! r)) ->
  exists c',
    fold_left (remove_staged None) staged (Some c) = Some c' /\
    pages_ready c' /\
    dirty_regions c' = dirty_regions c /\
    remove_surfaces c' = remove_surfaces c /\
    backend_calls c' = backend_calls c /\
    (forall r, In r staged -> unregistered c' r) /\
    (forall id, unregistered c id -> unregistered c' id).
Proof.
  induction staged as [|r staged IH]; intros c Hready Hobjs; cbn [fold_left].
  - exists c. split; [reflexivity|]. split; [exact Hready|].
    do 3 (split; [reflexivity|]). split; [intros r [] | auto].
  - destruct (Hobjs r ltac:(now left)) as [s Hs].
    destruct (UnregisterSurface_ready r s c Hs Hready)
      as (c1 & Hstep & Hready1 & Hheap1 & Hdirty1 & Hrem1 & Hlog1).
    assert (Hrs : remove_staged None (Some c) r = Some c1).
    { unfold remove_staged. rewrite bool_decide_eq_false_2 by discriminate. exact Hstep. }
    rewrite Hrs.
    assert (Hmono1 : forall id, unregistered c id -> unregistered c1 id).
    { unfold unregistered. intros id Hid. rewrite Hheap1, lookup_insert.
      case_decide as Hi; [reflexivity | exact Hid]. }
    assert (Hr1 : unregistered c1 r).
    { unfold unregistered. rewrite Hheap1, lookup_insert_eq. reflexivity. }
    destruct (IH c1 Hready1) as (c' & Hfold & Hready' & Hdirty' & Hrem' & Hlog' & Hall & Hmono).
    { intros r' Hr'. rewrite Hheap1, lookup_insert. case_decide; [eauto|].
      apply Hobjs. now right. }
    exists c'. split; [exact Hfold|]. split; [exact Hready'|].
    split; [congruence|]. split; [congruence|]. split; [congruence|]. split.
    + intros r' [<-|Hr']; [apply Hmono, Hr1 | now apply Hall].
    + intros id Hid. apply Hmono, Hmono1, Hid.
Qed.

End UnregisterAll.

(** ** The rasterizer cache: the flush of one surface *)

Section SurfaceFlush.

Import ICL.

Context `{SurfaceOps} `{Backend}.

Lemma in_set_insert x y l : In x (set_insert y l) <-> x = y \/ In x l.
Proof.
  induction l as [|z l IH]; simpl; [intuition|].
  destruct (y <? z); simpl; [intuition|].
  destruct (y =? z) eqn:Hyz; simpl.
  - apply Z.eqb_eq in Hyz. subst. intuition.
  - rewrite IH. intuition.
Qed.

Lemma ordered_head_bound {V} (s : SurfaceInterval * V) m :
  nonempty_segments m -> ordered (s :: m) ->
  forall t, In t m -> upper (fst s) <= lower (fst t).
Proof.
  revert s. induction m as [|u m IH]; intros s Hne Hord t Hin; [destruct Hin|].
  apply Forall_cons in Hne. destruct Hne as [Hu Hne].
  destruct Hord as [Hsu Hord].
  destruct Hin as [<-|Hin]; [exact Hsu|].
  pose proof (IH u Hne Hord t Hin). lia.
Qed.

Lemma ordered_single_owner (dirty : list (SurfaceInterval * Z)) :
  nonempty_segments dirty -> ordered dirty -> single_owner dirty.
Proof.
  unfold single_owner.
  induction dirty as [|s m IH]; intros Hne Hord x v v' Hv Hv'.
  - now destruct Hv as (? & [] & _).
  - pose proof Hne as Hne0.
    apply Forall_cons in Hne. destruct Hne as [Hs Hne].
    assert (Hord' : ordered m) by (destruct m; [exact I | apply Hord]).
    apply covered_cons in Hv, Hv'.
    assert (Hlater : forall w, covered m x w -> within x (fst s) = true -> False).
    { intros w (t & Ht & Hw & _) Hxs.
      pose proof (ordered_head_bound s m Hne Hord t Ht).
      apply within_bounds in Hw, Hxs. lia. }
    destruct Hv as [[Hw <-]|Hv], Hv' as [[Hw' <-]|Hv']; try reflexivity.
    + now destruct (Hlater _ Hv' Hw).
    + now destruct (Hlater _ Hv Hw').
    + eapply IH; eauto.
Qed.

Lemma covered_erase_all {V W} (regions : list (SurfaceInterval * W)) :
  forall (m : list (SurfaceInterval * V)) x v,
    covered m x v ->
    (forall r, In r regions -> within x (fst r) = false) ->
    covered (erase_all regions m) x v.
Proof.
  unfold erase_all.
  induction regions as [|r regions IH]; intros m x v Hc Hout; simpl; [exact Hc|].
  apply IH; [|intros r' Hr'; apply Hout; now right].
  apply covered_erase; [exact Hc | apply Hout; now left].
Qed.

Lemma covered_erase_all_rev {V W} (regions : list (SurfaceInterval * W))
    (m : list (SurfaceInterval * V)) x v :
  covered (erase_all regions m) x v ->
  covered m x v /\ forall r, In r regions -> within x (fst r) = false.
Proof.
  intros (s' & Hs' & Hw & Hv).
  destruct (erase_all_spec regions m s' Hs') as (s & Hs & Hval & Hl & Hu & _ & Hout).
  split.
  - exists s. split; [exact Hs|]. split; [|congruence].
    apply within_bounds. apply within_bounds in Hw. lia.
  - intros r Hr. now apply (Hout x r).
Qed.

Lemma covered_join_rev {V} `{EqDecision V} (m : list (SurfaceInterval * V)) x v :
  covered (join m) x v -> covered m x v.
Proof.
  induction m as [|s m IH]; simpl; intros Hc; [exact Hc|].
  unfold join_step in Hc. fold (join m) in Hc.
  destruct (join m) as [|t acc] eqn:Hj.
  - apply covered_cons in Hc. apply covered_cons.
    destruct Hc as [Hc|Hc]; [now left | now destruct Hc as (? & [] & _)].
  - destruct (_ && _) eqn:Hmerge.
    + apply andb_true_iff in Hmerge. destruct Hmerge as [Htouch Hval].
      apply Z.eqb_eq in Htouch. apply bool_decide_eq_true in Hval.
      apply covered_cons in Hc. apply covered_cons.
      destruct Hc as [[Hw Hv]|Hc].
      * cbn in Hw, Hv. apply within_bounds in Hw. cbn in Hw.
        destruct (Z_lt_le_dec x (upper (fst s))) as [Hlt|Hge].
        -- left. split; [apply within_bounds; lia | exact Hv].
        -- right. apply IH. apply covered_cons. left.
           split; [apply within_bounds; lia | congruence].
      * right. apply IH. apply covered_cons. now right.
    + apply covered_cons in Hc. apply covered_cons.
      destruct Hc as [Hc|Hc]; [now left | right; now apply IH].
Qed.

Lemma add_interval_covered_rev i (F : SurfaceRegions) x :
  covered (add_interval i F) x tt -> within x i = true \/ covered F x tt.
Proof.
  unfold add_interval, set. cbn [fst]. destruct (is_empty i); [now right|].
  intros Hc. apply covered_join_rev in Hc. destruct Hc as (s & Hs & Hw & Hv).
  apply in_place in Hs. destruct Hs as [->|Hs]; [now left|].
  right. apply erase_spec in Hs. destruct Hs as (s0 & Hs0 & _ & Hl & Hu & _ & _).
  exists s0. split; [exact Hs0|]. split; [|now destruct (snd s0)].
  apply within_bounds. apply within_bounds in Hw. lia.
Qed.

Lemma flushed_interval_sub size flush_interval pair :
  lower (fst pair) < upper (fst pair) -> lower flush_interval < upper flush_interval ->
  overlaps (fst pair) flush_interval = true ->
  lower (fst pair) <= lower (flushed_interval size flush_interval pair) /\
  upper (flushed_interval size flush_interval pair) <= upper (fst pair) /\
  (forall x, within x (fst pair) = true -> within x flush_interval = true ->
             within x (flushed_interval size flush_interval pair) = true).
Proof.
  intros Hp Hf Hov. apply overlaps_bounds in Hov. unfold flushed_interval.
  destruct (size <=? 8); [repeat split; try lia; auto|].
  unfold intersect.
  replace (is_empty (fst pair)) with false by (symmetry; now apply is_empty_false).
  replace (is_empty flush_interval) with false by (symmetry; now apply is_empty_false).
  cbn. repeat split; try lia.
  intros x Hx Hxf. apply within_bounds in Hx, Hxf. apply within_bounds. cbn. lia.
Qed.

Lemma IsRegionValid_sub s j i :
  IsRegionValid s j = true -> lower j <= lower i -> upper i <= upper j ->
  IsRegionValid s i = true.
Proof.
  unfold IsRegionValid, find_interval. intros Hj Hl Hu.
  destruct (equal_range i (invalid_regions s)) as [|r rest] eqn:Hi; [reflexivity|].
  assert (Hr : In r (equal_range j (invalid_regions s))).
  { assert (Hin : In r (equal_range i (invalid_regions s))) by (rewrite Hi; now left).
    apply in_equal_range in Hin. destruct Hin as [Hin Hov].
    apply in_equal_range. split; [exact Hin|].
    apply overlaps_bounds in Hov. apply overlaps_bounds. lia. }
  destruct (equal_range j (invalid_regions s)); [destruct Hr | discriminate].
Qed.

(** A well-formed dirty segment over the flushed region is processed
    without a failed assertion; a surface that is not a fill surface has its
    interval downloaded. *)
Lemma flush_segment_ok size flush_interval flush_surface c F pair :
  dirty_ok (heap c) pair ->
  (forall id s, heap c !! id = Some s -> surface_ok s) ->
  lower (fst pair) < upper (fst pair) -> lower flush_interval < upper flush_interval ->
  overlaps (fst pair) flush_interval = true ->
  exists c' F',
    flush_segment size flush_interval flush_surface (Some (c, F)) pair = Some (c', F') /\
    same_catalog c c' /\
    (forall e, In e (backend_calls c) -> In e (backend_calls c')) /\
    (flushes flush_surface (snd pair) = true ->
     forall s, heap c !! snd pair = Some s -> type (params s) <> SurfaceType.Fill ->
               In (SurfaceDownload (snd pair) (flushed_interval size flush_interval pair))
                  (backend_calls c')).
Proof.
  intros (s & Hs & Hlo & Hhi & Hvalid) Hsurf Hne Hfne Hov.
  destruct (flushes flush_surface (snd pair)) eqn:Hf.
  2:{ exists c, F. rewrite flush_segment_skip by exact Hf.
      split; [reflexivity|]. split; [apply same_catalog_refl|]. split; [auto | discriminate]. }
  destruct (flushed_interval_sub size flush_interval pair Hne Hfne Hov) as (Hl & Hu & _).
  unfold flushes in Hf. apply negb_true_iff in Hf.
  unfold flush_segment. rewrite Hf, Hs.
  fold (flushed_interval size flush_interval pair).
  rewrite (IsRegionValid_sub s (fst pair) _ Hvalid Hl Hu). cbn [ASSERT].
  destruct (Hsurf _ _ Hs) as (_ & _ & _ & _ & Hfill).
  assert (Hassert : ASSERT ((addr (params s) <=? lower (flushed_interval size flush_interval pair))
                            && (upper (flushed_interval size flush_interval pair)
                                <=? end_ (params s))) = Some tt).
  { replace (addr (params s) <=? _) with true by (symmetry; apply Z.leb_le; lia).
    replace (_ <=? end_ (params s)) with true by (symmetry; apply Z.leb_le; lia).
    reflexivity. }
  destruct (bool_decide (type (params s) = SurfaceType.Fill)) eqn:Hty.
  - apply bool_decide_eq_true in Hty.
    unfold DownloadFillSurface. rewrite Hassert.
    destruct (GetPhysicalRef _).
    + replace (fill_size s =? 0) with false by (symmetry; apply Z.eqb_neq; auto).
      do 2 eexists. split; [reflexivity|]. split; [repeat split|].
      split; [auto|]. intros _ s' [= <-] Hno. contradiction.
    + do 2 eexists. split; [reflexivity|]. split; [apply same_catalog_refl|].
      split; [auto|]. intros _ s' [= <-] Hno. contradiction.
  - unfold DownloadSurface. rewrite Hassert.
    destruct (GetPhysicalRef _); do 2 eexists; (split; [reflexivity|]);
      (split; [repeat split|]); cbn [backend_calls call set_download_queue];
      (split; [intros e He; apply in_or_app; now left|]);
      intros _ s' _ _; apply in_or_app; right; now left.
Qed.

End SurfaceFlush.

Section SurfaceFlushRegion.

Import ICL.

Context `{SurfaceOps} `{Backend}.

Lemma flushes_owner id v : flushes (Some id) v = true <-> v = id.
Proof.
  unfold flushes. rewrite bool_decide_eq_true_2 by discriminate. cbn [andb].
  rewrite negb_involutive, bool_decide_eq_true. split; [now intros [= ->] | now intros ->].
Qed.

Lemma run_downloads_log c e :
  In e (backend_calls c) -> In e (backend_calls (run_downloads c)).
Proof.
  intros He. unfold run_downloads. destruct (download_queue c) as [|d q]; [exact He|].
  cbn [backend_calls set_download_queue].
  assert (Hrun : forall q st, backend_calls (fold_left run_download q st) = backend_calls st).
  { clear. induction q as [|d q IH]; intros st; simpl; [reflexivity|].
    rewrite IH. unfold run_download. now destruct (heap st !! dl_surface d). }
  rewrite Hrun. cbn [backend_calls call]. apply in_or_app. now left.
Qed.

(** The loop of [FlushRegion] over well-formed dirty segments runs to its
    end, logs the download of every segment it flushes, and collects in
    [flushed_intervals] no byte outside these segments. *)
Lemma fold_flush_ok size flush_interval flush_surface pairs : forall c F,
  (forall pair, In pair pairs ->
     dirty_ok (heap c) pair /\ lower (fst pair) < upper (fst pair) /\
     overlaps (fst pair) flush_interval = true) ->
  (forall id s, heap c !! id = Some s -> surface_ok s) ->
  lower flush_interval < upper flush_interval ->
  exists c' F',
    fold_left (flush_segment size flush_interval flush_surface) pairs (Some (c, F))
    = Some (c', F') /\
    same_catalog c c' /\
    (forall e, In e (backend_calls c) -> In e (backend_calls c')) /\
    (forall pair, In pair pairs -> flushes flush_surface (snd pair) = true ->
       forall s, heap c !! snd pair = Some s -> type (params s) <> SurfaceType.Fill ->
         In (SurfaceDownload (snd pair) (flushed_interval size flush_interval pair))
            (backend_calls c')) /\
    (forall x, covered F' x tt ->
       covered F x tt \/
       exists pair, In pair pairs /\ flushes flush_surface (snd pair) = true /\
                    within x (flushed_interval size flush_interval pair) = true).
Proof.
  induction pairs as [|p pairs IH]; intros c F Hpairs Hsurf Hfne; cbn [fold_left].
  - exists c, F. split; [reflexivity|]. split; [apply same_catalog_refl|].
    split; [auto|]. split; [intros pair [] | now left].
  - destruct (Hpairs p ltac:(now left)) as (Hok & Hne & Hov).
    destruct (flush_segment_ok size flush_interval flush_surface c F p Hok Hsurf Hne Hfne Hov)
      as (c1 & F1 & Hstep & Hcat1 & Hlog1 & Hdl1).
    rewrite Hstep.
    pose proof Hcat1 as (Hheap1 & _).
    destruct (IH c1 F1) as (c' & F' & Hfold & Hcat' & Hlog' & Hdl' & Hrev).
    { intros pair Hin. rewrite Hheap1. apply Hpairs. now right. }
    { intros id s. rewrite Hheap1. apply Hsurf. }
    { exact Hfne. }
    exists c', F'. split; [exact Hfold|].
    split; [eapply same_catalog_trans; eauto|].
    split; [auto|]. split.
    + intros pair [<-|Hin] Hf s Hs Hty.
      * apply Hlog'. eapply Hdl1; eauto.
      * eapply Hdl'; eauto. now rewrite Hheap1.
    + intros x Hx. destruct (Hrev x Hx) as [HF1|(pair & Hin & Hf & Hw)].
      2:{ right. exists pair. split; [now right | auto]. }
      destruct (flushes flush_surface (snd p)) eqn:Hf.
      * destruct (flush_segment_pass _ _ _ _ _ _ _ _ Hf Hstep) as [_ ->].
        apply add_interval_covered_rev in HF1. destruct HF1 as [Hw|HF]; [|now left].
        right. exists p. split; [now left | auto].
      * rewrite flush_segment_skip in Hstep by exact Hf. injection Hstep as <- <-.
        now left.
Qed.

(** The flush of one surface over its whole range, on a well-formed cache:
    it succeeds, touches only the dirty map, guest memory and the log; it
    leaves no dirty byte of the surface, keeps the dirty bytes of every other
    surface, and a surface that is not a fill surface has every one of its
    dirty bytes in a logged download. *)
Lemma FlushRegion_surface id S c :
  heap c !! id = Some S ->
  (forall id s, heap c !! id = Some s -> surface_ok s) ->
  Forall (dirty_ok (heap c)) (dirty_regions c) ->
  nonempty_segments (dirty_regions c) ->
  single_owner (dirty_regions c) ->
  exists c',
    FlushRegion (addr (params S)) (size (params S)) (Some id) c = Some c' /\
    heap c' = heap c /\ surface_cache c' = surface_cache c /\
    remove_surfaces c' = remove_surfaces c /\ rasterizer c' = rasterizer c /\
    (forall e, In e (backend_calls c) -> In e (backend_calls c')) /\
    (forall s', In s' (dirty_regions c') ->
       exists s, In s (dirty_regions c) /\ snd s' = snd s /\
         lower (fst s) <= lower (fst s') /\ upper (fst s') <= upper (fst s) /\
         lower (fst s') < upper (fst s')) /\
    (forall x, ~ covered (dirty_regions c') x id) /\
    (forall x v, covered (dirty_regions c) x v -> v <> id ->
                 covered (dirty_regions c') x v) /\
    (type (params S) <> SurfaceType.Fill ->
     forall x, covered (dirty_regions c) x id ->
       exists j, In (SurfaceDownload id j) (backend_calls c') /\ within x j = true).
Proof.
  intros HS Hsurf Hdirty Hne Hsingle.
  destruct (Hsurf _ _ HS) as (Haddr & Hsize & Hfit & Hend & _).
  set (fi := (addr (params S), addr (params S) + size (params S))).
  assert (Hfne : lower fi < upper fi) by (cbn; lia).
  rewrite Forall_forall in Hdirty. unfold nonempty_segments in Hne.
  rewrite Forall_forall in Hne.
  assert (Hdirty' : forall s, In s (dirty_regions c) -> dirty_ok (heap c) s)
    by (intros s Hs; apply Hdirty; now apply list_elem_of_In).
  assert (Hne' : forall s, In s (dirty_regions c) -> lower (fst s) < upper (fst s))
    by (intros s Hs; apply Hne; now apply list_elem_of_In).
  destruct (fold_flush_ok (size (params S)) fi (Some id)
              (equal_range fi (dirty_regions c)) c [])
    as (c1 & F & Hfold & Hcat & Hlog & Hdl & Hrev); [|exact Hsurf|exact Hfne|].
  { intros pair Hin. apply in_equal_range in Hin. destruct Hin as [Hin Hov]. auto. }
  destruct (fold_flush_spec _ _ _ _ _ _ _ _ Hfold ltac:(constructor))
    as (_ & _ & _ & Hcov).
  destruct (run_downloads_catalog c1) as (Hh2 & Hsc2 & Hd2 & Hr2 & Hra2).
  destruct Hcat as (Hh1 & Hsc1 & Hd1 & Hr1 & Hra1).
  (* the dirty segments of the surface lie in the flushed range *)
  assert (Hmine : forall s x, In s (dirty_regions c) -> snd s = id ->
                    within x (fst s) = true ->
                    In s (equal_range fi (dirty_regions c)) /\
                    flushes (Some id) (snd s) = true /\
                    within x (flushed_interval (size (params S)) fi s) = true).
  { intros s x Hs Hv Hw.
    destruct (Hdirty' s Hs) as (S' & HS' & Hlo & Hhi & _).
    rewrite Hv, HS in HS'. injection HS' as <-.
    pose proof (Hne' s Hs) as Hsne.
    assert (Hov : overlaps (fst s) fi = true) by (apply overlaps_bounds; cbn; lia).
    split; [apply in_equal_range; auto|]. split; [now apply flushes_owner|].
    apply (flushed_interval_sub _ fi s Hsne Hfne Hov); [exact Hw|].
    apply within_bounds in Hw. apply within_bounds. cbn. lia. }
  exists (set_dirty_regions (erase_all F (dirty_regions (run_downloads c1)))
                            (run_downloads c1)).
  split.
  { unfold FlushRegion. replace (size (params S) =? 0) with false
      by (symmetry; apply Z.eqb_neq; lia).
    rewrite (u32_small (addr (params S) + size (params S))) by lia.
    cbv zeta. fold fi.
    match goal with
    | |- match ?loop with _ => _ end = _ =>
      replace loop with (Some (c1, F)) by (symmetry; exact Hfold)
    end.
    reflexivity. }
  cbn [heap surface_cache remove_surfaces rasterizer backend_calls dirty_regions
       set_dirty_regions].
  rewrite Hd2, Hd1.
  split; [congruence|]. split; [congruence|]. split; [congruence|]. split; [congruence|].
  split; [intros e He; apply run_downloads_log; auto|].
  split.
  { intros s' Hs'. destruct (erase_all_spec F _ s' Hs') as (s & Hs & Hv & Hl & Hu & Hn & _).
    exists s. repeat split; auto. }
  split.
  { intros x Hc. apply covered_erase_all_rev in Hc. destruct Hc as [(s & Hs & Hw & Hv) Hout].
    destruct (Hmine s x Hs Hv Hw) as (Hin & Hf & Hwf).
    destruct (Hcov s x Hin Hf Hwf) as (r & Hr & Hwr & _).
    rewrite (Hout r Hr) in Hwr. discriminate. }
  split.
  { intros x v Hc Hv. apply covered_erase_all; [exact Hc|].
    intros r Hr. destruct (within x (fst r)) eqn:Hwr; [exfalso | reflexivity].
    assert (HF : covered F x tt) by (exists r; repeat split; auto; now destruct (snd r)).
    destruct (Hrev x HF) as [(? & [] & _)|(pair & Hin & Hf & Hw)].
    apply in_equal_range in Hin. destruct Hin as [Hin Hov].
    apply flushes_owner in Hf.
    destruct (flushed_interval_sub (size (params S)) fi pair (Hne' _ Hin) Hfne Hov)
      as (Hl & Hu & _).
    apply Hv. apply (Hsingle x v id Hc).
    exists pair. split; [exact Hin|]. split; [|exact Hf].
    apply within_bounds. apply within_bounds in Hw. lia. }
  intros Hty x (s & Hs & Hw & Hv).
  destruct (Hmine s x Hs Hv Hw) as (Hin & Hf & Hwf).
  exists (flushed_interval (size (params S)) fi s). split; [|exact Hwf].
  apply run_downloads_log. rewrite <- Hv. apply (Hdl s Hin Hf S); [now rewrite Hv | exact Hty].
Qed.

End SurfaceFlushRegion.

(** ** The rasterizer cache: a small write of the CPU *)

Section SmallWrite.

Import ICL.

Context `{SurfaceOps} `{Backend}.

Lemma pieces_of_refl dirty : nonempty_segments dirty -> pieces_of dirty dirty.
Proof.
  unfold nonempty_segments. rewrite Forall_forall. intros Hne s Hs.
  exists s. repeat split; try lia; auto. apply Hne. now apply list_elem_of_In.
Qed.

Lemma pieces_of_trans d1 d2 d3 : pieces_of d1 d2 -> pieces_of d2 d3 -> pieces_of d1 d3.
Proof.
  intros H12 H23 s1 Hs1.
  destruct (H12 s1 Hs1) as (s2 & Hs2 & Hv2 & Hl2 & Hu2 & Hn2).
  destruct (H23 s2 Hs2) as (s3 & Hs3 & Hv3 & Hl3 & Hu3 & Hn3).
  exists s3. repeat split; try lia; congruence.
Qed.

Lemma pieces_of_covered dirty' dirty x v :
  pieces_of dirty' dirty -> covered dirty' x v -> covered dirty x v.
Proof.
  intros Hp (s' & Hs' & Hw & Hv).
  destruct (Hp s' Hs') as (s & Hs & Hval & Hl & Hu & _).
  exists s. split; [exact Hs|]. split; [|congruence].
  apply within_bounds. apply within_bounds in Hw. lia.
Qed.

Lemma pieces_of_nonempty dirty' dirty : pieces_of dirty' dirty -> nonempty_segments dirty'.
Proof.
  intros Hp. unfold nonempty_segments. rewrite Forall_forall. intros s' Hs'.
  apply list_elem_of_In in Hs'. now destruct (Hp s' Hs') as (s & _ & _ & _ & _ & Hn).
Qed.

Lemma pieces_of_single_owner dirty' dirty :
  pieces_of dirty' dirty -> single_owner dirty -> single_owner dirty'.
Proof.
  intros Hp Hs x v v' Hv Hv'. apply (Hs x); eapply pieces_of_covered; eauto.
Qed.

Lemma pieces_of_dirty_ok objects dirty' dirty :
  pieces_of dirty' dirty -> Forall (dirty_ok objects) dirty ->
  Forall (dirty_ok objects) dirty'.
Proof.
  rewrite !Forall_forall. intros Hp Hok s' Hs'. apply list_elem_of_In in Hs'.
  destruct (Hp s' Hs') as (s & Hs & Hv & Hl & Hu & _).
  destruct (Hok s ltac:(now apply list_elem_of_In)) as (S & HS & Hlo & Hhi & Hvalid).
  exists S. split; [now rewrite Hv|]. split; [lia|]. split; [lia|].
  now apply (IsRegionValid_sub S (fst s)).
Qed.

(** The first loop of [InvalidateRegion] for a write of at most 8 bytes by
    the CPU: every visited surface is flushed over its whole range and
    staged for removal. *)
Lemma invalidate_small size invalid_interval ids : forall c,
  size <= 8 ->
  (forall id, In id ids -> is_Some (heap c !! id)) ->
  (forall id s, heap c !! id = Some s -> surface_ok s) ->
  Forall (dirty_ok (heap c)) (dirty_regions c) ->
  nonempty_segments (dirty_regions c) ->
  single_owner (dirty_regions c) ->
  exists c',
    fold_left (invalidate_surface size invalid_interval None) ids (Some c) = Some c' /\
    heap c' = heap c /\ surface_cache c' = surface_cache c /\
    rasterizer c' = rasterizer c /\
    (forall e, In e (backend_calls c) -> In e (backend_calls c')) /\
    pieces_of (dirty_regions c') (dirty_regions c) /\
    (forall id, In id (remove_surfaces c') <-> In id ids \/ In id (remove_surfaces c)) /\
    (forall id x, In id ids -> ~ covered (dirty_regions c') x id) /\
    (forall id S x, In id ids -> heap c !! id = Some S ->
       type (params S) <> SurfaceType.Fill -> covered (dirty_regions c) x id ->
       exists j, In (SurfaceDownload id j) (backend_calls c') /\ within x j = true).
Proof.
  induction ids as [|id ids IH]; intros c Hsize Hobjs Hsurf Hdirty Hne Hsingle;
    cbn [fold_left].
  - exists c. split; [reflexivity|]. do 3 (split; [reflexivity|]). split; [auto|].
    split; [now apply pieces_of_refl|]. split; [intros id; simpl; tauto|].
    split; intros id; intros; contradiction.
  - destruct (Hobjs id ltac:(now left)) as [S HS].
    destruct (FlushRegion_surface id S c HS Hsurf Hdirty Hne Hsingle)
      as (c1 & Hflush & Hh1 & Hsc1 & Hr1 & Hra1 & Hlog1 & Hp1 & Hgone1 & Hkeep1 & Hdl1).
    set (c2 := set_remove_surfaces (set_insert id (remove_surfaces c1)) c1).
    assert (Hstep : invalidate_surface size invalid_interval None (Some c) id = Some c2).
    { unfold invalidate_surface. rewrite bool_decide_eq_false_2 by discriminate.
      rewrite HS. rewrite bool_decide_eq_true_2 by reflexivity.
      replace (size <=? 8) with true by (symmetry; apply Z.leb_le; lia).
      cbn [andb]. now rewrite Hflush. }
    rewrite Hstep.
    destruct (IH c2 Hsize) as (c' & Hfold & Hh' & Hsc' & Hra' & Hlog' & Hp' & Hr' & Hgone' & Hdl').
    { intros id' Hid'. cbn [heap c2 set_remove_surfaces]. rewrite Hh1. apply Hobjs. now right. }
    { intros id' s. cbn [heap c2 set_remove_surfaces]. rewrite Hh1. apply Hsurf. }
    { cbn [heap dirty_regions c2 set_remove_surfaces]. rewrite Hh1.
      eapply pieces_of_dirty_ok; eauto. }
    { cbn [dirty_regions c2 set_remove_surfaces]. eapply pieces_of_nonempty; eauto. }
    { cbn [dirty_regions c2 set_remove_surfaces]. eapply pieces_of_single_owner; eauto. }
    cbn [heap surface_cache rasterizer backend_calls dirty_regions remove_surfaces
         c2 set_remove_surfaces] in *.
    exists c'. split; [exact Hfold|].
    split; [congruence|]. split; [congruence|]. split; [congruence|].
    split; [auto|]. split; [eapply pieces_of_trans; eauto|].
    split.
    { intros id'. rewrite Hr', in_set_insert, Hr1. simpl. intuition. }
    split.
    { intros id' x [<-|Hin]; [|now apply Hgone'].
      intros Hc. apply (Hgone1 x). eapply pieces_of_covered; eauto. }
    intros id' S' x Hin HS' Hty Hc.
    destruct (decide (id' = id)) as [->|Hother].
    + rewrite HS in HS'. injection HS' as <-.
      destruct (Hdl1 Hty x Hc) as (j & Hj & Hw). exists j. auto.
    + destruct Hin as [->|Hin]; [contradiction|].
      apply (Hdl' id' S' x Hin); [now rewrite Hh1 | exact Hty |].
      apply Hkeep1; auto.
Qed.

End SmallWrite.

Section CpuSmallWrite.

Import ICL.

Context `{SurfaceOps} `{Backend}.

Lemma in_visited surface_cache interval id :
  In id (visited surface_cache interval) <->
  exists seg, In seg surface_cache /\ overlaps (fst seg) interval = true /\ In id (snd seg).
Proof.
  unfold visited. rewrite in_flat_map. split.
  - intros (seg & Hseg & Hid). apply in_equal_range in Hseg. exists seg. tauto.
  - intros (seg & Hseg & Hov & Hid). exists seg. rewrite in_equal_range. tauto.
Qed.

(** X25: a write of at most 8 bytes by the CPU (no region owner) that meets
    the interval of a registered surface [A], on a well-formed cache.
    [InvalidateRegion] runs to its end; its first loop stages [A] for
    removal and calls [FlushRegion] over the whole range of [A], so that no
    byte stays dirty for [A] and, when [A] is not a fill surface, every byte
    that was dirty for [A] lies in a logged download of [A]; by the end the
    registration flag of [A] is cleared, the staging set is empty, the second
    loop has made no backend call, no byte is dirty for [A] and
    [dirty_regions] holds no byte of the invalidated interval. *)
Theorem InvalidateRegion_cpu_small_write (c : RasterizerCache) (addr size a : Z)
    (A : SurfaceObject) :
  cache_ok c ->
  0 <= addr -> 0 < size <= 8 -> addr + size < 2 ^ 32 ->
  heap c !! a = Some A -> registered A = true ->
  overlaps (GetInterval (params A)) (addr, addr + size) = true ->
  exists staged c',
    fold_left (invalidate_surface size (addr, addr + size) None)
              (visited (surface_cache c) (addr, addr + size)) (Some c) = Some staged /\
    In a (remove_surfaces staged) /\
    (forall x, ~ covered (dirty_regions staged) x a) /\
    (type (params A) <> SurfaceType.Fill ->
     forall x, covered (dirty_regions c) x a ->
       exists j, In (SurfaceDownload a j) (backend_calls staged) /\ within x j = true) /\
    InvalidateRegion addr size None c = Some c' /\
    unregistered c' a /\
    remove_surfaces c' = [] /\
    backend_calls c' = backend_calls staged /\
    (forall x, ~ covered (dirty_regions c') x a) /\
    (forall x v, within x (addr, addr + size) = true -> ~ covered (dirty_regions c') x v).
Proof.
  intros Hok Haddr Hsize Hfit HA Hreg Hov.
  set (interval := (addr, addr + size)) in *.
  (* the surface is visited *)
  assert (Hvisit : In a (visited (surface_cache c) interval)).
  { destruct (ok_surfaces c Hok a A HA) as (HAaddr & HAsize & _ & HAend & _).
    apply overlaps_bounds in Hov. cbn in Hov.
    set (x := Z.max (Surface.addr (params A)) addr).
    destruct (ok_registered c Hok a A HA Hreg x) as (seg & Hseg & Hw & Hid).
    { apply within_bounds. cbn. lia. }
    apply in_visited. exists seg. split; [exact Hseg|]. split; [|exact Hid].
    apply within_bounds in Hw. apply overlaps_bounds. cbn. lia. }
  (* the first loop *)
  destruct (invalidate_small size interval (visited (surface_cache c) interval) c)
    as (c1 & Hloop & Hh1 & Hsc1 & Hra1 & Hlog1 & Hp1 & Hr1 & Hgone1 & Hdl1).
  { lia. }
  { intros id Hid. apply in_visited in Hid. destruct Hid as (seg & Hseg & _ & Hid).
    eapply ok_cached; eauto. }
  { apply Hok. }
  { apply Hok. }
  { apply Hok. }
  { apply ordered_single_owner; apply Hok. }
  (* the second loop *)
  set (c2 := set_dirty_regions (erase interval (dirty_regions c1)) c1).
  destruct (unregister_all (remove_surfaces c2) c2)
    as (c3 & Hloop3 & _ & Hd3 & _ & Hlog3 & Hunreg & _).
  { unfold pages_ready. cbn [heap rasterizer c2 set_dirty_regions].
    rewrite Hh1, Hra1. split; [apply Hok|]. split; apply Hok. }
  { intros r Hr. cbn [heap remove_surfaces c2 set_dirty_regions] in *.
    rewrite Hh1. apply Hr1 in Hr. destruct Hr as [Hr|Hr].
    - apply in_visited in Hr. destruct Hr as (seg & Hseg & _ & Hid).
      eapply ok_cached; eauto.
    - now apply (ok_staged c Hok). }
  assert (Hstaged : In a (remove_surfaces c1)) by (apply Hr1; now left).
  exists c1, (set_remove_surfaces [] c3).
  split; [exact Hloop|]. split; [exact Hstaged|]. split; [intros x; now apply Hgone1|].
  split; [intros Hty x Hx; now apply (Hdl1 a A x)|].
  split.
  { unfold InvalidateRegion.
    replace (size =? 0) with false by (symmetry; apply Z.eqb_neq; lia).
    rewrite (u32_small (addr + size)) by lia. cbv zeta. fold interval.
    rewrite Hloop. fold c2. rewrite Hloop3. reflexivity. }
  cbn [heap remove_surfaces backend_calls dirty_regions set_remove_surfaces].
  split; [apply Hunreg; exact Hstaged|]. split; [reflexivity|].
  split; [exact Hlog3|].
  rewrite Hd3. cbn [dirty_regions c2 set_dirty_regions].
  split.
  - intros x (s' & Hs' & Hw & Hv).
    apply erase_spec in Hs'. destruct Hs' as (s & Hs & Hval & Hl & Hu & _ & _).
    apply (Hgone1 a x Hvisit). exists s. split; [exact Hs|]. split; [|congruence].
    apply within_bounds. apply within_bounds in Hw. lia.
  - intros x v Hx (s' & Hs' & Hw & _).
    apply erase_spec in Hs'. destruct Hs' as (s & _ & _ & _ & _ & _ & Hout).
    rewrite (Hout x Hw) in Hx. discriminate.
Qed.

End CpuSmallWrite.

Lemma InvalidateRegion_cpu_small_write_witness :
  exists staged c',
    fold_left (invalidate_surface (H := spec_surface_ops) (H0 := sample_backend)
                 4 (2097408, 2097408 + 4) None)
              (visited (surface_cache small_write_cache) (2097408, 2097408 + 4))
              (Some small_write_cache) = Some staged /\
    In 1 (remove_surfaces staged) /\
    (forall x, ~ ICL.covered (dirty_regions staged) x 1) /\
    (type (params (set_registered true (rgba8_surface 2097152 65536 128 128 1 [])))
     <> SurfaceType.Fill ->
     forall x, ICL.covered (dirty_regions small_write_cache) x 1 ->
       exists j, In (SurfaceDownload 1 j) (backend_calls staged) /\ ICL.within x j = true) /\
    InvalidateRegion (H := spec_surface_ops) (H0 := sample_backend) 2097408 4 None
                     small_write_cache = Some c' /\
    unregistered c' 1 /\
    remove_surfaces c' = [] /\
    backend_calls c' = backend_calls staged /\
    (forall x, ~ ICL.covered (dirty_regions c') x 1) /\
    (forall x v, ICL.within x (2097408, 2097408 + 4) = true ->
                 ~ ICL.covered (dirty_regions c') x v).
Proof.
  set (A := set_registered true (rgba8_surface 2097152 65536 128 128 1 [])).
  assert (Hheap : heap small_write_cache = {[ 1 := A ]}) by (vm_compute; reflexivity).
  assert (Hcache : surface_cache small_write_cache = [((2097152, 2162688), [1])])
    by (vm_compute; reflexivity).
  assert (Hdirty : dirty_regions small_write_cache = [((2097152, 2097184), 1)])
    by (vm_compute; reflexivity).
  assert (Hstaged : remove_surfaces small_write_cache = []) by (vm_compute; reflexivity).
  assert (Hsurf : surface_ok A).
  { unfold surface_ok. cbn. repeat split; try lia. discriminate. }
  apply (@InvalidateRegion_cpu_small_write spec_surface_ops sample_backend
           small_write_cache 2097408 4 1 A); try lia.
  - constructor.
    + intros id s. rewrite Hheap. intros Hs. apply lookup_singleton_Some in Hs.
      destruct Hs as [_ <-]. exact Hsurf.
    + intros seg id. rewrite Hcache, Hheap. intros [<-|[]] [<-|[]].
      exists A. apply lookup_singleton_eq.
    + intros id. rewrite Hstaged. intros [].
    + rewrite Hdirty, Hheap. constructor; [|constructor].
      exists A. split; [apply lookup_singleton_eq|]. cbn. repeat split; lia.
    + rewrite Hdirty. constructor; [cbn; lia | constructor].
    + rewrite Hdirty. exact I.
    + intros page count Hpage.
      assert (Hall : Forall (fun entry : nat * Z =>
                               Z.of_nat (holders (heap small_write_cache)
                                                 (Z.of_nat (fst entry)))
                               <= snd entry <= 65535)
                            (imap pair (cached_pages (rasterizer small_write_cache)))).
      { eapply (bool_decide_unpack _). vm_compute. exact I. }
      apply (Forall_lookup_1 _ _ page (page, count)) in Hall; [exact Hall|].
      rewrite list_lookup_imap, Hpage. reflexivity.
    + intros id s. rewrite Hheap. intros Hs _. apply lookup_singleton_Some in Hs.
      destruct Hs as [_ <-]. vm_compute. discriminate.
    + intros id s. rewrite Hheap, Hcache. intros Hs _ x Hx.
      apply lookup_singleton_Some in Hs. destruct Hs as [<- <-].
      exists ((2097152, 2162688), [1]). split; [now left|]. split; [exact Hx | now left].
  - rewrite Hheap. apply lookup_singleton_eq.
  - reflexivity.
  - reflexivity.
Defined.

(** C4, on a fill surface: the flush that [InvalidateRegion] performs for a
    small write of the CPU does not write the dirty bytes of the surface
    back when its dirty segment starts beyond the surface's address.  The
    fill surface 7 over [0x300000, 0x300010), registered and fully valid, is
    dirty on all of its range with the pattern AB CD.  [FlushRegion] of the
    first 12 bytes writes the pattern to these bytes and leaves
    [0x30000c, 0x300010) dirty.  [InvalidateRegion(0x30000c, 4)] without an
    owner then stages and unregisters the surface (out of the cache map, its
    page uncached) and empties the dirty map, but guest memory is as before
    the call and the backend is not called: the last four bytes never get the
    pattern.  ([DownloadFillSurface] takes the memory reference at the
    start of the flushed segment and indexes it with offsets counted from the
    address of the surface.) *)
Lemma InvalidateRegion_fill_tail_not_written :
  let A := set_registered true (fill_surface 3145728 16 [171; 205; 0; 0] 2) in
  exists c1 c2,
    FlushRegion (H := spec_surface_ops) (H0 := sample_backend) 3145728 12 None fill_cache
    = Some c1 /\
    heap c1 !! 7 = Some A /\ registered A = true /\ invalid_regions A = [] /\
    surface_cache c1 = [((3145728, 3145744), [7])] /\
    cached_pages (rasterizer c1) !! 768%nat = Some 1 /\
    dirty_regions c1 = [((3145740, 3145744), 7)] /\
    map (byte_at (guest_memory c1)) [3145736; 3145737; 3145738; 3145739;
                                     3145740; 3145741; 3145742; 3145743]
    = [171; 205; 171; 205; 0; 0; 0; 0] /\
    InvalidateRegion (H := spec_surface_ops) (H0 := sample_backend) 3145740 4 None c1
    = Some c2 /\
    unregistered c2 7 /\ surface_cache c2 = [] /\
    cached_pages (rasterizer c2) !! 768%nat = Some 0 /\
    remove_surfaces c2 = [] /\ dirty_regions c2 = [] /\
    backend_calls c2 = backend_calls c1 /\ download_queue c2 = [] /\
    guest_memory c2 = guest_memory c1 /\
    map (byte_at (guest_memory c2)) [3145736; 3145737; 3145738; 3145739;
                                     3145740; 3145741; 3145742; 3145743]
    = [171; 205; 171; 205; 0; 0; 0; 0].
Proof.
  cbv zeta.
  destruct (FlushRegion (H := spec_surface_ops) (H0 := sample_backend) 3145728 12 None
                        fill_cache) as [c1|] eqn:H1; [|vm_compute in H1; discriminate].
  destruct (InvalidateRegion (H := spec_surface_ops) (H0 := sample_backend) 3145740 4 None c1)
    as [c2|] eqn:H2.
  2:{ vm_compute in H1. injection H1 as <-. vm_compute in H2. discriminate. }
  exists c1, c2. vm_compute in H1. injection H1 as <-.
  vm_compute in H2. injection H2 as <-.
  repeat split; vm_compute; reflexivity.
Qed.

(** * Further properties of the code *)

(** ** Page tracker: the general laws *)

Section TrackerLaws.

Lemma at_value_S from r page n :
  at_value from r page (S n)
  = (if count_at r page =? from then 1 else 0) :: at_value from r (page + 1) n.
Proof.
  unfold at_value. cbn [seq map]. rewrite Z.add_0_r. f_equal.
  rewrite <- seq_shift, map_map. apply map_ext. intros i.
  replace (page + Z.of_nat (S i)) with (page + 1 + Z.of_nat i) by lia. reflexivity.
Qed.

Lemma at_value_frame from r r' page n :
  (forall p, page <= p -> count_at r' p = count_at r p) ->
  at_value from r' page n = at_value from r page n.
Proof.
  intros Hsame. unfold at_value. apply map_ext. intros i. rewrite Hsame by lia. reflexivity.
Qed.

Lemma at_value_lookup from r page n (i : nat) :
  at_value from r page n !! i
  = if bool_decide (i < n)%nat
    then Some (if count_at r (page + Z.of_nat i) =? from then 1 else 0) else None.
Proof.
  unfold at_value. rewrite list_lookup_fmap. case_bool_decide as Hi.
  - rewrite lookup_seq_lt by exact Hi. reflexivity.
  - rewrite lookup_seq_ge by lia. reflexivity.
Qed.

Lemma count_at_insert r r' page c p :
  0 <= page -> 0 <= p -> p <> page ->
  cached_pages r' = <[Z.to_nat page := c]> (cached_pages r) ->
  count_at r' p = count_at r p.
Proof.
  intros Hpage Hp Hne Hr. unfold count_at. rewrite Hr.
  rewrite list_lookup_insert_ne by lia. reflexivity.
Qed.

(** A page whose counter goes up: the uncached run stays empty; the cached
    run grows when the counter was zero and is reported otherwise. *)
Lemma update_page_up page l r count :
  cached_pages r !! Z.to_nat page = Some count -> 0 <= count < 65535 ->
  uncache_bytes l = 0 ->
  exists l' r',
    update_page 1 page (l, r) = Some (l', r') /\
    uncache_bytes l' = 0 /\
    cached_pages r' = <[Z.to_nat page := count + 1]> (cached_pages r) /\
    (if count =? 0
     then mark_calls r' = mark_calls r /\
          cache_start_addr l' = (if cache_bytes l =? 0
                                 then u32 (Z.shiftl page CITRA_PAGE_BITS)
                                 else cache_start_addr l) /\
          cache_bytes l' = u32 (cache_bytes l + CITRA_PAGE_SIZE)
     else mark_calls r' = mark_calls r ++ pending (cache_start_addr l) (cache_bytes l) true /\
          cache_start_addr l' = cache_start_addr l /\
          cache_bytes l' = (if 0 <? cache_bytes l then 0 else cache_bytes l)).
Proof.
  intros Hlook Hcount Hun. unfold update_page. rewrite Hlook. cbn [Z.ltb Z.compare].
  replace (count <? u16_max) with true by (symmetry; apply Z.ltb_lt; unfold u16_max; lia).
  cbn [ASSERT]. cbv zeta. rewrite (u16_small (count + 1)) by lia.
  replace (count + 1 =? 0) with false by (symmetry; apply Z.eqb_neq; lia).
  rewrite Hun. cbn [Z.ltb Z.compare].
  replace (count + 1 =? 1) with (count =? 0)
    by (destruct (Z.eqb_spec count 0), (Z.eqb_spec (count + 1) 1); lia || reflexivity).
  cbn [andb]. rewrite andb_true_r.
  destruct (count =? 0).
  - destruct (cache_bytes l =? 0); do 2 eexists; cbn; repeat split; assumption.
  - unfold pending. destruct (0 <? cache_bytes l); do 2 eexists; cbn; repeat split;
      try assumption; now rewrite ?app_nil_r.
Qed.

(** A page whose counter goes down: the cached run stays empty; the
    uncached run grows when the counter falls to zero and is reported
    otherwise. *)
Lemma update_page_down page l r count :
  cached_pages r !! Z.to_nat page = Some count -> 0 < count <= 65535 ->
  cache_bytes l = 0 ->
  exists l' r',
    update_page (-1) page (l, r) = Some (l', r') /\
    cache_bytes l' = 0 /\
    cached_pages r' = <[Z.to_nat page := count - 1]> (cached_pages r) /\
    (if count =? 1
     then mark_calls r' = mark_calls r /\
          uncache_start_addr l' = (if uncache_bytes l =? 0
                                   then u32 (Z.shiftl page CITRA_PAGE_BITS)
                                   else uncache_start_addr l) /\
          uncache_bytes l' = u32 (uncache_bytes l + CITRA_PAGE_SIZE)
     else mark_calls r' = mark_calls r
                          ++ pending (uncache_start_addr l) (uncache_bytes l) false /\
          uncache_start_addr l' = uncache_start_addr l /\
          uncache_bytes l' = (if 0 <? uncache_bytes l then 0 else uncache_bytes l)).
Proof.
  intros Hlook Hcount Hc. unfold update_page. rewrite Hlook. cbn [Z.ltb Z.compare].
  replace (0 <? count) with true by (symmetry; apply Z.ltb_lt; lia).
  cbn [ASSERT]. cbv zeta. rewrite (u16_small (count + -1)) by lia.
  replace (count + -1 =? 0) with (count =? 1)
    by (destruct (Z.eqb_spec count 1), (Z.eqb_spec (count + -1) 0); lia || reflexivity).
  rewrite andb_false_r.
  replace (count + -1) with (count - 1) by lia.
  destruct (count =? 1).
  - destruct (uncache_bytes l =? 0); cbn [cache_bytes]; rewrite Hc; cbn [Z.ltb Z.compare];
      do 2 eexists; cbn; repeat split; assumption.
  - unfold pending. destruct (0 <? uncache_bytes l); cbn [cache_bytes]; rewrite ?Hc;
      cbn [Z.ltb Z.compare]; do 2 eexists; cbn; repeat split;
      try assumption; now rewrite ?app_nil_r.
Qed.

Lemma update_pages_up n : forall page l r,
  0 <= page -> page + Z.of_nat n < 2 ^ 32 ->
  uncache_bytes l = 0 ->
  (forall p, page <= p < page + Z.of_nat n ->
             exists count, cached_pages r !! Z.to_nat p = Some count /\ 0 <= count < 65535) ->
  exists l' r',
    update_pages n 1 page (l, r) = Some (l', r') /\
    uncache_bytes l' = 0 /\
    (forall q : nat,
        cached_pages r' !! q
        = if bool_decide (page <= Z.of_nat q < page + Z.of_nat n)
          then (fun count => count + 1) <$> cached_pages r !! q
          else cached_pages r !! q) /\
    mark_calls r' ++ pending (cache_start_addr l') (cache_bytes l') true
    = mark_calls r
      ++ map (as_cached true)
             (clear_runs (at_value 0 r page n) page (cache_start_addr l) (cache_bytes l)).
Proof.
  induction n as [|n IH]; intros page l r Hpage Hfit Hun Hcounts.
  - exists l, r. split; [reflexivity|]. split; [exact Hun|]. split.
    + intros q. rewrite bool_decide_eq_false_2 by lia. reflexivity.
    + cbn. unfold pending. now destruct (0 <? cache_bytes l).
  - cbn [update_pages]. rewrite at_value_S.
    destruct (Hcounts page ltac:(lia)) as (count & Hlook & Hcount).
    destruct (update_page_up page l r count Hlook Hcount Hun)
      as (l1 & r1 & Hstep & Hun1 & Hpages1 & Hrun).
    rewrite Hstep. rewrite (u32_small (page + 1)) by lia.
    assert (Hat : count_at r page = count) by (unfold count_at; now rewrite Hlook).
    destruct (IH (page + 1) l1 r1 ltac:(lia) ltac:(lia) Hun1)
      as (l' & r' & Hrest & Hun' & Hq & Hcalls).
    { intros p Hp. destruct (Hcounts p ltac:(lia)) as (cp & Hcp & Hbound).
      exists cp. split; [|exact Hbound]. rewrite Hpages1.
      rewrite list_lookup_insert_ne by lia. exact Hcp. }
    exists l', r'. split; [exact Hrest|]. split; [exact Hun'|]. split.
    + intros q. rewrite Hq, Hpages1.
      destruct (decide (Z.to_nat page = q)) as [<-|Hne].
      * rewrite bool_decide_eq_false_2 by lia. rewrite bool_decide_eq_true_2 by lia.
        rewrite list_lookup_insert_eq by (apply lookup_lt_Some in Hlook; exact Hlook).
        rewrite Hlook. reflexivity.
      * rewrite list_lookup_insert_ne by exact Hne.
        case_bool_decide; case_bool_decide; try reflexivity; lia.
    + rewrite Hcalls.
      rewrite (at_value_frame 0 r r1 (page + 1) n)
        by (intros p Hp; eapply count_at_insert; eauto; lia).
      cbn [clear_runs]. rewrite (u32_small (page + 1)) by lia. rewrite Hat.
      destruct (count =? 0); cbn [negb Z.eqb].
      * destruct Hrun as (-> & -> & ->). reflexivity.
      * destruct Hrun as (-> & -> & ->). unfold pending.
        destruct (0 <? cache_bytes l); cbn [map app as_cached mark_addr mark_size].
        -- now rewrite <- app_assoc.
        -- now rewrite app_nil_r.
Qed.

Lemma update_pages_down n : forall page l r,
  0 <= page -> page + Z.of_nat n < 2 ^ 32 ->
  cache_bytes l = 0 ->
  (forall p, page <= p < page + Z.of_nat n ->
             exists count, cached_pages r !! Z.to_nat p = Some count /\ 0 < count <= 65535) ->
  exists l' r',
    update_pages n (-1) page (l, r) = Some (l', r') /\
    cache_bytes l' = 0 /\
    (forall q : nat,
        cached_pages r' !! q
        = if bool_decide (page <= Z.of_nat q < page + Z.of_nat n)
          then (fun count => count + -1) <$> cached_pages r !! q
          else cached_pages r !! q) /\
    mark_calls r' ++ pending (uncache_start_addr l') (uncache_bytes l') false
    = mark_calls r
      ++ map (as_cached false)
             (clear_runs (at_value 1 r page n) page (uncache_start_addr l) (uncache_bytes l)).
Proof.
  induction n as [|n IH]; intros page l r Hpage Hfit Hc Hcounts.
  - exists l, r. split; [reflexivity|]. split; [exact Hc|]. split.
    + intros q. rewrite bool_decide_eq_false_2 by lia. reflexivity.
    + cbn. unfold pending. now destruct (0 <? uncache_bytes l).
  - cbn [update_pages]. rewrite at_value_S.
    destruct (Hcounts page ltac:(lia)) as (count & Hlook & Hcount).
    destruct (update_page_down page l r count Hlook Hcount Hc)
      as (l1 & r1 & Hstep & Hc1 & Hpages1 & Hrun).
    rewrite Hstep. rewrite (u32_small (page + 1)) by lia.
    assert (Hat : count_at r page = count) by (unfold count_at; now rewrite Hlook).
    destruct (IH (page + 1) l1 r1 ltac:(lia) ltac:(lia) Hc1)
      as (l' & r' & Hrest & Hc' & Hq & Hcalls).
    { intros p Hp. destruct (Hcounts p ltac:(lia)) as (cp & Hcp & Hbound).
      exists cp. split; [|exact Hbound]. rewrite Hpages1.
      rewrite list_lookup_insert_ne by lia. exact Hcp. }
    exists l', r'. split; [exact Hrest|]. split; [exact Hc'|]. split.
    + intros q. rewrite Hq, Hpages1.
      destruct (decide (Z.to_nat page = q)) as [<-|Hne].
      * rewrite bool_decide_eq_false_2 by lia. rewrite bool_decide_eq_true_2 by lia.
        rewrite list_lookup_insert_eq by (apply lookup_lt_Some in Hlook; exact Hlook).
        rewrite Hlook. reflexivity.
      * rewrite list_lookup_insert_ne by exact Hne.
        case_bool_decide; case_bool_decide; try reflexivity; lia.
    + rewrite Hcalls.
      rewrite (at_value_frame 1 r r1 (page + 1) n)
        by (intros p Hp; eapply count_at_insert; eauto; lia).
      cbn [clear_runs]. rewrite (u32_small (page + 1)) by lia. rewrite Hat.
      destruct (count =? 1); cbn [negb Z.eqb].
      * destruct Hrun as (-> & -> & ->). reflexivity.
      * destruct Hrun as (-> & -> & ->). unfold pending.
        destruct (0 <? uncache_bytes l); cbn [map app as_cached mark_addr mark_size].
        -- now rewrite <- app_assoc.
        -- now rewrite app_nil_r.
Qed.

End TrackerLaws.

Section TrackerNotifications.

Lemma times_covered_as_cached cached cs q :
  times_covered (map (as_cached cached) cs) q = times_covered cs q.
Proof.
  induction cs as [|c cs IH]; [reflexivity|].
  cbn [map]. rewrite !times_covered_cons, IH. reflexivity.
Qed.

Lemma separated_as_cached cached cs : separated cs -> separated (map (as_cached cached) cs).
Proof.
  induction cs as [|c1 [|c2 cs] IH]; cbn; auto.
  intros [Hgap Hrest]. split; [exact Hgap | now apply IH].
Qed.

Lemma reports_run_as_cached P cached cs :
  Forall (reports_run P) cs -> Forall (reports_run P) (map (as_cached cached) cs).
Proof.
  intros Hcs. apply Forall_forall. intros c Hc.
  apply list_elem_of_In, in_map_iff in Hc. destruct Hc as (c0 & <- & Hc0).
  rewrite Forall_forall in Hcs. apply (Hcs c0). now apply list_elem_of_In.
Qed.

(** The notifications of a walk over [n] pages from [page] on that starts
    with no pending run: all of the kind [cached]; each a maximal run of
    pages of the walk whose counter had the value [from]; in increasing order
    with gaps; and they cover each such page once and no other page. *)
Lemma runs_spec from r page n cached start :
  0 <= page -> page + Z.of_nat n < 2 ^ 20 ->
  let calls := map (as_cached cached) (clear_runs (at_value from r page n) page start 0) in
  Forall (fun c => mark_cached c = cached) calls /\
  Forall (reports_run (fun q => page <= q < page + Z.of_nat n /\ count_at r q = from)) calls /\
  separated calls /\
  forall q, times_covered calls q
            = if bool_decide (page <= q < page + Z.of_nat n)
              then (if count_at r q =? from then 1%nat else 0%nat) else 0%nat.
Proof.
  intros Hpage Hfit calls. subst calls.
  rewrite (clear_runs_start_irrelevant _ page start (CITRA_PAGE_SIZE * (page - 0))).
  pose proof (clear_runs_spec (at_value from r page n) page 0 ltac:(lia)) as Hspec.
  pose proof (clear_runs_reports (at_value from r page n) page 0 ltac:(lia)) as Hrep.
  unfold at_value in Hspec at 1. unfold at_value in Hrep at 1.
  rewrite length_map, length_seq in Hspec, Hrep.
  specialize (Hspec Hfit). specialize (Hrep Hfit). cbv zeta in Hspec.
  change (CITRA_PAGE_SIZE * 0) with 0 in Hspec, Hrep.
  destruct Hspec as (_ & _ & Hs & Hq).
  split; [|split; [|split]].
  - apply Forall_forall. intros c Hc. apply list_elem_of_In, in_map_iff in Hc.
    destruct Hc as (c0 & <- & _). reflexivity.
  - apply reports_run_as_cached. eapply Forall_impl; [exact Hrep|]. intros c.
    apply reports_run_iff. intros q. unfold to_report. split.
    + intros [?|[Hge (c0 & Hc0 & Hnz)]]; [lia|].
      rewrite at_value_lookup in Hc0. case_bool_decide as Hi; [|discriminate].
      injection Hc0 as <-.
      replace (page + Z.of_nat (Z.to_nat (q - page))) with q in Hnz by lia.
      split; [lia|]. destruct (Z.eqb_spec (count_at r q) from); [assumption | contradiction].
    + intros [Hin Hcount]. right. split; [lia|]. exists 1. split; [|lia].
      rewrite at_value_lookup. rewrite bool_decide_eq_true_2 by lia.
      replace (page + Z.of_nat (Z.to_nat (q - page))) with q by lia.
      rewrite Hcount, Z.eqb_refl. reflexivity.
  - now apply separated_as_cached.
  - intros q. rewrite times_covered_as_cached, Hq.
    rewrite bool_decide_eq_false_2 by lia. rewrite at_value_lookup.
    destruct (decide (page <= q < page + Z.of_nat n)) as [Hin|Hout].
    + rewrite (bool_decide_eq_true_2 (page <= q < _)) by exact Hin.
      rewrite bool_decide_eq_true_2 by lia.
      replace (page <=? q) with true by (symmetry; apply Z.leb_le; lia).
      replace (page + Z.of_nat (Z.to_nat (q - page))) with q by lia.
      now destruct (count_at r q =? from).
    + rewrite (bool_decide_eq_false_2 (page <= q < _)) by exact Hout.
      case_bool_decide as Hi; [|reflexivity].
      replace (page <=? q) with false by (symmetry; apply Z.leb_gt; lia).
      reflexivity.
Qed.

Lemma page_range_bounds addr size :
  0 <= addr -> 0 < size -> addr + size <= 2 ^ 32 - 4096 ->
  0 <= page_start addr /\ page_start addr < page_end addr size /\
  page_end addr size < 2 ^ 20 /\
  u32 (Z.shiftr (u32 (addr + size - 1)) CITRA_PAGE_BITS + 1) = page_end addr size.
Proof.
  intros Haddr Hsize Hfit. unfold page_start, page_end.
  rewrite (u32_small (addr + size - 1)) by lia.
  rewrite !shiftr_page by lia.
  assert (Hle : addr / 4096 <= (addr + size - 1) / 4096) by (apply Z.div_le_mono; lia).
  assert (Hhi : (addr + size - 1) / 4096 < 2 ^ 20 - 1) by (apply Z.div_lt_upper_bound; lia).
  assert (Hlo : 0 <= addr / 4096) by (apply Z.div_pos; lia).
  rewrite u32_small by lia. lia.
Qed.

(** The notifications of a call, as the list of runs that the walk over the
    pages of the byte range yields for the counter value [from]. *)
Lemma tracker_up_runs (addr size : Z) (r : Rasterizer) :
  0 <= addr -> 0 < size -> addr + size <= 2 ^ 32 - 4096 ->
  (forall p, in_pages addr size p ->
             exists count, cached_pages r !! Z.to_nat p = Some count /\ 0 <= count < 65535) ->
  exists r',
    UpdatePagesCachedCount addr size 1 r = Some r' /\
    (forall q : nat, cached_pages r' !! q = shifted 1 r addr size q) /\
    mark_calls r'
    = mark_calls r
      ++ map (as_cached true)
             (clear_runs (at_value 0 r (page_start addr)
                                   (Z.to_nat (page_end addr size - page_start addr)))
                         (page_start addr) 0 0).
Proof.
  intros Haddr Hsize Hfit Hcounts.
  destruct (page_range_bounds addr size Haddr Hsize Hfit) as (Hlo & Hlt & Hhi & Hend).
  unfold UpdatePagesCachedCount. rewrite Hend. fold (page_start addr).
  rewrite (u32_small (page_end addr size - page_start addr)) by lia.
  set (n := Z.to_nat (page_end addr size - page_start addr)).
  assert (Hn : page_start addr + Z.of_nat n = page_end addr size) by lia.
  destruct (update_pages_up n (page_start addr) (mkRuns 0 0 0 0) r Hlo ltac:(lia) eq_refl)
    as (l' & r' & Hrun & Hun & Hq & Hcalls).
  { intros p Hp. apply Hcounts. unfold in_pages. lia. }
  rewrite Hrun, Hun. cbn [Z.ltb Z.compare].
  cbn [cache_start_addr cache_bytes] in Hcalls.
  eexists. split; [reflexivity|]. split.
  - intros q. unfold shifted, in_pages. rewrite <- Hn.
    destruct (0 <? cache_bytes l'); apply Hq.
  - rewrite <- Hcalls. unfold pending. destruct (0 <? cache_bytes l'); cbn.
    + reflexivity.
    + now rewrite app_nil_r.
Qed.

Lemma tracker_down_runs (addr size : Z) (r : Rasterizer) :
  0 <= addr -> 0 < size -> addr + size <= 2 ^ 32 - 4096 ->
  (forall p, in_pages addr size p ->
             exists count, cached_pages r !! Z.to_nat p = Some count /\ 0 < count <= 65535) ->
  exists r',
    UpdatePagesCachedCount addr size (-1) r = Some r' /\
    (forall q : nat, cached_pages r' !! q = shifted (-1) r addr size q) /\
    mark_calls r'
    = mark_calls r
      ++ map (as_cached false)
             (clear_runs (at_value 1 r (page_start addr)
                                   (Z.to_nat (page_end addr size - page_start addr)))
                         (page_start addr) 0 0).
Proof.
  intros Haddr Hsize Hfit Hcounts.
  destruct (page_range_bounds addr size Haddr Hsize Hfit) as (Hlo & Hlt & Hhi & Hend).
  unfold UpdatePagesCachedCount. rewrite Hend. fold (page_start addr).
  rewrite (u32_small (page_end addr size - page_start addr)) by lia.
  set (n := Z.to_nat (page_end addr size - page_start addr)).
  assert (Hn : page_start addr + Z.of_nat n = page_end addr size) by lia.
  destruct (update_pages_down n (page_start addr) (mkRuns 0 0 0 0) r Hlo ltac:(lia) eq_refl)
    as (l' & r' & Hrun & Hc & Hq & Hcalls).
  { intros p Hp. apply Hcounts. unfold in_pages. lia. }
  rewrite Hrun, Hc. cbn [Z.ltb Z.compare].
  cbn [uncache_start_addr uncache_bytes] in Hcalls.
  eexists. split; [reflexivity|]. split.
  - intros q. unfold shifted, in_pages. rewrite <- Hn.
    destruct (0 <? uncache_bytes l'); apply Hq.
  - rewrite <- Hcalls. unfold pending. destruct (0 <? uncache_bytes l'); cbn.
    + reflexivity.
    + now rewrite app_nil_r.
Qed.

(** What the runs of a call say about its notifications. *)
Lemma runs_notify from (addr size : Z) (r : Rasterizer) cached :
  0 <= addr -> 0 < size -> addr + size <= 2 ^ 32 - 4096 ->
  let calls := map (as_cached cached)
                   (clear_runs (at_value from r (page_start addr)
                                         (Z.to_nat (page_end addr size - page_start addr)))
                               (page_start addr) 0 0) in
  Forall (fun c => mark_cached c = cached) calls /\
  Forall (reports_run (fun q => in_pages addr size q /\ count_at r q = from)) calls /\
  separated calls /\
  forall q, times_covered calls q = reported from r addr size q.
Proof.
  intros Haddr Hsize Hfit calls.
  destruct (page_range_bounds addr size Haddr Hsize Hfit) as (Hlo & Hlt & Hhi & Hend).
  set (n := Z.to_nat (page_end addr size - page_start addr)) in *.
  assert (Hn : page_start addr + Z.of_nat n = page_end addr size) by lia.
  destruct (runs_spec from r (page_start addr) n cached 0 Hlo ltac:(lia))
    as (Hkind & Hrep & Hsep & Hcov).
  split; [exact Hkind|]. split; [|split; [exact Hsep|]].
  - eapply Forall_impl; [exact Hrep|]. intros c. apply reports_run_iff.
    intros q. unfold in_pages. rewrite <- Hn. reflexivity.
  - intros q. unfold calls. rewrite Hcov. unfold reported, in_pages. rewrite <- Hn.
    reflexivity.
Qed.

Lemma tracker_up (addr size : Z) (r : Rasterizer) :
  0 <= addr -> 0 < size -> addr + size <= 2 ^ 32 - 4096 ->
  (forall p, in_pages addr size p ->
             exists count, cached_pages r !! Z.to_nat p = Some count /\ 0 <= count < 65535) ->
  exists r' calls,
    UpdatePagesCachedCount addr size 1 r = Some r' /\
    (forall q : nat, cached_pages r' !! q = shifted 1 r addr size q) /\
    mark_calls r' = mark_calls r ++ calls /\
    Forall (fun c => mark_cached c = true) calls /\
    Forall (reports_run (fun q => in_pages addr size q /\ count_at r q = 0)) calls /\
    separated calls /\
    forall q, times_covered calls q = reported 0 r addr size q.
Proof.
  intros Haddr Hsize Hfit Hcounts.
  destruct (tracker_up_runs addr size r Haddr Hsize Hfit Hcounts) as (r' & Hrun & Hq & Hcalls).
  exists r'. eexists. split; [exact Hrun|]. split; [exact Hq|]. split; [exact Hcalls|].
  exact (runs_notify 0 addr size r true Haddr Hsize Hfit).
Qed.

Lemma tracker_down (addr size : Z) (r : Rasterizer) :
  0 <= addr -> 0 < size -> addr + size <= 2 ^ 32 - 4096 ->
  (forall p, in_pages addr size p ->
             exists count, cached_pages r !! Z.to_nat p = Some count /\ 0 < count <= 65535) ->
  exists r' calls,
    UpdatePagesCachedCount addr size (-1) r = Some r' /\
    (forall q : nat, cached_pages r' !! q = shifted (-1) r addr size q) /\
    mark_calls r' = mark_calls r ++ calls /\
    Forall (fun c => mark_cached c = false) calls /\
    Forall (reports_run (fun q => in_pages addr size q /\ count_at r q = 1)) calls /\
    separated calls /\
    forall q, times_covered calls q = reported 1 r addr size q.
Proof.
  intros Haddr Hsize Hfit Hcounts.
  destruct (tracker_down_runs addr size r Haddr Hsize Hfit Hcounts)
    as (r' & Hrun & Hq & Hcalls).
  exists r'. eexists. split; [exact Hrun|]. split; [exact Hq|]. split; [exact Hcalls|].
  exact (runs_notify 1 addr size r false Haddr Hsize Hfit).
Qed.

(** X1: caching a byte range (delta = +1) whose pages are in the table with
    counters below 65535: the call returns; every counter of the range goes
    up by one and no other counter changes; the memory subsystem is told
    [cached = true] in maximal runs: every notification starts at a page
    boundary and spans a whole number of pages of the range whose counters
    were zero, the pages next to it on either side are outside the range or
    had a nonzero counter, the notifications come in increasing address order
    with a gap between any two, and each page of the range whose counter was
    zero lies in exactly one of them. *)
Theorem UpdatePagesCachedCount_caches (addr size : Z) (r : Rasterizer) :
  0 <= addr -> 0 < size -> addr + size <= 2 ^ 32 - 4096 ->
  (forall p, in_pages addr size p ->
             exists count, cached_pages r !! Z.to_nat p = Some count /\ 0 <= count < 65535) ->
  exists r' calls,
    UpdatePagesCachedCount addr size 1 r = Some r' /\
    (forall q : nat, cached_pages r' !! q = shifted 1 r addr size q) /\
    mark_calls r' = mark_calls r ++ calls /\
    Forall (fun c => mark_cached c = true) calls /\
    Forall (reports_run (fun q => in_pages addr size q /\ count_at r q = 0)) calls /\
    separated calls /\
    forall q, times_covered calls q = reported 0 r addr size q.
Proof. apply tracker_up. Qed.

(** X2: uncaching a byte range (delta = -1) whose pages are in the table
    with positive counters: the call returns; every counter of the range goes
    down by one and no other counter changes; the memory subsystem is told
    [cached = false] in maximal runs: every notification starts at a page
    boundary and spans a whole number of pages of the range whose counters
    were one, the pages next to it on either side are outside the range or
    had another counter, the notifications come in increasing address order
    with a gap between any two, and each page of the range whose counter was
    one lies in exactly one of them. *)
Theorem UpdatePagesCachedCount_uncaches (addr size : Z) (r : Rasterizer) :
  0 <= addr -> 0 < size -> addr + size <= 2 ^ 32 - 4096 ->
  (forall p, in_pages addr size p ->
             exists count, cached_pages r !! Z.to_nat p = Some count /\ 0 < count <= 65535) ->
  exists r' calls,
    UpdatePagesCachedCount addr size (-1) r = Some r' /\
    (forall q : nat, cached_pages r' !! q = shifted (-1) r addr size q) /\
    mark_calls r' = mark_calls r ++ calls /\
    Forall (fun c => mark_cached c = false) calls /\
    Forall (reports_run (fun q => in_pages addr size q /\ count_at r q = 1)) calls /\
    separated calls /\
    forall q, times_covered calls q = reported 1 r addr size q.
Proof. apply tracker_down. Qed.

(** X3: caching a byte range and uncaching it again restores the counter
    table, and the second call reports as uncached exactly the byte ranges
    that the first call reported as cached: the same addresses and sizes in
    the same order, each a maximal run of pages of the range whose counter
    was zero before the first call. *)
Theorem cache_then_uncache_restores (addr size : Z) (r : Rasterizer) :
  0 <= addr -> 0 < size -> addr + size <= 2 ^ 32 - 4096 ->
  (forall p, in_pages addr size p ->
             exists count, cached_pages r !! Z.to_nat p = Some count /\ 0 <= count < 65535) ->
  exists r1 r2 cached,
    UpdatePagesCachedCount addr size 1 r = Some r1 /\
    UpdatePagesCachedCount addr size (-1) r1 = Some r2 /\
    cached_pages r2 = cached_pages r /\
    mark_calls r1 = mark_calls r ++ cached /\
    mark_calls r2 = mark_calls r1 ++ map (as_cached false) cached /\
    Forall (fun c => mark_cached c = true) cached /\
    Forall (reports_run (fun q => in_pages addr size q /\ count_at r q = 0)) cached.
Proof.
  intros Haddr Hsize Hfit Hcounts.
  destruct (page_range_bounds addr size Haddr Hsize Hfit) as (Hlo & Hlt & _).
  destruct (tracker_up_runs addr size r Haddr Hsize Hfit Hcounts) as (r1 & Hup & Hq1 & Hcalls1).
  assert (Hcounts1 : forall p, in_pages addr size p ->
            exists count, cached_pages r1 !! Z.to_nat p = Some count /\ 0 < count <= 65535).
  { intros p Hp. destruct (Hcounts p Hp) as (count & Hlook & Hcount).
    exists (count + 1). split; [|lia]. rewrite Hq1. unfold shifted.
    assert (0 <= p) by (unfold in_pages in Hp; lia).
    rewrite bool_decide_eq_true_2 by (now rewrite Z2Nat.id by lia).
    now rewrite Hlook. }
  destruct (tracker_down_runs addr size r1 Haddr Hsize Hfit Hcounts1)
    as (r2 & Hdown & Hq2 & Hcalls2).
  set (n := Z.to_nat (page_end addr size - page_start addr)) in *.
  assert (Hsame : at_value 1 r1 (page_start addr) n = at_value 0 r (page_start addr) n).
  { unfold at_value. apply map_ext_in. intros i Hi. apply in_seq in Hi.
    set (p := page_start addr + Z.of_nat i).
    assert (Hp : in_pages addr size p) by (unfold in_pages, p; lia).
    destruct (Hcounts p Hp) as (count & Hlook & Hcount).
    unfold count_at. rewrite Hq1. unfold shifted.
    rewrite bool_decide_eq_true_2 by (rewrite Z2Nat.id by (unfold p; lia); exact Hp).
    rewrite Hlook. cbn.
    destruct (Z.eqb_spec (count + 1) 1), (Z.eqb_spec count 0); lia || reflexivity. }
  destruct (runs_notify 0 addr size r true Haddr Hsize Hfit) as (Hkind & Hrep & _).
  exists r1, r2. eexists.
  split; [exact Hup|]. split; [exact Hdown|]. split; [|split; [exact Hcalls1|split; [|split]]].
  - apply list_eq. intros q. rewrite Hq2. unfold shifted. rewrite Hq1. unfold shifted.
    case_bool_decide; [|reflexivity].
    destruct (cached_pages r !! q) as [count|]; [|reflexivity]. cbn. f_equal. lia.
  - rewrite Hcalls2. f_equal. fold n. rewrite Hsame, map_map. reflexivity.
  - exact Hkind.
  - exact Hrep.
Qed.

End TrackerNotifications.

Section TrackerFaults.

(** The guards of one loop iteration: a page outside the table, a counter
    that would overflow or underflow, and a zero delta stop the walk. *)
Lemma update_page_inv delta page l r l' r' :
  update_page delta page (l, r) = Some (l', r') ->
  delta <> 0 /\
  exists count,
    cached_pages r !! Z.to_nat page = Some count /\
    (0 < delta -> count < 65535) /\ (delta < 0 -> 0 < count) /\
    cached_pages r' = <[Z.to_nat page := u16 (count + delta)]> (cached_pages r).
Proof.
  unfold update_page. destruct (cached_pages r !! Z.to_nat page) as [count|]; [|discriminate].
  destruct (0 <? delta) eqn:Hpos; [|destruct (delta <? 0) eqn:Hneg].
  - destruct (count <? u16_max) eqn:Hc; [|discriminate]. cbn [ASSERT]. cbv zeta.
    apply Z.ltb_lt in Hpos, Hc. unfold u16_max in Hc. intros Hstep.
    split; [lia|]. exists count. split; [reflexivity|]. split; [lia|]. split; [lia|].
    revert Hstep.
    destruct (u16 (count + delta) =? 0);
      [destruct (uncache_bytes l =? 0) | destruct (0 <? uncache_bytes l)];
      destruct ((u16 (count + delta) =? 1) && true);
      cbn [cache_bytes uncache_bytes cache_start_addr uncache_start_addr];
      repeat match goal with
             | |- context [if ?b then _ else _] => destruct b
             end;
      intros [= <- <-]; reflexivity.
  - destruct (0 <? count) eqn:Hc; [|discriminate]. cbn [ASSERT]. cbv zeta.
    apply Z.ltb_lt in Hneg, Hc. intros Hstep.
    split; [lia|]. exists count. split; [reflexivity|]. split; [lia|]. split; [lia|].
    revert Hstep.
    destruct (u16 (count + delta) =? 0);
      [destruct (uncache_bytes l =? 0) | destruct (0 <? uncache_bytes l)];
      destruct ((u16 (count + delta) =? 1) && false);
      cbn [cache_bytes uncache_bytes cache_start_addr uncache_start_addr];
      repeat match goal with
             | |- context [if ?b then _ else _] => destruct b
             end;
      intros [= <- <-]; reflexivity.
  - discriminate.
Qed.

Lemma update_pages_inv n : forall delta page l r st',
  0 <= page -> page + Z.of_nat n < 2 ^ 32 -> (0 < n)%nat ->
  update_pages n delta page (l, r) = Some st' ->
  delta <> 0 /\
  forall p, page <= p < page + Z.of_nat n ->
    exists count, cached_pages r !! Z.to_nat p = Some count /\
                  (0 < delta -> count < 65535) /\ (delta < 0 -> 0 < count).
Proof.
  induction n as [|n IH]; intros delta page l r st' Hpage Hfit Hn Hrun; [lia|].
  cbn [update_pages] in Hrun.
  destruct (update_page delta page (l, r)) as [[l1 r1]|] eqn:Hstep; [|discriminate].
  destruct (update_page_inv _ _ _ _ _ _ Hstep) as (Hdelta & count & Hlook & Hup & Hdown & Hr1).
  split; [exact Hdelta|]. intros p Hp.
  destruct (Z.eq_dec p page) as [->|Hne]; [exists count; auto|].
  destruct n as [|n]; [lia|].
  rewrite (u32_small (page + 1)) in Hrun by lia.
  destruct (IH delta (page + 1) l1 r1 st' ltac:(lia) ltac:(lia) ltac:(lia) Hrun) as [_ Hrest].
  destruct (Hrest p ltac:(lia)) as (cp & Hcp & Hbounds).
  exists cp. split; [|exact Hbounds].
  rewrite Hr1 in Hcp. rewrite list_lookup_insert_ne in Hcp by lia. exact Hcp.
Qed.

(** X4: with the deltas that its callers pass, +1 and -1,
    [UpdatePagesCachedCount] never wraps a counter and never walks off the
    table.  When it returns for a non-empty byte range, delta was not zero,
    every page of the range is in the table, no counter was at 65535 before
    an increment and none was at zero before a decrement; and for delta = +1
    or -1 on a table of 16-bit counters each counter of the range is
    afterwards the counter before plus delta, without wrap-around, every
    other counter is unchanged and all counters are 16-bit values still. *)
Theorem UpdatePagesCachedCount_guards (addr size delta : Z) (r r' : Rasterizer) :
  0 <= addr -> 0 < size -> addr + size <= 2 ^ 32 - 4096 ->
  Forall (fun count => 0 <= count <= 65535) (cached_pages r) ->
  UpdatePagesCachedCount addr size delta r = Some r' ->
  delta <> 0 /\
  (forall p, in_pages addr size p ->
     exists count, cached_pages r !! Z.to_nat p = Some count /\
                   (0 < delta -> count < 65535) /\ (delta < 0 -> 0 < count)) /\
  (delta = 1 \/ delta = -1 ->
   (forall q : nat, cached_pages r' !! q = shifted delta r addr size q) /\
   Forall (fun count => 0 <= count <= 65535) (cached_pages r')).
Proof.
  intros Haddr Hsize Hfit Htable Hrun.
  destruct (page_range_bounds addr size Haddr Hsize Hfit) as (Hlo & Hlt & Hhi & Hend).
  assert (Hguards : delta <> 0 /\
            forall p, in_pages addr size p ->
              exists count, cached_pages r !! Z.to_nat p = Some count /\
                            (0 < delta -> count < 65535) /\ (delta < 0 -> 0 < count)).
  { pose proof Hrun as Hrun'.
    unfold UpdatePagesCachedCount in Hrun'. rewrite Hend in Hrun'.
    fold (page_start addr) in Hrun'.
    rewrite (u32_small (page_end addr size - page_start addr)) in Hrun' by lia.
    set (n := Z.to_nat (page_end addr size - page_start addr)) in Hrun'.
    destruct (update_pages n delta (page_start addr) (mkRuns 0 0 0 0, r)) as [st'|] eqn:Hloop;
      [|discriminate].
    destruct (update_pages_inv n delta (page_start addr) _ r st' Hlo ltac:(lia) ltac:(lia) Hloop)
      as [Hdelta Hpages].
    split; [exact Hdelta|]. intros p Hp. apply Hpages. unfold in_pages in Hp. lia. }
  destruct Hguards as [Hdelta Hpages].
  split; [exact Hdelta|]. split; [exact Hpages|].
  rewrite Forall_lookup in Htable.
  assert (Hshift : forall d, d = 1 \/ d = -1 ->
            (forall q : nat, cached_pages r' !! q = shifted d r addr size q) ->
            (forall p, in_pages addr size p ->
               exists count, cached_pages r !! Z.to_nat p = Some count /\
                             0 <= count + d <= 65535) ->
            Forall (fun count => 0 <= count <= 65535) (cached_pages r')).
  { intros d Hd Hq Hin. apply Forall_lookup. intros q count. rewrite Hq. unfold shifted.
    case_bool_decide as Hp.
    - destruct (Hin _ Hp) as (c0 & Hc0 & Hbound). rewrite Nat2Z.id in Hc0. rewrite Hc0.
      cbn. intros [= <-]. exact Hbound.
    - apply Htable. }
  intros [-> | ->].
  - destruct (tracker_up_runs addr size r Haddr Hsize Hfit) as (r'' & Hup & Hq & _).
    { intros p Hp. destruct (Hpages p Hp) as (count & Hlook & Hup & _).
      exists count. split; [exact Hlook|]. specialize (Htable _ _ Hlook). cbn in Htable. lia. }
    rewrite Hrun in Hup. injection Hup as <-. split; [exact Hq|].
    apply (Hshift 1); [now left | exact Hq|].
    intros p Hp. destruct (Hpages p Hp) as (count & Hlook & Hup & _).
    exists count. split; [exact Hlook|]. specialize (Htable _ _ Hlook). cbn in Htable. lia.
  - destruct (tracker_down_runs addr size r Haddr Hsize Hfit) as (r'' & Hdown & Hq & _).
    { intros p Hp. destruct (Hpages p Hp) as (count & Hlook & _ & Hdown).
      exists count. split; [exact Hlook|]. specialize (Htable _ _ Hlook). cbn in Htable. lia. }
    rewrite Hrun in Hdown. injection Hdown as <-. split; [exact Hq|].
    apply (Hshift (-1)); [now right | exact Hq|].
    intros p Hp. destruct (Hpages p Hp) as (count & Hlook & _ & Hdown).
    exists count. split; [exact Hlook|]. specialize (Htable _ _ Hlook). cbn in Htable. lia.
Qed.

(** X5: the edge of an empty byte range. At a page-aligned address above
    zero no page is walked: the tracker is left as it is, whatever delta is.
    At an address inside a page the page of that address is walked, as for a
    range of one byte. *)
Theorem UpdatePagesCachedCount_empty_range (addr delta : Z) (r : Rasterizer) :
  0 < addr < 2 ^ 32 ->
  (addr mod 4096 = 0 -> UpdatePagesCachedCount addr 0 delta r = Some r) /\
  (addr mod 4096 <> 0 ->
   UpdatePagesCachedCount addr 0 delta r = UpdatePagesCachedCount addr 1 delta r).
Proof.
  intros Haddr. split.
  - intros Haligned. unfold UpdatePagesCachedCount.
    rewrite (u32_small (addr + 0 - 1)) by lia. rewrite !shiftr_page by lia.
    assert (Hdiv : (addr + 0 - 1) / 4096 + 1 = addr / 4096).
    { pose proof (Z.div_mod addr 4096 ltac:(lia)) as Hdm. rewrite Haligned in Hdm.
      replace (addr + 0 - 1) with (4095 + (addr / 4096 - 1) * 4096) by lia.
      rewrite Z.div_add by lia. rewrite (Z.div_small 4095 4096) by lia. lia. }
    rewrite Hdiv.
    assert (0 <= addr / 4096 < 2 ^ 20)
      by (split; [apply Z.div_pos; lia | apply Z.div_lt_upper_bound; lia]).
    rewrite (u32_small (addr / 4096)) by lia.
    rewrite Z.sub_diag. cbn. now destruct r.
  - intros Hinside. unfold UpdatePagesCachedCount.
    replace (addr + 1 - 1) with addr by lia.
    rewrite (u32_small (addr + 0 - 1)), (u32_small addr) by lia.
    rewrite !shiftr_page by lia.
    replace ((addr + 0 - 1) / 4096) with (addr / 4096); [reflexivity|].
    pose proof (Z.div_mod addr 4096 ltac:(lia)) as Hdm.
    pose proof (Z.mod_pos_bound addr 4096 ltac:(lia)) as Hm.
    replace (addr + 0 - 1) with ((addr mod 4096 - 1) + addr / 4096 * 4096) by lia.
    rewrite Z.div_add by lia. rewrite (Z.div_small (addr mod 4096 - 1)) by lia. lia.
Qed.

End TrackerFaults.

Lemma UpdatePagesCachedCount_caches_witness :
  exists r' calls,
    UpdatePagesCachedCount 4096 16384 1 sample_tracker = Some r' /\
    (forall q : nat, cached_pages r' !! q = shifted 1 sample_tracker 4096 16384 q) /\
    mark_calls r' = mark_calls sample_tracker ++ calls /\
    Forall (fun c => mark_cached c = true) calls /\
    Forall (reports_run (fun q => in_pages 4096 16384 q /\ count_at sample_tracker q = 0))
           calls /\
    separated calls /\
    forall q, times_covered calls q = reported 0 sample_tracker 4096 16384 q.
Proof.
  apply (UpdatePagesCachedCount_caches 4096 16384 sample_tracker); [lia | lia | lia |].
  intros p Hp. change (1 <= p < 5) in Hp.
  assert (Hcases : p = 1 \/ p = 2 \/ p = 3 \/ p = 4) by lia.
  destruct Hcases as [-> | [-> | [-> | ->]]]; eexists; (split; [reflexivity | lia]).
Defined.

Lemma UpdatePagesCachedCount_uncaches_witness :
  exists r' calls,
    UpdatePagesCachedCount 4096 16384 (-1) cached_tracker = Some r' /\
    (forall q : nat, cached_pages r' !! q = shifted (-1) cached_tracker 4096 16384 q) /\
    mark_calls r' = mark_calls cached_tracker ++ calls /\
    Forall (fun c => mark_cached c = false) calls /\
    Forall (reports_run (fun q => in_pages 4096 16384 q /\ count_at cached_tracker q = 1))
           calls /\
    separated calls /\
    forall q, times_covered calls q = reported 1 cached_tracker 4096 16384 q.
Proof.
  apply (UpdatePagesCachedCount_uncaches 4096 16384 cached_tracker); [lia | lia | lia |].
  intros p Hp. change (1 <= p < 5) in Hp.
  assert (Hcases : p = 1 \/ p = 2 \/ p = 3 \/ p = 4) by lia.
  destruct Hcases as [-> | [-> | [-> | ->]]]; eexists; (split; [reflexivity | lia]).
Defined.

Lemma cache_then_uncache_restores_witness :
  exists r1 r2 cached,
    UpdatePagesCachedCount 4096 16384 1 sample_tracker = Some r1 /\
    UpdatePagesCachedCount 4096 16384 (-1) r1 = Some r2 /\
    cached_pages r2 = cached_pages sample_tracker /\
    mark_calls r1 = mark_calls sample_tracker ++ cached /\
    mark_calls r2 = mark_calls r1 ++ map (as_cached false) cached /\
    Forall (fun c => mark_cached c = true) cached /\
    Forall (reports_run (fun q => in_pages 4096 16384 q /\ count_at sample_tracker q = 0))
           cached.
Proof.
  apply (cache_then_uncache_restores 4096 16384 sample_tracker); [lia | lia | lia |].
  intros p Hp. change (1 <= p < 5) in Hp.
  assert (Hcases : p = 1 \/ p = 2 \/ p = 3 \/ p = 4) by lia.
  destruct Hcases as [-> | [-> | [-> | ->]]]; eexists; (split; [reflexivity | lia]).
Defined.

Lemma UpdatePagesCachedCount_guards_witness :
  1 <> 0 /\
  (forall p, in_pages 4096 16384 p ->
     exists count, cached_pages sample_tracker !! Z.to_nat p = Some count /\
                   (0 < 1 -> count < 65535) /\ (1 < 0 -> 0 < count)) /\
  (1 = 1 \/ 1 = -1 ->
   (forall q : nat,
       cached_pages (mkRasterizer [0; 3; 1; 1; 2; 0; 0; 0]
                                  [RasterizerMarkRegionCached 8192 8192 true]) !! q
       = shifted 1 sample_tracker 4096 16384 q) /\
   Forall (fun count => 0 <= count <= 65535)
          (cached_pages (mkRasterizer [0; 3; 1; 1; 2; 0; 0; 0]
                                      [RasterizerMarkRegionCached 8192 8192 true]))).
Proof.
  apply (UpdatePagesCachedCount_guards 4096 16384 1 sample_tracker
           (mkRasterizer [0; 3; 1; 1; 2; 0; 0; 0]
                         [RasterizerMarkRegionCached 8192 8192 true]));
    [lia | lia | lia | | vm_compute; reflexivity].
  unfold sample_tracker. cbn [cached_pages]. repeat constructor; lia.
Defined.

Lemma UpdatePagesCachedCount_empty_range_witness :
  (8192 mod 4096 = 0 -> UpdatePagesCachedCount 8192 0 1 sample_tracker = Some sample_tracker) /\
  (8192 mod 4096 <> 0 ->
   UpdatePagesCachedCount 8192 0 1 sample_tracker
   = UpdatePagesCachedCount 8192 1 1 sample_tracker).
Proof. apply (UpdatePagesCachedCount_empty_range 8192 1 sample_tracker). lia. Defined.

(** ** Vertex array analysis: indexed draws *)

Section IndexedDraw.

Variable mem : Z -> Z.
Variable address : Z.
Variable index_u16 : bool.

Lemma index_fold (l : list nat) : forall vmin vmax,
  let '(a, b) :=
    fold_left (fun '(vmin, vmax) index =>
                 let vertex := read_index mem address index_u16 (Z.of_nat index) in
                 (Z.min vmin vertex, Z.max vmax vertex)) l (vmin, vmax) in
  a <= vmin /\ vmax <= b /\
  (forall i, In i l -> a <= read_index mem address index_u16 (Z.of_nat i) <= b) /\
  (a = vmin \/ exists i, In i l /\ read_index mem address index_u16 (Z.of_nat i) = a) /\
  (b = vmax \/ exists i, In i l /\ read_index mem address index_u16 (Z.of_nat i) = b).
Proof.
  induction l as [|k l IH]; intros vmin vmax; cbn [fold_left].
  - split; [lia|]. split; [lia|]. split; [intros j []|]. split; now left.
  - set (vertex := read_index mem address index_u16 (Z.of_nat k)).
    specialize (IH (Z.min vmin vertex) (Z.max vmax vertex)).
    destruct (fold_left _ l _) as [a b].
    destruct IH as (Ha & Hb & Hall & Hmin & Hmax).
    split; [lia|]. split; [lia|]. split; [|split].
    + intros i [<-|Hi]; [fold vertex; lia | now apply Hall].
    + destruct Hmin as [Hmin|(i & Hi & Hmin)].
      * destruct (Z.min_spec vmin vertex) as [[_ Hm]|[_ Hm]].
        -- left. lia.
        -- right. exists k. split; [now left | fold vertex; lia].
      * right. exists i. split; [now right | exact Hmin].
    + destruct Hmax as [Hmax|(i & Hi & Hmax)].
      * destruct (Z.max_spec vmax vertex) as [[_ Hm]|[_ Hm]].
        -- right. exists k. split; [now left | fold vertex; lia].
        -- left. lia.
      * right. exists i. split; [now right | exact Hmax].
Qed.

End IndexedDraw.

Lemma read_index_range mem address index_u16 k :
  (forall a, 0 <= mem a < 256) -> 0 <= read_index mem address index_u16 k <= 65535.
Proof.
  intros Hbytes. unfold read_index. destruct index_u16.
  - pose proof (Hbytes (address + 2 * k)). pose proof (Hbytes (address + 2 * k + 1)). lia.
  - pose proof (Hbytes (address + k)). lia.
Qed.

(** X6: an indexed draw. With no vertex the index loop does not run and the
    range stays at its initial values, minimum 0xFFFF above maximum 0. With
    at least one vertex, over a memory of bytes, [vertex_min] and
    [vertex_max] are the least and the greatest index of the index buffer:
    they bound every index and both occur in it. *)
Theorem AnalyzeVertexArray_indexed (mem : Z -> Z) (regs : PipelineRegs)
    (stride_alignment : Z) :
  let info := AnalyzeVertexArray mem regs true stride_alignment in
  let index k := read_index mem (u32 (base_address regs + index_offset regs))
                            (negb (index_format regs =? 0)) k in
  (num_vertices regs <= 0 -> vertex_min info = 65535 /\ vertex_max info = 0) /\
  (1 <= num_vertices regs -> (forall a, 0 <= mem a < 256) ->
   (forall k, 0 <= k < num_vertices regs -> vertex_min info <= index k <= vertex_max info) /\
   (exists k, 0 <= k < num_vertices regs /\ index k = vertex_min info) /\
   (exists k, 0 <= k < num_vertices regs /\ index k = vertex_max info)).
Proof.
  intros info index. subst info. unfold AnalyzeVertexArray, index_bounds.
  set (address := u32 (base_address regs + index_offset regs)) in *.
  set (index_u16 := negb (index_format regs =? 0)) in *.
  split.
  - intros Hnone. replace (Z.to_nat (num_vertices regs)) with 0%nat by lia.
    cbn. split; reflexivity.
  - intros Hsome Hbytes.
    pose proof (index_fold mem address index_u16 (seq 0 (Z.to_nat (num_vertices regs)))
                  65535 0) as Hfold.
    destruct (fold_left _ _ _) as [a b]. cbn [vertex_min vertex_max].
    destruct Hfold as (Ha & Hb & Hall & Hmin & Hmax).
    assert (Hin : forall k, 0 <= k < num_vertices regs ->
                            In (Z.to_nat k) (seq 0 (Z.to_nat (num_vertices regs))))
      by (intros k Hk; apply in_seq; lia).
    assert (Hfirst : a <= index 0 <= b) by (apply (Hall 0%nat), (Hin 0); lia).
    pose proof (read_index_range mem address index_u16 0 Hbytes) as Hrange.
    fold (index 0) in Hrange.
    split; [|split].
    + intros k Hk. specialize (Hall _ (Hin k Hk)).
      rewrite Z2Nat.id in Hall by lia. exact Hall.
    + destruct Hmin as [->|(i & Hi & Hmin)].
      * exists 0. split; [lia|lia].
      * apply in_seq in Hi. exists (Z.of_nat i). split; [lia | exact Hmin].
    + destruct Hmax as [->|(i & Hi & Hmax)].
      * exists 0. split; [lia|lia].
      * apply in_seq in Hi. exists (Z.of_nat i). split; [lia | exact Hmax].
Qed.

Lemma AnalyzeVertexArray_indexed_witness :
  let mem := fun a : Z => if a =? 100 then 7 else if a =? 102 then 3 else 0 in
  let regs := mkPipelineRegs 96 [mkLoader 3 12] 4 1 2 0 in
  let info := AnalyzeVertexArray mem regs true 4 in
  let index k := read_index mem (u32 (96 + 4)) (negb (1 =? 0)) k in
  (forall k, 0 <= k < 2 -> vertex_min info <= index k <= vertex_max info) /\
  (exists k, 0 <= k < 2 /\ index k = vertex_min info) /\
  (exists k, 0 <= k < 2 /\ index k = vertex_max info).
Proof.
  apply (proj2 (AnalyzeVertexArray_indexed
                  (fun a : Z => if a =? 100 then 7 else if a =? 102 then 3 else 0)
                  (mkPipelineRegs 96 [mkLoader 3 12] 4 1 2 0) 4)).
  - simpl. lia.
  - intros a. destruct (a =? 100); [lia|]. destruct (a =? 102); lia.
Defined.

(** ** Register mirror: how the handlers compose *)

Section HandlerComposition.

Variable float16_FromRaw : Z -> float16.
Variable float20_FromRaw : Z -> float20.
Variable float24_FromRaw : Z -> float24.
Variable regs : Regs.

Lemma vinsert_twice {A n} (i : fin n) (x y : A) (v : vec A n) :
  vinsert i x (vinsert i y v) = vinsert i x v.
Proof.
  apply vec_eq. intros j. destruct (decide (i = j)) as [->|Hij].
  - now rewrite !vlookup_insert.
  - now rewrite !vlookup_insert_ne by exact Hij.
Qed.

Lemma set_light_twice (i : fin 8) (f : LightSrc -> LightSrc) d :
  (forall l, f (f l) = f l) ->
  set_light i f (set_light i f d) = set_light i f d.
Proof.
  intros Hf. unfold set_light. cbn [light_src set_light_src].
  rewrite vlookup_insert, Hf, vinsert_twice. reflexivity.
Qed.

Ltac store_twice :=
  repeat match goal with
         | |- context [if ?c then _ else _] => destruct c eqn:?
         end;
  try reflexivity; try congruence;
  unfold set_dirty, set_data; cbn [data dirty]; f_equal;
  try reflexivity;
  try (apply set_light_twice; intros l; reflexivity).

(** X7: every uniform handler is idempotent: run a second time on the same
    registers it changes neither the shadow nor the dirty flag, also when the
    value is a NaN, which never compares equal to itself and is stored
    again. *)
Theorem run_handler_idempotent (h : UniformHandler) (u : UniformBlockData) :
  let run := run_handler float16_FromRaw float20_FromRaw float24_FromRaw regs h in
  run (run u) = run u.
Proof.
  destruct h; cbn [run_handler].
  - unfold SyncDepthScale. store_twice.
  - unfold SyncDepthOffset. store_twice.
  - unfold SyncFogColor. store_twice.
  - unfold SyncProcTexNoise. store_twice.
  - unfold SyncProcTexBias. store_twice.
  - unfold SyncAlphaTest. store_twice.
  - unfold SyncCombinerColor. store_twice.
  - unfold SyncTevConstColor. store_twice.
    unfold set_const_color. cbn [const_color]. now rewrite vinsert_twice.
  - unfold SyncGlobalAmbient. store_twice.
  - unfold SyncLightSpecular0. store_twice.
  - unfold SyncLightSpecular1. store_twice.
  - unfold SyncLightDiffuse. store_twice.
  - unfold SyncLightAmbient. store_twice.
  - unfold SyncLightPosition. store_twice.
  - unfold SyncLightSpotDirection. store_twice.
  - unfold SyncLightDistanceAttenuationBias. store_twice.
  - unfold SyncLightDistanceAttenuationScale. store_twice.
  - unfold SyncShadowBias. store_twice.
  - unfold SyncShadowTextureBias. store_twice.
Qed.

Lemma light_lookup_other (i j : fin 8) f d :
  i <> j -> light_src (set_light i f d) !!! j = light_src d !!! j.
Proof.
  intros Hij. unfold set_light. cbn [light_src set_light_src].
  now rewrite vlookup_insert_ne.
Qed.

Ltac other_shadow :=
  repeat match goal with
         | |- context [if ?c then _ else _] => destruct c eqn:?
         end;
  cbn [data set_dirty set_data]; try reflexivity;
  try (unfold set_const_color; cbn [const_color]);
  match goal with
  | Hne : ?c ?i <> ?c ?j |- _ =>
    assert (i <> j) by congruence;
    rewrite ?light_lookup_other, ?vlookup_insert_ne by assumption; reflexivity
  | |- context [light_src (set_light ?i _ _) !!! ?j] =>
    destruct (decide (i = j)) as [->|?];
    [rewrite light_lookup_set | rewrite light_lookup_other by assumption]; reflexivity
  | _ => idtac
  end.

(** X8: no handler disturbs the shadow of another: after a handler has run,
    the shadowed value of every other handler (another field, another light,
    another TEV stage) is what it was. *)
Theorem run_handler_frame (h h' : UniformHandler) (u : UniformBlockData) :
  h <> h' ->
  shadowed h' (data (run_handler float16_FromRaw float20_FromRaw float24_FromRaw regs h u))
  = shadowed h' (data u).
Proof.
  intros Hne.
  destruct h; cbn [run_handler];
    unfold SyncDepthScale, SyncDepthOffset, SyncFogColor, SyncProcTexNoise, SyncProcTexBias,
           SyncAlphaTest, SyncCombinerColor, SyncTevConstColor, SyncGlobalAmbient,
           SyncLightSpecular0, SyncLightSpecular1, SyncLightDiffuse, SyncLightAmbient,
           SyncLightPosition, SyncLightSpotDirection, SyncLightDistanceAttenuationBias,
           SyncLightDistanceAttenuationScale, SyncShadowBias, SyncShadowTextureBias;
    destruct h'; cbn [shadowed]; try contradiction; other_shadow.
Qed.

End HandlerComposition.

Lemma run_handler_frame_witness :
  shadowed HDepthOffset
           (data (run_handler decode_zero decode_zero decode_zero zero_regs HFogColor
                              zero_uniforms))
  = shadowed HDepthOffset (data zero_uniforms).
Proof.
  apply (run_handler_frame decode_zero decode_zero decode_zero zero_regs
           HFogColor HDepthOffset zero_uniforms).
  discriminate.
Defined.

(** ** The render pass cache *)

Section RenderpassProperties.

Import RenderpassCache.

(** X9: the create info of [CreateRenderPass]: the attachment count is the
    number of defined formats; the colour reference, when there is a colour
    format, and the depth reference, when there is a depth format, point
    below the count at the description of that format, the colour one
    first; the subpass has a colour attachment exactly when the colour format
    is defined and a depth attachment exactly when the depth format is. *)
Theorem CreateRenderPass_references (color depth : Format) (load_op : AttachmentLoadOp)
    (initial_layout final_layout : ImageLayout) :
  let info := CreateRenderPass color depth load_op initial_layout final_layout in
  let described (ref : AttachmentReference) (f : Format) :=
    0 <= attachment ref < attachmentCount info /\
    format <$> pAttachments info !! Z.to_nat (attachment ref) = Some f in
  attachmentCount info
  = (if color =? eUndefined then 0 else 1) + (if depth =? eUndefined then 0 else 1) /\
  colorAttachmentCount (pSubpasses info) = (if color =? eUndefined then 0 else 1) /\
  (color <> eUndefined ->
   attachment (pColorAttachments (pSubpasses info)) = 0 /\
   described (pColorAttachments (pSubpasses info)) color) /\
  (if depth =? eUndefined
   then pDepthStencilAttachment (pSubpasses info) = None
   else exists ref, pDepthStencilAttachment (pSubpasses info) = Some ref /\
                    attachment ref = (if color =? eUndefined then 0 else 1) /\
                    described ref depth).
Proof.
  unfold CreateRenderPass.
  destruct (Z.eqb_spec color eUndefined) as [Hc|Hc], (Z.eqb_spec depth eUndefined) as [Hd|Hd];
    cbn; change (u32 (0 + 1)) with 1; change (u32 (1 + 1)) with 2;
    repeat split; try lia; try contradiction; try (intros _; repeat split; lia);
    eexists; (split; [reflexivity|]); cbn; repeat split; lia.
Qed.

Variable state_eq : RenderpassState -> RenderpassState -> bool.

Lemma open_passes_app cmds cmds' :
  open_passes (cmds ++ cmds') = fold_left step_open cmds' (open_passes cmds).
Proof. unfold open_passes. apply fold_left_app. Qed.

Lemma run_operation_balanced c op :
  enters_real_pass op -> balanced c -> balanced (run_operation state_eq c op).
Proof.
  unfold balanced. intros Hop Hc. destruct op as [state| |]; cbn [run_operation].
  - unfold EnterRenderpass.
    destruct (state_eq (current_state c) state && negb (renderpass_dirty (scheduler c)));
      [exact Hc|].
    cbn in Hop. apply Z.eqb_neq in Hop.
    assert (Hrec : forall s : Scheduler,
              recorded (if renderpass_dirty (scheduler c)
                        then mkScheduler false (recorded s) else s) = recorded s)
      by (intros s; now destruct (renderpass_dirty (scheduler c))).
    cbn [current_state scheduler]. rewrite Hrec. cbn [recorded].
    rewrite open_passes_app, Hc, Hop.
    destruct (renderpass (current_state c) =? 0); reflexivity.
  - unfold ExitRenderpass. destruct (renderpass (current_state c) =? 0) eqn:Hnull;
      [now rewrite Hnull|].
    cbn [current_state scheduler recorded]. rewrite open_passes_app, Hc. reflexivity.
  - exact Hc.
Qed.

(** X10: render passes are never nested and never ended twice. Whatever
    sequence of [EnterRenderpass] (with a non-null render pass),
    [ExitRenderpass] and dirty flags raised by the scheduler runs on a cache
    that starts without a pass, the recorded command stream is well
    bracketed, and a pass is left open exactly when the current state holds a
    render pass. *)
Theorem renderpass_never_nested (ops : list Operation) (present : Handle) (dirty : bool) :
  Forall enters_real_pass ops ->
  let c := fold_left (run_operation state_eq) ops
                     (mkCache no_state (mkScheduler dirty []) present) in
  open_passes (recorded (scheduler c))
  = Some (if renderpass (current_state c) =? 0 then 0%nat else 1%nat).
Proof.
  intros Hops. cbv zeta.
  assert (Hinv : forall c0, balanced c0 ->
                            balanced (fold_left (run_operation state_eq) ops c0)).
  { induction Hops as [|op ops Hop Hops IH]; intros c0 Hc0; cbn [fold_left]; [exact Hc0|].
    apply IH. now apply run_operation_balanced. }
  apply Hinv. reflexivity.
Qed.

(** X11: entering the state that is current on a clean scheduler records
    nothing; so does leaving when no pass is active: [EnterRenderpass] twice
    is [EnterRenderpass] once, and [ExitRenderpass] twice is
    [ExitRenderpass] once. *)
Theorem renderpass_enter_exit_idempotent (state : RenderpassState) (c : Cache) :
  state_eq state state = true ->
  EnterRenderpass state_eq state (EnterRenderpass state_eq state c)
  = EnterRenderpass state_eq state c /\
  ExitRenderpass (ExitRenderpass c) = ExitRenderpass c.
Proof.
  intros Hrefl. split.
  - unfold EnterRenderpass at 2.
    destruct (state_eq (current_state c) state && negb (renderpass_dirty (scheduler c)))
      eqn:Hsame.
    + unfold EnterRenderpass. now rewrite Hsame.
    + unfold EnterRenderpass. cbn [current_state scheduler]. rewrite Hrefl.
      destruct (renderpass_dirty (scheduler c)) eqn:Hd; cbn [renderpass_dirty negb andb].
      * cbn [negb]. rewrite andb_false_r. reflexivity.
      * cbn [negb] in Hsame. rewrite Hsame. reflexivity.
  - unfold ExitRenderpass at 2. destruct (renderpass (current_state c) =? 0) eqn:Hnull.
    + unfold ExitRenderpass. now rewrite Hnull.
    + unfold ExitRenderpass. cbn [current_state renderpass no_state Z.eqb].
      now rewrite Hnull.
Qed.

End RenderpassProperties.

(** ** The D24S8 to R32 compute blit *)

Section BlitHelperProperties.

Import BlitHelper.

Lemma in_invocations gx gy x y :
  In (x, y) (invocations gx gy) <-> (0 <= x < 8 * gx) /\ (0 <= y < 8 * gy).
Proof.
  unfold invocations. rewrite in_flat_map. split.
  - intros (j & Hj & Hin). apply in_map_iff in Hin. destruct Hin as (i & [= <- <-] & Hi).
    apply in_seq in Hi, Hj. lia.
  - intros [Hx Hy]. exists (Z.to_nat y). split; [apply in_seq; lia|].
    apply in_map_iff. exists (Z.to_nat x). split; [|apply in_seq; lia].
    f_equal; lia.
Qed.

Lemma fold_store {K V} `{Countable K} (f : K -> V) (keys : list K) : forall (m : gmap K V) k,
  fold_left (fun m k => <[k := f k]> m) keys m !! k
  = if bool_decide (k ∈ keys) then Some (f k) else m !! k.
Proof.
  induction keys as [|k0 keys IH]; intros m k; cbn [fold_left].
  - rewrite bool_decide_eq_false_2 by (apply not_elem_of_nil). reflexivity.
  - rewrite IH. destruct (decide (k ∈ keys)) as [Hin|Hout].
    + rewrite !bool_decide_eq_true_2; [reflexivity | apply elem_of_cons; now right | exact Hin].
    + rewrite (bool_decide_eq_false_2 (k ∈ keys)) by exact Hout.
      destruct (decide (k0 = k)) as [->|Hne].
      * rewrite bool_decide_eq_true_2 by (apply elem_of_cons; now left). apply lookup_insert_eq.
      * rewrite bool_decide_eq_false_2
          by (intros Hk; apply elem_of_cons in Hk; destruct Hk; [congruence | contradiction]).
        now apply lookup_insert_ne.
Qed.

Lemma packed_fields depth_val stencil_val :
  0 <= depth_val < 2 ^ 24 -> 0 <= stencil_val < 2 ^ 8 ->
  let value := Z.lor stencil_val (u32 (Z.shiftl depth_val 8)) in
  Z.land value 255 = stencil_val /\ Z.shiftr value 8 = depth_val /\ 0 <= value < 2 ^ 32.
Proof.
  intros Hd Hs. cbv zeta.
  rewrite Z.shiftl_mul_pow2 by lia. rewrite u32_small by lia.
  assert (Hdisjoint : Z.land stencil_val (depth_val * 2 ^ 8) = 0).
  { apply Z.bits_inj'. intros n Hn. rewrite Z.land_spec, Z.bits_0.
    destruct (Z_lt_le_dec n 8).
    - rewrite Z.mul_pow2_bits_low by lia. apply andb_false_r.
    - destruct (Z.eq_dec stencil_val 0) as [->|Hnz]; [now rewrite Z.bits_0|].
      assert (Hlog : Z.log2 stencil_val < 8) by (apply Z.log2_lt_pow2; lia).
      rewrite (Z.bits_above_log2 stencil_val n); [reflexivity | lia | lia]. }
  rewrite <- Z.add_nocarry_lor by exact Hdisjoint.
  change 255 with (Z.ones 8). rewrite Z.land_ones by lia.
  rewrite Z.shiftr_div_pow2 by lia.
  split; [|split].
  - rewrite Z.mod_add by lia. apply Z.mod_small. lia.
  - rewrite Z.div_add by lia. rewrite Z.div_small by lia. lia.
  - lia.
Qed.

(** X12: the compute blit of a D24S8 surface. The texel [(x, y)] of the
    destination image is written exactly when [x] and [y] lie below the
    width and the height of the source rectangle rounded down to a multiple
    of 8, at the origin of the image whatever the destination rectangle is;
    it receives the stencil of the source texel at [src_rect.left + x],
    [src_rect.bottom + y] in its low byte and the 24-bit depth above it, so
    that both can be read back. *)
Theorem BlitD24S8ToR32_texels (depth stencil : Z * Z -> Z) (src_rect : Rect)
    (color : gmap (Z * Z) Z) (x y : Z) :
  (forall t, 0 <= depth t < 2 ^ 24) -> (forall t, 0 <= stencil t < 2 ^ 8) ->
  let image := BlitD24S8ToR32 depth stencil src_rect color in
  let source := (left src_rect + x, bottom src_rect + y) in
  if bool_decide (0 <= x < 8 * (GetWidth src_rect / 8) /\
                  0 <= y < 8 * (GetHeight src_rect / 8))
  then exists value,
      image !! (x, y) = Some value /\
      Z.land value 255 = stencil source /\ Z.shiftr value 8 = depth source
  else image !! (x, y) = color !! (x, y).
Proof.
  intros Hdepth Hstencil image source. subst image. unfold BlitD24S8ToR32.
  pose proof (fold_store
                (fun dst_coord =>
                   snd (shader_main depth stencil (left src_rect, bottom src_rect) dst_coord))
                (invocations (GetWidth src_rect / 8) (GetHeight src_rect / 8)) color (x, y))
    as Hfold.
  cbn [shader_main fst snd] in Hfold |- *. rewrite Hfold.
  destruct (decide (0 <= x < 8 * (GetWidth src_rect / 8) /\
                    0 <= y < 8 * (GetHeight src_rect / 8))) as [Hin|Hout].
  - rewrite (bool_decide_eq_true_2 (_ ∈ _))
      by (apply list_elem_of_In, in_invocations, Hin).
    rewrite bool_decide_eq_true_2 by exact Hin.
    eexists. split; [reflexivity|].
    destruct (packed_fields (depth source) (stencil source) (Hdepth _) (Hstencil _))
      as (Hlow & Hhigh & _).
    split; assumption.
  - rewrite (bool_decide_eq_false_2 (_ ∈ _))
      by (intros Hxy; apply Hout, in_invocations, list_elem_of_In, Hxy).
    rewrite bool_decide_eq_false_2 by exact Hout. reflexivity.
Qed.

End BlitHelperProperties.

Lemma BlitD24S8ToR32_texels_witness :
  let depth := fun t : Z * Z => (fst t + 16 * snd t) mod 2 ^ 24 in
  let stencil := fun t : Z * Z => 255 in
  let image := BlitHelper.BlitD24S8ToR32 depth stencil (mkRect 2 12 14 0) ∅ in
  exists value,
    image !! (3, 5) = Some value /\
    Z.land value 255 = stencil (2 + 3, 0 + 5) /\ Z.shiftr value 8 = depth (2 + 3, 0 + 5).
Proof.
  intros depth stencil image.
  pose proof (BlitD24S8ToR32_texels depth stencil (mkRect 2 12 14 0) ∅ 3 5) as Hw.
  cbv zeta in Hw. rewrite bool_decide_eq_true_2 in Hw by (vm_compute; intuition discriminate).
  apply Hw.
  - intros t. apply Z.mod_pos_bound. lia.
  - intros t. unfold stencil. lia.
Defined.

(** ** The packed pipeline state *)

Section PipelineStateProperties.

Import PipelineState.

Lemma mask_testbit f n :
  0 <= n -> 0 <= position f -> 0 <= bits f ->
  Z.testbit (mask f) n = (position f <=? n) && (n <? position f + bits f).
Proof.
  intros Hn Hp Hb. unfold mask. rewrite Z.shiftl_spec by lia.
  destruct (Z.leb_spec (position f) n) as [Hle|Hlt]; cbn [andb].
  - rewrite Z.testbit_ones_nonneg by lia.
    destruct (Z.ltb_spec (n - position f) (bits f)), (Z.ltb_spec n (position f + bits f));
      lia || reflexivity.
  - apply Z.testbit_neg_r. lia.
Qed.

Lemma Value_testbit f s n :
  0 <= n -> 0 <= position f -> 0 <= bits f ->
  Z.testbit (Value f s) n = Z.testbit s (n + position f) && (n <? bits f).
Proof.
  intros Hn Hp Hb. unfold Value. rewrite Z.shiftr_spec, Z.land_spec by lia.
  rewrite mask_testbit by lia. f_equal.
  replace (position f <=? n + position f) with true by (symmetry; apply Z.leb_le; lia).
  cbn [andb]. destruct (Z.ltb_spec (n + position f) (position f + bits f)),
                (Z.ltb_spec n (bits f)); lia || reflexivity.
Qed.

Lemma Assign_testbit f v s n :
  0 <= n -> 0 <= position f -> 0 <= bits f ->
  Z.testbit (Assign f v s) n
  = if (position f <=? n) && (n <? position f + bits f)
    then Z.testbit v (n - position f) else Z.testbit s n.
Proof.
  intros Hn Hp Hb. unfold Assign.
  rewrite Z.lor_spec, !Z.land_spec, Z.lnot_spec, mask_testbit by lia.
  destruct ((position f <=? n) && (n <? position f + bits f)) eqn:Hin; cbn [negb].
  - rewrite andb_false_r, andb_true_r. cbn [orb].
    apply andb_true_iff in Hin. destruct Hin as [Hle _]. apply Z.leb_le in Hle.
    now rewrite Z.shiftl_spec by lia.
  - now rewrite andb_true_r, andb_false_r, orb_false_r.
Qed.

Lemma Value_Assign_same f v s :
  0 <= position f -> 0 <= bits f ->
  Value f (Assign f v s) = v mod 2 ^ bits f.
Proof.
  intros Hp Hb. apply Z.bits_inj'. intros n Hn.
  rewrite Value_testbit, Assign_testbit by lia.
  replace (position f <=? n + position f) with true by (symmetry; apply Z.leb_le; lia).
  cbn [andb]. replace (n + position f - position f) with n by lia.
  destruct (Z.ltb_spec n (bits f)) as [Hlt|Hge].
  - replace (n + position f <? position f + bits f) with true
      by (symmetry; apply Z.ltb_lt; lia).
    rewrite Z.mod_pow2_bits_low by lia. apply andb_true_r.
  - rewrite Z.mod_pow2_bits_high by lia. apply andb_false_r.
Qed.

Lemma Value_Assign_other f g v s :
  0 <= position f -> 0 <= bits f -> 0 <= position g -> 0 <= bits g ->
  apart f g = true ->
  Value g (Assign f v s) = Value g s.
Proof.
  intros Hpf Hbf Hpg Hbg Hapart. apply Z.bits_inj'. intros n Hn.
  rewrite !Value_testbit, Assign_testbit by lia.
  destruct (Z.ltb_spec n (bits g)) as [Hlt|Hge]; [|now rewrite !andb_false_r].
  rewrite !andb_true_r.
  replace ((position f <=? n + position g) && (n + position g <? position f + bits f))
    with false; [reflexivity|].
  symmetry. apply andb_false_iff. unfold apart in Hapart.
  apply orb_true_iff in Hapart. destruct Hapart as [H1|H1]; apply Z.leb_le in H1.
  - right. apply Z.ltb_ge. lia.
  - left. apply Z.leb_gt. lia.
Qed.

Lemma packed_states_checked :
  forallb (fun state =>
             forallb (fits (width state)) (fields state)
             && forallb (fun f => forallb (fun g => bool_decide (f = g) || apart f g)
                                          (fields state)) (fields state))
          packed_states = true.
Proof. vm_compute. reflexivity. Qed.

(** X13: the five packed states of the pipeline key ([RasterizationState],
    [DepthStencilState], [BlendingState], [VertexBinding],
    [VertexAttribute]): every field lies inside the storage word of its
    union and no two fields of a union share a bit, so that assigning a field
    stores the value modulo the width of the field and leaves every other
    field of the union as it was. *)
Theorem packed_state_fields (state : PackedState) (f : BitField) (value storage : Z) :
  In state packed_states -> In f (fields state) ->
  0 <= position f /\ 0 < bits f /\ position f + bits f <= width state /\
  Value f (Assign f value storage) = value mod 2 ^ bits f /\
  forall g, In g (fields state) -> g <> f ->
            Value g (Assign f value storage) = Value g storage.
Proof.
  intros Hstate Hf.
  pose proof packed_states_checked as Hall. rewrite forallb_forall in Hall.
  specialize (Hall state Hstate). apply andb_true_iff in Hall. destruct Hall as [Hfits Hapart].
  rewrite forallb_forall in Hfits, Hapart.
  assert (Hfit : forall g, In g (fields state) ->
                           0 <= position g /\ 0 < bits g /\ position g + bits g <= width state).
  { intros g Hg. specialize (Hfits g Hg). unfold fits in Hfits.
    apply andb_true_iff in Hfits. destruct Hfits as [Hfits Hw].
    apply andb_true_iff in Hfits. destruct Hfits as [Hp Hb].
    apply Z.leb_le in Hp, Hw. apply Z.ltb_lt in Hb. lia. }
  destruct (Hfit f Hf) as (Hp & Hb & Hw).
  split; [exact Hp|]. split; [exact Hb|]. split; [exact Hw|].
  split; [apply Value_Assign_same; lia|].
  intros g Hg Hne. destruct (Hfit g Hg) as (Hpg & Hbg & _).
  apply Value_Assign_other; try lia.
  specialize (Hapart f Hf). rewrite forallb_forall in Hapart. specialize (Hapart g Hg).
  apply orb_true_iff in Hapart. destruct Hapart as [Heq|Hapart]; [|exact Hapart].
  apply bool_decide_eq_true in Heq. congruence.
Qed.

(** X14: [IsDepthWriteEnabled] follows the three enable bits, the depth
    format and the stencil write mask only: assigning any of the five
    compare and stencil operation fields of the depth-stencil state does not
    change it. *)
Theorem IsDepthWriteEnabled_ignores_ops (info : PipelineInfo) (f : BitField) (value : Z) :
  In f [depth_compare_op; stencil_fail_op; stencil_pass_op; stencil_depth_fail_op;
        stencil_compare_op] ->
  IsDepthWriteEnabled
    (mkPipelineInfo (depth_attachment info) (Assign f value (depth_stencil info))
                    (stencil_write_mask info))
  = IsDepthWriteEnabled info.
Proof.
  intros Hf. unfold IsDepthWriteEnabled.
  cbn [depth_attachment depth_stencil stencil_write_mask].
  assert (Hother : forall g, In g [depth_test_enable; depth_write_enable; stencil_test_enable] ->
                             Value g (Assign f value (depth_stencil info))
                             = Value g (depth_stencil info)).
  { intros g Hg. cbn [In] in Hf, Hg.
    apply Value_Assign_other;
      repeat match goal with
             | H : _ \/ _ |- _ => destruct H as [<-|H]
             | H : False |- _ => destruct H
             end; cbn; try lia; reflexivity. }
  rewrite !Hother by (cbn; tauto). reflexivity.
Qed.

End PipelineStateProperties.

Lemma renderpass_never_nested_witness :
  let first := RenderpassCache.mkRenderpassState 7 3 (0, 0, 400, 240) 0 in
  let second := RenderpassCache.mkRenderpassState 9 4 (0, 0, 320, 240) 0 in
  let ops := [RenderpassCache.OpEnter first; RenderpassCache.OpEnter first;
              RenderpassCache.OpSchedulerDirty; RenderpassCache.OpEnter second;
              RenderpassCache.OpExit; RenderpassCache.OpExit] in
  let c := fold_left (RenderpassCache.run_operation RenderpassCache.same_state) ops
                     (RenderpassCache.mkCache RenderpassCache.no_state
                        (RenderpassCache.mkScheduler false []) 0) in
  RenderpassCache.open_passes (RenderpassCache.recorded (RenderpassCache.scheduler c))
  = Some (if RenderpassCache.renderpass (RenderpassCache.current_state c) =? 0
          then 0%nat else 1%nat).
Proof.
  intros first second ops.
  apply (renderpass_never_nested RenderpassCache.same_state ops 0 false).
  repeat constructor; cbn; lia.
Defined.

Lemma renderpass_enter_exit_idempotent_witness :
  let state := RenderpassCache.mkRenderpassState 7 3 (0, 0, 400, 240) 0 in
  let c := RenderpassCache.mkCache RenderpassCache.no_state
                                   (RenderpassCache.mkScheduler true []) 0 in
  RenderpassCache.EnterRenderpass RenderpassCache.same_state state
    (RenderpassCache.EnterRenderpass RenderpassCache.same_state state c)
  = RenderpassCache.EnterRenderpass RenderpassCache.same_state state c /\
  RenderpassCache.ExitRenderpass (RenderpassCache.ExitRenderpass c)
  = RenderpassCache.ExitRenderpass c.
Proof.
  intros state c.
  apply (renderpass_enter_exit_idempotent RenderpassCache.same_state state c).
  vm_compute. reflexivity.
Defined.

Lemma packed_state_fields_witness :
  let f := PipelineState.color_write_mask in
  0 <= PipelineState.position f /\ 0 < PipelineState.bits f /\
  PipelineState.position f + PipelineState.bits f
  <= PipelineState.width PipelineState.BlendingState /\
  PipelineState.Value f (PipelineState.Assign f 29 4294967295)
  = 29 mod 2 ^ PipelineState.bits f /\
  forall g, In g (PipelineState.fields PipelineState.BlendingState) -> g <> f ->
            PipelineState.Value g (PipelineState.Assign f 29 4294967295)
            = PipelineState.Value g 4294967295.
Proof.
  apply (packed_state_fields PipelineState.BlendingState PipelineState.color_write_mask
                             29 4294967295).
  - cbn. tauto.
  - cbn. tauto.
Defined.

Lemma IsDepthWriteEnabled_ignores_ops_witness :
  let info := PipelineState.mkPipelineInfo PixelFormat.D24S8 7 255 in
  PipelineState.IsDepthWriteEnabled
    (PipelineState.mkPipelineInfo
       PixelFormat.D24S8 (PipelineState.Assign PipelineState.stencil_pass_op 5 7) 255)
  = PipelineState.IsDepthWriteEnabled info.
Proof.
  apply (IsDepthWriteEnabled_ignores_ops (PipelineState.mkPipelineInfo PixelFormat.D24S8 7 255)
                                         PipelineState.stencil_pass_op 5).
  cbn. tauto.
Defined.

(** ** The cache map: adding and subtracting a surface *)

Section CacheMap.

Import ICL.

Lemma holds_covered m x id :
  holds m x id <-> exists v, covered m x v /\ In id v.
Proof.
  unfold holds, covered. split.
  - intros (seg & Hseg & Hw & Hid). exists (snd seg). split; [exists seg; auto | exact Hid].
  - intros (v & (seg & Hseg & Hw & <-) & Hid). exists seg. auto.
Qed.

Lemma holds_join m x id :
  nonempty_segments m -> holds (join m) x id <-> holds m x id.
Proof.
  intros Hne. rewrite !holds_covered. split; intros (v & Hc & Hid); exists v; split; auto.
  - now apply covered_join_rev.
  - now apply covered_join.
Qed.

Lemma in_fold_right_place {V} (l free : list (SurfaceInterval * V)) s :
  In s (fold_right place free l) <-> In s l \/ In s free.
Proof.
  induction l as [|t l IH]; cbn [fold_right].
  - cbn. tauto.
  - rewrite in_place, IH. cbn. intuition.
Qed.

Lemma nonempty_fold_right_place {V} (l free : list (SurfaceInterval * V)) :
  nonempty_segments l -> nonempty_segments free ->
  nonempty_segments (fold_right place free l).
Proof.
  intros Hl Hfree. induction Hl as [|t l Ht Hl IH]; cbn [fold_right]; [exact Hfree|].
  now apply nonempty_place.
Qed.

Lemma in_set_remove x y l : In y (set_remove x l) <-> In y l /\ y <> x.
Proof.
  unfold set_remove. rewrite filter_In, negb_true_iff, Z.eqb_neq. tauto.
Qed.

Lemma within_intersect a s i :
  within a (intersect s i) = true <-> within a s = true /\ within a i = true.
Proof.
  unfold intersect. rewrite !within_bounds.
  destruct (is_empty s) eqn:Hs; [|destruct (is_empty i) eqn:Hi]; cbn [orb].
  - unfold is_empty in Hs. apply Z.leb_le in Hs. cbn. lia.
  - unfold is_empty in Hi. apply Z.leb_le in Hi. cbn. lia.
  - cbn. lia.
Qed.

(** The pieces of one segment after [add(i, {id})]. *)
Lemma split_add_pieces i id (s s' : SurfaceInterval * list Z) a :
  In s' (split_add i id s) -> within a (fst s') = true ->
  within a (fst s) = true /\
  snd s' = (if within a i then set_insert id (snd s) else snd s).
Proof.
  unfold split_add. destruct (overlaps (fst s) i) eqn:Hov.
  - apply overlaps_bounds in Hov. rewrite !in_app_iff. intros [Hin|[Hin|Hin]] Hw.
    + destruct (lower (fst s) <? lower i) eqn:Hlt; [|destruct Hin].
      destruct Hin as [<-|[]]. apply within_bounds in Hw. cbn in Hw.
      split; [apply within_bounds; lia|]. cbn [snd].
      replace (within a i) with false; [reflexivity|].
      symmetry. apply within_false. lia.
    + destruct Hin as [<-|[]]. cbn [fst snd] in *. apply within_intersect in Hw.
      destruct Hw as [Hs Hi]. now rewrite Hi.
    + destruct (upper i <? upper (fst s)) eqn:Hlt; [|destruct Hin].
      destruct Hin as [<-|[]]. apply within_bounds in Hw. cbn in Hw.
      split; [apply within_bounds; lia|]. cbn [snd].
      replace (within a i) with false; [reflexivity|].
      symmetry. apply within_false. lia.
  - intros [<-|[]] Hw. split; [exact Hw|].
    replace (within a i) with false; [reflexivity|].
    symmetry. apply within_false. intros Hi. apply within_bounds in Hw.
    assert (Hno : overlaps (fst s) i = true) by (apply overlaps_bounds; lia).
    congruence.
Qed.

Lemma split_add_covers i id (s : SurfaceInterval * list Z) a :
  within a (fst s) = true ->
  exists s', In s' (split_add i id s) /\ within a (fst s') = true.
Proof.
  intros Hw. unfold split_add. destruct (overlaps (fst s) i) eqn:Hov; [|exists s; cbn; auto].
  apply overlaps_bounds in Hov. pose proof Hw as Hb. apply within_bounds in Hb.
  destruct (Z_lt_le_dec a (lower i)) as [Hlow|Hlow].
  - exists ((lower (fst s), lower i), snd s). split.
    + apply in_or_app. left.
      replace (lower (fst s) <? lower i) with true by (symmetry; apply Z.ltb_lt; lia).
      now left.
    + apply within_bounds. cbn. lia.
  - destruct (Z_lt_le_dec a (upper i)) as [Hup|Hup].
    + exists (intersect (fst s) i, set_insert id (snd s)). split.
      * apply in_or_app. right. apply in_or_app. left. now left.
      * apply within_intersect. split; [exact Hw|]. apply within_bounds. lia.
    + exists ((upper i, upper (fst s)), snd s). split.
      * apply in_or_app. right. apply in_or_app. right.
        replace (upper i <? upper (fst s)) with true by (symmetry; apply Z.ltb_lt; lia).
        now left.
      * apply within_bounds. cbn. lia.
Qed.

Lemma nonempty_split_add i id (s : SurfaceInterval * list Z) :
  lower (fst s) < upper (fst s) -> lower i < upper i ->
  nonempty_segments (split_add i id s).
Proof.
  intros Hs Hi. unfold nonempty_segments, split_add.
  destruct (overlaps (fst s) i) eqn:Hov; [|now repeat constructor].
  apply overlaps_bounds in Hov.
  apply Forall_app. split; [|apply Forall_app; split].
  - destruct (lower (fst s) <? lower i) eqn:Hlt; [|constructor].
    apply Z.ltb_lt in Hlt. now repeat constructor.
  - repeat constructor. cbn [fst]. unfold intersect.
    replace (is_empty (fst s)) with false by (symmetry; now apply is_empty_false).
    replace (is_empty i) with false by (symmetry; now apply is_empty_false).
    cbn. lia.
  - destruct (upper i <? upper (fst s)) eqn:Hlt; [|constructor].
    apply Z.ltb_lt in Hlt. now repeat constructor.
Qed.

Lemma nonempty_flat_map {V W} (f : SurfaceInterval * V -> list (SurfaceInterval * W)) m :
  (forall s, In s m -> nonempty_segments (f s)) -> nonempty_segments (flat_map f m).
Proof.
  intros Hf. unfold nonempty_segments. induction m as [|s m IH]; cbn [flat_map]; [constructor|].
  apply Forall_app. split; [apply Hf; now left | apply IH; intros t Ht; apply Hf; now right].
Qed.

(** X15 (the container law behind it): after [add(i, {id})] the map holds
    what it held before and [id] on the bytes of [i], nothing else. *)
Lemma add_holds i id m a y :
  nonempty_segments m -> lower i < upper i ->
  holds (add i id m) a y <-> holds m a y \/ (y = id /\ within a i = true).
Proof.
  intros Hm Hi. unfold add.
  replace (is_empty i) with false by (symmetry; now apply is_empty_false).
  cbv zeta. fold (erase_all m [(i, [id])]).
  assert (Hpieces : nonempty_segments (flat_map (split_add i id) m)).
  { apply nonempty_flat_map. intros s Hs. apply nonempty_split_add; [|exact Hi].
    unfold nonempty_segments in Hm. rewrite Forall_forall in Hm.
    apply Hm. now apply list_elem_of_In. }
  assert (Hfree : nonempty_segments (erase_all m [(i, [id])])).
  { apply nonempty_erase_all. now repeat constructor. }
  rewrite holds_join by (now apply nonempty_fold_right_place).
  unfold holds. split.
  - intros (seg & Hseg & Hw & Hy). apply in_fold_right_place in Hseg.
    destruct Hseg as [Hseg|Hseg].
    + destruct (erase_all_spec m [(i, [id])] seg Hseg) as (s & Hs & Hv & Hl & Hu & _).
      destruct Hs as [<-|[]]. cbn [fst snd] in *. rewrite Hv in Hy.
      destruct Hy as [<-|[]]. right. split; [reflexivity|].
      apply within_bounds. apply within_bounds in Hw. lia.
    + apply in_flat_map in Hseg. destruct Hseg as (s & Hs & Hseg).
      destruct (split_add_pieces i id s seg a Hseg Hw) as [Hws Hv].
      rewrite Hv in Hy. destruct (within a i) eqn:Hai.
      * apply in_set_insert in Hy. destruct Hy as [->|Hy]; [now right|].
        left. exists s. auto.
      * left. exists s. auto.
  - intros [(s & Hs & Hw & Hy)|[-> Hw]].
    + destruct (split_add_covers i id s a Hw) as (s' & Hs' & Hw').
      exists s'. split; [|split; [exact Hw'|]].
      * apply in_fold_right_place. right. apply in_flat_map. exists s. auto.
      * destruct (split_add_pieces i id s s' a Hs' Hw') as [_ ->].
        destruct (within a i); [apply in_set_insert; now right | exact Hy].
    + destruct (existsb (fun s => within a (fst s)) m) eqn:Hex.
      * apply existsb_exists in Hex. destruct Hex as (s & Hs & Hws).
        destruct (split_add_covers i id s a Hws) as (s' & Hs' & Hw').
        exists s'. split; [|split; [exact Hw'|]].
        -- apply in_fold_right_place. right. apply in_flat_map. exists s. auto.
        -- destruct (split_add_pieces i id s s' a Hs' Hw') as [_ ->].
           rewrite Hw. apply in_set_insert. now left.
      * assert (Hc : covered (erase_all m [(i, [id])]) a [id]).
        { apply covered_erase_all; [exists (i, [id]); cbn; auto|].
          intros r Hr. destruct (within a (fst r)) eqn:Hwr; [|reflexivity].
          assert (Hyes : existsb (fun s => within a (fst s)) m = true)
            by (apply existsb_exists; exists r; auto).
          congruence. }
        destruct Hc as (seg & Hseg & Hwseg & Hv). exists seg.
        split; [apply in_fold_right_place; now left|]. split; [exact Hwseg|].
        rewrite Hv. now left.
Qed.

(** The pieces of one segment after [subtract(i, {id})]. *)
Lemma split_subtract_pieces i id (s s' : SurfaceInterval * list Z) a :
  In s' (split_subtract i id s) -> within a (fst s') = true ->
  within a (fst s) = true /\
  snd s' = (if within a i then set_remove id (snd s) else snd s).
Proof.
  unfold split_subtract. destruct (overlaps (fst s) i) eqn:Hov.
  - apply overlaps_bounds in Hov. rewrite !in_app_iff. intros [Hin|[Hin|Hin]] Hw.
    + destruct (lower (fst s) <? lower i) eqn:Hlt; [|destruct Hin].
      destruct Hin as [<-|[]]. apply within_bounds in Hw. cbn in Hw.
      split; [apply within_bounds; lia|]. cbn [snd].
      replace (within a i) with false; [reflexivity|].
      symmetry. apply within_false. lia.
    + destruct (set_remove id (snd s)) as [|v0 v] eqn:Hrem; [destruct Hin|].
      destruct Hin as [<-|[]]. cbn [fst snd] in *. apply within_intersect in Hw.
      destruct Hw as [Hs Hi]. now rewrite Hi.
    + destruct (upper i <? upper (fst s)) eqn:Hlt; [|destruct Hin].
      destruct Hin as [<-|[]]. apply within_bounds in Hw. cbn in Hw.
      split; [apply within_bounds; lia|]. cbn [snd].
      replace (within a i) with false; [reflexivity|].
      symmetry. apply within_false. lia.
  - intros [<-|[]] Hw. split; [exact Hw|].
    replace (within a i) with false; [reflexivity|].
    symmetry. apply within_false. intros Hi. apply within_bounds in Hw.
    assert (Hno : overlaps (fst s) i = true) by (apply overlaps_bounds; lia).
    congruence.
Qed.

Lemma split_subtract_covers i id (s : SurfaceInterval * list Z) a :
  within a (fst s) = true ->
  (within a i = true -> set_remove id (snd s) <> []) ->
  exists s', In s' (split_subtract i id s) /\ within a (fst s') = true.
Proof.
  intros Hw Hleft. unfold split_subtract.
  destruct (overlaps (fst s) i) eqn:Hov; [|exists s; cbn; auto].
  apply overlaps_bounds in Hov. pose proof Hw as Hb. apply within_bounds in Hb.
  destruct (Z_lt_le_dec a (lower i)) as [Hlow|Hlow].
  - exists ((lower (fst s), lower i), snd s). split.
    + apply in_or_app. left.
      replace (lower (fst s) <? lower i) with true by (symmetry; apply Z.ltb_lt; lia).
      now left.
    + apply within_bounds. cbn. lia.
  - destruct (Z_lt_le_dec a (upper i)) as [Hup|Hup].
    + assert (Hai : within a i = true) by (apply within_bounds; lia).
      specialize (Hleft Hai).
      destruct (set_remove id (snd s)) as [|v0 v] eqn:Hrem; [contradiction|].
      exists (intersect (fst s) i, v0 :: v). split.
      * apply in_or_app. right. apply in_or_app. left. now left.
      * apply within_intersect. auto.
    + exists ((upper i, upper (fst s)), snd s). split.
      * apply in_or_app. right. apply in_or_app. right.
        replace (upper i <? upper (fst s)) with true by (symmetry; apply Z.ltb_lt; lia).
        now left.
      * apply within_bounds. cbn. lia.
Qed.

Lemma nonempty_split_subtract i id (s : SurfaceInterval * list Z) :
  lower (fst s) < upper (fst s) -> lower i < upper i ->
  nonempty_segments (split_subtract i id s).
Proof.
  intros Hs Hi. unfold nonempty_segments, split_subtract.
  destruct (overlaps (fst s) i) eqn:Hov; [|now repeat constructor].
  apply overlaps_bounds in Hov.
  apply Forall_app. split; [|apply Forall_app; split].
  - destruct (lower (fst s) <? lower i) eqn:Hlt; [|constructor].
    apply Z.ltb_lt in Hlt. now repeat constructor.
  - destruct (set_remove id (snd s)); [constructor|].
    repeat constructor. cbn [fst]. unfold intersect.
    replace (is_empty (fst s)) with false by (symmetry; now apply is_empty_false).
    replace (is_empty i) with false by (symmetry; now apply is_empty_false).
    cbn. lia.
  - destruct (upper i <? upper (fst s)) eqn:Hlt; [|constructor].
    apply Z.ltb_lt in Hlt. now repeat constructor.
Qed.

(** After [subtract(i, {id})] the map holds what it held before, but for
    [id] on the bytes of [i]. *)
Lemma subtract_holds i id m a y :
  nonempty_segments m ->
  holds (subtract i id m) a y <-> holds m a y /\ ~ (y = id /\ within a i = true).
Proof.
  intros Hm. unfold subtract. destruct (is_empty i) eqn:He.
  - split; [|tauto]. intros Hh. split; [exact Hh|]. intros [_ Hw].
    apply within_bounds in Hw. unfold is_empty in He. apply Z.leb_le in He. lia.
  - apply is_empty_false in He.
    assert (Hpieces : nonempty_segments (flat_map (split_subtract i id) m)).
    { apply nonempty_flat_map. intros s Hs. apply nonempty_split_subtract; [|exact He].
      unfold nonempty_segments in Hm. rewrite Forall_forall in Hm.
      apply Hm. now apply list_elem_of_In. }
    rewrite holds_join by exact Hpieces. unfold holds. split.
    + intros (seg & Hseg & Hw & Hy). apply in_flat_map in Hseg.
      destruct Hseg as (s & Hs & Hseg).
      destruct (split_subtract_pieces i id s seg a Hseg Hw) as [Hws Hv].
      rewrite Hv in Hy. destruct (within a i) eqn:Hai.
      * apply in_set_remove in Hy. destruct Hy as [Hy Hne].
        split; [exists s; auto | intros [-> _]; contradiction].
      * split; [exists s; auto | intros [_ [=]]].
    + intros [(s & Hs & Hw & Hy) Hnot].
      destruct (split_subtract_covers i id s a Hw) as (s' & Hs' & Hw').
      { intros Hai Hempty.
        assert (Hin : In y (set_remove id (snd s))).
        { apply in_set_remove. split; [exact Hy|]. intros ->. apply Hnot. auto. }
        rewrite Hempty in Hin. destruct Hin. }
      exists s'. split; [apply in_flat_map; exists s; auto|]. split; [exact Hw'|].
      destruct (split_subtract_pieces i id s s' a Hs' Hw') as [_ ->].
      destruct (within a i) eqn:Hai; [|exact Hy].
      apply in_set_remove. split; [exact Hy|]. intros ->. apply Hnot. auto.
Qed.

Lemma nonempty_add i id m :
  nonempty_segments m -> nonempty_segments (add i id m).
Proof.
  intros Hm. unfold add. destruct (is_empty i) eqn:He; [exact Hm|].
  apply is_empty_false in He. cbv zeta. fold (erase_all m [(i, [id])]).
  apply nonempty_join, nonempty_fold_right_place.
  - apply nonempty_erase_all. now repeat constructor.
  - apply nonempty_flat_map. intros s Hs. apply nonempty_split_add; [|exact He].
    unfold nonempty_segments in Hm. rewrite Forall_forall in Hm.
    apply Hm. now apply list_elem_of_In.
Qed.

Lemma nonempty_subtract i id m :
  nonempty_segments m -> nonempty_segments (subtract i id m).
Proof.
  intros Hm. unfold subtract. destruct (is_empty i) eqn:He; [exact Hm|].
  apply is_empty_false in He.
  apply nonempty_join, nonempty_flat_map. intros s Hs.
  apply nonempty_split_subtract; [|exact He].
  unfold nonempty_segments in Hm. rewrite Forall_forall in Hm.
  apply Hm. now apply list_elem_of_In.
Qed.

End CacheMap.

(** ** Registration *)

Section Registration.

Import ICL.


Lemma UpdatePagesCachedCount_increment addr size r :
  0 <= addr -> 0 < size -> addr + size < 2 ^ 32 ->
  (forall p, in_pages addr size p ->
             exists count, cached_pages r !! Z.to_nat p = Some count /\ 0 <= count < 65535) ->
  exists r',
    UpdatePagesCachedCount addr size 1 r = Some r' /\
    forall q : nat, cached_pages r' !! q = shifted 1 r addr size q.
Proof.
  intros Haddr Hsize Hfit Hcounts. unfold UpdatePagesCachedCount.
  unfold in_pages, page_start, page_end in Hcounts. unfold shifted, in_pages, page_start, page_end.
  rewrite (u32_small (addr + size - 1)) by lia.
  rewrite !shiftr_page in * by lia.
  assert (Hle : addr / 4096 <= (addr + size - 1) / 4096) by (apply Z.div_le_mono; lia).
  assert (Hhi : (addr + size - 1) / 4096 < 2 ^ 20) by (apply Z.div_lt_upper_bound; lia).
  assert (Hlo : 0 <= addr / 4096) by (apply Z.div_pos; lia).
  rewrite (u32_small ((addr + size - 1) / 4096 + 1)) by lia.
  rewrite (u32_small ((addr + size - 1) / 4096 + 1 - addr / 4096)) by lia.
  set (n := Z.to_nat ((addr + size - 1) / 4096 + 1 - addr / 4096)).
  assert (Hn : addr / 4096 + Z.of_nat n = (addr + size - 1) / 4096 + 1) by lia.
  destruct (update_pages_up n (addr / 4096) (mkRuns 0 0 0 0) r Hlo ltac:(lia) eq_refl)
    as (l' & r' & Hrun & _ & Hq & _).
  { intros p Hp. apply Hcounts. lia. }
  rewrite Hrun. eexists. split; [reflexivity|].
  intros q. rewrite <- Hn.
  assert (Hpages : forall rr c, cached_pages (emit c rr) = cached_pages rr) by reflexivity.
  destruct (0 <? uncache_bytes l'), (0 <? cache_bytes l'); rewrite ?Hpages; apply Hq.
Qed.

Lemma shifted_length delta r addr size (pages : list Z) :
  (forall q : nat, pages !! q = shifted delta r addr size q) ->
  length pages = length (cached_pages r).
Proof.
  intros Hq.
  assert (Hiff : forall q : nat, is_Some (pages !! q) <-> is_Some (cached_pages r !! q)).
  { intros q. rewrite Hq. unfold shifted. case_bool_decide; [|reflexivity].
    now rewrite fmap_is_Some. }
  apply Nat.le_antisymm.
  - destruct (le_lt_dec (length pages) (length (cached_pages r))) as [Hle|Hgt]; [exact Hle|].
    exfalso. destruct (proj1 (Hiff (length (cached_pages r)))) as [x Hx].
    + now apply lookup_lt_is_Some_2.
    + apply lookup_lt_Some in Hx. lia.
  - destruct (le_lt_dec (length (cached_pages r)) (length pages)) as [Hle|Hgt]; [exact Hle|].
    exfalso. destruct (proj2 (Hiff (length pages))) as [x Hx].
    + now apply lookup_lt_is_Some_2.
    + apply lookup_lt_Some in Hx. lia.
Qed.

Lemma holders_register (objects : gmap Z SurfaceObject) id s page :
  objects !! id = Some s -> registered s = false ->
  holders (<[id := set_registered true s]> objects) page
  = ((if decide (on_page page (id, set_registered true s)) then 1 else 0)
     + holders objects page)%nat.
Proof.
  intros Hobj Hreg.
  rewrite (holders_unregister (<[id := set_registered true s]> objects) id
                              (set_registered true s) page)
    by apply lookup_insert_eq.
  rewrite insert_insert_eq.
  replace (set_registered false (set_registered true s)) with s
    by (destruct s; cbn in Hreg; subst; reflexivity).
  now rewrite (insert_id objects id s Hobj).
Qed.

Lemma register_effect id s c :
  heap c !! id = Some s -> registered s = false -> pages_ready c ->
  nonempty_segments (surface_cache c) ->
  end_page s <= Z.of_nat (length (cached_pages (rasterizer c))) ->
  (forall (page : nat) count,
      first_page s <= Z.of_nat page < end_page s ->
      cached_pages (rasterizer c) !! page = Some count -> count < 65535) ->
  exists c',
    RegisterSurface id c = Some c' /\
    heap c' = <[id := set_registered true s]> (heap c) /\
    (forall x y, holds (surface_cache c') x y <->
                 holds (surface_cache c) x y \/
                 (y = id /\ within x (GetInterval (params s)) = true)) /\
    (forall q : nat, cached_pages (rasterizer c') !! q
                     = shifted 1 (rasterizer c) (addr (params s)) (size (params s)) q) /\
    pages_ready c' /\ nonempty_segments (surface_cache c') /\
    dirty_regions c' = dirty_regions c /\ remove_surfaces c' = remove_surfaces c /\
    backend_calls c' = backend_calls c.
Proof.
  intros Hobj Hreg (Hsurf & Hpages & Htable) Hne Hend Hroom.
  destruct (Hsurf id s Hobj) as (Haddr & Hsize & Hfit & Hends & Hfill).
  unfold RegisterSurface. rewrite Hobj, Hreg.
  unfold with_rasterizer, update_surface. rewrite Hobj.
  cbn [rasterizer set_heap set_surface_cache].
  assert (Hp0 : forall p, in_pages (addr (params s)) (size (params s)) p -> 0 <= p).
  { intros p [Hp _]. unfold page_start in Hp. rewrite shiftr_page in Hp by lia.
    pose proof (Z.div_pos (addr (params s)) 4096 Haddr ltac:(lia)). lia. }
  destruct (UpdatePagesCachedCount_increment (addr (params s)) (size (params s))
              (rasterizer c) Haddr Hsize Hfit) as (r' & Hupd & Hq).
  { intros p Hp. pose proof (Hp0 p Hp) as Hp_pos.
    destruct (cached_pages (rasterizer c) !! Z.to_nat p) as [count|] eqn:Hlook.
    2:{ apply lookup_ge_None in Hlook. unfold in_pages, page_end in Hp.
        unfold end_page in Hend. lia. }
    exists count. split; [reflexivity|].
    pose proof (Hpages (Z.to_nat p) count Hlook) as Hcount.
    assert (count < 65535).
    { apply (Hroom (Z.to_nat p)); [|exact Hlook]. rewrite Z2Nat.id by lia. exact Hp. }
    lia. }
  rewrite Hupd. eexists. split; [reflexivity|].
  cbn [heap surface_cache rasterizer dirty_regions remove_surfaces backend_calls
       set_surface_cache set_rasterizer set_heap].
  assert (Hi : lower (GetInterval (params s)) < upper (GetInterval (params s)))
    by (cbn; lia).
  split; [reflexivity|]. split; [intros x y; now apply add_holds|]. split; [exact Hq|].
  split; [|split; [now apply nonempty_add | repeat split]].
  unfold pages_ready.
  cbn [heap rasterizer set_surface_cache set_rasterizer set_heap].
  split; [|split].
  - intros i t. rewrite lookup_insert. case_decide as Hid.
    + intros [= <-]. exact (Hsurf id s Hobj).
    + apply Hsurf.
  - intros page count Hlook. rewrite Hq in Hlook. unfold shifted in Hlook.
    rewrite (holders_register (heap c) id s (Z.of_nat page) Hobj Hreg).
    case_bool_decide as Hin.
    + destruct (cached_pages (rasterizer c) !! page) as [old|] eqn:Hold; [|discriminate].
      injection Hlook as <-. pose proof (Hpages page old Hold) as Hb.
      pose proof (Hroom page old Hin Hold).
      destruct (decide (on_page (Z.of_nat page) (id, set_registered true s))); lia.
    + pose proof (Hpages page count Hlook) as Hb.
      destruct (decide (on_page (Z.of_nat page) (id, set_registered true s)))
        as [[_ Hon]|_]; [|lia].
      destruct Hin. exact Hon.
  - rewrite (shifted_length 1 (rasterizer c) _ _ _ Hq).
    intros i t. rewrite lookup_insert. case_decide as Hid.
    + intros [= <-] _. exact Hend.
    + apply Htable.
Qed.

Lemma unregister_effect id s c :
  heap c !! id = Some s -> registered s = true -> pages_ready c ->
  nonempty_segments (surface_cache c) ->
  exists c',
    UnregisterSurface id c = Some c' /\
    heap c' = <[id := set_registered false s]> (heap c) /\
    (forall x y, holds (surface_cache c') x y <->
                 holds (surface_cache c) x y /\
                 ~ (y = id /\ within x (GetInterval (params s)) = true)) /\
    (forall q : nat, cached_pages (rasterizer c') !! q
                     = shifted (-1) (rasterizer c) (addr (params s)) (size (params s)) q) /\
    pages_ready c' /\ nonempty_segments (surface_cache c') /\
    dirty_regions c' = dirty_regions c /\ remove_surfaces c' = remove_surfaces c /\
    backend_calls c' = backend_calls c.
Proof.
  intros Hobj Hreg Hready Hne.
  destruct (UnregisterSurface_ready id s c Hobj Hready)
    as (c' & Hun & Hready' & Hheap' & Hdirty' & Hrem' & Hlog').
  exists c'. split; [exact Hun|]. split; [exact Hheap'|].
  destruct Hready as (Hsurf & Hpages & Htable).
  destruct (Hsurf id s Hobj) as (Haddr & Hsize & Hfit & _).
  unfold UnregisterSurface in Hun. rewrite Hobj, Hreg in Hun. cbn [negb] in Hun.
  unfold with_rasterizer, update_surface in Hun. rewrite Hobj in Hun.
  cbn [rasterizer set_heap] in Hun.
  destruct (UpdatePagesCachedCount _ _ (-1) (rasterizer c)) as [r'|] eqn:Hupd; [|discriminate].
  injection Hun as <-.
  cbn [surface_cache rasterizer set_surface_cache set_rasterizer set_heap].
  split; [intros x y; now apply subtract_holds|].
  split; [|split; [exact Hready' | split; [now apply nonempty_subtract | auto]]].
  destruct (UpdatePagesCachedCount_decrement (addr (params s)) (size (params s))
              (rasterizer c) Haddr Hsize ltac:(lia)) as (r2 & Hupd2 & Hq).
  { intros p Hp.
    assert (Hp0 : 0 <= p).
    { destruct Hp as [Hp _]. rewrite shiftr_page in Hp by lia.
      pose proof (Z.div_pos (addr (params s)) 4096 Haddr ltac:(lia)). lia. }
    pose proof (Htable id s Hobj Hreg) as Hend_page. unfold end_page in Hend_page.
    destruct (cached_pages (rasterizer c) !! Z.to_nat p) as [count|] eqn:Hlook.
    2:{ apply lookup_ge_None in Hlook. lia. }
    exists count. split; [reflexivity|].
    pose proof (Hpages (Z.to_nat p) count Hlook) as Hcount.
    rewrite Z2Nat.id in Hcount by exact Hp0.
    rewrite (holders_unregister (heap c) id s p Hobj) in Hcount.
    destruct (decide (on_page p (id, s))) as [_|Hno]; [lia|].
    destruct Hno. split; [exact Hreg|]. unfold first_page, end_page. cbn. exact Hp. }
  rewrite Hupd in Hupd2. injection Hupd2 as <-.
  intros q. rewrite Hq. unfold shifted, in_pages, page_start, page_end.
  case_bool_decide; reflexivity.
Qed.

(** X15: registering an unregistered, well-formed surface whose pages are
    in the table with counters below 65535 succeeds: the surface is marked
    registered; the cache map then holds it on every byte of its interval
    and otherwise what it held before; the counter of each of its pages goes
    up by one; the page-count invariant ([pages_ready]) is kept; the dirty
    map, the staging set and the backend are not touched. *)
Theorem RegisterSurface_registers id s c :
  heap c !! id = Some s -> registered s = false -> pages_ready c ->
  nonempty_segments (surface_cache c) ->
  end_page s <= Z.of_nat (length (cached_pages (rasterizer c))) ->
  (forall (page : nat) count,
      first_page s <= Z.of_nat page < end_page s ->
      cached_pages (rasterizer c) !! page = Some count -> count < 65535) ->
  exists c',
    RegisterSurface id c = Some c' /\
    heap c' = <[id := set_registered true s]> (heap c) /\
    (forall x y, holds (surface_cache c') x y <->
                 holds (surface_cache c) x y \/
                 (y = id /\ within x (GetInterval (params s)) = true)) /\
    (forall q : nat, cached_pages (rasterizer c') !! q
                     = shifted 1 (rasterizer c) (addr (params s)) (size (params s)) q) /\
    pages_ready c' /\ nonempty_segments (surface_cache c') /\
    dirty_regions c' = dirty_regions c /\ remove_surfaces c' = remove_surfaces c /\
    backend_calls c' = backend_calls c.
Proof. apply register_effect. Qed.

(** X16: unregistering a registered surface on a state whose page counters
    account for the registered surfaces succeeds: the surface is marked
    unregistered; the cache map no longer holds it on any byte of its
    interval and holds every other surface where it did; the counter of each
    of its pages goes down by one; the page-count invariant is kept; the
    dirty map, the staging set and the backend are not touched. *)
Theorem UnregisterSurface_unregisters id s c :
  heap c !! id = Some s -> registered s = true -> pages_ready c ->
  nonempty_segments (surface_cache c) ->
  exists c',
    UnregisterSurface id c = Some c' /\
    heap c' = <[id := set_registered false s]> (heap c) /\
    (forall x y, holds (surface_cache c') x y <->
                 holds (surface_cache c) x y /\
                 ~ (y = id /\ within x (GetInterval (params s)) = true)) /\
    (forall q : nat, cached_pages (rasterizer c') !! q
                     = shifted (-1) (rasterizer c) (addr (params s)) (size (params s)) q) /\
    pages_ready c' /\ nonempty_segments (surface_cache c') /\
    dirty_regions c' = dirty_regions c /\ remove_surfaces c' = remove_surfaces c /\
    backend_calls c' = backend_calls c.
Proof. apply unregister_effect. Qed.

(** X17: registering a surface that the cache map does not hold and
    unregistering it again restores the surface objects, the page counters
    and the contents of the cache map. *)
Theorem register_unregister_round_trip id s c :
  heap c !! id = Some s -> registered s = false -> pages_ready c ->
  nonempty_segments (surface_cache c) ->
  end_page s <= Z.of_nat (length (cached_pages (rasterizer c))) ->
  (forall (page : nat) count,
      first_page s <= Z.of_nat page < end_page s ->
      cached_pages (rasterizer c) !! page = Some count -> count < 65535) ->
  (forall x, ~ holds (surface_cache c) x id) ->
  exists c1 c2,
    RegisterSurface id c = Some c1 /\ UnregisterSurface id c1 = Some c2 /\
    heap c2 = heap c /\
    cached_pages (rasterizer c2) = cached_pages (rasterizer c) /\
    (forall x y, holds (surface_cache c2) x y <-> holds (surface_cache c) x y) /\
    dirty_regions c2 = dirty_regions c.
Proof.
  intros Hobj Hreg Hready Hne Hend Hroom Hfresh.
  destruct (register_effect id s c Hobj Hreg Hready Hne Hend Hroom)
    as (c1 & Hr & Hheap1 & Hholds1 & Hq1 & Hready1 & Hne1 & Hd1 & _).
  destruct (unregister_effect id (set_registered true s) c1) as
    (c2 & Hu & Hheap2 & Hholds2 & Hq2 & _ & _ & Hd2 & _); try assumption.
  { rewrite Hheap1. apply lookup_insert_eq. }
  { reflexivity. }
  exists c1, c2. split; [exact Hr|]. split; [exact Hu|]. split; [|split; [|split]].
  - rewrite Hheap2, Hheap1, insert_insert_eq.
    replace (set_registered false (set_registered true s)) with s
      by (destruct s; cbn in Hreg; subst; reflexivity).
    now apply insert_id.
  - apply list_eq. intros q. rewrite Hq2. unfold shifted. rewrite Hq1. unfold shifted.
    cbn [params set_registered]. case_bool_decide; [|reflexivity].
    destruct (cached_pages (rasterizer c) !! q) as [count|]; [|reflexivity].
    cbn. f_equal. lia.
  - intros x y. rewrite Hholds2, Hholds1. cbn [params set_registered]. split.
    + intros [[Hh|Hnew] Hnot]; [exact Hh | contradiction].
    + intros Hh. split; [now left|]. intros [-> _]. now apply (Hfresh x).
  - congruence.
Qed.

End Registration.

Ltac check_pages c :=
  let Hall := fresh "Hall" in
  let page := fresh "page" in
  let count := fresh "count" in
  let Hpage := fresh "Hpage" in
  intros page count Hpage;
  assert (Hall : Forall (fun entry : nat * Z =>
                           Z.of_nat (holders (heap c) (Z.of_nat (fst entry)))
                           <= snd entry <= 65535)
                        (imap pair (cached_pages (rasterizer c))));
  [eapply (bool_decide_unpack _); vm_compute; exact I|];
  apply (Forall_lookup_1 _ _ page (page, count)) in Hall; [exact Hall|];
  rewrite list_lookup_imap, Hpage; reflexivity.

Lemma RegisterSurface_registers_witness :
  exists c',
    RegisterSurface 1 fresh_cache = Some c' /\
    heap c' = <[1 := set_registered true fresh_surface]> (heap fresh_cache) /\
    (forall x y, holds (surface_cache c') x y <->
                 holds (surface_cache fresh_cache) x y \/
                 (y = 1 /\ ICL.within x (GetInterval (params fresh_surface)) = true)) /\
    (forall q : nat, cached_pages (rasterizer c') !! q
                     = shifted 1 (rasterizer fresh_cache) (addr (params fresh_surface))
                               (size (params fresh_surface)) q) /\
    pages_ready c' /\ ICL.nonempty_segments (surface_cache c') /\
    dirty_regions c' = dirty_regions fresh_cache /\
    remove_surfaces c' = remove_surfaces fresh_cache /\
    backend_calls c' = backend_calls fresh_cache.
Proof.
  apply (RegisterSurface_registers 1 fresh_surface
                                    fresh_cache).
  - reflexivity.
  - reflexivity.
  - split; [|split].
    + intros id s Hs. change (heap fresh_cache) with ({[ 1 := fresh_surface ]} : gmap Z SurfaceObject) in Hs.
      apply lookup_singleton_Some in Hs. destruct Hs as [_ <-].
      unfold surface_ok. cbn. repeat split; try lia. discriminate.
    + check_pages fresh_cache.
    + intros id s Hs. change (heap fresh_cache) with ({[ 1 := fresh_surface ]} : gmap Z SurfaceObject) in Hs.
      apply lookup_singleton_Some in Hs. destruct Hs as [_ <-]. discriminate.
  - constructor.
  - vm_compute. discriminate.
  - intros page count _ Hpage.
    do 8 (destruct page as [|page]; [cbn in Hpage; injection Hpage as <-; lia|]).
    discriminate.
Defined.

Lemma UnregisterSurface_unregisters_witness :
  let s := set_registered true (rgba8_surface 2097152 65536 128 128 1 []) in
  exists c',
    UnregisterSurface 1 small_write_cache
    = Some c' /\
    heap c' = <[1 := set_registered false s]> (heap small_write_cache) /\
    (forall x y, holds (surface_cache c') x y <->
                 holds (surface_cache small_write_cache) x y /\
                 ~ (y = 1 /\ ICL.within x (GetInterval (params s)) = true)) /\
    (forall q : nat, cached_pages (rasterizer c') !! q
                     = shifted (-1) (rasterizer small_write_cache) (addr (params s))
                               (size (params s)) q) /\
    pages_ready c' /\ ICL.nonempty_segments (surface_cache c') /\
    dirty_regions c' = dirty_regions small_write_cache /\
    remove_surfaces c' = remove_surfaces small_write_cache /\
    backend_calls c' = backend_calls small_write_cache.
Proof.
  intros s.
  assert (Hheap : heap small_write_cache = {[ 1 := s ]}) by (vm_compute; reflexivity).
  apply (UnregisterSurface_unregisters 1 s
                                        small_write_cache).
  - rewrite Hheap. apply lookup_singleton_eq.
  - reflexivity.
  - split; [|split].
    + intros id t. rewrite Hheap. intros Ht. apply lookup_singleton_Some in Ht.
      destruct Ht as [_ <-]. unfold surface_ok. cbn. repeat split; try lia. discriminate.
    + check_pages small_write_cache.
    + intros id t. rewrite Hheap. intros Ht _. apply lookup_singleton_Some in Ht.
      destruct Ht as [_ <-]. vm_compute. discriminate.
  - vm_compute. repeat constructor.
Defined.

Lemma register_unregister_round_trip_witness :
  exists c1 c2,
    RegisterSurface 1 fresh_cache = Some c1 /\
    UnregisterSurface 1 c1 = Some c2 /\
    heap c2 = heap fresh_cache /\
    cached_pages (rasterizer c2) = cached_pages (rasterizer fresh_cache) /\
    (forall x y, holds (surface_cache c2) x y <-> holds (surface_cache fresh_cache) x y) /\
    dirty_regions c2 = dirty_regions fresh_cache.
Proof.
  apply (register_unregister_round_trip 1 fresh_surface
                                         fresh_cache).
  - reflexivity.
  - reflexivity.
  - split; [|split].
    + intros id s Hs. change (heap fresh_cache) with ({[ 1 := fresh_surface ]} : gmap Z SurfaceObject) in Hs.
      apply lookup_singleton_Some in Hs. destruct Hs as [_ <-].
      unfold surface_ok. cbn. repeat split; try lia. discriminate.
    + check_pages fresh_cache.
    + intros id s Hs. change (heap fresh_cache) with ({[ 1 := fresh_surface ]} : gmap Z SurfaceObject) in Hs.
      apply lookup_singleton_Some in Hs. destruct Hs as [_ <-]. discriminate.
  - constructor.
  - vm_compute. discriminate.
  - intros page count _ Hpage.
    do 8 (destruct page as [|page]; [cbn in Hpage; injection Hpage as <-; lia|]).
    discriminate.
  - intros x (seg & [] & _).
Defined.

(** ** FlushRegion over a region *)

Section RegionFlush.

Import ICL.

Context `{SurfaceOps} `{Backend}.

Lemma flushes_all v : flushes None v = true.
Proof. unfold flushes. now rewrite bool_decide_eq_false_2 by (intros Hn; now apply Hn). Qed.

Lemma flush_effect addr size c :
  0 <= addr -> 0 < size -> addr + size < 2 ^ 32 ->
  (forall id s, heap c !! id = Some s -> surface_ok s) ->
  Forall (dirty_ok (heap c)) (dirty_regions c) ->
  nonempty_segments (dirty_regions c) ->
  exists c',
    FlushRegion addr size None c = Some c' /\
    heap c' = heap c /\ surface_cache c' = surface_cache c /\
    remove_surfaces c' = remove_surfaces c /\ rasterizer c' = rasterizer c /\
    download_queue c' = [] /\
    (forall e, In e (backend_calls c) -> In e (backend_calls c')) /\
    pieces_of (dirty_regions c') (dirty_regions c) /\
    (forall x v, within x (addr, addr + size) = true -> ~ covered (dirty_regions c') x v) /\
    (8 < size -> forall x v, covered (dirty_regions c) x v ->
                             within x (addr, addr + size) = false ->
                             covered (dirty_regions c') x v) /\
    (size <= 8 -> forall pair x v, In pair (dirty_regions c) ->
                                   overlaps (fst pair) (addr, addr + size) = true ->
                                   within x (fst pair) = true ->
                                   ~ covered (dirty_regions c') x v) /\
    (forall x v S, covered (dirty_regions c) x v -> within x (addr, addr + size) = true ->
                   heap c !! v = Some S -> type (params S) <> SurfaceType.Fill ->
                   exists j, In (SurfaceDownload v j) (backend_calls c') /\ within x j = true).
Proof.
  intros Haddr Hsize Hfit Hsurf Hdirty Hne.
  set (fi := (addr, addr + size)).
  assert (Hfne : lower fi < upper fi) by (cbn; lia).
  rewrite Forall_forall in Hdirty. unfold nonempty_segments in Hne.
  rewrite Forall_forall in Hne.
  assert (Hdirty' : forall s, In s (dirty_regions c) -> dirty_ok (heap c) s)
    by (intros s Hs; apply Hdirty; now apply list_elem_of_In).
  assert (Hne' : forall s, In s (dirty_regions c) -> lower (fst s) < upper (fst s))
    by (intros s Hs; apply Hne; now apply list_elem_of_In).
  destruct (fold_flush_ok size fi None (equal_range fi (dirty_regions c)) c [])
    as (c1 & F & Hfold & Hcat & Hlog & Hdl & Hrev); [|exact Hsurf|exact Hfne|].
  { intros pair Hin. apply in_equal_range in Hin. destruct Hin as [Hin Hov]. auto. }
  destruct (fold_flush_spec _ _ _ _ _ _ _ _ Hfold ltac:(constructor))
    as (_ & _ & _ & Hcov).
  destruct (run_downloads_catalog c1) as (Hh2 & Hsc2 & Hd2 & Hr2 & Hra2).
  destruct Hcat as (Hh1 & Hsc1 & Hd1 & Hr1 & Hra1).
  (* a dirty byte of the region is flushed *)
  assert (Hmine : forall s x, In s (dirty_regions c) -> within x (fst s) = true ->
                    within x fi = true ->
                    In s (equal_range fi (dirty_regions c)) /\
                    within x (flushed_interval size fi s) = true).
  { intros s x Hs Hw Hx. pose proof (Hne' s Hs) as Hsne.
    assert (Hov : overlaps (fst s) fi = true).
    { apply within_bounds in Hw, Hx. apply overlaps_bounds. lia. }
    split; [apply in_equal_range; auto|].
    now apply (flushed_interval_sub _ fi s Hsne Hfne Hov). }
  exists (set_dirty_regions (erase_all F (dirty_regions (run_downloads c1)))
                            (run_downloads c1)).
  split.
  { unfold FlushRegion. replace (size =? 0) with false by (symmetry; apply Z.eqb_neq; lia).
    rewrite (u32_small (addr + size)) by lia. cbv zeta. fold fi.
    match goal with
    | |- match ?loop with _ => _ end = _ =>
      replace loop with (Some (c1, F)) by (symmetry; exact Hfold)
    end.
    reflexivity. }
  cbn [heap surface_cache remove_surfaces rasterizer backend_calls dirty_regions
       download_queue set_dirty_regions].
  rewrite Hd2, Hd1.
  split; [congruence|]. split; [congruence|]. split; [congruence|]. split; [congruence|].
  split; [apply run_downloads_queue|].
  split; [intros e He; apply run_downloads_log; auto|].
  split.
  { intros s' Hs'. destruct (erase_all_spec F _ s' Hs') as (s & Hs & Hv & Hl & Hu & Hn & _).
    exists s. repeat split; auto. }
  split.
  { intros x v Hx Hc. apply covered_erase_all_rev in Hc.
    destruct Hc as [(s & Hs & Hw & Hv) Hout].
    destruct (Hmine s x Hs Hw Hx) as (Hin & Hwf).
    destruct (Hcov s x Hin (flushes_all _) Hwf) as (r & Hr & Hwr & _).
    rewrite (Hout r Hr) in Hwr. discriminate. }
  split.
  { intros Hlarge x v Hc Hx. apply covered_erase_all; [exact Hc|].
    intros r Hr. destruct (within x (fst r)) eqn:Hwr; [exfalso | reflexivity].
    assert (HF : covered F x tt) by (exists r; repeat split; auto; now destruct (snd r)).
    destruct (Hrev x HF) as [(? & [] & _)|(pair & Hin & _ & Hw)].
    unfold flushed_interval in Hw.
    replace (size <=? 8) with false in Hw by (symmetry; apply Z.leb_gt; lia).
    apply within_intersect in Hw. destruct Hw as [_ Hw]. congruence. }
  split.
  { intros Hsmall pair x v Hpair Hov Hw Hc. apply covered_erase_all_rev in Hc.
    destruct Hc as [_ Hout].
    assert (Hin : In pair (equal_range fi (dirty_regions c)))
      by (apply in_equal_range; auto).
    assert (Hwf : within x (flushed_interval size fi pair) = true).
    { unfold flushed_interval.
      replace (size <=? 8) with true by (symmetry; apply Z.leb_le; lia). exact Hw. }
    destruct (Hcov pair x Hin (flushes_all _) Hwf) as (r & Hr & Hwr & _).
    rewrite (Hout r Hr) in Hwr. discriminate. }
  intros x v S (s & Hs & Hw & Hv) Hx HS Hty.
  destruct (Hmine s x Hs Hw Hx) as (Hin & Hwf).
  exists (flushed_interval size fi s). split; [|exact Hwf].
  apply run_downloads_log. rewrite <- Hv.
  apply (Hdl s Hin (flushes_all _) S); [now rewrite Hv | exact Hty].
Qed.

(** X18: [FlushRegion] without a flush surface, on a cache whose dirty
    segments obey the dirty-owner invariant: the call returns, touching only
    the dirty map, guest memory and the backend; the download queue is empty
    afterwards; no byte of the region is dirty any more and the dirty map
    only shrinks; a flush of more than 8 bytes leaves every dirty byte
    outside the region dirty, a flush of at most 8 bytes cleans the whole of
    every dirty segment it meets; each dirty byte of the region that a
    surface other than a fill surface owned lies in a logged download of that
    surface. *)
Theorem FlushRegion_cleans_region addr size c :
  0 <= addr -> 0 < size -> addr + size < 2 ^ 32 ->
  (forall id s, heap c !! id = Some s -> surface_ok s) ->
  Forall (dirty_ok (heap c)) (dirty_regions c) ->
  nonempty_segments (dirty_regions c) ->
  exists c',
    FlushRegion addr size None c = Some c' /\
    heap c' = heap c /\ surface_cache c' = surface_cache c /\
    remove_surfaces c' = remove_surfaces c /\ rasterizer c' = rasterizer c /\
    download_queue c' = [] /\
    (forall e, In e (backend_calls c) -> In e (backend_calls c')) /\
    pieces_of (dirty_regions c') (dirty_regions c) /\
    (forall x v, within x (addr, addr + size) = true -> ~ covered (dirty_regions c') x v) /\
    (8 < size -> forall x v, covered (dirty_regions c) x v ->
                             within x (addr, addr + size) = false ->
                             covered (dirty_regions c') x v) /\
    (size <= 8 -> forall pair x v, In pair (dirty_regions c) ->
                                   overlaps (fst pair) (addr, addr + size) = true ->
                                   within x (fst pair) = true ->
                                   ~ covered (dirty_regions c') x v) /\
    (forall x v S, covered (dirty_regions c) x v -> within x (addr, addr + size) = true ->
                   heap c !! v = Some S -> type (params S) <> SurfaceType.Fill ->
                   exists j, In (SurfaceDownload v j) (backend_calls c') /\ within x j = true).
Proof. apply flush_effect. Qed.

(** X19: [FlushAll] on such a cache returns and leaves the dirty map and
    the download queue empty; each byte that was dirty for a surface other
    than a fill surface lies in a logged download of that surface. *)
Theorem FlushAll_cleans c :
  (forall id s, heap c !! id = Some s -> surface_ok s) ->
  Forall (dirty_ok (heap c)) (dirty_regions c) ->
  nonempty_segments (dirty_regions c) ->
  exists c',
    FlushAll c = Some c' /\ dirty_regions c' = [] /\ download_queue c' = [] /\
    heap c' = heap c /\ surface_cache c' = surface_cache c /\
    (forall x v S, covered (dirty_regions c) x v ->
                   heap c !! v = Some S -> type (params S) <> SurfaceType.Fill ->
                   exists j, In (SurfaceDownload v j) (backend_calls c') /\ within x j = true).
Proof.
  intros Hsurf Hdirty Hne.
  destruct (flush_effect 0 4294967295 c ltac:(lia) ltac:(lia) ltac:(lia) Hsurf Hdirty Hne)
    as (c' & Hflush & Hheap & Hsc & _ & _ & Hqueue & _ & Hpieces & Hclean & _ & _ & Hdl).
  assert (Hregion : forall x v, covered (dirty_regions c) x v ->
                                within x (0, 0 + 4294967295) = true).
  { intros x v (s & Hs & Hw & Hv). rewrite Forall_forall in Hdirty.
    destruct (Hdirty s ltac:(now apply list_elem_of_In)) as (S & HS & Hlo & Hhi & _).
    destruct (Hsurf _ _ HS) as (Ha & Hsz & Hfit & Hend & _).
    apply within_bounds in Hw. apply within_bounds. cbn. lia. }
  exists c'. split; [exact Hflush|]. split; [|split; [exact Hqueue|split; [exact Hheap|split]]].
  - destruct (dirty_regions c') as [|s' rest] eqn:Hd; [reflexivity|]. exfalso.
    destruct (Hpieces s' ltac:(now left)) as (s & Hs & Hv & Hl & Hu & Hn).
    apply (Hclean (lower (fst s')) (snd s')).
    + apply (Hregion (lower (fst s')) (snd s)). exists s. split; [exact Hs|].
      split; [apply within_bounds; lia | reflexivity].
    + exists s'. split; [now left|]. split; [apply within_bounds; lia | reflexivity].
  - exact Hsc.
  - intros x v S Hc HS Hty. apply (Hdl x v S Hc (Hregion x v Hc) HS Hty).
Qed.

End RegionFlush.

(** ** InvalidateRegion: writes that mark surfaces invalid *)

Section InvalidationFrame.

Import ICL.

Context `{SurfaceOps} `{Backend}.

Lemma holders_update (objects : gmap Z SurfaceObject) id s s' page :
  objects !! id = Some s -> params s' = params s -> registered s' = registered s ->
  holders (<[id := s']> objects) page = holders objects page.
Proof.
  intros Hobj Hp Hr. unfold holders.
  rewrite <- (map_to_list_delete objects id s Hobj).
  rewrite <- (insert_delete_eq objects id s').
  rewrite (map_to_list_insert (delete id objects) id s') by apply lookup_delete_eq.
  rewrite !filter_cons.
  assert (Hiff : on_page page (id, s') <-> on_page page (id, s)).
  { unfold on_page, first_page, end_page. cbn [snd]. now rewrite Hp, Hr. }
  destruct (decide (on_page page (id, s'))), (decide (on_page page (id, s)));
    tauto || reflexivity.
Qed.

(** A write through a surface pointer that leaves the parameters, the
    registration and the fill pattern keeps the page-count invariant. *)
Lemma pages_ready_update id f c :
  (forall s, params (f s) = params s /\ registered (f s) = registered s /\
             fill_size (f s) = fill_size s) ->
  pages_ready c -> pages_ready (update_surface id f c).
Proof.
  intros Hf (Hsurf & Hpages & Htable). unfold update_surface.
  destruct (heap c !! id) as [s|] eqn:Hobj; [|exact (conj Hsurf (conj Hpages Htable))].
  destruct (Hf s) as (Hp & Hr & Hfill).
  unfold pages_ready. cbn [heap rasterizer set_heap]. split; [|split].
  - intros i t. rewrite lookup_insert. case_decide as Hi; [|apply Hsurf].
    intros [= <-]. destruct (Hsurf id s Hobj) as (H1 & H2 & H3 & H4 & H5).
    unfold surface_ok. rewrite Hp, Hfill. auto.
  - intros page count Hlook. rewrite (holders_update (heap c) id s (f s)) by assumption.
    now apply Hpages.
  - intros i t. rewrite lookup_insert. case_decide as Hi; [|apply Htable].
    intros [= <-] Hreg. unfold end_page. rewrite Hp. rewrite Hr in Hreg.
    exact (Htable id s Hobj Hreg).
Qed.

Lemma covered_set_rev {V} `{EqDecision V} (s : SurfaceInterval * V) m a v :
  covered (set s m) a v ->
  (within a (fst s) = true /\ v = snd s) \/ (within a (fst s) = false /\ covered m a v).
Proof.
  unfold set. destruct (is_empty (fst s)) eqn:He.
  - intros Hc. right. split; [|exact Hc]. apply within_false.
    unfold is_empty in He. apply Z.leb_le in He. lia.
  - intros Hc. apply covered_join_rev in Hc. destruct Hc as (t & Ht & Hw & Hv).
    apply in_place in Ht. destruct Ht as [->|Ht]; [left; auto|].
    apply erase_spec in Ht. destruct Ht as (t0 & Ht0 & Hval & Hl & Hu & _ & Hout).
    right. split; [now apply Hout|]. exists t0. split; [exact Ht0|].
    split; [|congruence]. apply within_bounds. apply within_bounds in Hw. lia.
Qed.

(** No interval that is left after [erase(i)] overlaps [i]. *)
Lemma erased_region_valid i (regions : SurfaceRegions) :
  nonempty_segments regions -> lower i < upper i ->
  find_interval i (erase i regions) = None.
Proof.
  intros Hne Hi. unfold find_interval.
  destruct (equal_range i (erase i regions)) as [|r rest] eqn:Hr; [reflexivity|]. exfalso.
  assert (Hin : In r (equal_range i (erase i regions))) by (rewrite Hr; now left).
  apply in_equal_range in Hin. destruct Hin as [Hin Hov].
  apply erase_spec in Hin. destruct Hin as (r0 & Hr0 & _ & Hl & Hu & Hn & Hout).
  unfold nonempty_segments in Hne. rewrite Forall_forall in Hne.
  specialize (Hn (Hne r0 ltac:(now apply list_elem_of_In))).
  apply overlaps_bounds in Hov.
  set (a := Z.max (lower (fst r)) (lower i)).
  assert (Ha : within a (fst r) = true) by (apply within_bounds; lia).
  specialize (Hout a Ha). apply within_false in Hout. lia.
Qed.

End InvalidationFrame.

Section InvalidationLoops.

Import ICL.

Context `{SurfaceOps} `{Backend}.

Lemma grown_refl h : grown h h.
Proof. intros id. destruct (h !! id); auto. Qed.

Lemma grown_trans h1 h2 h3 : grown h1 h2 -> grown h2 h3 -> grown h1 h3.
Proof.
  intros H12 H23 id. specialize (H12 id). specialize (H23 id).
  destruct (h1 !! id), (h2 !! id), (h3 !! id); try tauto.
  destruct H12 as (Hp & Hr & Hf & Hc), H23 as (Hp' & Hr' & Hf' & Hc').
  repeat split; try congruence. auto.
Qed.

Lemma reflagged_refl h : reflagged h h.
Proof. intros id. destruct (h !! id); auto. Qed.

Lemma reflagged_trans h1 h2 h3 : reflagged h1 h2 -> reflagged h2 h3 -> reflagged h1 h3.
Proof.
  intros H12 H23 id. specialize (H12 id). specialize (H23 id).
  destruct (h1 !! id), (h2 !! id), (h3 !! id); try tauto.
  destruct H12 as (Hp & Hi & Hr), H23 as (Hp' & Hi' & Hr').
  repeat split; try congruence. auto.
Qed.

Lemma grown_marked h id s interval :
  h !! id = Some s -> nonempty_segments (invalid_regions s) ->
  grown h (<[id := marked interval s]> h).
Proof.
  intros Hobj Hne id'. rewrite lookup_insert. case_decide as Hid.
  - subst id'. rewrite Hobj. cbn. repeat split.
    intros x Hx. apply add_interval_covers; [exact Hne | now right].
  - destruct (h !! id'); auto.
Qed.

(** The first loop of [InvalidateRegion] for a write that is not a small
    write of the CPU: every visited surface but the owner gets the written
    part of its interval marked invalid, and nothing else changes but the
    staging set. *)
Lemma invalidate_marks size interval owner ids : forall c,
  bool_decide (owner = None) && (size <=? 8) = false ->
  (forall id, In id ids -> is_Some (heap c !! id)) ->
  invalid_nonempty (heap c) -> pages_ready c ->
  exists c',
    fold_left (invalidate_surface size interval owner) ids (Some c) = Some c' /\
    grown (heap c) (heap c') /\ invalid_nonempty (heap c') /\ pages_ready c' /\
    surface_cache c' = surface_cache c /\ dirty_regions c' = dirty_regions c /\
    rasterizer c' = rasterizer c /\ backend_calls c' = backend_calls c /\
    guest_memory c' = guest_memory c /\
    (forall o, owner = Some o -> heap c' !! o = heap c !! o) /\
    (forall id S, In id ids -> Some id <> owner -> heap c !! id = Some S ->
       exists S', heap c' !! id = Some S' /\
         forall x, within x interval = true -> within x (GetInterval (params S)) = true ->
                   covered (invalid_regions S') x tt) /\
    (forall r, In r (remove_surfaces c') ->
               In r (remove_surfaces c) \/ (In r ids /\ Some r <> owner)).
Proof.
  induction ids as [|id ids IH]; intros c Hbig Hobjs Hinv Hready; cbn [fold_left].
  - exists c. split; [reflexivity|]. split; [apply grown_refl|]. split; [exact Hinv|].
    split; [exact Hready|]. do 5 (split; [reflexivity|]). split; [auto|].
    split; [intros id S []|]. auto.
  - destruct (decide (Some id = owner)) as [Howner|Hother].
    + (* the owner is skipped *)
      assert (Hstep : invalidate_surface size interval owner (Some c) id = Some c)
        by (unfold invalidate_surface; now rewrite bool_decide_eq_true_2).
      rewrite Hstep.
      destruct (IH c Hbig) as (c' & Hfold & Hg & Hinv' & Hready' & Hsc & Hd & Hra & Hlog & Hmem
                               & Hown & Hmark & Hst); try assumption.
      { intros id' Hid'. apply Hobjs. now right. }
      exists c'. split; [exact Hfold|]. split; [exact Hg|]. split; [exact Hinv'|].
      split; [exact Hready'|]. do 5 (split; [assumption|]). split; [exact Hown|]. split.
      * intros id' S [<-|Hin] Hne HS; [contradiction | now apply Hmark].
      * intros r Hr. destruct (Hst r Hr) as [Hold|[Hin Hne]]; [now left|].
        right. split; [now right | exact Hne].
    + destruct (Hobjs id ltac:(now left)) as [S HS].
      set (c1 := update_surface id (marked interval) c).
      assert (Hheap1 : heap c1 = <[id := marked interval S]> (heap c))
        by (unfold c1, update_surface; now rewrite HS).
      set (c2 := if IsSurfaceFullyInvalid (marked interval S)
                 then set_remove_surfaces (set_insert id (remove_surfaces c1)) c1 else c1).
      assert (Hstep : invalidate_surface size interval owner (Some c) id = Some c2).
      { unfold invalidate_surface. rewrite bool_decide_eq_false_2 by exact Hother.
        rewrite HS, Hbig. cbv zeta. unfold c2, c1, marked, update_surface.
        rewrite HS. cbn [heap set_heap]. rewrite lookup_insert_eq.
        now destruct (IsSurfaceFullyInvalid _). }
      rewrite Hstep.
      assert (Hheap2 : heap c2 = <[id := marked interval S]> (heap c))
        by (unfold c2; destruct (IsSurfaceFullyInvalid _); exact Hheap1).
      assert (Hframe2 : surface_cache c2 = surface_cache c /\ dirty_regions c2 = dirty_regions c
                        /\ rasterizer c2 = rasterizer c /\ backend_calls c2 = backend_calls c
                        /\ guest_memory c2 = guest_memory c).
      { unfold c2, c1, update_surface. rewrite HS.
        destruct (IsSurfaceFullyInvalid _); repeat split. }
      destruct Hframe2 as (Hsc2 & Hd2 & Hra2 & Hlog2 & Hmem2).
      assert (Hrem2 : forall r, In r (remove_surfaces c2) ->
                                In r (remove_surfaces c) \/ r = id).
      { unfold c2, c1, update_surface. rewrite HS. intros r.
        destruct (IsSurfaceFullyInvalid _); cbn [remove_surfaces set_remove_surfaces set_heap].
        - rewrite in_set_insert. tauto.
        - tauto. }
      assert (Hready2 : pages_ready c2).
      { assert (Hready1 : pages_ready c1)
          by (apply pages_ready_update; [intros s; repeat split | exact Hready]).
        unfold c2. destruct (IsSurfaceFullyInvalid _); exact Hready1. }
      assert (Hinv2 : invalid_nonempty (heap c2)).
      { intros i t. rewrite Hheap2, lookup_insert. case_decide as Hi; [|apply Hinv].
        intros [= <-]. cbn. apply nonempty_set. exact (Hinv id S HS). }
      destruct (IH c2 Hbig) as (c' & Hfold & Hg & Hinv' & Hready' & Hsc & Hd & Hra & Hlog & Hmem
                                & Hown & Hmark & Hst); try assumption.
      { intros id' Hid'. rewrite Hheap2, lookup_insert. case_decide; [eauto|].
        apply Hobjs. now right. }
      exists c'. split; [exact Hfold|].
      split.
      { eapply grown_trans; [|exact Hg]. rewrite Hheap2.
        apply grown_marked; [exact HS | exact (Hinv id S HS)]. }
      split; [exact Hinv'|]. split; [exact Hready'|].
      do 5 (split; [congruence|]).
      split.
      { intros o Ho. rewrite (Hown o Ho), Hheap2. apply lookup_insert_ne. congruence. }
      split.
      * intros id' S0 Hin Hne HS0.
        destruct (decide (id' = id)) as [->|Hdiff].
        -- rewrite HS in HS0. injection HS0 as <-.
           pose proof (Hg id) as Hgrow. rewrite Hheap2, lookup_insert_eq in Hgrow.
           destruct (heap c' !! id) as [S'|] eqn:HS'; [|contradiction].
           destruct Hgrow as (_ & _ & _ & Hkeep).
           exists S'. split; [reflexivity|]. intros x Hx Hsx. apply Hkeep. cbn.
           apply add_interval_covers; [exact (Hinv id S HS)|]. left.
           apply within_intersect. auto.
        -- destruct Hin as [->|Hin]; [contradiction|].
           apply (Hmark id' S0 Hin Hne). rewrite Hheap2.
           now rewrite lookup_insert_ne by congruence.
      * intros r Hr. destruct (Hst r Hr) as [Hold|[Hin Hne]].
        -- destruct (Hrem2 r Hold) as [Hold'| ->]; [now left|].
           right. split; [now left | exact Hother].
        -- right. split; [now right | exact Hne].
Qed.

Lemma UnregisterSurface_memory id c c' :
  UnregisterSurface id c = Some c' -> guest_memory c' = guest_memory c.
Proof.
  unfold UnregisterSurface. destruct (heap c !! id) as [s|] eqn:Hs; [|discriminate].
  destruct (negb (registered s)); [now intros [= <-]|].
  unfold with_rasterizer, update_surface. rewrite Hs. cbn [rasterizer set_heap].
  destruct (UpdatePagesCachedCount _ _ _ _); [|discriminate].
  now intros [= <-].
Qed.

(** The second loop of [InvalidateRegion] when the owner is not staged:
    every staged surface is unregistered, nothing else changes. *)
Lemma unregister_staged owner staged : forall c,
  (forall r, In r staged -> Some r <> owner) ->
  pages_ready c ->
  (forall r, In r staged -> is_Some (heap c !! r)) ->
  exists c',
    fold_left (remove_staged owner) staged (Some c) = Some c' /\
    pages_ready c' /\ reflagged (heap c) (heap c') /\
    dirty_regions c' = dirty_regions c /\ backend_calls c' = backend_calls c /\
    guest_memory c' = guest_memory c /\
    (forall o, owner = Some o -> heap c' !! o = heap c !! o) /\
    (forall r, In r staged -> unregistered c' r).
Proof.
  induction staged as [|r staged IH]; intros c Hnot Hready Hobjs; cbn [fold_left].
  - exists c. split; [reflexivity|]. split; [exact Hready|]. split; [apply reflagged_refl|].
    do 3 (split; [reflexivity|]). split; [auto | intros r []].
  - destruct (Hobjs r ltac:(now left)) as [s Hs].
    destruct (UnregisterSurface_ready r s c Hs Hready)
      as (c1 & Hstep & Hready1 & Hheap1 & Hdirty1 & Hrem1 & Hlog1).
    assert (Hrs : remove_staged owner (Some c) r = Some c1).
    { unfold remove_staged. rewrite bool_decide_eq_false_2 by (apply Hnot; now left).
      exact Hstep. }
    rewrite Hrs.
    pose proof (UnregisterSurface_memory r c c1 Hstep) as Hmem1.
    destruct (IH c1) as (c' & Hfold & Hready' & Hflag & Hdirty' & Hlog' & Hmem' & Hown & Hall);
      try assumption.
    { intros r' Hr'. apply Hnot. now right. }
    { intros r' Hr'. rewrite Hheap1, lookup_insert. case_decide; [eauto|].
      apply Hobjs. now right. }
    assert (Hflag1 : reflagged (heap c) (heap c1)).
    { intros id. rewrite Hheap1, lookup_insert. case_decide as Hid.
      - subst id. rewrite Hs. cbn. auto.
      - destruct (heap c !! id); auto. }
    exists c'. split; [exact Hfold|]. split; [exact Hready'|].
    split; [eapply reflagged_trans; eauto|].
    split; [congruence|]. split; [congruence|]. split; [congruence|]. split.
    + intros o Ho. rewrite (Hown o Ho), Hheap1. apply lookup_insert_ne.
      intros ->. apply (Hnot o); [now left | now rewrite Ho].
    + intros r' [<-|Hr']; [|now apply Hall].
      unfold unregistered. pose proof (Hflag r) as Hf.
      rewrite Hheap1, lookup_insert_eq in Hf.
      destruct (heap c' !! r) as [s'|]; [|contradiction].
      destruct Hf as (_ & _ & Hf). cbn. f_equal. now apply Hf.
Qed.

End InvalidationLoops.

Section LargeWrites.

Import ICL.

Context `{SurfaceOps} `{Backend}.

Lemma grown_is_Some h h' id : grown h h' -> is_Some (h !! id) -> is_Some (h' !! id).
Proof.
  intros Hg [s Hs]. specialize (Hg id). rewrite Hs in Hg.
  destruct (h' !! id); [eauto | contradiction].
Qed.

Lemma visited_objects c interval :
  (forall seg id, In seg (surface_cache c) -> In id (snd seg) -> is_Some (heap c !! id)) ->
  forall id, In id (visited (surface_cache c) interval) -> is_Some (heap c !! id).
Proof.
  intros Hcached id Hid. apply in_visited in Hid. destruct Hid as (seg & Hseg & _ & Hin).
  eapply Hcached; eauto.
Qed.

(** X20: a write of the GPU into the surface [o] (the region owner), on a
    state that satisfies the page-count invariant and in which [o] is not
    staged for removal. [InvalidateRegion] returns; afterwards every byte of
    the written interval is dirty for [o] and for no other surface, and the
    dirty map is as before outside the interval; [o] keeps its parameters
    and is valid on the interval (the dirty-owner invariant for the new
    segment); every other surface that the cache map holds over the interval
    keeps its parameters and has the written part of its own interval marked
    invalid; the staging set is empty; nothing is flushed: the backend and
    guest memory are not touched. *)
Theorem InvalidateRegion_gpu_write (c : RasterizerCache) (addr size o : Z)
    (O : SurfaceObject) :
  0 <= addr -> 0 < size -> addr + size < 2 ^ 32 ->
  heap c !! o = Some O ->
  type (params O) <> SurfaceType.Texture ->
  Surface.addr (params O) <= addr /\ addr + size <= end_ (params O) ->
  width (params O) = stride (params O) ->
  pages_ready c -> invalid_nonempty (heap c) ->
  (forall seg id, In seg (surface_cache c) -> In id (snd seg) -> is_Some (heap c !! id)) ->
  (forall id, In id (remove_surfaces c) -> is_Some (heap c !! id)) ->
  ~ In o (remove_surfaces c) ->
  nonempty_segments (dirty_regions c) ->
  exists c',
    InvalidateRegion addr size (Some o) c = Some c' /\
    (forall x v, covered (dirty_regions c') x v <->
                 (within x (addr, addr + size) = true /\ v = o) \/
                 (within x (addr, addr + size) = false /\ covered (dirty_regions c) x v)) /\
    (exists O', heap c' !! o = Some O' /\ params O' = params O /\
                IsRegionValid O' (addr, addr + size) = true) /\
    (forall id S, In id (visited (surface_cache c) (addr, addr + size)) -> id <> o ->
       heap c !! id = Some S ->
       exists S', heap c' !! id = Some S' /\ params S' = params S /\
         forall x, within x (addr, addr + size) = true ->
                   within x (GetInterval (params S)) = true ->
                   covered (invalid_regions S') x tt) /\
    remove_surfaces c' = [] /\
    backend_calls c' = backend_calls c /\ guest_memory c' = guest_memory c.
Proof.
  intros Haddr Hsize Hfit HO Hty [Hlo Hhi] Hws Hready Hinv Hcached Hstaged Hfree Hdne.
  set (interval := (addr, addr + size)).
  assert (Hi : lower interval < upper interval) by (cbn; lia).
  (* the owner becomes valid on the interval *)
  set (O0 := set_invalid_regions (erase interval (invalid_regions O)) O).
  set (c0 := update_surface o (fun s => set_invalid_regions
                                          (erase interval (invalid_regions s)) s) c).
  assert (Hheap0 : heap c0 = <[o := O0]> (heap c))
    by (unfold c0, update_surface; now rewrite HO).
  assert (Hframe0 : surface_cache c0 = surface_cache c /\ dirty_regions c0 = dirty_regions c
                    /\ remove_surfaces c0 = remove_surfaces c
                    /\ backend_calls c0 = backend_calls c /\ guest_memory c0 = guest_memory c)
    by (unfold c0, update_surface; rewrite HO; repeat split).
  destruct Hframe0 as (Hsc0 & Hd0 & Hrem0 & Hlog0 & Hmem0).
  assert (Hready0 : pages_ready c0)
    by (apply pages_ready_update; [intros s; repeat split | exact Hready]).
  assert (Hinv0 : invalid_nonempty (heap c0)).
  { intros i t. rewrite Hheap0, lookup_insert. case_decide as Hid; [|apply Hinv].
    intros [= <-]. cbn. apply nonempty_erase. exact (Hinv o O HO). }
  assert (Hsome0 : forall id, is_Some (heap c !! id) -> is_Some (heap c0 !! id)).
  { intros id Hid. rewrite Hheap0, lookup_insert. case_decide; [eauto | exact Hid]. }
  (* the first loop *)
  destruct (invalidate_marks size interval (Some o) (visited (surface_cache c0) interval) c0)
    as (c1 & Hloop & Hg & Hinv1 & Hready1 & Hsc1 & Hd1 & Hra1 & Hlog1 & Hmem1
        & Hown1 & Hmark1 & Hst1); try assumption.
  { rewrite bool_decide_eq_false_2 by discriminate. reflexivity. }
  { intros id Hid. rewrite Hsc0 in Hid. apply Hsome0. eapply visited_objects; eauto. }
  (* the second loop *)
  set (c2 := set_dirty_regions (set (interval, o) (dirty_regions c1)) c1).
  destruct (unregister_staged (Some o) (remove_surfaces c2) c2)
    as (c3 & Hloop3 & _ & Hflag & Hd3 & Hlog3 & Hmem3 & Hown3 & _).
  { intros r Hr. cbn [remove_surfaces c2 set_dirty_regions] in Hr.
    destruct (Hst1 r Hr) as [Hold|[_ Hne]]; [|exact Hne].
    rewrite Hrem0 in Hold. intros [= ->]. contradiction. }
  { exact Hready1. }
  { intros r Hr. cbn [heap remove_surfaces c2 set_dirty_regions] in *.
    apply (grown_is_Some _ _ r Hg), Hsome0.
    destruct (Hst1 r Hr) as [Hold|[Hin _]].
    - apply Hstaged. now rewrite <- Hrem0.
    - rewrite Hsc0 in Hin. eapply visited_objects; eauto. }
  exists (set_remove_surfaces [] c3).
  split.
  { unfold InvalidateRegion.
    replace (size =? 0) with false by (symmetry; apply Z.eqb_neq; lia).
    rewrite (u32_small (addr + size)) by lia. cbv zeta. fold interval. rewrite HO.
    rewrite bool_decide_eq_false_2 by exact Hty.
    replace (Surface.addr (params O) <=? addr) with true by (symmetry; apply Z.leb_le; lia).
    replace (addr + size <=? end_ (params O)) with true by (symmetry; apply Z.leb_le; lia).
    replace (width (params O) =? stride (params O)) with true
      by (symmetry; apply Z.eqb_eq; exact Hws).
    cbn [negb andb ASSERT]. fold c0. rewrite Hloop. fold c2. rewrite Hloop3. reflexivity. }
  cbn [heap remove_surfaces backend_calls dirty_regions guest_memory set_remove_surfaces].
  rewrite Hd3, Hlog3. cbn [dirty_regions backend_calls c2 set_dirty_regions].
  rewrite Hd1, Hd0.
  split.
  { intros x v. split.
    - intros Hc. apply covered_set_rev in Hc. cbn [fst snd] in Hc. tauto.
    - intros Hc. apply covered_set; [exact Hdne|]. cbn [fst snd].
      destruct Hc as [[Hw ->]|[Hw Hc]]; [left | right]; auto. }
  split.
  { pose proof (Hown3 o eq_refl) as Ho3. cbn [heap c2 set_dirty_regions] in Ho3.
    rewrite (Hown1 o eq_refl), Hheap0, lookup_insert_eq in Ho3.
    exists O0. split; [exact Ho3|]. split; [reflexivity|].
    unfold IsRegionValid, O0. cbn [invalid_regions set_invalid_regions].
    rewrite erased_region_valid; [reflexivity | exact (Hinv o O HO) | exact Hi]. }
  split.
  { intros id S Hid Hne HS.
    destruct (Hmark1 id S) as (S1 & HS1 & Hcover).
    - now rewrite Hsc0.
    - congruence.
    - rewrite Hheap0. now rewrite lookup_insert_ne by congruence.
    - pose proof (Hflag id) as Hf. cbn [heap c2 set_dirty_regions] in Hf. rewrite HS1 in Hf.
      destruct (heap c3 !! id) as [S3|]; [|contradiction].
      destruct Hf as (Hp3 & Hi3 & _).
      pose proof (Hg id) as Hg1. rewrite Hheap0, lookup_insert_ne, HS, HS1 in Hg1 by congruence.
      destruct Hg1 as (Hp1 & _).
      exists S3. split; [reflexivity|]. split; [congruence|].
      intros x Hx Hsx. rewrite Hi3. now apply Hcover. }
  split; [reflexivity|]. split; [congruence|].
  rewrite Hmem3. cbn [guest_memory c2 set_dirty_regions]. congruence.
Qed.

(** X21: a write of the CPU (no region owner) of more than 8 bytes, on a
    state that satisfies the page-count invariant. [InvalidateRegion]
    returns without flushing anything: the backend and guest memory are not
    touched; afterwards no byte of the written interval is dirty and the
    dirty map is as before outside the interval; every surface that the
    cache map holds over the interval keeps its parameters and has the
    written part of its own interval marked invalid; the staging set is
    empty. *)
Theorem InvalidateRegion_cpu_large_write (c : RasterizerCache) (addr size : Z) :
  0 <= addr -> 8 < size -> addr + size < 2 ^ 32 ->
  pages_ready c -> invalid_nonempty (heap c) ->
  (forall seg id, In seg (surface_cache c) -> In id (snd seg) -> is_Some (heap c !! id)) ->
  (forall id, In id (remove_surfaces c) -> is_Some (heap c !! id)) ->
  exists c',
    InvalidateRegion addr size None c = Some c' /\
    (forall x v, covered (dirty_regions c') x v <->
                 within x (addr, addr + size) = false /\ covered (dirty_regions c) x v) /\
    (forall id S, In id (visited (surface_cache c) (addr, addr + size)) ->
       heap c !! id = Some S ->
       exists S', heap c' !! id = Some S' /\ params S' = params S /\
         forall x, within x (addr, addr + size) = true ->
                   within x (GetInterval (params S)) = true ->
                   covered (invalid_regions S') x tt) /\
    remove_surfaces c' = [] /\
    backend_calls c' = backend_calls c /\ guest_memory c' = guest_memory c.
Proof.
  intros Haddr Hsize Hfit Hready Hinv Hcached Hstaged.
  set (interval := (addr, addr + size)).
  destruct (invalidate_marks size interval None (visited (surface_cache c) interval) c)
    as (c1 & Hloop & Hg & Hinv1 & Hready1 & Hsc1 & Hd1 & Hra1 & Hlog1 & Hmem1
        & _ & Hmark1 & Hst1); try assumption.
  { replace (size <=? 8) with false by (symmetry; apply Z.leb_gt; lia). apply andb_false_r. }
  { intros id Hid. eapply visited_objects; eauto. }
  set (c2 := set_dirty_regions (erase interval (dirty_regions c1)) c1).
  destruct (unregister_staged None (remove_surfaces c2) c2)
    as (c3 & Hloop3 & _ & Hflag & Hd3 & Hlog3 & Hmem3 & _ & _).
  { intros r Hr. discriminate. }
  { exact Hready1. }
  { intros r Hr. cbn [heap remove_surfaces c2 set_dirty_regions] in *.
    apply (grown_is_Some _ _ r Hg).
    destruct (Hst1 r Hr) as [Hold|[Hin _]]; [now apply Hstaged|].
    eapply visited_objects; eauto. }
  exists (set_remove_surfaces [] c3).
  split.
  { unfold InvalidateRegion.
    replace (size =? 0) with false by (symmetry; apply Z.eqb_neq; lia).
    rewrite (u32_small (addr + size)) by lia. cbv zeta. fold interval.
    rewrite Hloop. fold c2. rewrite Hloop3. reflexivity. }
  cbn [heap remove_surfaces backend_calls dirty_regions guest_memory set_remove_surfaces].
  rewrite Hd3, Hlog3, Hmem3. cbn [dirty_regions backend_calls guest_memory c2 set_dirty_regions].
  rewrite Hd1.
  split.
  { intros x v. split.
    - intros (s' & Hs' & Hw & Hv). apply erase_spec in Hs'.
      destruct Hs' as (s & Hs & Hval & Hl & Hu & _ & Hout).
      split; [now apply Hout|]. exists s. split; [exact Hs|]. split; [|congruence].
      apply within_bounds. apply within_bounds in Hw. lia.
    - intros [Hw Hc]. now apply covered_erase. }
  split.
  { intros id S Hid HS.
    destruct (Hmark1 id S Hid ltac:(discriminate) HS) as (S1 & HS1 & Hcover).
    pose proof (Hflag id) as Hf. cbn [heap c2 set_dirty_regions] in Hf. rewrite HS1 in Hf.
    destruct (heap c3 !! id) as [S3|]; [|contradiction].
    destruct Hf as (Hp3 & Hi3 & _).
    pose proof (Hg id) as Hg1. rewrite HS, HS1 in Hg1. destruct Hg1 as (Hp1 & _).
    exists S3. split; [reflexivity|]. split; [congruence|].
    intros x Hx Hsx. rewrite Hi3. now apply Hcover. }
  split; [reflexivity|]. split; congruence.
Qed.

End LargeWrites.

Ltac by_evaluation := eapply (bool_decide_unpack _); vm_compute; exact I.

Ltac check_surfaces :=
  let Hall := fresh "Hall" in
  match goal with
  | |- forall id s, ?h !! id = Some s -> @?P s =>
    assert (Hall : map_Forall (fun _ s => P s) h) by by_evaluation;
    intros id s Hs; exact (Hall id s Hs)
  end.

Ltac check_cached c :=
  let Hall := fresh "Hall" in
  let seg := fresh "seg" in
  let id := fresh "id" in
  let Hseg := fresh "Hseg" in
  let Hid := fresh "Hid" in
  assert (Hall : Forall (fun seg : SurfaceInterval * list Z =>
                           Forall (fun id => is_Some (heap c !! id)) (snd seg))
                        (surface_cache c)) by by_evaluation;
  intros seg id Hseg Hid;
  rewrite Forall_forall in Hall; specialize (Hall seg ltac:(now apply list_elem_of_In));
  rewrite Forall_forall in Hall; apply Hall; now apply list_elem_of_In.

Ltac check_staged c :=
  let Hall := fresh "Hall" in
  let id := fresh "id" in
  let Hid := fresh "Hid" in
  assert (Hall : Forall (fun id => is_Some (heap c !! id)) (remove_surfaces c))
    by by_evaluation;
  intros id Hid; rewrite Forall_forall in Hall; apply Hall; now apply list_elem_of_In.

Ltac check_ready c :=
  split; [check_surfaces | split; [check_pages c |]];
  let Hall := fresh "Hall" in
  let id := fresh "id" in
  let s := fresh "s" in
  let Hs := fresh "Hs" in
  assert (Hall : map_Forall
                   (fun _ s => registered s = true ->
                               end_page s <= Z.of_nat (length (cached_pages (rasterizer c))))
                   (heap c)) by by_evaluation;
  intros id s Hs; exact (Hall id s Hs).

Lemma FlushRegion_cleans_region_witness :
  let c := small_write_cache in
  exists c',
    FlushRegion (H := spec_surface_ops) (H0 := sample_backend) 2097152 16 None c = Some c' /\
    heap c' = heap c /\ surface_cache c' = surface_cache c /\
    remove_surfaces c' = remove_surfaces c /\ rasterizer c' = rasterizer c /\
    download_queue c' = [] /\
    (forall e, In e (backend_calls c) -> In e (backend_calls c')) /\
    pieces_of (dirty_regions c') (dirty_regions c) /\
    (forall x v, ICL.within x (2097152, 2097152 + 16) = true ->
                 ~ ICL.covered (dirty_regions c') x v) /\
    (8 < 16 -> forall x v, ICL.covered (dirty_regions c) x v ->
                           ICL.within x (2097152, 2097152 + 16) = false ->
                           ICL.covered (dirty_regions c') x v) /\
    (16 <= 8 -> forall pair x v, In pair (dirty_regions c) ->
                                 ICL.overlaps (fst pair) (2097152, 2097152 + 16) = true ->
                                 ICL.within x (fst pair) = true ->
                                 ~ ICL.covered (dirty_regions c') x v) /\
    (forall x v S, ICL.covered (dirty_regions c) x v ->
                   ICL.within x (2097152, 2097152 + 16) = true ->
                   heap c !! v = Some S -> type (params S) <> SurfaceType.Fill ->
                   exists j, In (SurfaceDownload v j) (backend_calls c') /\
                             ICL.within x j = true).
Proof.
  intros c.
  apply (@FlushRegion_cleans_region spec_surface_ops sample_backend 2097152 16 c); try lia.
  - check_surfaces.
  - by_evaluation.
  - by_evaluation.
Defined.

Lemma FlushAll_cleans_witness :
  let c := small_write_cache in
  exists c',
    FlushAll (H := spec_surface_ops) (H0 := sample_backend) c = Some c' /\
    dirty_regions c' = [] /\ download_queue c' = [] /\
    heap c' = heap c /\ surface_cache c' = surface_cache c /\
    (forall x v S, ICL.covered (dirty_regions c) x v ->
                   heap c !! v = Some S -> type (params S) <> SurfaceType.Fill ->
                   exists j, In (SurfaceDownload v j) (backend_calls c') /\
                             ICL.within x j = true).
Proof.
  intros c.
  apply (@FlushAll_cleans spec_surface_ops sample_backend c).
  - check_surfaces.
  - by_evaluation.
  - by_evaluation.
Defined.

Lemma InvalidateRegion_gpu_write_witness :
  let c := staged_owner_cache in
  let O := set_registered true (rgba8_surface 0 16384 64 64 2 [((12288, 16384), tt)]) in
  exists c',
    InvalidateRegion (H := spec_surface_ops) (H0 := sample_backend) 4096 4096 (Some 2) c
    = Some c' /\
    (forall x v, ICL.covered (dirty_regions c') x v <->
                 (ICL.within x (4096, 4096 + 4096) = true /\ v = 2) \/
                 (ICL.within x (4096, 4096 + 4096) = false /\
                  ICL.covered (dirty_regions c) x v)) /\
    (exists O', heap c' !! 2 = Some O' /\ params O' = params O /\
                IsRegionValid O' (4096, 4096 + 4096) = true) /\
    (forall id S, In id (visited (surface_cache c) (4096, 4096 + 4096)) -> id <> 2 ->
       heap c !! id = Some S ->
       exists S', heap c' !! id = Some S' /\ params S' = params S /\
         forall x, ICL.within x (4096, 4096 + 4096) = true ->
                   ICL.within x (GetInterval (params S)) = true ->
                   ICL.covered (invalid_regions S') x tt) /\
    remove_surfaces c' = [] /\
    backend_calls c' = backend_calls c /\ guest_memory c' = guest_memory c.
Proof.
  intros c O.
  apply (@InvalidateRegion_gpu_write spec_surface_ops sample_backend c 4096 4096 2 O);
    try lia.
  - vm_compute. reflexivity.
  - discriminate.
  - cbn. lia.
  - reflexivity.
  - check_ready c.
  - unfold invalid_nonempty. check_surfaces.
  - check_cached c.
  - check_staged c.
  - vm_compute. intuition discriminate.
  - by_evaluation.
Defined.

Lemma InvalidateRegion_cpu_large_write_witness :
  let c := staged_owner_cache in
  exists c',
    InvalidateRegion (H := spec_surface_ops) (H0 := sample_backend) 4096 4096 None c
    = Some c' /\
    (forall x v, ICL.covered (dirty_regions c') x v <->
                 ICL.within x (4096, 4096 + 4096) = false /\
                 ICL.covered (dirty_regions c) x v) /\
    (forall id S, In id (visited (surface_cache c) (4096, 4096 + 4096)) ->
       heap c !! id = Some S ->
       exists S', heap c' !! id = Some S' /\ params S' = params S /\
         forall x, ICL.within x (4096, 4096 + 4096) = true ->
                   ICL.within x (GetInterval (params S)) = true ->
                   ICL.covered (invalid_regions S') x tt) /\
    remove_surfaces c' = [] /\
    backend_calls c' = backend_calls c /\ guest_memory c' = guest_memory c.
Proof.
  intros c.
  apply (@InvalidateRegion_cpu_large_write spec_surface_ops sample_backend c 4096 4096);
    try lia.
  - check_ready c.
  - unfold invalid_nonempty. check_surfaces.
  - check_cached c.
  - check_staged c.
Defined.


(** ** Downloading a fill surface *)

Section FillDownload.

Context `{SurfaceOps} `{Backend}.

Lemma write_from_spec (start : Z) (bytes : list Z) : forall (k : nat) (mem : gmap Z Z) (a : Z),
  byte_at (fold_left (fun mem '(k, b) => <[start + Z.of_nat k := b]> mem)
                     (combine (seq k (length bytes)) bytes) mem) a
  = if (start + Z.of_nat k <=? a) && (a <? start + Z.of_nat k + Z.of_nat (length bytes))
    then nth (Z.to_nat (a - start - Z.of_nat k)) bytes 0
    else byte_at mem a.
Proof.
  induction bytes as [|b bytes IH]; intros k mem a.
  - cbn [length seq combine fold_left].
    destruct (_ && _) eqn:Hin; [|reflexivity].
    apply andb_true_iff in Hin. destruct Hin as [Hlo Hhi].
    apply Z.leb_le in Hlo. apply Z.ltb_lt in Hhi. cbn in Hhi. lia.
  - cbn [length seq combine fold_left]. rewrite IH.
    destruct (decide (a = start + Z.of_nat k)) as [->|Hne].
    + replace ((start + Z.of_nat (S k) <=? start + Z.of_nat k) && _) with false
        by (symmetry; apply andb_false_iff; left; apply Z.leb_gt; lia).
      replace ((start + Z.of_nat k <=? start + Z.of_nat k) && _) with true
        by (symmetry; apply andb_true_iff; split; [apply Z.leb_le | apply Z.ltb_lt]; lia).
      unfold byte_at. rewrite lookup_insert_eq.
      replace (start + Z.of_nat k - start - Z.of_nat k) with 0 by lia. reflexivity.
    + unfold byte_at at 1. rewrite lookup_insert_ne by congruence. fold (byte_at mem a).
      destruct (decide (start + Z.of_nat (S k) <= a
                        < start + Z.of_nat (S k) + Z.of_nat (length bytes))) as [Hin|Hout].
      * replace ((start + Z.of_nat (S k) <=? a) && _) with true
          by (symmetry; apply andb_true_iff; split; [apply Z.leb_le | apply Z.ltb_lt]; lia).
        replace ((start + Z.of_nat k <=? a) && _) with true
          by (symmetry; apply andb_true_iff; split; [apply Z.leb_le | apply Z.ltb_lt]; lia).
        replace (Z.to_nat (a - start - Z.of_nat k))
          with (S (Z.to_nat (a - start - Z.of_nat (S k)))) by lia.
        reflexivity.
      * replace ((start + Z.of_nat (S k) <=? a) && _) with false
          by (symmetry; apply andb_false_iff;
              destruct (Z_lt_le_dec a (start + Z.of_nat (S k)));
              [left; apply Z.leb_gt | right; apply Z.ltb_ge]; lia).
        replace ((start + Z.of_nat k <=? a) && _) with false
          by (symmetry; apply andb_false_iff;
              destruct (Z_lt_le_dec a (start + Z.of_nat k));
              [left; apply Z.leb_gt | right; apply Z.ltb_ge]; lia).
        reflexivity.
Qed.

(** [memcpy] into guest memory: the bytes land at [start] on, the rest of
    memory is as before. *)
Lemma write_bytes_spec start bytes mem a :
  byte_at (write_bytes start bytes mem) a
  = if (start <=? a) && (a <? start + Z.of_nat (length bytes))
    then nth (Z.to_nat (a - start)) bytes 0
    else byte_at mem a.
Proof.
  unfold write_bytes. rewrite write_from_spec.
  replace (start + Z.of_nat 0) with start by lia.
  replace (a - start - Z.of_nat 0) with (a - start) by lia. reflexivity.
Qed.

Lemma read_bytes_length start n mem : length (read_bytes start n mem) = Z.to_nat n.
Proof. unfold read_bytes. now rewrite length_map, length_seq. Qed.

Lemma read_bytes_nth start n mem (i : nat) :
  (i < Z.to_nat n)%nat -> nth i (read_bytes start n mem) 0 = byte_at mem (start + Z.of_nat i).
Proof.
  intros Hi. unfold read_bytes.
  rewrite (nth_indep _ 0 ((fun k => default 0 (mem !! (start + Z.of_nat k))) 0%nat))
    by (now rewrite length_map, length_seq).
  rewrite (map_nth (fun k => default 0 (mem !! (start + Z.of_nat k)))).
  rewrite seq_nth by exact Hi. reflexivity.
Qed.

Lemma in_range_true lo hi a : lo <= a < hi -> (lo <=? a) && (a <? hi) = true.
Proof. intros ?. apply andb_true_iff. split; [apply Z.leb_le | apply Z.ltb_lt]; lia. Qed.

Lemma in_range_false lo hi a : ~ lo <= a < hi -> (lo <=? a) && (a <? hi) = false.
Proof.
  intros ?. apply andb_false_iff.
  destruct (Z_lt_le_dec a lo); [left; apply Z.leb_gt | right; apply Z.ltb_ge]; lia.
Qed.

(** The copy loop: with enough steps for the bytes that are left, it lays
    the pattern from [offset] up to [download_size] and touches nothing
    else. *)
Lemma fill_copies_spec dest fill fill_size download_size :
  0 < fill_size -> fill_size <= Z.of_nat (length fill) ->
  download_size + fill_size <= 2 ^ 32 ->
  forall (n : nat) (offset : Z) (mem : gmap Z Z) (a : Z),
    0 <= offset -> download_size - offset <= Z.of_nat n ->
    byte_at (fill_copies n dest fill fill_size download_size offset mem) a
    = if (dest + offset <=? a) && (a <? dest + download_size)
      then nth (Z.to_nat ((a - dest - offset) mod fill_size)) fill 0
      else byte_at mem a.
Proof.
  intros Hfs Hlen Hmax. induction n as [|n IH]; intros offset mem a Hoff Hfuel.
  - cbn [fill_copies]. rewrite in_range_false by lia. reflexivity.
  - cbn [fill_copies]. destruct (offset <? download_size) eqn:Hlt.
    + apply Z.ltb_lt in Hlt.
      rewrite (u32_small (offset + fill_size)) by lia.
      rewrite IH by lia. rewrite write_bytes_spec.
      rewrite length_take.
      set (count := Z.min fill_size (download_size - offset)).
      replace (Z.of_nat (Init.Nat.min (Z.to_nat count) (length fill))) with count by lia.
      destruct (decide (dest + (offset + fill_size) <= a < dest + download_size)) as [Hin|Hout].
      * rewrite in_range_true by lia. rewrite (in_range_true (dest + offset)) by lia.
        replace (a - dest - (offset + fill_size)) with (a - dest - offset + (-1) * fill_size)
          by lia.
        now rewrite Z_mod_plus_full.
      * rewrite in_range_false by lia.
        destruct (decide (dest + offset <= a < dest + offset + count)) as [Hin|Hout'].
        -- rewrite in_range_true by lia. rewrite (in_range_true (dest + offset)) by lia.
           rewrite Z.mod_small by lia.
           replace (a - (dest + offset)) with (a - dest - offset) by lia.
           rewrite nth_firstn.
           replace (Z.to_nat (a - dest - offset) <? Z.to_nat count)%nat with true
             by (symmetry; apply Nat.ltb_lt; lia).
           reflexivity.
        -- rewrite in_range_false by lia. rewrite (in_range_false (dest + offset)) by lia.
           reflexivity.
    + apply Z.ltb_ge in Hlt. rewrite in_range_false by lia. reflexivity.
Qed.

(** The effect of [DownloadFillSurface] on guest memory, byte by byte. *)
Lemma fill_download_effect (surface : SurfaceObject) (interval : SurfaceInterval)
    (c : RasterizerCache) (ref_size : Z) :
  let flush_start := ICL.lower interval in
  let flush_end := ICL.upper interval in
  let start_offset := flush_start - addr (params surface) in
  let download_size := Z.min (flush_end - flush_start) ref_size in
  0 <= addr (params surface) <= flush_start ->
  flush_start <= flush_end <= end_ (params surface) ->
  end_ (params surface) + fill_size surface <= 2 ^ 32 ->
  GetPhysicalRef flush_start = Some ref_size -> 0 <= ref_size < 2 ^ 32 ->
  0 < fill_size surface <= Z.of_nat (length (fill_data surface)) ->
  exists c',
    DownloadFillSurface surface interval c = Some c' /\
    c' = set_guest_memory (guest_memory c') c /\
    forall a,
      byte_at (guest_memory c') a
      = if (flush_start + start_offset <=? a) && (a <? flush_start + download_size)
        then nth (Z.to_nat ((a - flush_start) mod fill_size surface)) (fill_data surface) 0
        else byte_at (guest_memory c) a.
Proof.
  intros flush_start flush_end start_offset download_size Haddr Hflush Hmax Href Hsize Hfs.
  unfold DownloadFillSurface. fold flush_start flush_end.
  replace ((addr (params surface) <=? flush_start) && (flush_end <=? end_ (params surface)))
    with true
    by (symmetry; apply andb_true_iff; split; apply Z.leb_le; lia).
  cbn [ASSERT]. rewrite Href.
  replace (fill_size surface =? 0) with false by (symmetry; apply Z.eqb_neq; lia).
  rewrite (u32_small (flush_start - addr (params surface))) by lia.
  rewrite (u32_small (flush_end - flush_start)) by lia.
  rewrite (u32_small ref_size) by lia.
  fold start_offset.
  replace (Z.max 0 (Z.min (flush_end - flush_start) ref_size)) with download_size
    by (unfold download_size; lia).
  set (fs := fill_size surface) in *.
  set (backup_bytes := start_offset mod fs).
  assert (Hback : 0 <= backup_bytes < fs) by (apply Z.mod_pos_bound; lia).
  assert (Hstart : 0 <= start_offset) by (unfold start_offset; lia).
  assert (Hle : backup_bytes <= start_offset) by (apply Z.mod_le; lia).
  rewrite (u32_small (start_offset - backup_bytes)) by (unfold start_offset in *; lia).
  set (coarse := start_offset - backup_bytes).
  assert (Hcoarse : coarse mod fs = 0).
  { unfold coarse, backup_bytes. rewrite Zminus_mod_idemp_r. rewrite Z.sub_diag.
    apply Z.mod_0_l. lia. }
  assert (Hphase : forall a, (a - flush_start - coarse) mod fs = (a - flush_start) mod fs).
  { intros a. rewrite Zminus_mod, Hcoarse, Z.sub_0_r. apply Z.mod_mod. lia. }
  eexists. split; [reflexivity|]. split; [reflexivity|]. intros a.
  cbn [guest_memory set_guest_memory].
  assert (Hcopies : forall b,
    byte_at (fill_copies (Z.to_nat download_size) flush_start (fill_data surface) fs
                         download_size coarse (guest_memory c)) b
    = if (flush_start + coarse <=? b) && (b <? flush_start + download_size)
      then nth (Z.to_nat ((b - flush_start) mod fs)) (fill_data surface) 0
      else byte_at (guest_memory c) b).
  { intros b.
    rewrite fill_copies_spec; [now rewrite Hphase | unfold coarse, download_size; lia ..]. }
  destruct (backup_bytes =? 0) eqn:Hzero; cbn [negb].
  - apply Z.eqb_eq in Hzero. rewrite Hcopies.
    replace coarse with start_offset by (unfold coarse; lia). reflexivity.
  - apply Z.eqb_neq in Hzero. rewrite write_bytes_spec, read_bytes_length.
    replace (Z.of_nat (Z.to_nat backup_bytes)) with backup_bytes by lia.
    destruct (decide (flush_start + coarse <= a < flush_start + coarse + backup_bytes))
      as [Hin|Hout].
    + rewrite in_range_true by lia.
      rewrite in_range_false by (unfold coarse in Hin; lia).
      rewrite read_bytes_nth by lia. f_equal. lia.
    + rewrite in_range_false by lia. rewrite Hcopies.
      destruct (decide (flush_start + start_offset <= a < flush_start + download_size))
        as [Hin'|Hout'].
      * rewrite in_range_true by (unfold coarse; lia). now rewrite in_range_true by lia.
      * rewrite (in_range_false (flush_start + start_offset)) by lia.
        rewrite in_range_false by (unfold coarse in *; lia). reflexivity.
Qed.

(** X22: [DownloadFillSurface] writes the fill pattern to guest memory.  For
    a flush of [[flush_start, flush_end)] inside the surface, with memory
    behind the start, the call succeeds and changes guest memory only: with
    [start_offset = flush_start - addr] and [download_size] the smaller of
    the flush length and the size of the memory reference, the bytes at
    [flush_start + k] for [start_offset <= k < download_size] hold the
    pattern byte [fill_data[k mod fill_size]], and every other byte of guest
    memory reads as before (the bytes between the pattern boundary below
    [start_offset] and [start_offset] are saved and put back). *)
Theorem DownloadFillSurface_pattern (surface : SurfaceObject) (interval : SurfaceInterval)
    (c : RasterizerCache) (ref_size : Z) :
  let flush_start := ICL.lower interval in
  let flush_end := ICL.upper interval in
  let start_offset := flush_start - addr (params surface) in
  let download_size := Z.min (flush_end - flush_start) ref_size in
  0 <= addr (params surface) <= flush_start ->
  flush_start <= flush_end <= end_ (params surface) ->
  end_ (params surface) + fill_size surface <= 2 ^ 32 ->
  GetPhysicalRef flush_start = Some ref_size -> 0 <= ref_size < 2 ^ 32 ->
  0 < fill_size surface <= Z.of_nat (length (fill_data surface)) ->
  exists c',
    DownloadFillSurface surface interval c = Some c' /\
    c' = set_guest_memory (guest_memory c') c /\
    forall a,
      byte_at (guest_memory c') a
      = if (flush_start + start_offset <=? a) && (a <? flush_start + download_size)
        then nth (Z.to_nat ((a - flush_start) mod fill_size surface)) (fill_data surface) 0
        else byte_at (guest_memory c) a.
Proof. exact (fill_download_effect surface interval c ref_size). Qed.

End FillDownload.

Lemma DownloadFillSurface_pattern_witness :
  let surface := fill_surface 3145728 16 [171; 205; 0; 0] 2 in
  exists c',
    DownloadFillSurface (H0 := sample_backend) surface (3145731, 3145740) fill_cache
    = Some c' /\
    c' = set_guest_memory (guest_memory c') fill_cache /\
    forall a,
      byte_at (guest_memory c') a
      = if (3145731 + (3145731 - 3145728) <=? a)
           && (a <? 3145731 + Z.min (3145740 - 3145731) (4294967296 - 3145731))
        then nth (Z.to_nat ((a - 3145731) mod 2)) [171; 205; 0; 0] 0
        else byte_at (guest_memory fill_cache) a.
Proof.
  intros surface.
  apply (@DownloadFillSurface_pattern sample_backend surface (3145731, 3145740) fill_cache
           (4294967296 - 3145731)); cbn; try lia.
  reflexivity.
Defined.


(** ** Duplicating a surface *)

Section Duplication.

Import ICL.

Context `{SurfaceOps} `{Backend}.



(** The intervals that the first loop of [DuplicateSurface] collects. *)
Lemma collected_spec (src : Z) (l : list (SurfaceInterval * Z)) :
  forall (acc : SurfaceRegions) x,
    nonempty_segments acc ->
    let regions :=
      fold_left (fun regions (pair : SurfaceInterval * Z) =>
                   if snd pair =? src then add_interval (fst pair) regions else regions)
                l acc in
    nonempty_segments regions /\
    (covered regions x tt <->
     (exists pair, In pair l /\ snd pair = src /\ within x (fst pair) = true)
     \/ covered acc x tt).
Proof.
  induction l as [|p l IH]; intros acc x Hacc; cbn [fold_left].
  - split; [exact Hacc|]. split; [now right|]. intros [(? & [] & _)|Hc]. exact Hc.
  - destruct (snd p =? src) eqn:Hp.
    + apply Z.eqb_eq in Hp.
      destruct (IH (add_interval (fst p) acc) x) as [Hne Hiff].
      { unfold add_interval. now apply nonempty_set. }
      split; [exact Hne|]. cbn zeta in Hiff. rewrite Hiff. split.
      * intros [(q & Hq & Hs & Hw)|Hc].
        -- left. exists q. split; [now right | auto].
        -- apply add_interval_covered_rev in Hc. destruct Hc as [Hw|Hc]; [|now right].
           left. exists p. split; [now left | auto].
      * intros [(q & [<-|Hq] & Hs & Hw)|Hc].
        -- right. apply add_interval_covers; [exact Hacc | now left].
        -- left. now exists q.
        -- right. apply add_interval_covers; [exact Hacc | now right].
    + apply Z.eqb_neq in Hp.
      destruct (IH acc x Hacc) as [Hne Hiff].
      split; [exact Hne|]. cbn zeta in Hiff. rewrite Hiff. split.
      * intros [(q & Hq & Hs & Hw)|Hc]; [|now right].
        left. exists q. split; [now right | auto].
      * intros [(q & [<-|Hq] & Hs & Hw)|Hc]; [congruence | | now right].
        left. now exists q.
Qed.

(** The second loop of [DuplicateSurface] touches the dirty map only. *)
Lemma set_all_fold (dest : Z) (regions : SurfaceRegions) : forall c,
  fold_left (fun c (r : SurfaceInterval * unit) =>
               set_dirty_regions (set (fst r, dest) (dirty_regions c)) c) regions c
  = set_dirty_regions
      (fold_left (fun m (r : SurfaceInterval * unit) => set (fst r, dest) m) regions
                 (dirty_regions c)) c.
Proof.
  induction regions as [|r regions IH]; intros c; cbn [fold_left].
  - now destruct c.
  - rewrite IH. reflexivity.
Qed.

Lemma set_all_spec (dest : Z) (regions : SurfaceRegions) :
  forall (m : list (SurfaceInterval * Z)) x v,
    nonempty_segments m ->
    covered (fold_left (fun m (r : SurfaceInterval * unit) => set (fst r, dest) m) regions m)
            x v
    <-> (covered regions x tt /\ v = dest) \/ (~ covered regions x tt /\ covered m x v).
Proof.
  induction regions as [|r regions IH]; intros m x v Hm; cbn [fold_left].
  - split; [intros Hc; right; split; [intros (? & [] & _) | exact Hc]|].
    intros [[(? & [] & _) _]|[_ Hc]]. exact Hc.
  - rewrite IH by now apply nonempty_set. rewrite covered_cons.
    assert (Hset : covered (set (fst r, dest) m) x v <->
                   (within x (fst r) = true /\ v = dest)
                   \/ (within x (fst r) = false /\ covered m x v)).
    { split.
      - intros Hc. apply covered_set_rev in Hc. exact Hc.
      - intros Hc. apply covered_set; [exact Hm|]. cbn [fst snd].
        destruct Hc as [[Hw ->]|Hc]; [now left | now right]. }
    rewrite Hset. destruct (in_regions_dec regions x) as [Hin|Hout];
      destruct (within x (fst r)) eqn:Hw; unfold in_regions in *.
    + split; [intros [[_ ->]|[Hno _]]; [left; split; [now right | reflexivity] | tauto]|].
      intros [[_ ->]|[Hno _]]; [now left | tauto].
    + split; [intros [[_ ->]|[Hno _]]; [left; split; [now right | reflexivity] | tauto]|].
      intros [[_ ->]|[Hno _]]; [now left | tauto].
    + split.
      * intros [[Hc _]|[_ [[_ ->]|[Hf _]]]]; [tauto | | discriminate].
        left. split; [left; split; [reflexivity | now destruct (snd r)] | reflexivity].
      * intros [[_ ->]|[Hno _]]; [right; split; [exact Hout | now left]|].
        exfalso. apply Hno. left. split; [reflexivity | now destruct (snd r)].
    + split.
      * intros [[Hc _]|[_ [[Hf _]|[_ Hc]]]]; [tauto | discriminate |].
        right. split; [|exact Hc]. intros [[Hf _]|Hc']; [discriminate | tauto].
      * intros [[[[Hf _]|Hc] _]|[_ Hc]]; [discriminate | tauto |].
        right. split; [exact Hout | right; split; [reflexivity | exact Hc]].
Qed.

(** [BlitSurfaces] leaves the maps alone; when the formats blit, it resets
    the watchers of the destination and issues one backend call. *)
Lemma BlitSurfaces_effect src src_rect dst dst_rect c S D :
  heap c !! src = Some S -> heap c !! dst = Some D ->
  let blits := CheckFormatsBlittable (pixel_format (params S)) (pixel_format (params D)) in
  let copies := (GetWidth src_rect =? GetWidth dst_rect)
                && (GetHeight src_rect =? GetHeight dst_rect)
                && (bottom src_rect <? top src_rect) in
  let D1 := if blits then InvalidateAllWatcher D else D in
  exists c1,
    BlitSurfaces src src_rect dst dst_rect c = Some (c1, blits) /\
    heap c1 = <[dst := D1]> (heap c) /\
    surface_cache c1 = surface_cache c /\ dirty_regions c1 = dirty_regions c /\
    remove_surfaces c1 = remove_surfaces c /\ download_queue c1 = download_queue c /\
    rasterizer c1 = rasterizer c /\ guest_memory c1 = guest_memory c /\
    backend_calls c1
    = backend_calls c
      ++ (if blits
          then [if copies then CopyTextures src dst src_rect dst_rect
                else BlitTextures src dst src_rect dst_rect]
          else []).
Proof.
  intros HS HD blits copies D1. unfold BlitSurfaces. rewrite HS, HD.
  fold blits. unfold D1. destruct blits; cbn [negb].
  - unfold update_surface. rewrite HD. fold copies.
    destruct copies; eexists; (split; [reflexivity|]); cbn; repeat split; reflexivity.
  - exists c. split; [reflexivity|]. rewrite insert_id by exact HD.
    rewrite app_nil_r. repeat split; reflexivity.
Qed.

(** What [DuplicateSurface] does, step by step. *)
Lemma DuplicateSurface_effect src dest c S D :
  heap c !! src = Some S -> heap c !! dest = Some D ->
  addr (params D) <= addr (params S) -> end_ (params S) <= end_ (params D) ->
  let src_rect := GetScaledRect (params S) in
  let dst_rect := GetScaledSubRect (params D) (params S) in
  let blits := CheckFormatsBlittable (pixel_format (params S)) (pixel_format (params D)) in
  let copies := (GetWidth src_rect =? GetWidth dst_rect)
                && (GetHeight src_rect =? GetHeight dst_rect)
                && (bottom src_rect <? top src_rect) in
  let kept := erase (GetInterval (params S)) (invalid_regions D) in
  let D2 := set_invalid_regions
              (add_regions (if bool_decide (src = dest) then kept else invalid_regions S) kept)
              (if blits then InvalidateAllWatcher D else D) in
  let regions :=
    fold_left (fun regions (pair : SurfaceInterval * Z) =>
                 if snd pair =? src then add_interval (fst pair) regions else regions)
              (equal_range (GetInterval (params S)) (dirty_regions c)) [] in
  DuplicateSurface src dest c
  = Some (mkCache (<[dest := D2]> (heap c)) (surface_cache c)
                  (fold_left (fun m (r : SurfaceInterval * unit) => set (fst r, dest) m)
                             regions (dirty_regions c))
                  (remove_surfaces c) (download_queue c) (rasterizer c) (guest_memory c)
                  (backend_calls c
                   ++ (if blits
                       then [if copies then CopyTextures src dest src_rect dst_rect
                             else BlitTextures src dest src_rect dst_rect]
                       else []))).
Proof.
  intros HS HD Hlo Hhi src_rect dst_rect blits copies kept D2 regions.
  unfold DuplicateSurface. rewrite HS, HD.
  replace ((addr (params D) <=? addr (params S)) && (end_ (params S) <=? end_ (params D)))
    with true by (symmetry; apply andb_true_iff; split; apply Z.leb_le; lia).
  cbn [ASSERT].
  destruct (BlitSurfaces_effect src src_rect dest dst_rect c S D HS HD)
    as (c1 & Hblit & Hheap & Hcache & Hdirty & Hrem & Hq & Hras & Hmem & Hcalls).
  fold src_rect dst_rect. rewrite Hblit.
  fold blits copies in Hheap, Hcalls.
  set (D1 := if blits then InvalidateAllWatcher D else D) in *.
  assert (HD1 : heap c1 !! dest = Some D1) by (rewrite Hheap; apply lookup_insert_eq).
  assert (Hinv1 : invalid_regions D1 = invalid_regions D) by (unfold D1; now destruct blits).
  set (c2 := update_surface dest _ c1).
  assert (Hc2 : c2 = set_heap (<[dest := set_invalid_regions kept D1]> (heap c)) c1).
  { unfold c2, update_surface. rewrite HD1, Hheap, insert_insert_eq, Hinv1. reflexivity. }
  assert (Hsrc : match heap c2 !! src with Some s => invalid_regions s | None => [] end
                 = if bool_decide (src = dest) then kept else invalid_regions S).
  { rewrite Hc2. cbn [heap set_heap]. case_bool_decide as Heq.
    - subst dest. rewrite lookup_insert_eq. reflexivity.
    - rewrite lookup_insert_ne by congruence. now rewrite HS. }
  rewrite Hsrc.
  set (c3 := update_surface dest _ c2).
  assert (Hc3 : c3 = set_heap (<[dest := D2]> (heap c)) c1).
  { unfold c3, update_surface. rewrite Hc2. cbn [heap set_heap].
    rewrite lookup_insert_eq, insert_insert_eq. reflexivity. }
  rewrite set_all_fold, Hc3.
  unfold set_dirty_regions, set_heap.
  cbn [dirty_regions set_dirty_regions set_heap heap surface_cache
       remove_surfaces download_queue rasterizer guest_memory backend_calls].
  rewrite Hdirty, Hcache, Hrem, Hq, Hras, Hmem, Hcalls. reflexivity.
Qed.


(** X24: [DuplicateSurface] hands the dirty bytes of the source over to the
    destination.  Every dirty segment that meets the source's interval and
    is owned by the source is owned by the destination afterwards, in its
    whole length; every other dirty byte keeps its owner. *)
Theorem DuplicateSurface_dirty_transfer (src dest : Z) (c : RasterizerCache)
    (S D : SurfaceObject) :
  heap c !! src = Some S -> heap c !! dest = Some D ->
  addr (params D) <= addr (params S) -> end_ (params S) <= end_ (params D) ->
  nonempty_segments (dirty_regions c) ->
  let moved x :=
    exists pair, In pair (dirty_regions c) /\
                 overlaps (fst pair) (GetInterval (params S)) = true /\
                 snd pair = src /\ within x (fst pair) = true in
  exists c',
    DuplicateSurface src dest c = Some c' /\
    forall x v, covered (dirty_regions c') x v <->
                (moved x /\ v = dest) \/ (~ moved x /\ covered (dirty_regions c) x v).
Proof.
  intros HS HD Hlo Hhi Hdirty moved.
  rewrite (DuplicateSurface_effect src dest c S D HS HD Hlo Hhi).
  eexists. split; [reflexivity|]. intros x v. cbn [dirty_regions].
  rewrite set_all_spec by exact Hdirty.
  destruct (collected_spec src (equal_range (GetInterval (params S)) (dirty_regions c)) [] x)
    as [_ Hiff]; [constructor|].
  cbn zeta in Hiff.
  assert (Hmoved : covered
                     (fold_left (fun regions (pair : SurfaceInterval * Z) =>
                                   if snd pair =? src then add_interval (fst pair) regions
                                   else regions)
                                (equal_range (GetInterval (params S)) (dirty_regions c)) [])
                     x tt <-> moved x).
  { rewrite Hiff. unfold moved. split.
    - intros [(p & Hp & Hs & Hw)|(? & [] & _)]. apply in_equal_range in Hp.
      exists p. tauto.
    - intros (p & Hp & Hov & Hs & Hw). left. exists p.
      split; [apply in_equal_range; tauto | tauto]. }
  rewrite Hmoved. reflexivity.
Qed.

End Duplication.



Lemma DuplicateSurface_dirty_transfer_witness :
  let c := duplicate_cache in
  let S := set_registered true (rgba8_surface 4096 4096 64 16 1 []) in
  let moved x :=
    exists pair, In pair (dirty_regions c) /\
                 ICL.overlaps (fst pair) (GetInterval (params S)) = true /\
                 snd pair = 1 /\ ICL.within x (fst pair) = true in
  exists c',
    DuplicateSurface (H := spec_surface_ops) (H0 := sample_backend) 1 2 c = Some c' /\
    forall x v, ICL.covered (dirty_regions c') x v <->
                (moved x /\ v = 2) \/ (~ moved x /\ ICL.covered (dirty_regions c) x v).
Proof.
  intros c S.
  apply (@DuplicateSurface_dirty_transfer spec_surface_ops sample_backend 1 2 c S
           (set_registered true (rgba8_surface 0 16384 64 64 2 [((12288, 16384), tt)]))).
  - vm_compute. reflexivity.
  - vm_compute. reflexivity.
  - cbn. lia.
  - cbn. lia.
  - by_evaluation.
Defined.


(** ** Writing a surface back *)

Section WriteBack.

Import ICL.

Context `{SurfaceOps} `{Backend}.

Lemma fold_overlay {St J : Type} (mem : St -> gmap Z Z) (Inv : St -> Prop) (Good : J -> Prop)
    (step : St -> J -> St) (w : J -> Z -> option Z) :
  (forall s j, Inv s -> Good j -> Inv (step s j)) ->
  (forall s j x, Inv s -> Good j ->
                 byte_at (mem (step s j)) x = default (byte_at (mem s) x) (w j x)) ->
  forall js s x, Inv s -> Forall Good js ->
    byte_at (mem (fold_left step js s)) x = default (byte_at (mem s) x) (overlay w js x).
Proof.
  intros Hinv Hstep. induction js as [|j js IH]; intros s x Hs Hjs; cbn [fold_left overlay].
  - reflexivity.
  - apply Forall_cons in Hjs. destruct Hjs as [Hj Hjs].
    rewrite IH by (try apply Hinv; assumption). rewrite Hstep by assumption.
    now destruct (overlay w js x).
Qed.

Lemma overlay_some {J : Type} (w : J -> Z -> option Z) js x v :
  overlay w js x = Some v -> exists j, In j js /\ w j x = Some v.
Proof.
  induction js as [|j js IH]; cbn [overlay]; [discriminate|].
  destruct (overlay w js x) as [v'|] eqn:Ho.
  - intros [= ->]. destruct (IH eq_refl) as (j' & Hj' & Hw). exists j'. split; [now right | exact Hw].
  - intros Hw. exists j. split; [now left | exact Hw].
Qed.

(** Writes that stay inside their segments, over segments of which no two
    share a byte: a byte of a segment gets what the write of that segment
    puts there, a byte outside the segments is left alone. *)
Lemma overlay_at (w : SurfaceInterval -> Z -> option Z) js x j :
  (forall j x v, In j js -> w j x = Some v -> within x j = true) ->
  (forall j1 j2, In j1 js -> In j2 js -> within x j1 = true -> within x j2 = true -> j1 = j2) ->
  In j js -> within x j = true -> overlay w js x = w j x.
Proof.
  intros Hin Hdis Hj Hx.
  destruct (overlay w js x) as [v|] eqn:Ho.
  - destruct (overlay_some w js x v Ho) as (j' & Hj' & Hw).
    rewrite <- (Hdis j' j Hj' Hj (Hin _ _ _ Hj' Hw) Hx). now symmetry.
  - destruct (w j x) as [v|] eqn:Hw; [|reflexivity]. exfalso.
    clear Hin Hdis Hx. induction js as [|j0 js IH]; [destruct Hj|].
    cbn [overlay] in Ho. destruct (overlay w js x) eqn:Ho'; [discriminate|].
    destruct Hj as [->|Hj]; [congruence | now apply IH].
Qed.

Lemma overlay_outside (w : SurfaceInterval -> Z -> option Z) js x :
  (forall j x v, In j js -> w j x = Some v -> within x j = true) ->
  (forall j, In j js -> within x j = false) -> overlay w js x = None.
Proof.
  intros Hin Hout. destruct (overlay w js x) as [v|] eqn:Ho; [|reflexivity].
  destruct (overlay_some w js x v Ho) as (j & Hj & Hw).
  apply (Hin _ _ _ Hj) in Hw. rewrite (Hout j Hj) in Hw. discriminate.
Qed.

Lemma written_back_inside S j x v :
  addr (params S) <= lower j ->
  written_back S j x = Some v -> within x j = true.
Proof.
  intros Haddr. unfold written_back. destruct (GetPhysicalRef (lower j)) as [r|]; [|discriminate].
  case_bool_decide.
  - destruct (_ && _) eqn:Hr; [|discriminate]. intros _.
    apply andb_true_iff in Hr. destruct Hr as [Hlo Hhi].
    apply Z.leb_le in Hlo. apply Z.ltb_lt in Hhi. apply within_bounds. lia.
  - destruct (_ && _) eqn:Hr; [|discriminate]. intros _.
    apply andb_true_iff in Hr. destruct Hr as [Hlo Hhi].
    apply Z.leb_le in Hlo. apply Z.ltb_lt in Hhi. apply within_bounds.
    unfold downloaded in Hhi. rewrite length_take in Hhi. lia.
Qed.

(** One download of the flush of [S], for a segment inside the surface. *)
Lemma download_segment_effect id S c j :
  0 <= addr (params S) <= lower j -> lower j <= upper j <= end_ (params S) ->
  fill_ready S ->
  (forall r, GetPhysicalRef (lower j) = Some r -> 0 <= r < 2 ^ 32) ->
  (if bool_decide (type (params S) = SurfaceType.Fill)
   then DownloadFillSurface S j c else DownloadSurface id S j c)
  = Some (download_segment id S c j) /\
  heap (download_segment id S c j) = heap c /\
  surface_cache (download_segment id S c j) = surface_cache c /\
  dirty_regions (download_segment id S c j) = dirty_regions c /\
  remove_surfaces (download_segment id S c j) = remove_surfaces c /\
  rasterizer (download_segment id S c j) = rasterizer c /\
  (if bool_decide (type (params S) = SurfaceType.Fill)
   then backend_calls (download_segment id S c j) = backend_calls c /\
        download_queue (download_segment id S c j) = download_queue c /\
        forall x, byte_at (guest_memory (download_segment id S c j)) x
                  = default (byte_at (guest_memory c) x) (written_back S j x)
   else backend_calls (download_segment id S c j) = backend_calls c ++ [SurfaceDownload id j] /\
        download_queue (download_segment id S c j)
        = download_queue c
          ++ (if backed j
              then [mkDownload id (lower j) (upper j) (FromInterval (params S) j)] else []) /\
        guest_memory (download_segment id S c j) = guest_memory c).
Proof.
  intros Hlo Hhi Hfill Href. unfold download_segment.
  case_bool_decide as Hty.
  - destruct (Hfill Hty) as [Hfs Hend].
    destruct (GetPhysicalRef (lower j)) as [r|] eqn:Hr.
    + destruct (fill_download_effect S j c r Hlo Hhi Hend Hr (Href r eq_refl) Hfs)
        as (c' & Hd & Hc' & Hmem).
      rewrite Hd. cbn [default]. split; [reflexivity|].
      rewrite Hc'. cbn [heap surface_cache dirty_regions remove_surfaces rasterizer
                        backend_calls download_queue guest_memory set_guest_memory].
      repeat (split; [reflexivity|]). intros x. rewrite Hmem.
      unfold written_back. rewrite Hr. rewrite bool_decide_eq_true_2 by exact Hty.
      now destruct (_ && _).
    + assert (Hd : DownloadFillSurface S j c = Some c).
      { unfold DownloadFillSurface.
        replace ((addr (params S) <=? lower j) && (upper j <=? end_ (params S))) with true
          by (symmetry; apply andb_true_iff; split; apply Z.leb_le; lia).
        cbn [ASSERT]. now rewrite Hr. }
      rewrite Hd. cbn [default]. repeat (split; [reflexivity|]).
      intros x. unfold written_back. now rewrite Hr.
  - unfold DownloadSurface, backed.
    replace ((addr (params S) <=? lower j) && (upper j <=? end_ (params S))) with true
      by (symmetry; apply andb_true_iff; split; apply Z.leb_le; lia).
    cbn [ASSERT].
    destruct (GetPhysicalRef (lower j)); cbn [default]; repeat (split; [reflexivity|]).
    + reflexivity.
    + cbn [download_queue call]. now rewrite app_nil_r.
Qed.

Lemma intersect_inside (a b : SurfaceInterval) :
  lower a < upper a -> lower b <= lower a -> upper a <= upper b -> intersect a b = a.
Proof.
  intros Ha Hlo Hhi. unfold intersect, is_empty.
  replace (upper a <=? lower a) with false by (symmetry; apply Z.leb_gt; lia).
  replace (upper b <=? lower b) with false by (symmetry; apply Z.leb_gt; lia).
  destruct a as [la ua]. cbn in *. f_equal; lia.
Qed.

Lemma owned_segments_cons id p l :
  owned_segments id (p :: l)
  = if snd p =? id then fst p :: owned_segments id l else owned_segments id l.
Proof. unfold owned_segments. cbn [List.filter]. now destruct (snd p =? id). Qed.

Lemma in_owned_segments id l j :
  In j (owned_segments id l) <-> In (j, id) l.
Proof.
  unfold owned_segments. rewrite in_map_iff. split.
  - intros (p & <- & Hp). apply filter_In in Hp. destruct Hp as [Hp Hid].
    apply Z.eqb_eq in Hid. destruct p as [j v]. cbn in *. now subst.
  - intros Hin. exists (j, id). split; [reflexivity|]. apply filter_In.
    split; [exact Hin | apply Z.eqb_refl].
Qed.

Lemma download_segments_heap id S js : forall c,
  0 <= addr (params S) -> fill_ready S ->
  (forall j, In j js ->
     addr (params S) <= lower j /\ lower j <= upper j <= end_ (params S) /\
     forall r, GetPhysicalRef (lower j) = Some r -> 0 <= r < 2 ^ 32) ->
  let c' := fold_left (download_segment id S) js c in
  heap c' = heap c /\ surface_cache c' = surface_cache c /\
  dirty_regions c' = dirty_regions c /\ remove_surfaces c' = remove_surfaces c /\
  rasterizer c' = rasterizer c.
Proof.
  induction js as [|j js IH]; intros c Haddr Hfill Hjs; cbn [fold_left].
  - repeat split.
  - destruct (Hjs j ltac:(now left)) as (Hlo & Hhi & Href).
    destruct (download_segment_effect id S c j ltac:(lia) Hhi Hfill Href)
      as (_ & Hh & Hsc & Hd & Hr & Hra & _).
    destruct (IH (download_segment id S c j) Haddr Hfill) as (Hh' & Hsc' & Hd' & Hr' & Hra').
    { intros j' Hj'. apply Hjs. now right. }
    cbv zeta. repeat split; congruence.
Qed.

(** The loop of [FlushRegion] for one surface over its whole range: it
    runs the download of every dirty segment of the surface, in order, and
    collects these segments. *)
Lemma fold_flush_owned id S (l : list (SurfaceInterval * Z)) : forall c F,
  heap c !! id = Some S ->
  0 <= addr (params S) -> 0 < size (params S) ->
  end_ (params S) = addr (params S) + size (params S) ->
  fill_ready S -> owned_ok id S l ->
  fold_left (flush_segment (size (params S))
                           (addr (params S), addr (params S) + size (params S)) (Some id))
            (equal_range (addr (params S), addr (params S) + size (params S)) l)
            (Some (c, F))
  = Some (fold_left (download_segment id S) (owned_segments id l) c,
          fold_left (fun F j => add_interval j F) (owned_segments id l) F).
Proof.
  set (fi := (addr (params S), addr (params S) + size (params S))).
  induction l as [|p l IH]; intros c F HS Haddr Hsize Hend Hfill Hok; [reflexivity|].
  assert (Hok' : owned_ok id S l) by (intros q Hq; apply Hok; now right).
  rewrite owned_segments_cons. unfold equal_range. cbn [List.filter].
  fold (equal_range fi l).
  destruct (snd p =? id) eqn:Hid.
  - apply Z.eqb_eq in Hid.
    destruct (Hok p ltac:(now left) Hid) as (Hne & Hlo & Hhi & Hvalid & Href).
    replace (overlaps (fst p) fi) with true
      by (symmetry; apply overlaps_bounds; unfold fi; cbn; lia).
    cbn [fold_left].
    assert (Hstep : flush_segment (size (params S)) fi (Some id) (Some (c, F)) p
                    = Some (download_segment id S c (fst p), add_interval (fst p) F)).
    { unfold flush_segment.
      replace (if size (params S) <=? 8 then fst p else intersect (fst p) fi) with (fst p)
        by (destruct (size (params S) <=? 8); [reflexivity|];
            symmetry; apply intersect_inside; unfold fi; cbn; lia).
      rewrite Hid. rewrite (bool_decide_eq_true_2 (Some id = Some id)) by reflexivity.
      cbn [negb]. rewrite andb_false_r. rewrite HS, Hvalid. cbn [ASSERT].
      destruct (download_segment_effect id S c (fst p) ltac:(lia) ltac:(lia) Hfill Href)
        as (Hd & _).
      rewrite Hd. reflexivity. }
    rewrite Hstep. cbn [fold_left]. apply IH; try assumption.
    destruct (download_segment_effect id S c (fst p) ltac:(lia) ltac:(lia) Hfill Href)
      as (_ & Hh & _).
    now rewrite Hh.
  - apply Z.eqb_neq in Hid.
    destruct (overlaps (fst p) fi); [|now apply IH].
    cbn [fold_left]. rewrite flush_segment_skip.
    + now apply IH.
    + unfold flushes. rewrite bool_decide_eq_true_2 by discriminate.
      rewrite (bool_decide_eq_false_2 (Some id = Some (snd p))) by congruence. reflexivity.
Qed.

(** The downloads of a surface that is not a fill surface only log and
    queue. *)
Lemma download_segments_queue id S js : forall c,
  type (params S) <> SurfaceType.Fill -> 0 <= addr (params S) ->
  Forall (flushable S) js ->
  let c' := fold_left (download_segment id S) js c in
  backend_calls c' = backend_calls c ++ map (SurfaceDownload id) js /\
  download_queue c'
  = download_queue c
    ++ map (fun j => mkDownload id (lower j) (upper j) (FromInterval (params S) j))
           (List.filter backed js) /\
  guest_memory c' = guest_memory c.
Proof.
  intros c Hty Haddr Hjs. revert c.
  induction Hjs as [|j js (Hlo & Hhi & Href) Hjs IH]; intros c; cbn [fold_left].
  - cbn. now rewrite !app_nil_r.
  - assert (Hfill : fill_ready S) by (intros Hf; contradiction).
    destruct (download_segment_effect id S c j ltac:(lia) Hhi Hfill Href)
      as (_ & _ & _ & _ & _ & _ & Heff).
    rewrite bool_decide_eq_false_2 in Heff by exact Hty.
    destruct Heff as (Hlog & Hq & Hmem).
    destruct (IH (download_segment id S c j)) as (Hlog' & Hq' & Hmem').
    cbv zeta. rewrite Hlog', Hq', Hmem', Hlog, Hq, Hmem.
    cbn [map List.filter]. rewrite <- !app_assoc.
    split; [reflexivity|]. split; [|reflexivity].
    destruct (backed j); reflexivity.
Qed.

(** The downloads of a fill surface only write to guest memory. *)
Lemma download_segments_fill id S js : forall c,
  type (params S) = SurfaceType.Fill -> 0 <= addr (params S) -> fill_ready S ->
  Forall (flushable S) js ->
  let c' := fold_left (download_segment id S) js c in
  backend_calls c' = backend_calls c /\
  download_queue c' = download_queue c /\
  forall x, byte_at (guest_memory c') x
            = default (byte_at (guest_memory c) x) (overlay (written_back S) js x).
Proof.
  intros c Hty Haddr Hfill Hjs.
  assert (Heff : forall c j, flushable S j ->
            backend_calls (download_segment id S c j) = backend_calls c /\
            download_queue (download_segment id S c j) = download_queue c /\
            forall x, byte_at (guest_memory (download_segment id S c j)) x
                      = default (byte_at (guest_memory c) x) (written_back S j x)).
  { intros c0 j (Hlo & Hhi & Href).
    destruct (download_segment_effect id S c0 j ltac:(lia) Hhi Hfill Href)
      as (_ & _ & _ & _ & _ & _ & Heff).
    now rewrite bool_decide_eq_true_2 in Heff by exact Hty. }
  cbv zeta. split; [|split].
  - clear Hfill. revert c. induction Hjs as [|j js Hj Hjs IH]; intros c; cbn [fold_left];
      [reflexivity|].
    rewrite IH. now destruct (Heff c j Hj) as (-> & _).
  - clear Hfill. revert c. induction Hjs as [|j js Hj Hjs IH]; intros c; cbn [fold_left];
      [reflexivity|].
    rewrite IH. now destruct (Heff c j Hj) as (_ & -> & _).
  - intros x.
    apply (fold_overlay guest_memory (fun _ => True) (flushable S)
                        (download_segment id S) (written_back S)); auto.
    intros s j x0 _ Hj. now destruct (Heff s j Hj) as (_ & _ & Hm).
Qed.

(** The queued downloads of a surface, run in order. *)
Lemma run_queue id S js : forall c,
  heap c !! id = Some S ->
  let queue := map (fun j => mkDownload id (lower j) (upper j) (FromInterval (params S) j)) js in
  let c' := fold_left run_download queue c in
  c' = set_guest_memory (guest_memory c') c /\
  forall x, byte_at (guest_memory c') x
            = default (byte_at (guest_memory c) x)
                      (overlay (fun j x =>
                                  if (lower j <=? x)
                                     && (x <? lower j + Z.of_nat (length (downloaded S j)))
                                  then Some (nth (Z.to_nat (x - lower j)) (downloaded S j) 0)
                                  else None) js x).
Proof.
  induction js as [|j js IH]; intros c HS; cbn [map fold_left overlay].
  - split; [now destruct c | reflexivity].
  - set (d := mkDownload id (lower j) (upper j) (FromInterval (params S) j)).
    assert (Hrun : run_download c d
                   = set_guest_memory (write_bytes (lower j) (downloaded S j) (guest_memory c)) c).
    { unfold run_download, d. cbn [dl_surface dl_flush_info dl_flush_start dl_flush_end].
      now rewrite HS. }
    rewrite Hrun.
    destruct (IH (set_guest_memory (write_bytes (lower j) (downloaded S j) (guest_memory c)) c))
      as (Hrec & Hmem); [exact HS|].
    cbv zeta in *. split; [rewrite Hrec at 1; reflexivity|].
    intros x. rewrite Hmem. cbn [guest_memory set_guest_memory].
    rewrite write_bytes_spec.
    destruct (overlay _ js x); [reflexivity|]. cbn [default].
    now destruct (_ && _).
Qed.

Lemma collected_segments (js : list SurfaceInterval) : forall (F : SurfaceRegions),
  nonempty_segments F ->
  let F' := fold_left (fun F j => add_interval j F) js F in
  nonempty_segments F' /\
  forall x, covered F' x tt <-> covered F x tt \/ exists j, In j js /\ within x j = true.
Proof.
  induction js as [|j js IH]; intros F HF; cbn [fold_left].
  - split; [exact HF|]. intros x. split; [now left|]. intros [Hc|(j & [] & _)]. exact Hc.
  - destruct (IH (add_interval j F)) as [Hne Hiff].
    { unfold add_interval. now apply nonempty_set. }
    split; [exact Hne|]. intros x. cbv zeta in Hiff. rewrite Hiff. split.
    + intros [Hc|(j' & Hj' & Hw)].
      * apply add_interval_covered_rev in Hc. destruct Hc as [Hw|Hc]; [|now left].
        right. exists j. split; [now left | exact Hw].
      * right. exists j'. split; [now right | exact Hw].
    + intros [Hc|(j' & [<-|Hj'] & Hw)].
      * left. apply add_interval_covers; [exact HF | now right].
      * left. apply add_interval_covers; [exact HF | now left].
      * right. now exists j'.
Qed.

Lemma erase_nonempty {V} i (m : list (SurfaceInterval * V)) :
  lower i < upper i -> erase i m = flat_map (cut i) m.
Proof. intros Hi. unfold erase. now replace (is_empty i) with false by (symmetry; now apply is_empty_false). Qed.

Lemma erase_all_app {V W} (regions : list (SurfaceInterval * W)) :
  forall (m1 m2 : list (SurfaceInterval * V)),
    nonempty_segments regions ->
    erase_all regions (m1 ++ m2) = erase_all regions m1 ++ erase_all regions m2.
Proof.
  unfold erase_all. induction regions as [|r regions IH]; intros m1 m2 Hne; cbn [fold_left];
    [reflexivity|].
  apply Forall_cons in Hne. destruct Hne as [Hr Hne].
  rewrite !erase_nonempty by exact Hr.
  rewrite flat_map_app. now apply IH.
Qed.

Lemma erase_all_disjoint {V W} (regions : list (SurfaceInterval * W)) (s : SurfaceInterval * V) :
  nonempty_segments regions ->
  (forall r, In r regions -> overlaps (fst s) (fst r) = false) ->
  erase_all regions [s] = [s].
Proof.
  unfold erase_all. induction regions as [|r regions IH]; intros Hne Hdis; cbn [fold_left];
    [reflexivity|].
  apply Forall_cons in Hne. destruct Hne as [Hr Hne].
  rewrite erase_nonempty by exact Hr.
  cbn [flat_map]. unfold cut. rewrite (Hdis r ltac:(now left)). cbn [app].
  apply IH; [exact Hne|]. intros r' Hr'. apply Hdis. now right.
Qed.

Lemma erase_all_covered {V W} (regions : list (SurfaceInterval * W)) (s : SurfaceInterval * V) :
  lower (fst s) < upper (fst s) ->
  (forall x, within x (fst s) = true -> exists r, In r regions /\ within x (fst r) = true) ->
  erase_all regions [s] = [].
Proof.
  intros Hs Hcov. destruct (erase_all regions [s]) as [|s' rest] eqn:He; [reflexivity|].
  exfalso.
  destruct (erase_all_spec regions [s] s') as (s0 & Hs0 & _ & Hl & Hu & Hn & Hout).
  { rewrite He. now left. }
  destruct Hs0 as [<-|[]]. specialize (Hn Hs).
  destruct (Hcov (lower (fst s'))) as (r & Hr & Hw).
  { apply within_bounds. lia. }
  assert (Hin : within (lower (fst s')) (fst s') = true) by (apply within_bounds; lia).
  rewrite (Hout _ r Hin Hr) in Hw. discriminate.
Qed.

(** Erasing regions that swallow some segments whole and miss the others
    filters the map. *)
Lemma erase_all_filter {V W} (regions : list (SurfaceInterval * W)) (keep : SurfaceInterval * V -> bool) :
  forall m : list (SurfaceInterval * V),
    nonempty_segments regions -> nonempty_segments m ->
    (forall s, In s m -> keep s = true ->
               forall r, In r regions -> overlaps (fst s) (fst r) = false) ->
    (forall s x, In s m -> keep s = false -> within x (fst s) = true ->
                 exists r, In r regions /\ within x (fst r) = true) ->
    erase_all regions m = List.filter keep m.
Proof.
  induction m as [|s m IH]; intros Hne Hm Hkeep Hdrop.
  - unfold erase_all. clear. induction regions as [|r regions IH]; cbn [fold_left];
      [reflexivity|].
    unfold erase. destruct (is_empty (fst r)); exact IH.
  - apply Forall_cons in Hm. destruct Hm as [Hs Hm].
    change (s :: m) with ([s] ++ m). rewrite erase_all_app by exact Hne.
    rewrite IH; [|exact Hne | exact Hm | |].
    + change ([s] ++ m) with (s :: m). cbn [List.filter].
      destruct (keep s) eqn:Hk.
      * rewrite erase_all_disjoint; [reflexivity | exact Hne|].
        intros r Hr. apply (Hkeep s); auto. now left.
      * rewrite erase_all_covered; [reflexivity | exact Hs|].
        intros x Hx. apply (Hdrop s x); auto. now left.
    + intros s' Hs'. apply Hkeep. now right.
    + intros s' x Hs'. apply Hdrop. now right.
Qed.

Lemma ordered_unique {V} (l : list (SurfaceInterval * V)) x :
  nonempty_segments l -> ordered l ->
  forall p q, In p l -> In q l -> within x (fst p) = true -> within x (fst q) = true -> p = q.
Proof.
  induction l as [|s l IH]; intros Hne Hord p q Hp Hq Hxp Hxq; [destruct Hp|].
  pose proof Hne as Hne0. apply Forall_cons in Hne. destruct Hne as [Hs Hne].
  assert (Hord' : ordered l) by (destruct l; [exact I | apply Hord]).
  assert (Hlater : forall t, In t l -> within x (fst t) = true ->
                             within x (fst s) = true -> False).
  { intros t Ht Hxt Hxs. pose proof (ordered_head_bound s l Hne Hord t Ht).
    apply within_bounds in Hxt, Hxs. lia. }
  destruct Hp as [<-|Hp], Hq as [<-|Hq]; try reflexivity.
  - now destruct (Hlater q Hq Hxq Hxp).
  - now destruct (Hlater p Hp Hxp Hxq).
  - now apply IH.
Qed.

Lemma owned_flushable id S l :
  owned_ok id S l -> Forall (flushable S) (owned_segments id l).
Proof.
  intros Hok. apply List.Forall_forall. intros j Hj. apply in_owned_segments in Hj.
  destruct (Hok (j, id) Hj eq_refl) as (Hne & Hlo & Hhi & _ & Href). cbn [fst] in *.
  unfold flushable. split; [exact Hlo|]. split; [lia | exact Href].
Qed.

Lemma filter_nil_existsb {A} (f : A -> bool) (l : list A) :
  existsb f l = false -> List.filter f l = [].
Proof.
  induction l as [|a l IH]; cbn [existsb List.filter]; [reflexivity|].
  destruct (f a); [discriminate | exact IH].
Qed.

Lemma filter_cons_existsb {A} (f : A -> bool) (l : list A) :
  existsb f l = true -> List.filter f l <> [].
Proof.
  induction l as [|a l IH]; cbn [existsb List.filter]; [discriminate|].
  destruct (f a); [discriminate | exact IH].
Qed.

(** The queued downloads of the backed segments write what [written_back]
    says for a surface that is not a fill surface. *)
Lemma overlay_backed S js x :
  type (params S) <> SurfaceType.Fill ->
  overlay (fun j x =>
             if (lower j <=? x) && (x <? lower j + Z.of_nat (length (downloaded S j)))
             then Some (nth (Z.to_nat (x - lower j)) (downloaded S j) 0)
             else None) (List.filter backed js) x
  = overlay (written_back S) js x.
Proof.
  intros Hfill. induction js as [|j js IH]; cbn [List.filter overlay]; [reflexivity|].
  unfold backed at 1, written_back at 2.
  destruct (GetPhysicalRef (lower j)) as [r|].
  - cbn [overlay]. rewrite IH. rewrite bool_decide_eq_false_2 by exact Hfill. reflexivity.
  - rewrite IH. now destruct (overlay (written_back S) js x).
Qed.

Lemma owned_segments_apart id l x :
  nonempty_segments l -> ordered l ->
  forall j1 j2, In j1 (owned_segments id l) -> In j2 (owned_segments id l) ->
                within x j1 = true -> within x j2 = true -> j1 = j2.
Proof.
  intros Hne Hord j1 j2 H1 H2 Hx1 Hx2. apply in_owned_segments in H1, H2.
  pose proof (ordered_unique l x Hne Hord (j1, id) (j2, id) H1 H2 Hx1 Hx2) as Heq.
  now injection Heq.
Qed.

(** Erasing the flushed intervals of the surface takes exactly its
    segments out of the dirty map. *)
Lemma erase_owned id (l : list (SurfaceInterval * Z)) :
  nonempty_segments l -> ordered l ->
  erase_all (fold_left (fun F j => add_interval j F) (owned_segments id l) []) l
  = List.filter (fun p => negb (snd p =? id)) l.
Proof.
  intros Hne Hord.
  destruct (collected_segments (owned_segments id l) [] (List.Forall_nil _)) as [HneF Hcov].
  cbv zeta in Hcov.
  apply erase_all_filter; [exact HneF | exact Hne | |].
  - intros s Hs Hkeep r Hr. apply negb_true_iff, Z.eqb_neq in Hkeep.
    destruct (overlaps (fst s) (fst r)) eqn:Hov; [|reflexivity]. exfalso.
    apply overlaps_bounds in Hov.
    pose proof (proj1 (List.Forall_forall _ _) HneF r Hr) as Hrne.
    pose proof (proj1 (List.Forall_forall _ _) Hne s Hs) as Hsne. cbn beta in Hrne, Hsne.
    set (x := Z.max (lower (fst s)) (lower (fst r))).
    assert (Hxs : within x (fst s) = true) by (apply within_bounds; lia).
    assert (Hxr : within x (fst r) = true) by (apply within_bounds; lia).
    assert (Hc : covered (fold_left (fun F j => add_interval j F) (owned_segments id l) [])
                         x tt).
    { exists r. split; [exact Hr|]. split; [exact Hxr | now destruct (snd r)]. }
    apply Hcov in Hc. destruct Hc as [(s0 & [] & _)|(j & Hj & Hxj)].
    apply in_owned_segments in Hj.
    pose proof (ordered_unique l x Hne Hord s (j, id) Hs Hj Hxs Hxj) as ->.
    now apply Hkeep.
  - intros s x Hs Hkeep Hx. apply negb_false_iff, Z.eqb_eq in Hkeep.
    assert (Hc : covered (fold_left (fun F j => add_interval j F) (owned_segments id l) [])
                         x tt).
    { apply Hcov. right. exists (fst s). split; [|exact Hx].
      apply in_owned_segments. destruct s as [j v]. cbn in *. now subst. }
    destruct Hc as (r & Hr & Hxr & _). now exists r.
Qed.

(** X26: [FlushRegion] of the whole range of one surface writes its dirty
    bytes back.  Let [S] be the surface behind [id], with a range of positive
    size that ends below 2^32 and, for a fill surface, a pattern of
    [fill_size] bytes with [end + fill_size <= 2^32]; let the dirty map be in
    address order without empty segments, every dirty segment of [id] lie
    inside the range of [S], be valid in [S] and have a memory reference of
    less than 2^32 bytes if it has one; let no download be pending.  Then [FlushRegion(addr, size, id)] succeeds.  The dirty map
    loses exactly the segments of [id].  The catalogue, the cache map, the
    staged removals and the page tracker are unchanged and no download is left
    pending.  For a surface that is not a fill surface the backend log grows by
    one [SurfaceDownload] for each dirty segment of [id], in address order,
    and then by one [RuntimeFinish] if one of these segments has memory behind
    its start; for a fill surface the log does not grow.  A byte of a dirty
    segment of [id] reads afterwards what [written_back] puts there (the
    downloaded bytes, counted from the start of the segment; for a fill
    surface the pattern, from twice the offset of the segment in the surface
    on), and as before where [written_back] puts nothing; a byte outside the
    dirty segments of [id] reads as before. *)
Theorem FlushRegion_writes_back id S c :
  heap c !! id = Some S ->
  0 <= addr (params S) -> 0 < size (params S) ->
  end_ (params S) = addr (params S) + size (params S) ->
  addr (params S) + size (params S) < 2 ^ 32 ->
  fill_ready S ->
  nonempty_segments (dirty_regions c) -> ordered (dirty_regions c) ->
  owned_ok id S (dirty_regions c) ->
  download_queue c = [] ->
  let mine := owned_segments id (dirty_regions c) in
  exists c',
    FlushRegion (addr (params S)) (size (params S)) (Some id) c = Some c' /\
    dirty_regions c' = List.filter (fun p => negb (snd p =? id)) (dirty_regions c) /\
    heap c' = heap c /\ surface_cache c' = surface_cache c /\
    remove_surfaces c' = remove_surfaces c /\ rasterizer c' = rasterizer c /\
    download_queue c' = [] /\
    backend_calls c'
    = backend_calls c
      ++ (if bool_decide (type (params S) = SurfaceType.Fill) then []
          else map (SurfaceDownload id) mine
               ++ (if existsb backed mine then [RuntimeFinish] else [])) /\
    (forall j x, In j mine -> within x j = true ->
       byte_at (guest_memory c') x
       = default (byte_at (guest_memory c) x) (written_back S j x)) /\
    (forall x, (forall j, In j mine -> within x j = false) ->
       byte_at (guest_memory c') x = byte_at (guest_memory c) x).
Proof.
  intros Hheap Haddr Hsize Hend Hmax Hready Hne Hord Hok Hqueue mine.
  pose proof (owned_flushable id S _ Hok) as Hflush. fold mine in Hflush.
  assert (Hinside : forall j x v, In j mine -> written_back S j x = Some v ->
                                  within x j = true).
  { intros j x v Hj. apply written_back_inside.
    apply (proj1 (List.Forall_forall _ _) Hflush j Hj). }
  pose proof (fun x => owned_segments_apart id (dirty_regions c) x Hne Hord) as Hapart.
  fold mine in Hapart.
  pose proof (erase_owned id (dirty_regions c) Hne Hord) as Herase. fold mine in Herase.
  unfold FlushRegion.
  replace (size (params S) =? 0) with false by (symmetry; apply Z.eqb_neq; lia).
  rewrite u32_small by lia.
  pose proof (fold_flush_owned id S (dirty_regions c) c [] Hheap Haddr Hsize Hend Hready Hok)
    as Hfold.
  unfold SurfaceRegions in Hfold, Herase |- *. rewrite Hfold.
  fold mine. cbv zeta.
  set (c1 := fold_left (download_segment id S) mine c).
  destruct (download_segments_heap id S mine c Haddr Hready) as (Hh1 & Hs1 & Hd1 & Hr1 & Hz1).
  { intros j Hj. exact (proj1 (List.Forall_forall _ _) Hflush j Hj). }
  fold c1 in Hh1, Hs1, Hd1, Hr1, Hz1.
  assert (Hmem : forall c',
            (forall x, byte_at (guest_memory c') x
                       = default (byte_at (guest_memory c) x)
                                 (overlay (written_back S) mine x)) ->
            (forall j x, In j mine -> within x j = true ->
               byte_at (guest_memory c') x
               = default (byte_at (guest_memory c) x) (written_back S j x)) /\
            (forall x, (forall j, In j mine -> within x j = false) ->
               byte_at (guest_memory c') x = byte_at (guest_memory c) x)).
  { intros c' Hc'. split.
    - intros j x Hj Hx. rewrite Hc'.
      now rewrite (overlay_at (written_back S) mine x j Hinside (Hapart x) Hj Hx).
    - intros x Hout. rewrite Hc'.
      now rewrite (overlay_outside (written_back S) mine x Hinside Hout). }
  destruct (decide (type (params S) = SurfaceType.Fill)) as [Hfill|Hfill].
  - destruct (download_segments_fill id S mine c Hfill Haddr Hready Hflush)
      as (Hlog & Hq & Hbytes).
    fold c1 in Hlog, Hq, Hbytes.
    assert (Hrun : run_downloads c1 = c1).
    { unfold run_downloads. now rewrite Hq, Hqueue. }
    rewrite Hrun. eexists. split; [reflexivity|].
    rewrite bool_decide_eq_true_2 by exact Hfill. rewrite app_nil_r.
    cbn [dirty_regions heap surface_cache remove_surfaces rasterizer download_queue
         backend_calls guest_memory set_dirty_regions].
    rewrite Hd1, Herase.
    split; [reflexivity|]. split; [exact Hh1|]. split; [exact Hs1|]. split; [exact Hr1|].
    split; [exact Hz1|]. split; [now rewrite Hq|]. split; [exact Hlog|].
    apply Hmem. exact Hbytes.
  - destruct (download_segments_queue id S mine c Hfill Haddr Hflush) as (Hlog & Hq & Hg).
    fold c1 in Hlog, Hq, Hg. rewrite Hqueue, app_nil_l in Hq.
    rewrite bool_decide_eq_false_2 by exact Hfill.
    destruct (existsb backed mine) eqn:Hany.
    + pose proof (filter_cons_existsb _ _ Hany) as Hsome.
      assert (Hrun : run_downloads c1
                     = set_download_queue []
                         (fold_left run_download (download_queue c1)
                                    (call RuntimeFinish c1))).
      { unfold run_downloads. rewrite Hq.
        destruct (List.filter backed mine); [congruence | reflexivity]. }
      rewrite Hrun, Hq.
      destruct (run_queue id S (List.filter backed mine) (call RuntimeFinish c1))
        as (Hrec & Hbytes).
      { unfold call. cbn [heap]. now rewrite Hh1. }
      cbv zeta in Hrec, Hbytes.
      remember (fold_left run_download
                  (map (fun j => mkDownload id (lower j) (upper j) (FromInterval (params S) j))
                       (List.filter backed mine))
                  (call RuntimeFinish c1)) as c2 eqn:Hc2.
      clear Hc2.
      assert (Hfields : heap c2 = heap c1 /\ surface_cache c2 = surface_cache c1 /\
                        dirty_regions c2 = dirty_regions c1 /\
                        remove_surfaces c2 = remove_surfaces c1 /\
                        rasterizer c2 = rasterizer c1 /\
                        backend_calls c2 = backend_calls c1 ++ [RuntimeFinish]).
      { rewrite Hrec. unfold set_guest_memory, call. cbn. repeat split. }
      destruct Hfields as (Hh2 & Hs2 & Hd2 & Hr2 & Hz2 & Hlog2).
      eexists. split; [reflexivity|].
      cbn [dirty_regions heap surface_cache remove_surfaces rasterizer download_queue
           backend_calls guest_memory set_dirty_regions set_download_queue].
      rewrite Hd2, Hd1, Herase, Hh2, Hs2, Hr2, Hz2, Hlog2.
      split; [reflexivity|]. split; [exact Hh1|]. split; [exact Hs1|]. split; [exact Hr1|].
      split; [exact Hz1|]. split; [reflexivity|].
      split; [now rewrite Hlog, <- app_assoc|].
      apply Hmem. intros x. cbn [guest_memory]. rewrite Hbytes. unfold call.
      cbn [guest_memory]. rewrite Hg.
      now rewrite (overlay_backed S mine x Hfill).
    + pose proof (filter_nil_existsb _ _ Hany) as Hnone.
      assert (Hrun : run_downloads c1 = c1).
      { unfold run_downloads. now rewrite Hq, Hnone. }
      rewrite Hrun. eexists. split; [reflexivity|].
      cbn [dirty_regions heap surface_cache remove_surfaces rasterizer download_queue
           backend_calls guest_memory set_dirty_regions].
      rewrite Hd1, Herase. rewrite app_nil_r.
      split; [reflexivity|]. split; [exact Hh1|]. split; [exact Hs1|]. split; [exact Hr1|].
      split; [exact Hz1|]. split; [now rewrite Hq, Hnone|]. split; [exact Hlog|].
      apply Hmem. intros x. rewrite Hg.
      rewrite <- (overlay_backed S mine x Hfill), Hnone. reflexivity.
Qed.

End WriteBack.

Lemma FlushRegion_writes_back_witness :
  let A := set_registered true (rgba8_surface 2097152 65536 128 128 1 []) in
  exists c',
    FlushRegion (H := spec_surface_ops) (H0 := sample_backend) 2097152 65536 (Some 1)
                small_write_cache = Some c' /\
    dirty_regions c' = [] /\
    download_queue c' = [] /\
    backend_calls c'
    = backend_calls small_write_cache
      ++ [SurfaceDownload 1 (2097152, 2097184); RuntimeFinish] /\
    forall x, 2097152 <= x < 2097184 -> byte_at (guest_memory c') x = 238.
Proof.
  intros A.
  assert (Hheap : heap small_write_cache = {[ 1 := A ]}) by (vm_compute; reflexivity).
  assert (Hdirty : dirty_regions small_write_cache = [((2097152, 2097184), 1)])
    by (vm_compute; reflexivity).
  destruct (@FlushRegion_writes_back spec_surface_ops sample_backend 1 A small_write_cache)
    as (c' & Hflush & Hd & _ & _ & _ & _ & Hq & Hlog & Hin & _).
  - rewrite Hheap. apply lookup_singleton_eq.
  - cbn. lia.
  - cbn. lia.
  - reflexivity.
  - cbn. lia.
  - intros Hfill. discriminate.
  - rewrite Hdirty. constructor; [cbn; lia | constructor].
  - rewrite Hdirty. exact I.
  - rewrite Hdirty. intros p [<-|[]] _. cbn [fst].
    split; [cbn; lia|]. split; [cbn; lia|]. split; [cbn; lia|].
    split; [vm_compute; reflexivity|].
    cbn. intros r [= <-]. lia.
  - reflexivity.
  - exists c'. split; [exact Hflush|]. rewrite Hd, Hdirty. split; [reflexivity|].
    split; [exact Hq|]. split; [rewrite Hlog, Hdirty; reflexivity|].
    intros x Hx. rewrite (Hin (2097152, 2097184) x).
    + unfold written_back. cbn [ICL.lower fst GetPhysicalRef sample_backend].
      rewrite bool_decide_eq_false_2 by discriminate.
      assert (Hbytes : downloaded (H := spec_surface_ops) (H0 := sample_backend) A (2097152, 2097184) = repeat 238 32)
        by (vm_compute; reflexivity).
      rewrite Hbytes, repeat_length.
      replace ((2097152 <=? x) && (x <? 2097152 + Z.of_nat 32)) with true
        by (symmetry; apply andb_true_iff; split; [apply Z.leb_le | apply Z.ltb_lt]; lia).
      cbn [default]. rewrite (nth_indep _ 0 238) by (rewrite repeat_length; lia).
      apply nth_repeat.
    + rewrite Hdirty. now left.
    + apply within_bounds. cbn. lia.
Defined.
